(** * Memory store: entity storage, relationship graph and search indices

    A shallow embedding of the three cooperating JavaScript classes
    [StorageManager], [KnowledgeGraph] and [QueryEngine], followed by the
    properties established about them.

    Modelling conventions.
    - A JS [Map] or [Set] whose iteration order is observable (the caches,
      whose oldest entries are evicted first, and the id sets of the indices,
      which are turned into arrays) is an insertion-ordered list.  A [Map]
      that is only looked up by key is a [gmap].
    - An attribute that the code only tests for truthiness is a [string];
      the empty string stands for an absent ([undefined], [null] or empty)
      attribute.
    - The file system is an in-memory tree: the four entity partitions, the
      temp directory and the flat relations directory.  A missing file or
      directory is the only I/O failure that is modelled ([ENOENT]); a full
      disk, missing permissions or a name that the file system finds too long
      are not.
    - A path is the pair of a directory and a file name.  This is the path
      that [path.join] builds when ids, [agentId], [projectId] and
      [templateId] are plain names ([plain_name], [plain_dir_name]); what
      the code does with a name that holds a ['/'] is outside the model.
      The properties that say in which directory a file lies, that files
      stay named after the ids they hold, or that a write succeeds, assume
      plain names.
    - [fs.readdir] lists a directory in an order that the file system
      chooses; the model lists it in the key order of the map.
    - Every asynchronous method is a computation in a state-and-exception
      monad; a [catch] block that logs and rethrows is the identity.  The
      logger, the per-file lock (always free when a single operation runs)
      and the index snapshot written by [_saveIndices] (read back only at
      start-up) are not part of the state.
    - An operation runs alone, from its call to its end, except for the
      calls that the code itself starts together with [Promise.all].  The
      lookups of one page of results ([resolve_page]) all test the cache
      when they are started, before any of them has read a file.  The
      traversals and the lookups of [findCommonConnections] are tasks
      ([Task]) whose steps interleave at their [await]s, in an order that
      is an argument of the model ([promise_all]); what is proved of
      [findCommonConnections] holds for every such order.
    - Text is ASCII: a byte outside the ASCII range is neither a word
      character nor white space. *)

From Stdlib Require Import QArith Ascii String.
From stdpp Require Import base strings option gmap sets sorting list pretty.

Local Open Scope string_scope.
Local Open Scope list_scope.
Local Open Scope nat_scope.

(** ** Insertion-ordered maps and sets *)

Section omap.
Context {V : Type}.

(** [Map.prototype.get] *)
Fixpoint omap_get (k : string) (m : list (string * V)) : option V :=
  match m with
  | [] => None
  | (k', v) :: m' => if decide (k = k') then Some v else omap_get k m'
  end.

(** [Map.prototype.set]: an existing key keeps its position. *)
Fixpoint omap_set (k : string) (v : V) (m : list (string * V))
  : list (string * V) :=
  match m with
  | [] => [(k, v)]
  | (k', v') :: m' =>
      if decide (k = k') then (k, v) :: m' else (k', v') :: omap_set k v m'
  end.

(** [Map.prototype.delete] *)
Definition omap_delete (k : string) (m : list (string * V))
  : list (string * V) :=
  filter (λ p, p.1 ≠ k) m.

(** The trimming loop shared by both caches: when the map has grown past
    [maxSize], the first [size - maxSize] keys are deleted. *)
Definition omap_trim (maxSize : nat) (m : list (string * V))
  : list (string * V) :=
  if decide (maxSize < length m) then
    let entriesToRemove := length m - maxSize in
    let keys := take entriesToRemove (m.*1) in
    foldl (λ acc key, omap_delete key acc) m keys
  else m.
End omap.

(** [Set.prototype.has], [add] and [delete] on an ordered set of ids. *)
Definition oset_has (x : string) (s : list string) : bool :=
  bool_decide (x ∈ s).
Definition oset_add (x : string) (s : list string) : list string :=
  if oset_has x s then s else s ++ [x].
Definition oset_delete (x : string) (s : list string) : list string :=
  filter (λ y, y ≠ x) s.

(** [Array.prototype.slice(offset, offset + limit)] *)
Definition slice {A} (offset limit : nat) (l : list A) : list A :=
  take limit (drop offset l).

(** Truthiness of a string-valued attribute. *)
Definition truthy (s : string) : bool :=
  match s with "" => false | _ => true end.

(** ** Data model *)

(** A metadata value: a scalar (kept as its [String(value)] rendering), an
    array of scalars, or [null]/[undefined]. *)
Inductive MetaValue :=
| MNull
| MScalar (s : string)
| MArray (items : list string).

#[global] Instance MetaValue_eq_dec : EqDecision MetaValue.
Proof. solve_decision. Defined.

Record Entity := mkEntity {
  ent_id : string;
  ent_type : string;
  agentId : string;
  projectId : string;
  templateId : string;
  content : string;
  name : string;
  description : string;
  metadata : list (string * MetaValue);
  tags : list string;
  ent_created : string;
  ent_updated : string
}.

#[global] Instance Entity_eq_dec : EqDecision Entity.
Proof. solve_decision. Defined.

Record Relationship := mkRelationship {
  rel_id : string;
  sourceId : string;
  targetId : string;
  rel_type : string;
  rel_created : string;
  rel_updated : string
}.

#[global] Instance Relationship_eq_dec : EqDecision Relationship.
Proof. solve_decision. Defined.

(** A thrown [Error]: its message and, for file-system errors, its [code]. *)
Record Error := mkError {
  message : string;
  code : option string
}.

#[global] Instance Error_eq_dec : EqDecision Error.
Proof. solve_decision. Defined.

(** What the clock and the random generator hand to one storing call. *)
Record Env := mkEnv {
  fresh : string;          (* Date.now() and four random bytes, rendered *)
  stamp_created : string;  (* first  new Date().toISOString() *)
  stamp_updated : string   (* second new Date().toISOString() *)
}.

(** ** The state-and-exception monad *)

Inductive Outcome (A : Type) :=
| Ret (a : A)
| Throw (e : Error)
| Timeout.
Arguments Ret {A} a.
Arguments Throw {A} e.
Arguments Timeout {A}.

Definition M (S A : Type) : Type := S → Outcome A * S.

#[global] Instance M_ret {S} : MRet (M S) := λ A a s, (Ret a, s).
#[global] Instance M_bind {S} : MBind (M S) := λ A B f m s,
  match m s with
  | (Ret a, s') => f a s'
  | (Throw e, s') => (Throw e, s')
  | (Timeout, s') => (Timeout, s')
  end.

#[global] Instance M_fmap {S} : FMap (M S) := λ A B f m s,
  match m s with
  | (Ret a, s') => (Ret (f a), s')
  | (Throw e, s') => (Throw e, s')
  | (Timeout, s') => (Timeout, s')
  end.

Definition get_state {S} : M S S := λ s, (Ret s, s).
Definition modify {S} (f : S → S) : M S unit := λ s, (Ret tt, f s).
Definition throw {S A} (e : Error) : M S A := λ s, (Throw e, s).
Definition timeout {S A} : M S A := λ s, (Timeout, s).

(** [try { m } catch (error) { h error }]: the state reached when the
    exception was raised is the one the handler starts from. *)
Definition try_catch {S A} (m : M S A) (h : Error → M S A) : M S A := λ s,
  match m s with
  | (Throw e, s') => h e s'
  | r => r
  end.

(** ** The file system under the base path *)

Inductive Dir :=
| DAgents (a : string)
| DProjects (p : string)
| DTemplates (t : string)
| DShared
| DTemp.

#[global] Instance Dir_eq_dec : EqDecision Dir.
Proof. solve_decision. Defined.

Record Files := mkFiles {
  agents : gmap string (gmap string Entity);
  projects : gmap string (gmap string Entity);
  templates : gmap string (gmap string Entity);
  shared : gmap string Entity;
  temp : gmap string Entity
}.

Definition no_files : Files := mkFiles ∅ ∅ ∅ ∅ ∅.

(** [fs.readFile(path.join(dir, `${file}.json`))]; [None] is [ENOENT]. *)
Definition fs_readFile (fs : Files) (d : Dir) (file : string)
  : option Entity :=
  match d with
  | DAgents a => agents fs !! a ≫= (λ dir, dir !! file)
  | DProjects p => projects fs !! p ≫= (λ dir, dir !! file)
  | DTemplates t => templates fs !! t ≫= (λ dir, dir !! file)
  | DShared => shared fs !! file
  | DTemp => temp fs !! file
  end.

(** [fs.mkdir(dir, {recursive: true})] followed by [fs.writeFile]. *)
Definition fs_writeFile (fs : Files) (d : Dir) (file : string) (e : Entity)
  : Files :=
  match d with
  | DAgents a =>
      mkFiles (<[a := <[file := e]> (default ∅ (agents fs !! a))]> (agents fs))
              (projects fs) (templates fs) (shared fs) (temp fs)
  | DProjects p =>
      mkFiles (agents fs)
              (<[p := <[file := e]> (default ∅ (projects fs !! p))]> (projects fs))
              (templates fs) (shared fs) (temp fs)
  | DTemplates t =>
      mkFiles (agents fs) (projects fs)
              (<[t := <[file := e]> (default ∅ (templates fs !! t))]> (templates fs))
              (shared fs) (temp fs)
  | DShared =>
      mkFiles (agents fs) (projects fs) (templates fs)
              (<[file := e]> (shared fs)) (temp fs)
  | DTemp =>
      mkFiles (agents fs) (projects fs) (templates fs) (shared fs)
              (<[file := e]> (temp fs))
  end.

(** [fs.unlink]: the directory stays, the file goes. *)
Definition fs_remove (fs : Files) (d : Dir) (file : string) : Files :=
  match d with
  | DAgents a =>
      mkFiles (alter (delete file) a (agents fs))
              (projects fs) (templates fs) (shared fs) (temp fs)
  | DProjects p =>
      mkFiles (agents fs) (alter (delete file) p (projects fs))
              (templates fs) (shared fs) (temp fs)
  | DTemplates t =>
      mkFiles (agents fs) (projects fs) (alter (delete file) t (templates fs))
              (shared fs) (temp fs)
  | DShared =>
      mkFiles (agents fs) (projects fs) (templates fs)
              (delete file (shared fs)) (temp fs)
  | DTemp =>
      mkFiles (agents fs) (projects fs) (templates fs) (shared fs)
              (delete file (temp fs))
  end.

(** [fs.readdir] of one of the three partition roots. *)
Definition fs_readdir (root : gmap string (gmap string Entity))
  : list string :=
  (map_to_list root).*1.

(** [path.join] reads the names it is handed as paths: a ['/'] inside a
    name starts a new segment, and the segments ['.'] and ['..'] are resolved
    away, so that the id ['../temp/x'] names a file of another directory and
    the id ['a/b'] a file of a sub-directory.  The model keeps a path as the
    pair of a directory and a file name, which is the path that [path.join]
    builds from plain names.  A file name is plain when it holds no ['/']
    (and no NUL character, which [fs] refuses); the [.json] suffix keeps it
    from being ['.'] or ['..']. *)
Fixpoint plain_name (name : string) : bool :=
  match name with
  | EmptyString => true
  | String c rest =>
      negb (Ascii.eqb c "/") && negb (Ascii.eqb c "000") && plain_name rest
  end.

(** The name of a sub-directory ([agentId], [projectId], [templateId]) is
    plain when it is a plain name other than ['.'] and ['..']. *)
Definition plain_dir_name (name : string) : bool :=
  plain_name name && negb (String.eqb name ".") && negb (String.eqb name "..").

(** ** StorageManager *)

Record StorageManager := mkStorageManager {
  files : Files;
  text_index : gmap string (list string);
  metadata_index : gmap string (gmap string (list string));
  agentId_index : gmap string (list string);
  entityCache : list (string * Entity);
  maxCacheSize : nat
}.

(** [new StorageManager(options)]: [options.maxCacheSize || 1000]. *)
Definition new_StorageManager (option_maxCacheSize : nat) : StorageManager :=
  mkStorageManager no_files ∅ ∅ ∅ []
    (if decide (option_maxCacheSize = 0) then 1000 else option_maxCacheSize).

Definition set_files (f : Files → Files) (s : StorageManager) :=
  mkStorageManager (f (files s)) (text_index s) (metadata_index s)
    (agentId_index s) (entityCache s) (maxCacheSize s).
Definition set_text_index (f : gmap string (list string) → gmap string (list string))
  (s : StorageManager) :=
  mkStorageManager (files s) (f (text_index s)) (metadata_index s)
    (agentId_index s) (entityCache s) (maxCacheSize s).
Definition set_metadata_index
  (f : gmap string (gmap string (list string)) →
       gmap string (gmap string (list string)))
  (s : StorageManager) :=
  mkStorageManager (files s) (text_index s) (f (metadata_index s))
    (agentId_index s) (entityCache s) (maxCacheSize s).
Definition set_agentId_index
  (f : gmap string (list string) → gmap string (list string))
  (s : StorageManager) :=
  mkStorageManager (files s) (text_index s) (metadata_index s)
    (f (agentId_index s)) (entityCache s) (maxCacheSize s).
Definition set_entityCache
  (f : list (string * Entity) → list (string * Entity)) (s : StorageManager) :=
  mkStorageManager (files s) (text_index s) (metadata_index s)
    (agentId_index s) (f (entityCache s)) (maxCacheSize s).

Definition set_ent_id (v : string) (e : Entity) : Entity :=
  mkEntity v (ent_type e) (agentId e) (projectId e) (templateId e)
    (content e) (name e) (description e) (metadata e) (tags e)
    (ent_created e) (ent_updated e).
Definition set_ent_created (v : string) (e : Entity) : Entity :=
  mkEntity (ent_id e) (ent_type e) (agentId e) (projectId e) (templateId e)
    (content e) (name e) (description e) (metadata e) (tags e)
    v (ent_updated e).
Definition set_ent_updated (v : string) (e : Entity) : Entity :=
  mkEntity (ent_id e) (ent_type e) (agentId e) (projectId e) (templateId e)
    (content e) (name e) (description e) (metadata e) (tags e)
    (ent_created e) v.

(** [_getEntityPath]: the directory and the file name (the entity id; the
    [.json] suffix is implicit). *)
Definition _getEntityPath (entity : Entity) (context : string)
  : Dir * string :=
  let storageDir :=
    if bool_decide (context = "agent") && truthy (agentId entity) then
      DAgents (agentId entity)
    else if bool_decide (context = "project") && truthy (projectId entity) then
      DProjects (projectId entity)
    else if bool_decide (context = "template") && truthy (templateId entity) then
      DTemplates (templateId entity)
    else if decide (context = "shared") then
      DShared
    else
      DTemp in
  (storageDir, ent_id entity).

(** [_getEntityContext] *)
Definition _getEntityContext (entity : Entity) : string :=
  if truthy (agentId entity) then "agent"
  else if truthy (projectId entity) then "project"
  else if truthy (templateId entity) then "template"
  else "shared".

(** *** Tokenizer *)

Definition is_upper (c : ascii) : bool :=
  let n := nat_of_ascii c in (65 <=? n) && (n <=? 90).

(** [String.prototype.toLowerCase] on ASCII. *)
Definition lower_char (c : ascii) : ascii :=
  if is_upper c then ascii_of_nat (nat_of_ascii c + 32) else c.

(** The class [\w]. *)
Definition is_word (c : ascii) : bool :=
  let n := nat_of_ascii c in
  ((48 <=? n) && (n <=? 57)) || ((65 <=? n) && (n <=? 90))
  || ((97 <=? n) && (n <=? 122)) || (n =? 95).

(** The class [\s] on ASCII: tab, line feed, vertical tab, form feed,
    carriage return and space. *)
Definition is_space (c : ascii) : bool :=
  let n := nat_of_ascii c in ((9 <=? n) && (n <=? 13)) || (n =? 32).

Fixpoint toLowerCase (s : string) : string :=
  match s with
  | EmptyString => EmptyString
  | String c s' => String (lower_char c) (toLowerCase s')
  end.

(** [.replace(/[^\w\s]/g, ' ')] *)
Fixpoint replace_punctuation (s : string) : string :=
  match s with
  | EmptyString => EmptyString
  | String c s' =>
      String (if is_word c || is_space c then c else " "%char)
             (replace_punctuation s')
  end.

(** [.split(/\s+/)]: [cur] is the piece being read (reversed) and [in_ws]
    tells whether the previous character was white space. *)
Fixpoint split_ws (cur : list ascii) (in_ws : bool) (s : string)
  : list string :=
  match s with
  | EmptyString => [string_of_list_ascii (reverse cur)]
  | String c s' =>
      if is_space c then
        if in_ws then split_ws cur true s'
        else string_of_list_ascii (reverse cur) :: split_ws [] true s'
      else split_ws (c :: cur) false s'
  end.

(** [StorageManager._tokenizeText] *)
Definition _tokenizeText (text : string) : list string :=
  filter (λ token, 1 < String.length token)
    (split_ws [] false (replace_punctuation (toLowerCase text))).

(** *** Indexing *)

(** [_indexText] *)
Definition _indexText (entityId text : string)
  (index : gmap string (list string)) : gmap string (list string) :=
  if negb (truthy text) then index
  else
    foldl (λ idx token,
             let idx := if decide (is_Some (idx !! token)) then idx
                        else <[token := []]> idx in
             <[token := oset_add entityId (default [] (idx !! token))]> idx)
          index (_tokenizeText text).

(** [_indexMetadataValue]; [stringValue] is [String(value)]. *)
Definition _indexMetadataValue (entityId key stringValue : string)
  (index : gmap string (gmap string (list string)))
  : gmap string (gmap string (list string)) :=
  let index := if decide (is_Some (index !! key)) then index
               else <[key := ∅]> index in
  let valueMap := default ∅ (index !! key) in
  let valueMap := if decide (is_Some (valueMap !! stringValue)) then valueMap
                  else <[stringValue := []]> valueMap in
  <[key := <[stringValue :=
               oset_add entityId (default [] (valueMap !! stringValue))]>
             valueMap]> index.

(** [_indexMetadata] *)
Definition _indexMetadata (entityId : string)
  (metadata : list (string * MetaValue))
  (index : gmap string (gmap string (list string)))
  : gmap string (gmap string (list string)) :=
  foldl (λ idx kv,
           match kv.2 with
           | MNull => idx
           | MArray items =>
               foldl (λ idx item, _indexMetadataValue entityId kv.1 item idx)
                     idx items
           | MScalar value => _indexMetadataValue entityId kv.1 value idx
           end)
        index metadata.

(** [_indexAgentId] *)
Definition _indexAgentId (entityId agentId : string)
  (index : gmap string (list string)) : gmap string (list string) :=
  if negb (truthy agentId) then index
  else
    let index := if decide (is_Some (index !! agentId)) then index
                 else <[agentId := []]> index in
    <[agentId := oset_add entityId (default [] (index !! agentId))]> index.

(** [_indexEntity] *)
Definition _indexEntity (entity : Entity) : M StorageManager unit :=
  _ ← modify (set_text_index (λ idx,
         let idx := if truthy (content entity)
                    then _indexText (ent_id entity) (content entity) idx
                    else idx in
         let idx := if truthy (name entity)
                    then _indexText (ent_id entity) (name entity) idx
                    else idx in
         if truthy (description entity)
         then _indexText (ent_id entity) (description entity) idx
         else idx));
  _ ← modify (set_metadata_index (λ idx,
         let idx := _indexMetadata (ent_id entity) (metadata entity) idx in
         _indexMetadata (ent_id entity) [("tags", MArray (tags entity))] idx));
  modify (set_agentId_index (λ idx,
         if truthy (agentId entity)
         then _indexAgentId (ent_id entity) (agentId entity) idx
         else idx)).

(** [_removeEntityFromIndices] *)
Definition _removeEntityFromIndices (entity : Entity)
  : M StorageManager unit :=
  let entityId := ent_id entity in
  _ ← modify (set_text_index (λ idx, oset_delete entityId <$> idx));
  _ ← modify (set_metadata_index (λ idx,
         (λ valueMap : gmap string (list string),
            oset_delete entityId <$> valueMap) <$> idx));
  modify (set_agentId_index (λ idx,
         if truthy (agentId entity)
            && bool_decide (is_Some (idx !! agentId entity))
         then alter (oset_delete entityId) (agentId entity) idx
         else idx)).

(** [_cacheEntity] *)
Definition _cacheEntity (entity : Entity) : M StorageManager unit :=
  modify (λ s,
    set_entityCache
      (λ c, omap_trim (maxCacheSize s) (omap_set (ent_id entity) entity c)) s).

(** *** Reading *)

(** [_readEntityFile]: [None] is the [null] returned on [ENOENT]. *)
Definition _readEntityFile (d : Dir) (file : string)
  : M StorageManager (option Entity) :=
  s ← get_state;
  match fs_readFile (files s) d file with
  | Some entity => _ ← _cacheEntity entity; mret (Some entity)
  | None => mret None
  end.

(** The loop over the sub-directories of one partition: the first
    directory holding the file wins; an error while reading one file is
    ignored and the search continues. *)
Fixpoint read_first (paths : list (Dir * string))
  : M StorageManager (option Entity) :=
  match paths with
  | [] => mret None
  | (d, file) :: rest =>
      r ← try_catch (_readEntityFile d file) (λ _, mret None);
      match r with
      | Some entity => mret (Some entity)
      | None => read_first rest
      end
  end.

Definition entity_not_found {A} (id : string) : M StorageManager A :=
  throw (mkError ("Entity not found: " ++ id) None).

(** [_findEntityInContext] *)
Definition _findEntityInContext (id context : string)
  : M StorageManager Entity :=
  s ← get_state;
  found ←
    (if decide (context = "agent") then
       read_first ((λ a, (DAgents a, id)) <$> fs_readdir (agents (files s)))
     else if decide (context = "project") then
       read_first ((λ p, (DProjects p, id)) <$> fs_readdir (projects (files s)))
     else if decide (context = "template") then
       read_first ((λ t, (DTemplates t, id)) <$> fs_readdir (templates (files s)))
     else if decide (context = "shared") then
       read_first [(DShared, id)]
     else mret None);
  match found with
  | Some entity => mret entity
  | None => entity_not_found id
  end.

(** The loop of [getEntity] over the four contexts. *)
Fixpoint search_contexts (id : string) (contexts : list string)
  : M StorageManager Entity :=
  match contexts with
  | [] => entity_not_found id
  | ctx :: rest =>
      try_catch (_findEntityInContext id ctx)
                (λ _, search_contexts id rest)
  end.

(** [getEntity]; a [context] of [None] is an omitted or [null] argument. *)
Definition getEntity (id : string) (context : option string)
  : M StorageManager Entity :=
  s ← get_state;
  match omap_get id (entityCache s) with
  | Some entity => mret entity
  | None =>
      match context with
      | Some ctx =>
          if truthy ctx then _findEntityInContext id ctx
          else search_contexts id ["agent"; "project"; "template"; "shared"]
      | None => search_contexts id ["agent"; "project"; "template"; "shared"]
      end
  end.

(** The part of [getEntity] that follows a miss in the cache: from its
    first [await] on. *)
Definition getEntity_miss (id : string) (context : option string)
  : M StorageManager Entity :=
  match context with
  | Some ctx =>
      if truthy ctx then _findEntityInContext id ctx
      else search_contexts id ["agent"; "project"; "template"; "shared"]
  | None => search_contexts id ["agent"; "project"; "template"; "shared"]
  end.

(** *** Writing *)

(** [storeEntity]; a [context] of [None] is an omitted argument, which
    defaults to ['shared']. *)
Definition storeEntity (env : Env) (entity : Entity) (context : option string)
  : M StorageManager Entity :=
  let context := default "shared" context in
  let entity := if truthy (ent_id entity) then entity
                else set_ent_id ("entity_" ++ fresh env) entity in
  if negb (truthy (ent_type entity)) then
    throw (mkError "Entity must have a type" None)
  else
    let entity :=
      set_ent_created (if truthy (ent_created entity) then ent_created entity
                       else stamp_created env) entity in
    let entity := set_ent_updated (stamp_updated env) entity in
    let '(directory, file) := _getEntityPath entity context in
    _ ← modify (set_files (λ fs, fs_writeFile fs directory file entity));
    _ ← _indexEntity entity;
    _ ← _cacheEntity entity;
    mret entity.

(** [fs.unlink] *)
Definition unlink (d : Dir) (file : string) : M StorageManager unit :=
  s ← get_state;
  match fs_readFile (files s) d file with
  | Some _ => modify (set_files (λ fs, fs_remove fs d file))
  | None =>
      throw (mkError "ENOENT: no such file or directory, unlink"
                     (Some "ENOENT"))
  end.

(** [deleteEntity] *)
Definition deleteEntity (id : string) (context : option string)
  : M StorageManager bool :=
  entity ← getEntity id context;
  let ctx := match context with
             | Some ctx => if truthy ctx then ctx else _getEntityContext entity
             | None => _getEntityContext entity
             end in
  let '(directory, file) := _getEntityPath entity ctx in
  _ ← _removeEntityFromIndices entity;
  _ ← modify (set_entityCache (omap_delete id));
  _ ← unlink directory file;
  mret true.

(** ** KnowledgeGraph *)

Record KnowledgeGraph := mkKnowledgeGraph {
  relFiles : gmap string Relationship;
  source_index : gmap string (list string);
  target_index : gmap string (list string);
  type_index : gmap string (list string);
  relationshipCache : list (string * Relationship);
  kg_maxCacheSize : nat
}.

(** [new KnowledgeGraph(options)] *)
Definition new_KnowledgeGraph (option_maxCacheSize : nat) : KnowledgeGraph :=
  mkKnowledgeGraph ∅ ∅ ∅ ∅ []
    (if decide (option_maxCacheSize = 0) then 1000 else option_maxCacheSize).

Definition set_relFiles
  (f : gmap string Relationship → gmap string Relationship)
  (g : KnowledgeGraph) :=
  mkKnowledgeGraph (f (relFiles g)) (source_index g) (target_index g)
    (type_index g) (relationshipCache g) (kg_maxCacheSize g).
Definition set_rel_indices
  (fs ft fy : gmap string (list string) → gmap string (list string))
  (g : KnowledgeGraph) :=
  mkKnowledgeGraph (relFiles g) (fs (source_index g)) (ft (target_index g))
    (fy (type_index g)) (relationshipCache g) (kg_maxCacheSize g).
Definition set_relationshipCache
  (f : list (string * Relationship) → list (string * Relationship))
  (g : KnowledgeGraph) :=
  mkKnowledgeGraph (relFiles g) (source_index g) (target_index g)
    (type_index g) (f (relationshipCache g)) (kg_maxCacheSize g).

(** The storage manager and the knowledge graph that holds a reference to
    it (and, for the query engine, to both). *)
Record World := mkWorld {
  storageManager : StorageManager;
  knowledgeGraph : KnowledgeGraph
}.

Definition new_World (entity_cache relationship_cache : nat) : World :=
  mkWorld (new_StorageManager entity_cache)
          (new_KnowledgeGraph relationship_cache).

(** A call [this.storageManager.method(...)]. *)
Definition on_storage {A} (m : M StorageManager A) : M World A := λ w,
  let '(r, s) := m (storageManager w) in (r, mkWorld s (knowledgeGraph w)).

(** A method of the knowledge graph that touches its own fields only. *)
Definition on_graph {A} (m : M KnowledgeGraph A) : M World A := λ w,
  let '(r, g) := m (knowledgeGraph w) in (r, mkWorld (storageManager w) g).

(** One index of [_indexRelationship]. *)
Definition index_add (key id : string) (index : gmap string (list string))
  : gmap string (list string) :=
  let index := if decide (is_Some (index !! key)) then index
               else <[key := []]> index in
  <[key := oset_add id (default [] (index !! key))]> index.

(** One index of [_removeRelationshipFromIndices]: an emptied set is
    removed. *)
Definition index_remove (key id : string) (index : gmap string (list string))
  : gmap string (list string) :=
  match index !! key with
  | Some set =>
      let set := oset_delete id set in
      if decide (length set = 0) then delete key index
      else <[key := set]> index
  | None => index
  end.

(** [_indexRelationship] *)
Definition _indexRelationship (relationship : Relationship)
  : M KnowledgeGraph unit :=
  modify (set_rel_indices
    (index_add (sourceId relationship) (rel_id relationship))
    (index_add (targetId relationship) (rel_id relationship))
    (index_add (rel_type relationship) (rel_id relationship))).

(** [_removeRelationshipFromIndices] *)
Definition _removeRelationshipFromIndices (relationship : Relationship)
  : M KnowledgeGraph unit :=
  modify (set_rel_indices
    (index_remove (sourceId relationship) (rel_id relationship))
    (index_remove (targetId relationship) (rel_id relationship))
    (index_remove (rel_type relationship) (rel_id relationship))).

(** [_cacheRelationship] *)
Definition _cacheRelationship (relationship : Relationship)
  : M KnowledgeGraph unit :=
  modify (λ g,
    set_relationshipCache
      (λ c, omap_trim (kg_maxCacheSize g)
              (omap_set (rel_id relationship) relationship c)) g).

Definition set_rel_id (v : string) (r : Relationship) : Relationship :=
  mkRelationship v (sourceId r) (targetId r) (rel_type r)
    (rel_created r) (rel_updated r).
Definition set_rel_stamps (c u : string) (r : Relationship) : Relationship :=
  mkRelationship (rel_id r) (sourceId r) (targetId r) (rel_type r) c u.

(** [createRelationship] *)
Definition createRelationship (env : Env) (relationship : Relationship)
  : M KnowledgeGraph Relationship :=
  if negb (truthy (sourceId relationship)) then
    throw (mkError "Relationship must have a source ID" None)
  else if negb (truthy (targetId relationship)) then
    throw (mkError "Relationship must have a target ID" None)
  else if negb (truthy (rel_type relationship)) then
    throw (mkError "Relationship must have a type" None)
  else
    let relationship :=
      if truthy (rel_id relationship) then relationship
      else set_rel_id ("rel_" ++ fresh env) relationship in
    let relationship :=
      set_rel_stamps
        (if truthy (rel_created relationship) then rel_created relationship
         else stamp_created env)
        (stamp_updated env) relationship in
    _ ← modify (set_relFiles (<[rel_id relationship := relationship]>));
    _ ← _indexRelationship relationship;
    _ ← _cacheRelationship relationship;
    mret relationship.

(** [getRelationship]: the [ENOENT] of the read is rethrown as a plain
    [Error] without a [code]. *)
Definition getRelationship (id : string) : M KnowledgeGraph Relationship :=
  g ← get_state;
  match omap_get id (relationshipCache g) with
  | Some relationship => mret relationship
  | None =>
      match relFiles g !! id with
      | Some relationship =>
          _ ← _cacheRelationship relationship; mret relationship
      | None => throw (mkError ("Relationship not found: " ++ id) None)
      end
  end.

(** [fs.unlink] in the relations directory. *)
Definition unlink_relationship (id : string) : M KnowledgeGraph unit :=
  g ← get_state;
  match relFiles g !! id with
  | Some _ => modify (set_relFiles (delete id))
  | None =>
      throw (mkError "ENOENT: no such file or directory, unlink"
                     (Some "ENOENT"))
  end.

(** [deleteRelationship] *)
Definition deleteRelationship (id : string) : M KnowledgeGraph bool :=
  try_catch
    (relationship ← getRelationship id;
     _ ← _removeRelationshipFromIndices relationship;
     _ ← modify (set_relationshipCache (omap_delete id));
     _ ← unlink_relationship id;
     mret true)
    (λ error,
       if decide (code error = Some "ENOENT") then mret false
       else throw error).

(** One of the two loops of [listRelationships]: each id is resolved, a
    failure to resolve is ignored, and the type filter is applied. *)
Fixpoint collect_relationships (type : option string) (ids : list string)
  : M KnowledgeGraph (list Relationship) :=
  match ids with
  | [] => mret []
  | id :: rest =>
      r ← try_catch (Some <$> getRelationship id) (λ _, mret None);
      found ← collect_relationships type rest;
      mret (match r with
            | Some relationship =>
                if negb (truthy (default "" type))
                   || bool_decide (rel_type relationship = default "" type)
                then relationship :: found else found
            | None => found
            end)
  end.

Record RelationshipPage := mkRelationshipPage {
  page_relationships : list Relationship;
  page_total : nat;
  page_limit : nat;
  page_offset : nat
}.

(** [listRelationships] *)
Definition listRelationships (entityId : string) (type : option string)
  (direction : string) (limit offset : nat)
  : M KnowledgeGraph RelationshipPage :=
  g ← get_state;
  outgoing ←
    (if bool_decide (direction = "outgoing") || bool_decide (direction = "both")
     then match source_index g !! entityId with
          | Some relationshipIds => collect_relationships type relationshipIds
          | None => mret []
          end
     else mret []);
  g ← get_state;
  incoming ←
    (if bool_decide (direction = "incoming") || bool_decide (direction = "both")
     then match target_index g !! entityId with
          | Some relationshipIds => collect_relationships type relationshipIds
          | None => mret []
          end
     else mret []);
  let relationships := outgoing ++ incoming in
  mret (mkRelationshipPage (slice offset limit relationships)
                           (length relationships) limit offset).

(** *** Traversal *)

Record PathStep := mkPathStep {
  relationshipId : string;
  relationshipType : string;
  step_direction : string
}.

Record PathInfo := mkPathInfo {
  distance : nat;
  path : list PathStep
}.

Record Traversal := mkTraversal {
  entities : list Entity;
  relationships : list Relationship;
  paths : gmap string PathInfo
}.

(** The body of the [for] loop of [_traverseBFS] for one relationship of
    the dequeued [(entityId, depth)].  The loop state is the queue, the
    visited set and the result being built; what was pushed before an
    exception is caught stays pushed. *)
Definition visit_relationship (relationshipTypes : option (list string))
  (entityId : string) (depth : nat)
  (acc : list (string * nat) * gset string * Traversal)
  (relationship : Relationship)
  : M World (list (string * nat) * gset string * Traversal) :=
  let '(queue, visited, result) := acc in
  if match relationshipTypes with
     | Some types => negb (bool_decide (rel_type relationship ∈ types))
     | None => false
     end
  then mret acc
  else
    let result :=
      if existsb (λ r, bool_decide (rel_id r = rel_id relationship))
                 (relationships result)
      then result
      else mkTraversal (entities result)
                       (relationships result ++ [relationship])
                       (paths result) in
    let connectedEntityId :=
      if decide (sourceId relationship = entityId)
      then targetId relationship else sourceId relationship in
    if decide (connectedEntityId ∈ visited) then mret (queue, visited, result)
    else
      let visited := visited ∪ {[connectedEntityId]} in
      resolved ← try_catch
                   (Some <$> on_storage (getEntity connectedEntityId None))
                   (λ _, mret None);
      match resolved with
      | None => mret (queue, visited, result)
      | Some connectedEntity =>
          let result := mkTraversal (entities result ++ [connectedEntity])
                                    (relationships result) (paths result) in
          match paths result !! entityId with
          | None => mret (queue, visited, result)
          | Some here =>
              let step :=
                mkPathStep (rel_id relationship) (rel_type relationship)
                  (if decide (sourceId relationship = entityId)
                   then "outgoing" else "incoming") in
              let result :=
                mkTraversal (entities result) (relationships result)
                  (<[connectedEntityId :=
                       mkPathInfo (depth + 1) (path here ++ [step])]>
                     (paths result)) in
              mret (queue ++ [(connectedEntityId, depth + 1)], visited, result)
          end
      end.

(** A [for ... of] loop threading its state through the monad. *)
Fixpoint for_each {S A B} (body : B → A → M S B) (l : list A) (acc : B)
  : M S B :=
  match l with
  | [] => mret acc
  | x :: rest => acc ← body acc x; for_each body rest acc
  end.

(** [_traverseBFS]: [fuel] bounds the number of iterations of the [while]
    loop, and [Timeout] is returned when it is used up. *)
Fixpoint _traverseBFS (fuel : nat) (relationshipTypes : option (list string))
  (maxDepth : nat) (direction : string)
  (queue : list (string * nat)) (visited : gset string) (result : Traversal)
  : M World (gset string * Traversal) :=
  match queue with
  | [] => mret (visited, result)
  | (entityId, depth) :: queue =>
      match fuel with
      | 0 => timeout
      | S fuel =>
          if decide (maxDepth ≤ depth) then
            _traverseBFS fuel relationshipTypes maxDepth direction
                         queue visited result
          else
            page ← on_graph (listRelationships entityId None direction 1000 0);
            '(queue, visited, result) ←
              for_each (visit_relationship relationshipTypes entityId depth)
                       (page_relationships page) (queue, visited, result);
            _traverseBFS fuel relationshipTypes maxDepth direction
                         queue visited result
      end
  end.

(** [traverseGraph] *)
Definition traverseGraph (fuel : nat) (startEntityId : string)
  (relationshipTypes : option (list string)) (maxDepth : nat)
  (direction : string) : M World Traversal :=
  startEntity ← on_storage (getEntity startEntityId None);
  let visited : gset string := {[startEntityId]} in
  let result := mkTraversal [startEntity] []
                  {[startEntityId := mkPathInfo 0 []]} in
  '(_, result) ← _traverseBFS fuel relationshipTypes maxDepth direction
                   [(startEntityId, 0)] visited result;
  mret result.

(** *** Common connections *)

(** [Array.prototype.sort] with a comparator: a stable sort; [le x y] says
    that the comparator does not put [y] before [x]. *)
Fixpoint insert_by {A} (le : A → A → bool) (x : A) (l : list A) : list A :=
  match l with
  | [] => [x]
  | y :: l' => if le x y then x :: l else y :: insert_by le x l'
  end.
Definition sort_by {A} (le : A → A → bool) (l : list A) : list A :=
  foldr (insert_by le) [] l.

(** The quotient [a / b] of two counts, as a reduced fraction ([b] is
    positive wherever the code divides). *)
Definition js_div (a b : nat) : Q := Qred (Z.of_nat a # Pos.of_nat b).

(** [new Set(array)] then [Array.from]: first occurrences, in order. *)
Definition to_set (l : list string) : list string :=
  foldl (λ s x, oset_add x s) [] l.

(** The calls [f x] for the [x] of a list, one after the other, up to the
    first that fails. *)
Fixpoint mapM {S A B} (f : A → M S B) (l : list A) : M S (list B) :=
  match l with
  | [] => mret []
  | x :: rest => y ← f x; ys ← mapM f rest; mret (y :: ys)
  end.

Record ConnectionOptions := mkConnectionOptions {
  co_relationshipTypes : option (list string);
  co_maxDepth : nat;
  co_direction : string;
  co_limit : nat
}.

(** The defaults of [findCommonConnections]. *)
Definition default_ConnectionOptions : ConnectionOptions :=
  mkConnectionOptions None 2 "both" 10.

(** [result.paths[entity.id]?.distance || 0], summed over the traversals. *)
Definition totalDistance (traversalResults : list Traversal) (entity : Entity)
  : nat :=
  foldl (λ sum result,
           sum + match paths result !! ent_id entity with
                 | Some p => distance p
                 | None => 0
                 end)
        0 traversalResults.

Definition avgDistance (traversalResults : list Traversal) (entity : Entity)
  : Q :=
  js_div (totalDistance traversalResults entity) (length traversalResults).

(** The ids that survive the intersection and the exclusion of the
    original ids. *)
Definition commonEntityIds (entityIds : list string)
  (traversalResults : list Traversal) : list string :=
  let entitySets :=
    (λ result, to_set (ent_id <$> entities result)) <$> traversalResults in
  let common := default [] (head entitySets) in
  let common :=
    foldl (λ common set, filter (λ id, id ∈ set) common)
          common (tail entitySets) in
  filter (λ id, id ∉ entityIds) common.

(** [findCommonConnections] itself starts its traversals together; it is
    defined with the calls that run together, below. *)

(** ** QueryEngine *)

(** [QueryEngine._tokenizeText] on a string argument. *)
Definition qe_tokenizeText (text : string) : list string :=
  if negb (truthy text) then []
  else
    filter (λ token, 1 < String.length token)
      (split_ws [] false (replace_punctuation (toLowerCase text))).

Record SearchOptions := mkSearchOptions {
  so_limit : nat;
  so_offset : nat;
  so_threshold : Q;
  so_context : option string;
  so_type : string;
  so_agentId : string;
  so_matchAll : bool
}.

(** The defaults of [searchByText] and [searchByMetadata]. *)
Definition default_SearchOptions : SearchOptions :=
  mkSearchOptions 10 0 0%Q None "" "" true.

Record SearchResults (A : Type) := mkSearchResults {
  sr_results : list A;
  sr_total : nat;
  sr_limit : nat;
  sr_offset : nat
}.
Arguments mkSearchResults {A} _ _ _ _.
Arguments sr_results {A} _.
Arguments sr_total {A} _.
Arguments sr_limit {A} _.
Arguments sr_offset {A} _.

(** The first loop of [searchByText]: the map from entity id to the number
    of query tokens whose index set holds it. *)
Definition count_matches (index : gmap string (list string))
  (queryTokens : list string) : list (string * nat) :=
  foldl (λ matchingEntityIds token,
           match index !! token with
           | Some entities =>
               foldl (λ matching entityId,
                        omap_set entityId
                          (default 0 (omap_get entityId matching) + 1)
                          matching)
                     matchingEntityIds entities
           | None => matchingEntityIds
           end)
        [] queryTokens.

(** The scored, thresholded and sorted list of [searchByText]. *)
Definition scored_matches (index : gmap string (list string))
  (queryTokens : list string) (threshold : Q) : list (string * Q) :=
  sort_by (λ a b, Qle_bool b.2 a.2)
    (filter (λ item, Qle_bool threshold item.2 = true)
       ((λ entry, (entry.1, js_div entry.2 (length queryTokens)))
          <$> count_matches index queryTokens)).

(** The post-hoc filters on [agentId] and [type], which only see cached
    entities. *)
Definition cache_filters {A} (s : StorageManager) (options : SearchOptions)
  (key : A → string) (results : list A) : list A :=
  let results :=
    if truthy (so_agentId options) then
      filter (λ item,
                match omap_get (key item) (entityCache s) with
                | Some entity =>
                    bool_decide (agentId entity = so_agentId options)
                | None => false
                end = true) results
    else results in
  if truthy (so_type options) then
    filter (λ item,
              match omap_get (key item) (entityCache s) with
              | Some entity =>
                  bool_decide (ent_type entity = so_type options)
              | None => false
              end = true) results
  else results.

(** The calls of one page once they have been started.  [Promise.all]
    is handed the promises of [page.map(async item => ...)]: each call has
    run up to its first [await] when it was made, so it has tested the
    cache, and holds the cached entity or waits for the files.  A call that
    waits reads the files, caches what it has read and returns it; when it
    fails, its [catch] returns [null], which is dropped.  The reads complete
    in an order that the file system decides; the model takes the order of
    the page, which only bears on the order of the entries of the cache. *)
Fixpoint resolve_started {A} (context : option string) (key : A → string)
  (started : list (A * option Entity))
  : M StorageManager (list (Entity * A)) :=
  match started with
  | [] => mret []
  | (item, cached) :: rest =>
      r ← match cached with
          | Some entity => mret (Some entity)
          | None =>
              try_catch (Some <$> getEntity_miss (key item) context)
                        (λ _, mret None)
          end;
      found ← resolve_started context key rest;
      mret (match r with
            | Some entity => (entity, item) :: found
            | None => found
            end)
  end.

(** The resolution of one page to full entities: every call tests the
    cache as the search found it, before any of them has read a file. *)
Definition resolve_page {A} (context : option string) (key : A → string)
  (page : list A) : M StorageManager (list (Entity * A)) :=
  s ← get_state;
  resolve_started context key
    ((λ item, (item, omap_get (key item) (entityCache s))) <$> page).

(** [searchByText]: every result is the resolved entity with the pair of
    the id it was looked up under and its score. *)
Definition searchByText (query : string) (options : SearchOptions)
  : M StorageManager (SearchResults (Entity * (string * Q))) :=
  let queryTokens := qe_tokenizeText query in
  s ← get_state;
  let results :=
    scored_matches (text_index s) queryTokens (so_threshold options) in
  let results := cache_filters s options fst results in
  let paginatedResults :=
    slice (so_offset options) (so_limit options) results in
  validEntities ← resolve_page (so_context options) fst paginatedResults;
  mret (mkSearchResults validEntities (length results)
          (so_limit options) (so_offset options)).

(** [String(value)] *)
Definition String_of (value : MetaValue) : string :=
  match value with
  | MNull => "null"
  | MScalar s => s
  | MArray items => String.concat "," items
  end.

(** The sets collected by the first loop of [searchByMetadata]. *)
Definition matchingSets (index : gmap string (gmap string (list string)))
  (metadata : list (string * MetaValue)) : list (list string) :=
  omap (λ kv, index !! kv.1 ≫= (λ valueMap, valueMap !! String_of kv.2))
       metadata.

(** The combination of the sets, for a non-empty list of them. *)
Definition combine_sets (matchAll : bool) (sets : list (list string))
  : list string :=
  if matchAll then
    foldl (λ matchingEntityIds set,
             to_set (filter (λ id, id ∈ set) matchingEntityIds))
          (to_set (default [] (head sets))) (tail sets)
  else
    foldl (λ matchingEntityIds set,
             foldl (λ ids id, oset_add id ids) matchingEntityIds set)
          [] sets.

(** [searchByMetadata] *)
Definition searchByMetadata (metadata : list (string * MetaValue))
  (options : SearchOptions)
  : M StorageManager (SearchResults (Entity * string)) :=
  s ← get_state;
  let sets := matchingSets (metadata_index s) metadata in
  if decide (length sets = 0) then
    mret (mkSearchResults [] 0 (so_limit options) (so_offset options))
  else
    let results := combine_sets (so_matchAll options) sets in
    let results := cache_filters s options (λ id, id) results in
    let paginatedResults :=
      slice (so_offset options) (so_limit options) results in
    validEntities ←
      resolve_page (so_context options) (λ id, id) paginatedResults;
    mret (mkSearchResults validEntities (length results)
            (so_limit options) (so_offset options)).

(** ** Vocabulary of the statements *)

Ltac unfold_monad :=
  unfold mbind, mret, fmap, M_bind, M_ret, M_fmap, modify, get_state, throw,
    timeout, try_catch in *.

(** The entity cache stays within its configured, positive bound. *)
Definition cache_bounded (s : StorageManager) : Prop :=
  1 ≤ maxCacheSize s ∧ length (entityCache s) ≤ maxCacheSize s.

Definition sample_env : Env := mkEnv "1700000000000_a1b2c3d4" "T1" "T2".

Definition sample_note : Entity :=
  mkEntity "" "memory" "" "" "" "alpha beta gamma" "" "" [] [] "" "".

(** [sample_note] as [storeEntity] returns it. *)
Definition sample_stored : Entity :=
  mkEntity "entity_1700000000000_a1b2c3d4" "memory" "" "" ""
    "alpha beta gamma" "" "" [] [] "T1" "T2".

Definition node (id : string) : Entity :=
  mkEntity id "node" "" "" "" "" "" "" [] [] "" "".

Definition edge (id source target type : string) : Relationship :=
  mkRelationship id source target type "" "".

(** *** What a lookup returns, as a function of the state *)

(** The first file that exists along a list of paths. *)
Fixpoint find_first (fs : Files) (paths : list (Dir * string))
  : option Entity :=
  match paths with
  | [] => None
  | (d, file) :: rest =>
      match fs_readFile fs d file with
      | Some entity => Some entity
      | None => find_first fs rest
      end
  end.

(** The paths that [_findEntityInContext] probes, in order. *)
Definition context_paths (fs : Files) (id context : string)
  : list (Dir * string) :=
  if decide (context = "agent") then
    (λ a, (DAgents a, id)) <$> fs_readdir (agents fs)
  else if decide (context = "project") then
    (λ p, (DProjects p, id)) <$> fs_readdir (projects fs)
  else if decide (context = "template") then
    (λ t, (DTemplates t, id)) <$> fs_readdir (templates fs)
  else if decide (context = "shared") then [(DShared, id)]
  else [].

(** The paths that [getEntity] probes on a cache miss. *)
Definition probe_paths (fs : Files) (id : string) (context : option string)
  : list (Dir * string) :=
  let everywhere :=
    context_paths fs id "agent" ++ context_paths fs id "project"
    ++ context_paths fs id "template" ++ context_paths fs id "shared" in
  match context with
  | Some ctx => if truthy ctx then context_paths fs id ctx else everywhere
  | None => everywhere
  end.

(** The entity that the files hold for an id, seen from a context. *)
Definition find_entity (fs : Files) (id : string) (context : option string)
  : option Entity :=
  find_first fs (probe_paths fs id context).

(** The entity that [getEntity] resolves an id to: the cache first. *)
Definition lookup_entity (s : StorageManager) (id : string)
  (context : option string) : option Entity :=
  match omap_get id (entityCache s) with
  | Some entity => Some entity
  | None => find_entity (files s) id context
  end.

(** The state after [_cacheEntity]. *)
Definition cache_put (entity : Entity) (s : StorageManager) : StorageManager :=
  set_entityCache
    (λ c, omap_trim (maxCacheSize s) (omap_set (ent_id entity) entity c)) s.

(** Every entity file is named after the id it holds, and so is every
    cache entry. *)
Definition files_named (fs : Files) : Prop :=
  map_Forall (λ _ dir, map_Forall (λ file e, ent_id e = file) dir) (agents fs)
  ∧ map_Forall (λ _ dir, map_Forall (λ file e, ent_id e = file) dir)
               (projects fs)
  ∧ map_Forall (λ _ dir, map_Forall (λ file e, ent_id e = file) dir)
               (templates fs)
  ∧ map_Forall (λ file e, ent_id e = file) (shared fs)
  ∧ map_Forall (λ file e, ent_id e = file) (temp fs).

Definition entity_ids_ok (s : StorageManager) : Prop :=
  files_named (files s)
  ∧ Forall (λ p, ent_id p.2 = p.1) (entityCache s).

(** The cache agrees with the files as seen from [context]: eviction and
    re-reading never change what an id resolves to. *)
Definition entity_store_ok (context : option string) (s : StorageManager)
  : Prop :=
  files_named (files s)
  ∧ Forall (λ p, find_entity (files s) p.1 context = Some p.2) (entityCache s).

(** The id sets of an index hold no id twice (they are [Set]s). *)
Definition index_sets_NoDup (index : gmap string (list string)) : Prop :=
  map_Forall (λ _ set, NoDup set) index.

(** The number of query tokens whose index set holds the entity id. *)
Definition matched_tokens (index : gmap string (list string))
  (queryTokens : list string) (entityId : string) : nat :=
  length (filter (λ token, entityId ∈ default [] (index !! token))
                 queryTokens).

(** The state after [getEntity]: only a hit in the files touches the
    cache. *)
Definition after_lookup (s : StorageManager) (id : string)
  (context : option string) : StorageManager :=
  match omap_get id (entityCache s) with
  | Some _ => s
  | None =>
      match find_entity (files s) id context with
      | Some entity => cache_put entity s
      | None => s
      end
  end.

(** The entity of the scoring example of the text search. *)
Definition entity_x : Entity :=
  mkEntity "x" "memory" "" "" "" "alpha beta gamma" "" "" [] [] "" "".

Definition store_x : StorageManager :=
  (storeEntity sample_env entity_x None (new_StorageManager 0)).2.


(** [entity_x] as [storeEntity] returns it. *)
Definition stored_x : Entity :=
  mkEntity "x" "memory" "" "" "" "alpha beta gamma" "" "" [] [] "T1" "T2".

#[global] Instance index_sets_NoDup_dec index :
  Decision (index_sets_NoDup index).
Proof. unfold index_sets_NoDup. apply _. Defined.

#[global] Instance files_named_dec fs : Decision (files_named fs).
Proof. unfold files_named. apply _. Defined.

#[global] Instance entity_ids_ok_dec s : Decision (entity_ids_ok s).
Proof. unfold entity_ids_ok. apply _. Defined.

#[global] Instance entity_store_ok_dec context s :
  Decision (entity_store_ok context s).
Proof. unfold entity_store_ok. apply _. Defined.

Ltac by_decide := apply (bool_decide_unpack _); vm_compute; exact I.

(** The two tagged entities of the metadata example, and the store that
    holds them. *)
Definition red_entity : Entity :=
  mkEntity "e1" "item" "" "" "" "" "" ""
    [("color", MScalar "red")] [] "" "".
Definition red_large_entity : Entity :=
  mkEntity "e2" "item" "" "" "" "" "" ""
    [("color", MScalar "red"); ("size", MScalar "large")] [] "" "".

Definition tagged_store : StorageManager :=
  (storeEntity sample_env red_large_entity None
     (storeEntity sample_env red_entity None (new_StorageManager 0)).2).2.

Definition red_large_query : list (string * MetaValue) :=
  [("color", MScalar "red"); ("size", MScalar "large")].

(** The ids of the entities a metadata search returns. *)
Definition ids_of (o : Outcome (SearchResults (Entity * string)))
  : option (list string) :=
  match o with
  | Ret r => Some ((λ item, ent_id item.1) <$> sr_results r)
  | _ => None
  end.

(** *** What the relationship graph reports, as a function of the state *)

(** The relationship that [getRelationship] resolves an id to. *)
Definition lookup_relationship (g : KnowledgeGraph) (id : string)
  : option Relationship :=
  match omap_get id (relationshipCache g) with
  | Some relationship => Some relationship
  | None => relFiles g !! id
  end.

(** The state after [_cacheRelationship]. *)
Definition rel_cache_put (relationship : Relationship) (g : KnowledgeGraph)
  : KnowledgeGraph :=
  set_relationshipCache
    (λ c, omap_trim (kg_maxCacheSize g)
            (omap_set (rel_id relationship) relationship c)) g.

(** The state after [getRelationship]. *)
Definition after_rel_lookup (g : KnowledgeGraph) (id : string)
  : KnowledgeGraph :=
  match omap_get id (relationshipCache g) with
  | Some _ => g
  | None =>
      match relFiles g !! id with
      | Some relationship => rel_cache_put relationship g
      | None => g
      end
  end.

(** Every relationship file is named after the id it holds, and the cache
    agrees with the files. *)
Definition graph_ok (g : KnowledgeGraph) : Prop :=
  map_Forall (λ file r, rel_id r = file) (relFiles g)
  ∧ Forall (λ p, relFiles g !! p.1 = Some p.2) (relationshipCache g).

#[global] Instance graph_ok_dec g : Decision (graph_ok g).
Proof. unfold graph_ok. apply _. Defined.

(** The type filter of [listRelationships]. *)
Definition type_matches (type : option string) (r : Relationship) : bool :=
  negb (truthy (default "" type)) || bool_decide (rel_type r = default "" type).

(** The relationships that one loop of [listRelationships] collects from
    the files. *)
Definition collected (g : KnowledgeGraph) (type : option string)
  (ids : list string) : list Relationship :=
  filter (λ r, type_matches type r = true) (omap (λ id, relFiles g !! id) ids).

(** The relationships of an entity before pagination. *)
Definition listed (g : KnowledgeGraph) (entityId : string)
  (type : option string) (direction : string) : list Relationship :=
  (if bool_decide (direction = "outgoing") || bool_decide (direction = "both")
   then collected g type (default [] (source_index g !! entityId))
   else [])
  ++
  (if bool_decide (direction = "incoming") || bool_decide (direction = "both")
   then collected g type (default [] (target_index g !! entityId))
   else []).

(** The number of times a relationship occurs in a list. *)
Definition occurrences (r : Relationship) (l : list Relationship) : nat :=
  length (filter (λ x, x = r) l).

(** A graph holding one self-loop on the entity ["e"]. *)
Definition loop_graph : KnowledgeGraph :=
  (createRelationship sample_env (edge "r" "e" "e" "self")
     (new_KnowledgeGraph 0)).2.

(** The self-loop as [createRelationship] returns it. *)
Definition stored_loop : Relationship :=
  mkRelationship "r" "e" "e" "self" "T1" "T2".

(** A graph in which the entity ["e"] has a hundred relationships to ["o"]
    (["k1"] to ["k100"]) and then a self-loop. *)
Definition busy_graph : KnowledgeGraph :=
  (createRelationship sample_env (edge "r" "e" "e" "self")
     (foldl (λ g n,
               (createRelationship sample_env
                  (edge ("k" ++ pretty n) "e" "o" "link") g).2)
            (new_KnowledgeGraph 0) (seq 1 100))).2.

(** *** Vocabulary of the traversal statements *)

(** A relationship that the cache or the relations directory holds. *)
Definition known_relationship (g : KnowledgeGraph) (r : Relationship) : Prop :=
  r ∈ (relationshipCache g).*2 ∨ r ∈ (map_to_list (relFiles g)).*2.

(** Every known relationship has both its endpoints in [U]. *)
Definition rels_within (U : gset string) (g : KnowledgeGraph) : Prop :=
  ∀ r, known_relationship g r → sourceId r ∈ U ∧ targetId r ∈ U.

(** The entity ids that the known relationships mention. *)
Definition endpoints (g : KnowledgeGraph) : gset string :=
  list_to_set
    (((relationshipCache g).*2 ++ (map_to_list (relFiles g)).*2)
       ≫= λ r, [sourceId r; targetId r]).

(** A number of loop iterations that is enough for any traversal of the
    graph of [w]. *)
Definition enough_fuel (w : World) : nat :=
  2 + size (endpoints (knowledgeGraph w)).

(** The chain A - B - C - D of ["next"] relationships. *)
Definition chain_setup : M World unit :=
  _ ← on_storage (storeEntity sample_env (node "A") None);
  _ ← on_storage (storeEntity sample_env (node "B") None);
  _ ← on_storage (storeEntity sample_env (node "C") None);
  _ ← on_storage (storeEntity sample_env (node "D") None);
  _ ← on_graph (createRelationship sample_env (edge "ab" "A" "B" "next"));
  _ ← on_graph (createRelationship sample_env (edge "bc" "B" "C" "next"));
  _ ← on_graph (createRelationship sample_env (edge "cd" "C" "D" "next"));
  mret tt.

Definition chain_world : World := (chain_setup (new_World 0 0)).2.

(** The ids of the entities of a traversal, in the order of discovery. *)
Definition entity_ids (o : Outcome Traversal) : option (list string) :=
  match o with
  | Ret result => Some (ent_id <$> entities result)
  | _ => None
  end.

(** The recorded distance of an entity in a traversal. *)
Definition recorded_distance (o : Outcome Traversal) (id : string)
  : option nat :=
  match o with
  | Ret result => distance <$> paths result !! id
  | _ => None
  end.

(** A world with one entity and a relationship to an id that was never
    stored. *)
Definition dangling_world : World :=
  ((_ ← on_storage (storeEntity sample_env (node "A") None);
    _ ← on_graph (createRelationship sample_env (edge "ag" "A" "ghost" "next"));
    mret tt) (new_World 0 0)).2.

(** The average over the traversals of the recorded distance of an entity
    id, a traversal that records no path for it contributing 0. *)
Definition mean_distance (traversals : list Traversal) (id : string) : Q :=
  Z.of_nat (sum_list ((λ t, default 0 (distance <$> paths t !! id))
                        <$> traversals))
  # Pos.of_nat (length traversals).

(** The traversal that [findCommonConnections] runs from each id. *)
Definition traverse_from (fuel : nat) (options : ConnectionOptions)
  (entityId : string) : M World Traversal :=
  traverseGraph fuel entityId (co_relationshipTypes options)
                (co_maxDepth options) (co_direction options).

(** [node id] as [storeEntity] returns it. *)
Definition stored_node (id : string) : Entity :=
  mkEntity id "node" "" "" "" "" "" "" [] [] "T1" "T2".

(** *** The traversal as a function of what ids and entities resolve to *)

Section pure_traversal.
Context (resolve : string → option Entity).
Context (listing : string → list Relationship).
Context (relationshipTypes : option (list string)) (maxDepth : nat).

(** [visit_relationship] with the lookup replaced by [resolve]. *)
Definition visit_pure (entityId : string) (depth : nat)
  (acc : list (string * nat) * gset string * Traversal)
  (relationship : Relationship)
  : list (string * nat) * gset string * Traversal :=
  let '(queue, visited, result) := acc in
  if match relationshipTypes with
     | Some types => negb (bool_decide (rel_type relationship ∈ types))
     | None => false
     end
  then acc
  else
    let result :=
      if existsb (λ r, bool_decide (rel_id r = rel_id relationship))
                 (relationships result)
      then result
      else mkTraversal (entities result)
                       (relationships result ++ [relationship])
                       (paths result) in
    let connectedEntityId :=
      if decide (sourceId relationship = entityId)
      then targetId relationship else sourceId relationship in
    if decide (connectedEntityId ∈ visited) then (queue, visited, result)
    else
      let visited := visited ∪ {[connectedEntityId]} in
      match resolve connectedEntityId with
      | None => (queue, visited, result)
      | Some connectedEntity =>
          let result := mkTraversal (entities result ++ [connectedEntity])
                                    (relationships result) (paths result) in
          match paths result !! entityId with
          | None => (queue, visited, result)
          | Some here =>
              let step :=
                mkPathStep (rel_id relationship) (rel_type relationship)
                  (if decide (sourceId relationship = entityId)
                   then "outgoing" else "incoming") in
              let result :=
                mkTraversal (entities result) (relationships result)
                  (<[connectedEntityId :=
                       mkPathInfo (depth + 1) (path here ++ [step])]>
                     (paths result)) in
              (queue ++ [(connectedEntityId, depth + 1)], visited, result)
          end
      end.

(** [_traverseBFS] with the listing replaced by [listing]; [None] is
    [Timeout]. *)
Fixpoint bfs_pure (fuel : nat) (queue : list (string * nat))
  (visited : gset string) (result : Traversal)
  : option (gset string * Traversal) :=
  match queue with
  | [] => Some (visited, result)
  | (entityId, depth) :: queue =>
      match fuel with
      | 0 => None
      | S fuel =>
          if decide (maxDepth ≤ depth) then bfs_pure fuel queue visited result
          else
            let '(queue, visited, result) :=
              foldl (visit_pure entityId depth) (queue, visited, result)
                    (listing entityId) in
            bfs_pure fuel queue visited result
      end
  end.

(** The relationship passes the type filter of the traversal. *)
Definition type_allowed (r : Relationship) : bool :=
  match relationshipTypes with
  | Some types => bool_decide (rel_type r ∈ types)
  | None => true
  end.

(** The other end of a relationship listed for [entityId]. *)
Definition connected (entityId : string) (r : Relationship) : string :=
  if decide (sourceId r = entityId) then targetId r else sourceId r.

(** One hop: [v] is the other end of a listed relationship of [u] that
    passes the type filter, and [v] resolves to an entity. *)
Definition hop (u v : string) : Prop :=
  (∃ r, r ∈ listing u ∧ type_allowed r = true ∧ connected u r = v)
  ∧ is_Some (resolve v).

(** [hops start n v]: [v] is [n] hops away from [start] along some path. *)
Inductive hops (start : string) : nat → string → Prop :=
| hops_O : hops start 0 start
| hops_S n u v : hops start n u → hop u v → hops start (S n) v.

(** [n] is the minimum hop count from [start] to [v]. *)
Definition shortest (start : string) (n : nat) (v : string) : Prop :=
  hops start n v ∧ ∀ m, hops start m v → n ≤ m.
End pure_traversal.

(** What a world resolves ids to and lists for an entity, seen from a
    traversal in a given direction. *)
Definition world_resolve (w : World) (id : string) : option Entity :=
  find_entity (files (storageManager w)) id None.
Definition world_listing (w : World) (direction : string) (entityId : string)
  : list Relationship :=
  slice 0 1000 (listed (knowledgeGraph w) entityId None direction).

(** The world is coherent: caches agree with files, files are named after
    the ids they hold. *)
Definition world_ok (w : World) : Prop :=
  entity_store_ok None (storageManager w) ∧ graph_ok (knowledgeGraph w).

#[global] Instance world_ok_dec w : Decision (world_ok w).
Proof. unfold world_ok. apply _. Defined.

(** Two worlds that hold the same files and indices (they may differ in
    their caches). *)
Definition same_view (w w' : World) : Prop :=
  files (storageManager w') = files (storageManager w)
  ∧ relFiles (knowledgeGraph w') = relFiles (knowledgeGraph w)
  ∧ source_index (knowledgeGraph w') = source_index (knowledgeGraph w)
  ∧ target_index (knowledgeGraph w') = target_index (knowledgeGraph w).

(** *** The invariant of the breadth-first loop *)

Section bfs_invariant.
Context (resolve : string → option Entity).
Context (listing : string → list Relationship).
Context (types : option (list string)) (maxDepth : nat) (start : string).

(** Between two iterations of the [while] loop: the queue holds entries of
    depth [k] followed by entries of depth [k + 1]; every recorded distance
    is the length of a path and no path is shorter; an entity that has a
    path and is not queued has had its relationships visited; and every
    entity at most [k] hops away has a path. *)
Record bfs_inv (k : nat) (q : list (string * nat)) (vis : gset string)
  (D : gmap string PathInfo) : Prop := mk_bfs_inv {
  inv_levels :
    ∃ q1 q2, q = q1 ++ q2 ∧ Forall (λ p, p.2 = k) q1
             ∧ Forall (λ p, p.2 = S k) q2;
  inv_queued :
    ∀ v d, (v, d) ∈ q → ∃ p, D !! v = Some p ∧ distance p = d;
  inv_sound :
    ∀ v p, D !! v = Some p →
           hops resolve listing types start (distance p) v;
  inv_minimal :
    ∀ v p n, D !! v = Some p → hops resolve listing types start n v →
             distance p ≤ n;
  inv_done :
    ∀ v p, D !! v = Some p →
           (v, distance p) ∈ q
           ∨ (distance p < maxDepth →
              ∀ r, r ∈ listing v → type_allowed types r = true →
                   connected v r ∈ vis);
  inv_visited : ∀ v, is_Some (D !! v) → v ∈ vis;
  inv_found : ∀ v, v ∈ vis → is_Some (resolve v) → is_Some (D !! v);
  inv_frontier :
    ∀ n v, hops resolve listing types start n v → n ≤ k → n ≤ maxDepth →
           is_Some (D !! v)
}.
End bfs_invariant.

(** The diamond: A -> B, A -> C, C -> B. *)
Definition diamond_world : World :=
  ((_ ← on_storage (storeEntity sample_env (node "A") None);
    _ ← on_storage (storeEntity sample_env (node "B") None);
    _ ← on_storage (storeEntity sample_env (node "C") None);
    _ ← on_graph (createRelationship sample_env (edge "ab" "A" "B" "link"));
    _ ← on_graph (createRelationship sample_env (edge "ac" "A" "C" "link"));
    _ ← on_graph (createRelationship sample_env (edge "cb" "C" "B" "link"));
    mret tt) (new_World 0 0)).2.

(** B is two hops from A through C, which was never stored, and three
    hops from A through X and Y, which were. *)
Definition detour_world : World :=
  ((_ ← on_storage (storeEntity sample_env (node "A") None);
    _ ← on_storage (storeEntity sample_env (node "B") None);
    _ ← on_storage (storeEntity sample_env (node "X") None);
    _ ← on_storage (storeEntity sample_env (node "Y") None);
    _ ← on_graph (createRelationship sample_env (edge "ac" "A" "C" "link"));
    _ ← on_graph (createRelationship sample_env (edge "cb" "C" "B" "link"));
    _ ← on_graph (createRelationship sample_env (edge "ax" "A" "X" "link"));
    _ ← on_graph (createRelationship sample_env (edge "xy" "X" "Y" "link"));
    _ ← on_graph (createRelationship sample_env (edge "yb" "Y" "B" "link"));
    mret tt) (new_World 0 0)).2.

(** The traversal that an outcome carries (an empty one if it carries
    none). *)
Definition traversal_of (o : Outcome Traversal) : Traversal :=
  match o with
  | Ret result => result
  | _ => mkTraversal [] [] ∅
  end.

(** ** Further operations of the storage manager *)

(** The attributes that [updateEntity] can change: [None] is a key that the
    [updates] object does not have.  The keys [id], [type], [created] and
    [updated] of [updates] are overridden by the method and need no field. *)
Record EntityUpdates := mkEntityUpdates {
  up_agentId : option string;
  up_projectId : option string;
  up_templateId : option string;
  up_content : option string;
  up_name : option string;
  up_description : option string;
  up_metadata : option (list (string * MetaValue));
  up_tags : option (list string)
}.

(** [{...entity, ...updates, id: entity.id, type: entity.type,
      created: entity.created, updated: new Date().toISOString()}] *)
Definition apply_updates (entity : Entity) (updates : EntityUpdates)
  (updated : string) : Entity :=
  mkEntity (ent_id entity) (ent_type entity)
    (default (agentId entity) (up_agentId updates))
    (default (projectId entity) (up_projectId updates))
    (default (templateId entity) (up_templateId updates))
    (default (content entity) (up_content updates))
    (default (name entity) (up_name updates))
    (default (description entity) (up_description updates))
    (default (metadata entity) (up_metadata updates))
    (default (tags entity) (up_tags updates))
    (ent_created entity) updated.

(** Whether a directory exists: the shared and temp directories are
    created at start-up, a sub-directory of a partition by the first
    [storeEntity] that writes into it. *)
Definition fs_dir_exists (fs : Files) (d : Dir) : bool :=
  match d with
  | DAgents a => bool_decide (is_Some (agents fs !! a))
  | DProjects p => bool_decide (is_Some (projects fs !! p))
  | DTemplates t => bool_decide (is_Some (templates fs !! t))
  | DShared => true
  | DTemp => true
  end.

(** [fs.writeFile] without a preceding [fs.mkdir]: it fails with [ENOENT]
    when the directory is missing. *)
Definition writeFile (d : Dir) (file : string) (e : Entity)
  : M StorageManager unit :=
  s ← get_state;
  if fs_dir_exists (files s) d then
    modify (set_files (λ fs, fs_writeFile fs d file e))
  else
    throw (mkError "ENOENT: no such file or directory, open" (Some "ENOENT")).

(** [_updateEntityIndices] *)
Definition _updateEntityIndices (oldEntity newEntity : Entity)
  : M StorageManager unit :=
  _ ← _removeEntityFromIndices oldEntity;
  _indexEntity newEntity.

(** [updateEntity] *)
Definition updateEntity (env : Env) (id : string) (updates : EntityUpdates)
  (context : option string) : M StorageManager Entity :=
  entity ← getEntity id context;
  let updatedEntity := apply_updates entity updates (stamp_updated env) in
  let ctx := match context with
             | Some ctx => if truthy ctx then ctx else _getEntityContext entity
             | None => _getEntityContext entity
             end in
  let '(directory, file) := _getEntityPath updatedEntity ctx in
  _ ← writeFile directory file updatedEntity;
  _ ← _updateEntityIndices entity updatedEntity;
  _ ← _cacheEntity updatedEntity;
  mret updatedEntity.

(** [fs.readdir] of one entity directory: the ids of its files. *)
Definition fs_dir_files (fs : Files) (d : Dir) : list string :=
  match d with
  | DAgents a => (map_to_list (default ∅ (agents fs !! a))).*1
  | DProjects p => (map_to_list (default ∅ (projects fs !! p))).*1
  | DTemplates t => (map_to_list (default ∅ (templates fs !! t))).*1
  | DShared => (map_to_list (shared fs)).*1
  | DTemp => (map_to_list (temp fs)).*1
  end.

(** The directories that [listEntities] scans for a context. *)
Definition list_directories (fs : Files) (context : option string)
  : list Dir :=
  if decide (context = Some "agent") then DAgents <$> fs_readdir (agents fs)
  else if decide (context = Some "project") then
    DProjects <$> fs_readdir (projects fs)
  else if decide (context = Some "template") then
    DTemplates <$> fs_readdir (templates fs)
  else if decide (context = Some "shared") then [DShared]
  else
    [DShared] ++ (DAgents <$> fs_readdir (agents fs))
    ++ (DProjects <$> fs_readdir (projects fs))
    ++ (DTemplates <$> fs_readdir (templates fs)).

(** The inner loop of [listEntities] and of the directory scan of
    [findEntitiesByAgentId]: every file of the directory is read (and so
    cached) and kept when the type filter lets it through. *)
Fixpoint scan_files (type : string) (d : Dir) (names : list string)
  : M StorageManager (list Entity) :=
  match names with
  | [] => mret []
  | file :: rest =>
      r ← try_catch (_readEntityFile d file) (λ _, mret None);
      found ← scan_files type d rest;
      mret (match r with
            | Some entity =>
                if negb (truthy type) || bool_decide (ent_type entity = type)
                then entity :: found else found
            | None => found
            end)
  end.

(** The outer loop of [listEntities]. *)
Fixpoint scan_directories (type : string) (directories : list Dir)
  : M StorageManager (list Entity) :=
  match directories with
  | [] => mret []
  | d :: rest =>
      s ← get_state;
      here ← scan_files type d (fs_dir_files (files s) d);
      there ← scan_directories type rest;
      mret (here ++ there)
  end.

Record EntityPage := mkEntityPage {
  ep_entities : list Entity;
  ep_total : nat;
  ep_limit : nat;
  ep_offset : nat
}.

(** [listEntities]; a [type] of [""] is no filter, a [context] of [None]
    scans every partition. *)
Definition listEntities (type : string) (context : option string)
  (limit offset : nat) : M StorageManager EntityPage :=
  s ← get_state;
  entities ← scan_directories type (list_directories (files s) context);
  mret (mkEntityPage (slice offset limit entities) (length entities)
                     limit offset).

(** The index branch of [findEntitiesByAgentId]. *)
Fixpoint get_agent_entities (type : string) (entityIds : list string)
  : M StorageManager (list Entity) :=
  match entityIds with
  | [] => mret []
  | entityId :: rest =>
      r ← try_catch (Some <$> getEntity entityId (Some "agent"))
                    (λ _, mret None);
      found ← get_agent_entities type rest;
      mret (match r with
            | Some entity =>
                if negb (truthy type) || bool_decide (ent_type entity = type)
                then entity :: found else found
            | None => found
            end)
  end.

(** [findEntitiesByAgentId] *)
Definition findEntitiesByAgentId (agentId type : string) (limit offset : nat)
  : M StorageManager (list Entity) :=
  s ← get_state;
  match agentId_index s !! agentId with
  | Some entityIds =>
      entities ← get_agent_entities type entityIds;
      mret (slice offset limit entities)
  | None =>
      if fs_dir_exists (files s) (DAgents agentId) then
        entities ← scan_files type (DAgents agentId)
                     (fs_dir_files (files s) (DAgents agentId));
        mret (slice offset limit entities)
      else mret []
  end.

(** [getAgentMemory]; [agent] is the [agentId] argument. *)
Definition getAgentMemory (agent memoryId : string)
  : M StorageManager Entity :=
  memory ← getEntity memoryId (Some "agent");
  if decide (agentId memory ≠ agent) then
    throw (mkError "Memory does not belong to the specified agent" None)
  else mret memory.

(** ** Further operations of the knowledge graph *)

(** [_loadIndices]: every file of the relations directory is indexed and
    cached. *)
Definition _loadIndices : M KnowledgeGraph unit :=
  g ← get_state;
  for_each (λ _ relationship,
              _ ← _indexRelationship relationship;
              _cacheRelationship relationship)
           (map_to_list (relFiles g)).*2 tt.

(** The [updates] argument of [updateRelationship].  Of the keys that a
    [Relationship] carries, [type] is the only one that [updates] can change:
    [id], [sourceId], [targetId], [created] and [updated] are overwritten
    after the spread.  Any other key is copied to an attribute that is not
    part of the record.  [""] is an [updates] object without a [type]. *)
Record RelationshipUpdates := mkRelationshipUpdates {
  upd_type : string
}.

(** [updateRelationship] *)
Definition updateRelationship (env : Env) (id : string)
  (updates : RelationshipUpdates) : M KnowledgeGraph Relationship :=
  relationship ← getRelationship id;
  let updatedRelationship :=
    mkRelationship (rel_id relationship) (sourceId relationship)
      (targetId relationship)
      (if truthy (upd_type updates) then upd_type updates
       else rel_type relationship)
      (rel_created relationship) (stamp_updated env) in
  _ ← modify (set_relFiles (<[id := updatedRelationship]>));
  _ ← _removeRelationshipFromIndices relationship;
  _ ← _indexRelationship updatedRelationship;
  _ ← _cacheRelationship updatedRelationship;
  mret updatedRelationship.

Record RelatedEntities := mkRelatedEntities {
  re_entities : list Entity;
  re_paths : gmap string PathInfo
}.

(** The defaults of [findRelatedEntities]. *)
Definition default_RelatedOptions : ConnectionOptions :=
  mkConnectionOptions None 1 "both" 10.

(** [traversalResult.paths[entity.id].distance] for an entity that has a
    path. *)
Definition distance_of (result : Traversal) (entity : Entity) : nat :=
  default 0 (distance <$> paths result !! ent_id entity).

(** [findRelatedEntities].  The comparator of the sort reads the path of
    both entities it is handed; it is called on every element as soon as
    there are two of them, and reading the distance of a missing path is a
    [TypeError]. *)
Definition findRelatedEntities (fuel : nat) (entityId : string)
  (options : ConnectionOptions) : M World RelatedEntities :=
  traversalResult ←
    traverseGraph fuel entityId (co_relationshipTypes options)
                  (co_maxDepth options) (co_direction options);
  let others :=
    filter (λ entity, ent_id entity ≠ entityId) (entities traversalResult) in
  if bool_decide (2 ≤ length others)
     && negb (forallb (λ entity,
                         bool_decide (is_Some (paths traversalResult
                                               !! ent_id entity)))
                      others)
  then
    throw (mkError "Cannot read properties of undefined (reading 'distance')"
                   None)
  else
    let sortedEntities :=
      take (co_limit options)
           (sort_by (λ a b, distance_of traversalResult a
                            <=? distance_of traversalResult b)
                    others) in
    mret (mkRelatedEntities sortedEntities (paths traversalResult)).

(** *** Invariants of the storage manager *)

(** A computation keeps a property of the state, whatever its outcome. *)
Definition preserves {S A} (P : S → Prop) (m : M S A) : Prop :=
  ∀ s, P s → P (m s).2.

(** The id sets of the metadata index hold no id twice. *)
Definition metadata_sets_NoDup
  (index : gmap string (gmap string (list string))) : Prop :=
  map_Forall (λ _ valueMap, index_sets_NoDup valueMap) index.

#[global] Instance metadata_sets_NoDup_dec index :
  Decision (metadata_sets_NoDup index).
Proof. unfold metadata_sets_NoDup. apply _. Defined.

(** The id sets of the three indices hold no id twice. *)
Definition indices_NoDup (s : StorageManager) : Prop :=
  index_sets_NoDup (text_index s)
  ∧ metadata_sets_NoDup (metadata_index s)
  ∧ index_sets_NoDup (agentId_index s).

#[global] Instance cache_bounded_dec s : Decision (cache_bounded s).
Proof. unfold cache_bounded. apply _. Defined.

#[global] Instance indices_NoDup_dec s : Decision (indices_NoDup s).
Proof. unfold indices_NoDup. apply _. Defined.

(** The public operations of the storage manager and the searches of the
    query engine, which run on it. *)
Inductive StorageCall :=
| StoreEntity (env : Env) (entity : Entity) (context : option string)
| GetEntity (id : string) (context : option string)
| UpdateEntity (env : Env) (id : string) (updates : EntityUpdates)
               (context : option string)
| DeleteEntity (id : string) (context : option string)
| ListEntities (type : string) (context : option string) (limit offset : nat)
| FindEntitiesByAgentId (agentId type : string) (limit offset : nat)
| GetAgentMemory (agent memoryId : string)
| SearchByText (query : string) (options : SearchOptions)
| SearchByMetadata (metadata : list (string * MetaValue))
                   (options : SearchOptions).

(** The state that a call leaves behind, whether it returns or throws. *)
Definition state_after (c : StorageCall) (s : StorageManager)
  : StorageManager :=
  match c with
  | StoreEntity env entity context => (storeEntity env entity context s).2
  | GetEntity id context => (getEntity id context s).2
  | UpdateEntity env id updates context =>
      (updateEntity env id updates context s).2
  | DeleteEntity id context => (deleteEntity id context s).2
  | ListEntities type context limit offset =>
      (listEntities type context limit offset s).2
  | FindEntitiesByAgentId agentId type limit offset =>
      (findEntitiesByAgentId agentId type limit offset s).2
  | GetAgentMemory agent memoryId => (getAgentMemory agent memoryId s).2
  | SearchByText query options => (searchByText query options s).2
  | SearchByMetadata metadata options =>
      (searchByMetadata metadata options s).2
  end.

(** The state reached from a fresh storage manager by a sequence of
    calls. *)
Definition state_reached (maxCacheSize : nat) (calls : list StorageCall)
  : StorageManager :=
  foldl (λ s c, state_after c s) (new_StorageManager maxCacheSize) calls.

(** A storage manager with room for one cached entity, holding
    [entity_x]. *)
Definition small_store : StorageManager :=
  (storeEntity sample_env entity_x None (new_StorageManager 1)).2.

(** The tokens under which [_indexEntity] files an entity in the text
    index. *)
Definition entity_tokens (entity : Entity) : list string :=
  _tokenizeText (content entity) ++ _tokenizeText (name entity)
  ++ _tokenizeText (description entity).

(** The id set that an index holds for a key (empty when it has none). *)
Definition ids_under (index : gmap string (list string)) (key : string)
  : list string :=
  default [] (index !! key).

(** An entity that carries an [agentId] and is stored without a context
    (so, in the shared directory). *)
Definition agent_note : Entity :=
  mkEntity "n1" "memory" "a1" "" "" "alpha beta" "" "" [] [] "" "".
(** [agent_note] as [storeEntity] returns it. *)
Definition agent_note_stored : Entity :=
  mkEntity "n1" "memory" "a1" "" "" "alpha beta" "" "" [] [] "T1" "T2".
Definition agent_note_store : StorageManager :=
  (storeEntity sample_env agent_note None (new_StorageManager 0)).2.

(** [context || this._getEntityContext(entity)] *)
Definition effective_context (context : option string) (entity : Entity)
  : string :=
  match context with
  | Some ctx => if truthy ctx then ctx else _getEntityContext entity
  | None => _getEntityContext entity
  end.

(** The state in which [deleteEntity] reaches [fs.unlink]: the entity has
    been looked up, removed from the indices and dropped from the cache. *)
Definition purged (s : StorageManager) (id : string) (context : option string)
  (entity : Entity) : StorageManager :=
  set_entityCache (omap_delete id)
    (_removeEntityFromIndices entity (after_lookup s id context)).2.

(** The id set that the metadata index holds for a key and a value. *)
Definition metadata_ids_under
  (index : gmap string (gmap string (list string))) (key value : string)
  : list string :=
  default [] (index !! key ≫= λ valueMap, valueMap !! value).

Definition enoent_unlink : Error :=
  mkError "ENOENT: no such file or directory, unlink" (Some "ENOENT").

Definition enoent_open : Error :=
  mkError "ENOENT: no such file or directory, open" (Some "ENOENT").

(** The state that a successful [updateEntity] leaves behind: the updated
    entity is written, the old one leaves the indices, the updated one
    enters them and the cache. *)
Definition updated_state (s : StorageManager) (id : string)
  (context : option string) (entity updatedEntity : Entity)
  : StorageManager :=
  cache_put updatedEntity
    (_indexEntity updatedEntity
       (_removeEntityFromIndices entity
          (set_files
             (λ fs, fs_writeFile fs
                      (_getEntityPath updatedEntity
                         (effective_context context entity)).1
                      (ent_id updatedEntity) updatedEntity)
             (after_lookup s id context))).2).2.

(** The type filter of [listEntities]. *)
Definition type_passes (type : string) (entity : Entity) : bool :=
  negb (truthy type) || bool_decide (ent_type entity = type).

(** The entities that the files of one directory hold and the type filter
    lets through, in the order of [fs.readdir]. *)
Definition dir_entities (fs : Files) (type : string) (d : Dir)
  : list Entity :=
  filter (λ entity, type_passes type entity = true)
         (omap (fs_readFile fs d) (fs_dir_files fs d)).

(** The entities of [listEntities] before pagination. *)
Definition all_listed (fs : Files) (type : string) (context : option string)
  : list Entity :=
  list_directories fs context ≫= dir_entities fs type.

(** An [updates] object without keys, and one that replaces the content. *)
Definition no_updates : EntityUpdates :=
  mkEntityUpdates None None None None None None None None.
Definition new_content (text : string) : EntityUpdates :=
  mkEntityUpdates None None None (Some text) None None None None.

(** *** Invariants of the knowledge graph *)

(** Every relationship file is indexed under its source, its target and
    its type. *)
Definition index_complete (g : KnowledgeGraph) : Prop :=
  map_Forall (λ id r,
                id ∈ ids_under (source_index g) (sourceId r)
                ∧ id ∈ ids_under (target_index g) (targetId r)
                ∧ id ∈ ids_under (type_index g) (rel_type r))
             (relFiles g).

#[global] Instance index_complete_dec g : Decision (index_complete g).
Proof. unfold index_complete. apply _. Defined.

(** The relationship cache is within its configured, positive bound. *)
Definition rel_cache_bounded (g : KnowledgeGraph) : Prop :=
  1 ≤ kg_maxCacheSize g ∧ length (relationshipCache g) ≤ kg_maxCacheSize g.

#[global] Instance rel_cache_bounded_dec g : Decision (rel_cache_bounded g).
Proof. unfold rel_cache_bounded. apply _. Defined.

(** What every operation of the knowledge graph keeps: files are named
    after the id they hold, the cache agrees with the files, holds no key
    twice and is within its bound, and every file is indexed. *)
Definition kg_inv (g : KnowledgeGraph) : Prop :=
  graph_ok g
  ∧ NoDup (relationshipCache g).*1
  ∧ rel_cache_bounded g
  ∧ index_complete g.

#[global] Instance kg_inv_dec g : Decision (kg_inv g).
Proof. unfold kg_inv. apply _. Defined.

(** The operations of the knowledge graph that touch its own state
    only. *)
Inductive GraphCall :=
| CreateRelationship (env : Env) (relationship : Relationship)
| GetRelationship (id : string)
| UpdateRelationship (env : Env) (id : string) (updates : RelationshipUpdates)
| DeleteRelationship (id : string)
| ListRelationships (entityId : string) (type : option string)
                    (direction : string) (limit offset : nat)
| LoadIndices.

(** The state that a call leaves behind, whether it returns or throws. *)
Definition graph_after (c : GraphCall) (g : KnowledgeGraph) : KnowledgeGraph :=
  match c with
  | CreateRelationship env relationship =>
      (createRelationship env relationship g).2
  | GetRelationship id => (getRelationship id g).2
  | UpdateRelationship env id updates => (updateRelationship env id updates g).2
  | DeleteRelationship id => (deleteRelationship id g).2
  | ListRelationships entityId type direction limit offset =>
      (listRelationships entityId type direction limit offset g).2
  | LoadIndices => (_loadIndices g).2
  end.

(** The relationship that [createRelationship] stores for a valid
    argument: the id is kept or generated, the creation stamp is kept or
    set, the update stamp is set. *)
Definition created_relationship (env : Env) (relationship : Relationship)
  : Relationship :=
  mkRelationship
    (if truthy (rel_id relationship) then rel_id relationship
     else "rel_" ++ fresh env)
    (sourceId relationship) (targetId relationship) (rel_type relationship)
    (if truthy (rel_created relationship) then rel_created relationship
     else stamp_created env)
    (stamp_updated env).

(** The first complaint of [createRelationship] about its argument. *)
Definition relationship_complaint (relationship : Relationship)
  : option string :=
  if negb (truthy (sourceId relationship)) then
    Some "Relationship must have a source ID"
  else if negb (truthy (targetId relationship)) then
    Some "Relationship must have a target ID"
  else if negb (truthy (rel_type relationship)) then
    Some "Relationship must have a type"
  else None.

(** The relationship that [updateRelationship] stores. *)
Definition updated_relationship (env : Env) (relationship : Relationship)
  (updates : RelationshipUpdates) : Relationship :=
  mkRelationship (rel_id relationship) (sourceId relationship)
    (targetId relationship)
    (if truthy (upd_type updates) then upd_type updates
     else rel_type relationship)
    (rel_created relationship) (stamp_updated env).

(** A knowledge graph that has just been constructed over a relations
    directory that already holds files. *)
Definition cold_graph (relations : gmap string Relationship)
  (option_maxCacheSize : nat) : KnowledgeGraph :=
  set_relFiles (λ _, relations) (new_KnowledgeGraph option_maxCacheSize).

(** The relations directory of the chain A - B - C - D. *)
Definition chain_relations : gmap string Relationship :=
  relFiles (knowledgeGraph chain_world).

(** *** The loop invariants of the traversal *)

(** What holds of the queue, the visited set and the result between two
    iterations of the [while] loop of [_traverseBFS], in every world: no
    relationship id is recorded twice, every queued entity has a path of
    the queued depth, every path has as many steps as its distance says,
    is within [maxDepth], belongs to a visited entity and runs over
    recorded relationships, and the start entity is first and at distance
    0. *)
Definition paths_inv (maxDepth : nat) (start : string) (startEntity : Entity)
  (queue : list (string * nat)) (visited : gset string) (result : Traversal)
  : Prop :=
  NoDup (rel_id <$> relationships result)
  ∧ (∀ u d, (u, d) ∈ queue →
            ∃ p, paths result !! u = Some p ∧ distance p = d)
  ∧ (∀ v p, paths result !! v = Some p →
            length (path p) = distance p ∧ distance p ≤ maxDepth ∧ v ∈ visited
            ∧ Forall (λ step, relationshipId step
                              ∈ rel_id <$> relationships result) (path p))
  ∧ paths result !! start = Some (mkPathInfo 0 [])
  ∧ head (entities result) = Some startEntity.

(** The same while the relationships of the dequeued [(entityId, depth)]
    are visited. *)
Definition paths_inv_at (maxDepth : nat) (start : string)
  (startEntity : Entity) (entityId : string) (depth : nat)
  (queue : list (string * nat)) (visited : gset string) (result : Traversal)
  : Prop :=
  paths_inv maxDepth start startEntity queue visited result
  ∧ depth < maxDepth
  ∧ ∃ p, paths result !! entityId = Some p ∧ distance p = depth.

(** In a world whose entities are filed under their ids, moreover: no
    entity is recorded twice, and the entities recorded are those that have
    a path. *)
Definition entities_inv (result : Traversal) : Prop :=
  NoDup (ent_id <$> entities result)
  ∧ ∀ v, v ∈ ent_id <$> entities result ↔ is_Some (paths result !! v).

(** A lookup that returns entities under their own id. *)
Definition resolves_by_id (resolve : string → option Entity) : Prop :=
  ∀ id e, resolve id = Some e → ent_id e = id.

(** The direction recorded in a path step. *)
Definition direction_from (entityId : string) (r : Relationship) : string :=
  if decide (sourceId r = entityId) then "outgoing" else "incoming".

(** The error of [getAgentMemory] for a memory of another agent. *)
Definition not_the_agents : Error :=
  mkError "Memory does not belong to the specified agent" None.

(** A memory of the agent ["a1"], stored in the agent partition. *)
Definition agent_memory_store : StorageManager :=
  (storeEntity sample_env agent_note (Some "agent") (new_StorageManager 0)).2.

(** A character that a token may hold: a word character that is not an
    upper-case letter. *)
Definition token_char (c : ascii) : Prop :=
  is_word c = true ∧ is_upper c = false.

(** The score of a search result. *)
Definition score_of (item : Entity * (string * Q)) : Q := item.2.2.

(** The entity carries the value under the metadata key: as a scalar, as
    an item of an array, or (for the key ["tags"]) as one of its tags. *)
Definition has_metadata (entity : Entity) (key value : string) : Prop :=
  (key, MScalar value) ∈ metadata entity
  ∨ (∃ items, (key, MArray items) ∈ metadata entity ∧ value ∈ items)
  ∨ (key = "tags" ∧ value ∈ tags entity).

(** [sample_note] with a tag. *)
Definition tagged_note : Entity :=
  mkEntity "t1" "memory" "" "" "" "alpha" "" ""
    [("color", MScalar "red")] ["urgent"] "" "".
Definition tagged_note_stored : Entity :=
  mkEntity "t1" "memory" "" "" "" "alpha" "" ""
    [("color", MScalar "red")] ["urgent"] "T1" "T2".
Definition tagged_note_store : StorageManager :=
  (storeEntity sample_env tagged_note None (new_StorageManager 0)).2.

(** The type filter of the traversal holds of every relationship of the
    result and of every step of every path. *)
Definition types_inv (relationshipTypes : option (list string))
  (result : Traversal) : Prop :=
  Forall (λ r, type_allowed relationshipTypes r = true) (relationships result)
  ∧ ∀ v p, paths result !! v = Some p →
           Forall (λ step,
                     match relationshipTypes with
                     | Some types => relationshipType step ∈ types
                     | None => True
                     end) (path p).

(** The state reached from a fresh knowledge graph by a sequence of
    calls. *)
Definition graph_reached (maxCacheSize : nat) (calls : list GraphCall)
  : KnowledgeGraph :=
  foldl (λ g c, graph_after c g) (new_KnowledgeGraph maxCacheSize) calls.

(** ** Storing a memory of an agent *)

(** The argument of [storeAgentMemory]; an absent [id] or [content] is
    [""], absent [tags] and [metadata] are empty. *)
Record Memory := mkMemory {
  mem_id : string;
  mem_content : string;
  mem_tags : list string;
  mem_metadata : list (string * MetaValue)
}.

(** [storeAgentMemory].  The [timestamp] that the method adds to the
    entity is an attribute that no code reads and that the [Entity] record
    does not carry. *)
Definition storeAgentMemory (env : Env) (agent : string) (memory : Memory)
  : M StorageManager Entity :=
  if negb (truthy (mem_content memory)) then
    throw (mkError "Memory must have content" None)
  else
    let memoryEntity :=
      mkEntity (if truthy (mem_id memory) then mem_id memory
                else "memory_" ++ fresh env)
               "memory" agent "" "" (mem_content memory) "" ""
               (mem_metadata memory) (mem_tags memory) "" "" in
    storeEntity env memoryEntity (Some "agent").

(** A memory and the entity that [storeAgentMemory] makes of it for the
    agent ["a1"]. *)
Definition sample_memory : Memory := mkMemory "" "alpha beta" ["urgent"] [].
Definition sample_memory_stored : Entity :=
  mkEntity "memory_1700000000000_a1b2c3d4" "memory" "a1" "" "" "alpha beta"
    "" "" [] ["urgent"] "T1" "T2".

(** ** Calls on plain names *)

(** The names that [_getEntityPath] joins into the path of the entity are
    plain. *)
Definition plain_entity (entity : Entity) : bool :=
  plain_name (ent_id entity) && plain_dir_name (agentId entity)
  && plain_dir_name (projectId entity) && plain_dir_name (templateId entity).

(** So are the directory names that the [updates] of [updateEntity] bring. *)
Definition plain_updates (updates : EntityUpdates) : bool :=
  from_option plain_dir_name true (up_agentId updates)
  && from_option plain_dir_name true (up_projectId updates)
  && from_option plain_dir_name true (up_templateId updates).

(** Every id and directory name that the call hands over, and the id that
    it may generate, is plain. *)
Definition plain_storage_call (c : StorageCall) : bool :=
  match c with
  | StoreEntity env entity _ => plain_name (fresh env) && plain_entity entity
  | GetEntity id _ => plain_name id
  | UpdateEntity _ id updates _ => plain_name id && plain_updates updates
  | DeleteEntity id _ => plain_name id
  | ListEntities _ _ _ _ => true
  | FindEntitiesByAgentId agentId _ _ _ => plain_dir_name agentId
  | GetAgentMemory _ memoryId => plain_name memoryId
  | SearchByText _ _ => true
  | SearchByMetadata _ _ => true
  end.

Definition plain_graph_call (c : GraphCall) : bool :=
  match c with
  | CreateRelationship env relationship =>
      plain_name (fresh env) && plain_name (rel_id relationship)
  | GetRelationship id => plain_name id
  | UpdateRelationship _ id _ => plain_name id
  | DeleteRelationship id => plain_name id
  | ListRelationships _ _ _ _ _ => true
  | LoadIndices => true
  end.

(** A short history of a storage manager and of a knowledge graph. *)
Definition plain_calls : list StorageCall :=
  [StoreEntity sample_env entity_x None;
   StoreEntity sample_env agent_note (Some "agent");
   UpdateEntity sample_env "x" (new_content "delta") None;
   SearchByText "delta" default_SearchOptions;
   DeleteEntity "n1" None].
Definition plain_graph_calls : list GraphCall :=
  [CreateRelationship sample_env (edge "r" "e" "e" "self");
   UpdateRelationship sample_env "r" (mkRelationshipUpdates "other");
   ListRelationships "e" None "both" 100 0;
   DeleteRelationship "r"].

(** ** The searches in the words of the specification *)

(** The post-hoc filters: under an [agentId] option an id passes when the
    cache holds, under that id, an entity with that [agentId]; an entity
    that is not cached does not pass.  The same holds of a [type] option. *)
Definition passes_filters (s : StorageManager) (options : SearchOptions)
  (id : string) : bool :=
  (negb (truthy (so_agentId options))
   || match omap_get id (entityCache s) with
      | Some entity => bool_decide (agentId entity = so_agentId options)
      | None => false
      end)
  && (negb (truthy (so_type options))
      || match omap_get id (entityCache s) with
         | Some entity => bool_decide (ent_type entity = so_type options)
         | None => false
         end).

(** [set] is the index set of a key/value pair of the query that is
    present in the metadata index. *)
Definition indexed_pair (index : gmap string (gmap string (list string)))
  (metadata : list (string * MetaValue)) (set : list string) : Prop :=
  ∃ key value valueMap,
    (key, value) ∈ metadata ∧ index !! key = Some valueMap
    ∧ valueMap !! String_of value = Some set.

(** The ids that a metadata query matches: those of the intersection of
    the index sets of its pairs that are present in the index (none when no
    pair is present), or those of their union. *)
Definition matching_ids (matchAll : bool)
  (index : gmap string (gmap string (list string)))
  (metadata : list (string * MetaValue)) (id : string) : Prop :=
  if matchAll then
    (∃ set, indexed_pair index metadata set)
    ∧ ∀ set, indexed_pair index metadata set → id ∈ set
  else ∃ set, indexed_pair index metadata set ∧ id ∈ set.

(** A store that holds eleven entities tagged [{color: "red"}], ["e1"] to
    ["e11"]. *)
Definition crowded_store : StorageManager :=
  foldl (λ s n,
           (storeEntity sample_env
              (mkEntity ("e" ++ pretty n) "item" "" "" "" "" "" ""
                        [("color", MScalar "red")] [] "" "")
              None s).2)
        (new_StorageManager 0) (seq 1 11).







(** ** Calls that run together *)

(** An asynchronous call, as the calls that run beside it see it: it has
    come to its end, or it waits at an [await].  A call that waits is
    resumed in the state that the other calls have left; it then runs
    without interruption up to its next [await] or to its end, which leaves
    the state [effect s] and the call [next s]. *)
Inductive Task (S A : Type) : Type :=
| Finished (outcome : Outcome A)
| Waiting (effect : S → S) (next : S → Task S A).
Arguments Finished {S A} outcome.
Arguments Waiting {S A} effect next.

(** [await] of a piece of code that runs without interruption once it is
    resumed. *)
Definition await {S A} (m : M S A) : Task S A :=
  Waiting (λ s, (m s).2) (λ s, Finished (m s).1).

Fixpoint task_bind {S A B} (f : A → Task S B) (t : Task S A) : Task S B :=
  match t with
  | Finished (Ret a) => f a
  | Finished (Throw e) => Finished (Throw e)
  | Finished Timeout => Finished Timeout
  | Waiting effect next => Waiting effect (λ s, task_bind f (next s))
  end.

#[global] Instance Task_ret {S} : MRet (Task S) := λ A a, Finished (Ret a).
#[global] Instance Task_bind {S} : MBind (Task S) := λ A B f t, task_bind f t.
#[global] Instance Task_fmap {S} : FMap (Task S) := λ A B f t,
  task_bind (λ a, Finished (Ret (f a))) t.

(** [try { t } catch (error) { h error }] *)
Fixpoint task_try {S A} (t : Task S A) (h : Error → Task S A) : Task S A :=
  match t with
  | Finished (Throw e) => h e
  | Finished outcome => Finished outcome
  | Waiting effect next => Waiting effect (λ s, task_try (next s) h)
  end.

(** A call that runs alone: nothing happens between its steps. *)
Fixpoint run_task {S A} (t : Task S A) : M S A := λ s,
  match t with
  | Finished outcome => (outcome, s)
  | Waiting effect next => run_task (next s) (effect s)
  end.

(** What [Promise.all] has to report of the calls it was handed: the
    failure of a call that has failed, the results when every call has
    returned, and nothing ([None]) while a call waits and none has
    failed. *)
Fixpoint settled {S A} (tasks : list (Task S A)) : option (Outcome (list A)) :=
  match tasks with
  | [] => Some (Ret [])
  | Finished (Ret a) :: rest =>
      match settled rest with
      | Some (Ret results) => Some (Ret (a :: results))
      | other => other
      end
  | Finished (Throw e) :: _ => Some (Throw e)
  | Finished Timeout :: _ => Some Timeout
  | Waiting _ _ :: rest =>
      match settled rest with
      | Some (Ret _) => None
      | other => other
      end
  end.

(** The call at position [i] is resumed, if it waits. *)
Definition resume {S A} (i : nat) (tasks : list (Task S A)) (s : S)
  : list (Task S A) * S :=
  match tasks !! i with
  | Some (Waiting effect next) => (<[i := next s]> tasks, effect s)
  | _ => (tasks, s)
  end.

(** [Promise.all(tasks)]: the calls have been started together and their
    steps interleave.  Which call is resumed next depends on the order in
    which the file system completes their reads, so the order is an
    argument: [schedule] names, turn by turn, the call that is resumed (a
    turn that names a call that does not wait is lost), and when it runs
    out the calls that still wait are run to their ends one after the
    other.  [Promise.all] fails as soon as one call fails; the calls that
    then still wait go on in the code, but nothing awaits them any more, and
    the model does not follow them. *)
Fixpoint promise_all {S A} (schedule : list nat) (tasks : list (Task S A))
  : M S (list A) := λ s,
  match settled tasks with
  | Some outcome => (outcome, s)
  | None =>
      match schedule with
      | [] => mapM run_task tasks s
      | i :: schedule =>
          let '(tasks, s) := resume i tasks s in
          promise_all schedule tasks s
      end
  end.

(** [this.storageManager.getEntity(id)] beside other calls: the test of
    the cache and, on a miss, what follows the first [await].  Between the
    test of the cache and the caching of the entity that was read, the call
    only reads directories and files, which no call that the model runs
    beside it writes; these reads are one step with the caching. *)
Definition getEntity_task (id : string) (context : option string)
  : Task World Entity :=
  cached ← await (on_storage (s ← get_state;
                              mret (omap_get id (entityCache s))));
  match cached with
  | Some entity => mret entity
  | None => await (on_storage (getEntity_miss id context))
  end.

(** The part of [getRelationship] that follows a miss in the cache. *)
Definition getRelationship_miss (id : string)
  : M KnowledgeGraph Relationship :=
  g ← get_state;
  match relFiles g !! id with
  | Some relationship =>
      _ ← _cacheRelationship relationship; mret relationship
  | None => throw (mkError ("Relationship not found: " ++ id) None)
  end.

(** [getRelationship] beside other calls. *)
Definition getRelationship_task (id : string) : Task World Relationship :=
  cached ← await (on_graph (g ← get_state;
                            mret (omap_get id (relationshipCache g))));
  match cached with
  | Some relationship => mret relationship
  | None => await (on_graph (getRelationship_miss id))
  end.

(** [collect_relationships] beside other calls. *)
Fixpoint collect_relationships_task (type : option string) (ids : list string)
  : Task World (list Relationship) :=
  match ids with
  | [] => mret []
  | id :: rest =>
      r ← task_try (Some <$> getRelationship_task id) (λ _, mret None);
      found ← collect_relationships_task type rest;
      mret (match r with
            | Some relationship =>
                if negb (truthy (default "" type))
                   || bool_decide (rel_type relationship = default "" type)
                then relationship :: found else found
            | None => found
            end)
  end.

(** [listRelationships] beside other calls. *)
Definition listRelationships_task (entityId : string) (type : option string)
  (direction : string) (limit offset : nat) : Task World RelationshipPage :=
  g ← await (on_graph get_state);
  outgoing ←
    (if bool_decide (direction = "outgoing") || bool_decide (direction = "both")
     then match source_index g !! entityId with
          | Some relationshipIds =>
              collect_relationships_task type relationshipIds
          | None => mret []
          end
     else mret []);
  g ← await (on_graph get_state);
  incoming ←
    (if bool_decide (direction = "incoming") || bool_decide (direction = "both")
     then match target_index g !! entityId with
          | Some relationshipIds =>
              collect_relationships_task type relationshipIds
          | None => mret []
          end
     else mret []);
  let relationships := outgoing ++ incoming in
  mret (mkRelationshipPage (slice offset limit relationships)
                           (length relationships) limit offset).

(** [visit_relationship] beside other calls: the queue, the visited set
    and the result belong to the traversal, the lookup of the connected
    entity is shared. *)
Definition visit_relationship_task (relationshipTypes : option (list string))
  (entityId : string) (depth : nat)
  (acc : list (string * nat) * gset string * Traversal)
  (relationship : Relationship)
  : Task World (list (string * nat) * gset string * Traversal) :=
  let '(queue, visited, result) := acc in
  if match relationshipTypes with
     | Some types => negb (bool_decide (rel_type relationship ∈ types))
     | None => false
     end
  then mret acc
  else
    let result :=
      if existsb (λ r, bool_decide (rel_id r = rel_id relationship))
                 (relationships result)
      then result
      else mkTraversal (entities result)
                       (relationships result ++ [relationship])
                       (paths result) in
    let connectedEntityId :=
      if decide (sourceId relationship = entityId)
      then targetId relationship else sourceId relationship in
    if decide (connectedEntityId ∈ visited) then mret (queue, visited, result)
    else
      let visited := visited ∪ {[connectedEntityId]} in
      resolved ← task_try (Some <$> getEntity_task connectedEntityId None)
                          (λ _, mret None);
      match resolved with
      | None => mret (queue, visited, result)
      | Some connectedEntity =>
          let result := mkTraversal (entities result ++ [connectedEntity])
                                    (relationships result) (paths result) in
          match paths result !! entityId with
          | None => mret (queue, visited, result)
          | Some here =>
              let step :=
                mkPathStep (rel_id relationship) (rel_type relationship)
                  (if decide (sourceId relationship = entityId)
                   then "outgoing" else "incoming") in
              let result :=
                mkTraversal (entities result) (relationships result)
                  (<[connectedEntityId :=
                       mkPathInfo (depth + 1) (path here ++ [step])]>
                     (paths result)) in
              mret (queue ++ [(connectedEntityId, depth + 1)], visited, result)
          end
      end.

Fixpoint for_each_task {S A B} (body : B → A → Task S B) (l : list A) (acc : B)
  : Task S B :=
  match l with
  | [] => mret acc
  | x :: rest => acc ← body acc x; for_each_task body rest acc
  end.

(** [_traverseBFS] beside other calls. *)
Fixpoint _traverseBFS_task (fuel : nat)
  (relationshipTypes : option (list string)) (maxDepth : nat)
  (direction : string) (queue : list (string * nat)) (visited : gset string)
  (result : Traversal) : Task World (gset string * Traversal) :=
  match queue with
  | [] => mret (visited, result)
  | (entityId, depth) :: queue =>
      match fuel with
      | 0 => Finished Timeout
      | S fuel =>
          if decide (maxDepth ≤ depth) then
            _traverseBFS_task fuel relationshipTypes maxDepth direction
                              queue visited result
          else
            page ← listRelationships_task entityId None direction 1000 0;
            '(queue, visited, result) ←
              for_each_task
                (visit_relationship_task relationshipTypes entityId depth)
                (page_relationships page) (queue, visited, result);
            _traverseBFS_task fuel relationshipTypes maxDepth direction
                              queue visited result
      end
  end.

(** [traverseGraph] beside other calls. *)
Definition traverseGraph_task (fuel : nat) (startEntityId : string)
  (relationshipTypes : option (list string)) (maxDepth : nat)
  (direction : string) : Task World Traversal :=
  startEntity ← getEntity_task startEntityId None;
  let visited : gset string := {[startEntityId]} in
  let result := mkTraversal [startEntity] []
                  {[startEntityId := mkPathInfo 0 []]} in
  '(_, result) ← _traverseBFS_task fuel relationshipTypes maxDepth direction
                   [(startEntityId, 0)] visited result;
  mret result.

(** [findCommonConnections]: the traversals run together, and so do the
    lookups of the common entities; [traversals_schedule] and
    [entities_schedule] are the orders in which their steps interleave. *)
Definition findCommonConnections (traversals_schedule entities_schedule
                                    : list nat)
  (fuel : nat) (entityIds : list string) (options : ConnectionOptions)
  : M World (list Entity) :=
  if decide (length entityIds < 2) then
    throw (mkError "At least two entity IDs are required" None)
  else
    traversalResults ←
      promise_all traversals_schedule
        ((λ entityId,
            traverseGraph_task fuel entityId (co_relationshipTypes options)
                               (co_maxDepth options) (co_direction options))
           <$> entityIds);
    commonEntities ←
      promise_all entities_schedule
        ((λ id, getEntity_task id None)
           <$> commonEntityIds entityIds traversalResults);
    let scored :=
      (λ entity, (entity, avgDistance traversalResults entity))
        <$> commonEntities in
    mret (take (co_limit options)
               (sort_by (λ a b, Qle_bool a.2 b.2) scored)).*1.

(** ** Vocabulary of calls that run together *)

(** Whatever steps of other calls that keep [Inv] come between its own,
    the call keeps [Inv] and comes to an end that satisfies [Φ]. *)
Inductive ends_in {S A} (Inv : S → Prop) (Φ : Outcome A → Prop)
  : Task S A → Prop :=
| ends_finished outcome : Φ outcome → ends_in Inv Φ (Finished outcome)
| ends_waiting effect next :
    (∀ s, Inv s → Inv (effect s)) →
    (∀ s, Inv s → ends_in Inv Φ (next s)) →
    ends_in Inv Φ (Waiting effect next).

(** A call runs as a piece of sequential code does, when it runs alone. *)
Definition runs_as {S A} (t : Task S A) (m : M S A) : Prop :=
  ∀ s, run_task t s = m s.

(** What the outcome of [Promise.all] has to do with the ends of the calls:
    its results are ends of the calls, one each and in order, and its
    failure is the end of one of them. *)
Definition all_end {A} (Φs : list (Outcome A → Prop))
  (outcome : Outcome (list A)) : Prop :=
  match outcome with
  | Ret results => Forall2 (λ Φ a, Φ (Ret a)) Φs results
  | Throw e => Exists (λ Φ, Φ (Throw e)) Φs
  | Timeout => Exists (λ Φ, Φ Timeout) Φs
  end.

(** What the calls that run beside a traversal of the world [w] keep: the
    world stays coherent and shows the files and indices of [w]. *)
Definition beside (w w' : World) : Prop := world_ok w' ∧ same_view w w'.

(** The traversal that [findCommonConnections] starts from each id. *)
Definition traverse_task_from (fuel : nat) (options : ConnectionOptions)
  (entityId : string) : Task World Traversal :=
  traverseGraph_task fuel entityId (co_relationshipTypes options)
                     (co_maxDepth options) (co_direction options).

(** [out] is what [findCommonConnections] makes of the traversals: the
    first [limit] entities of a ranking that holds, once each, the
    entities that every traversal reached and that are not among the given
    ids, in ascending order of their mean recorded distance. *)
Definition common_ranking (entityIds : list string) (limit : nat)
  (traversals : list Traversal) (out : list Entity) : Prop :=
  ∃ ranked,
    NoDup (ent_id <$> ranked)
    ∧ (∀ id, id ∈ ent_id <$> ranked ↔
         (id ∉ entityIds)
         ∧ ∀ t, t ∈ traversals → id ∈ ent_id <$> entities t)
    ∧ StronglySorted
        (λ a b, (mean_distance traversals (ent_id a)
                 <= mean_distance traversals (ent_id b))%Q) ranked
    ∧ out = take limit ranked.

(** A world in which the file ["B"] holds an entity whose id is ["Z"]:
    the relationships name the entity ["B"], the traversals record a path
    for ["B"] and list the entity under its own id ["Z"].  ["C"] is an
    entity filed under its id; both are one hop from ["A"] and from ["D"],
    and ["C"] is met first. *)
Definition misfiled_world : World :=
  ((_ ← on_storage (storeEntity sample_env (node "A") None);
    _ ← on_storage (storeEntity sample_env (node "C") None);
    _ ← on_storage (storeEntity sample_env (node "D") None);
    _ ← on_storage (modify (set_files (λ fs,
           fs_writeFile fs DShared "B" (stored_node "Z"))));
    _ ← on_graph (createRelationship sample_env (edge "ac" "A" "C" "link"));
    _ ← on_graph (createRelationship sample_env (edge "dc" "D" "C" "link"));
    _ ← on_graph (createRelationship sample_env (edge "ab" "A" "B" "link"));
    _ ← on_graph (createRelationship sample_env (edge "db" "D" "B" "link"));
    mret tt) (new_World 0 0)).2.

(** * Properties *)

(** ** Ordered maps *)

Section omap_facts.
Context {V : Type}.
Implicit Types (m : list (string * V)) (k : string) (v : V).

Lemma omap_get_set_eq k v m : omap_get k (omap_set k v m) = Some v.
Proof.
  induction m as [|[k' v'] m IH]; simpl.
  - by rewrite decide_True.
  - destruct (decide (k = k')) as [->|Hne]; simpl.
    + by rewrite decide_True.
    + by rewrite decide_False.
Qed.

Lemma omap_get_set_ne k k' v m :
  k ≠ k' → omap_get k (omap_set k' v m) = omap_get k m.
Proof.
  intros Hne. induction m as [|[k0 v0] m IH]; simpl.
  - by rewrite decide_False.
  - destruct (decide (k' = k0)) as [->|Hne'], (decide (k = k0)) as [->|Hne''];
      simpl; try done.
    + by rewrite decide_False.
    + by rewrite decide_True.
    + by rewrite decide_False.
Qed.

Lemma omap_get_delete_ne k k' m :
  k ≠ k' → omap_get k (omap_delete k' m) = omap_get k m.
Proof.
  intros Hne. unfold omap_delete. induction m as [|[k0 v0] m IH]; [done|].
  rewrite filter_cons. simpl. destruct (decide (k0 ≠ k')) as [H|H]; simpl.
  - by rewrite IH.
  - apply dec_stable in H. subst k0. by rewrite decide_False.
Qed.

Lemma omap_get_delete_eq k m : omap_get k (omap_delete k m) = None.
Proof.
  unfold omap_delete. induction m as [|[k0 v0] m IH]; [done|].
  rewrite filter_cons. simpl. destruct (decide (k0 ≠ k)) as [H|H]; simpl.
  - by rewrite decide_False.
  - done.
Qed.

Lemma omap_get_elem_of k v m : omap_get k m = Some v → (k, v) ∈ m.
Proof.
  induction m as [|[k0 v0] m IH]; simpl; [done|].
  destruct (decide (k = k0)) as [->|Hne].
  - intros [= ->]. left.
  - intros H. right. auto.
Qed.

Lemma omap_get_None k m : omap_get k m = None ↔ k ∉ m.*1.
Proof.
  induction m as [|[k0 v0] m IH]; simpl.
  - split; [intros _; apply not_elem_of_nil | done].
  - rewrite not_elem_of_cons. destruct (decide (k = k0)) as [->|Hne].
    + split; [done | intros [? _]; done].
    + rewrite IH. naive_solver.
Qed.

Lemma omap_set_length k v m :
  length (omap_set k v m) =
  match omap_get k m with Some _ => length m | None => S (length m) end.
Proof.
  induction m as [|[k0 v0] m IH]; simpl; [done|].
  destruct (decide (k = k0)); simpl; [done|].
  rewrite IH. by destruct (omap_get k m).
Qed.

Lemma omap_set_subseteq k v m p : p ∈ omap_set k v m → p = (k, v) ∨ p ∈ m.
Proof.
  induction m as [|[k0 v0] m IH]; simpl.
  - rewrite list_elem_of_singleton. auto.
  - destruct (decide (k = k0)); rewrite !elem_of_cons; naive_solver.
Qed.

Lemma omap_delete_subseteq k m p : p ∈ omap_delete k m → p ∈ m.
Proof. unfold omap_delete. rewrite list_elem_of_filter. tauto. Qed.

Lemma omap_delete_length k m : length (omap_delete k m) ≤ length m.
Proof. apply length_filter. Qed.

Lemma omap_deletes_subseteq keys m p :
  p ∈ foldl (λ acc key, omap_delete key acc) m keys → p ∈ m.
Proof.
  revert m. induction keys as [|key keys IH]; simpl; [done|].
  intros m H. apply IH in H. by apply omap_delete_subseteq in H.
Qed.

Lemma omap_trim_subseteq n m p : p ∈ omap_trim n m → p ∈ m.
Proof.
  unfold omap_trim. case_decide; [|done]. apply omap_deletes_subseteq.
Qed.

(** The entry that was just set survives the trimming of a cache that was
    within its bound. *)
Lemma omap_get_trim_set n k v m :
  1 ≤ n → length m ≤ n →
  omap_get k (omap_trim n (omap_set k v m)) = Some v.
Proof.
  intros Hn Hlen. unfold omap_trim.
  pose proof (omap_set_length k v m) as Hl.
  destruct (omap_get k m) as [v0|] eqn:Hget.
  - rewrite decide_False by lia. apply omap_get_set_eq.
  - case_decide as Hgt; [|apply omap_get_set_eq].
    rewrite Hl. replace (S (length m) - n) with 1 by lia.
    destruct m as [|[k0 v0] m]; simpl in *; [lia|].
    destruct (decide (k = k0)) as [->|Hne]; [done|]. simpl.
    rewrite omap_get_delete_ne by done. simpl.
    rewrite decide_False by done. apply omap_get_set_eq.
Qed.

Lemma omap_trim_length n m :
  length m ≤ S n → NoDup m.*1 → length (omap_trim n m) ≤ n.
Proof.
  intros Hlen Hnd. unfold omap_trim. case_decide as Hgt; [|lia].
  replace (length m - n) with 1 by lia.
  destruct m as [|[k0 v0] m]; simpl in *; [lia|].
  unfold omap_delete. rewrite filter_cons. simpl.
  rewrite decide_False by (intros H; by apply H).
  etrans; [apply length_filter|]. lia.
Qed.
End omap_facts.

(** ** Entity store: round trip, partitions, deletion *)

Lemma new_StorageManager_bounded n : cache_bounded (new_StorageManager n).
Proof.
  unfold cache_bounded, new_StorageManager. simpl. case_decide; lia.
Qed.

(** What a successful [storeEntity] leaves behind. *)
Lemma storeEntity_Ret env e ctx s stored s' :
  storeEntity env e ctx s = (Ret stored, s') →
  ent_type stored ≠ "" ∧
  files s' = fs_writeFile (files s) (_getEntityPath stored (default "shared" ctx)).1
                          (ent_id stored) stored ∧
  entityCache s' =
    omap_trim (maxCacheSize s) (omap_set (ent_id stored) stored (entityCache s)) ∧
  maxCacheSize s' = maxCacheSize s.
Proof.
  unfold storeEntity.
  set (e1 := if truthy (ent_id e) then e else set_ent_id _ e).
  destruct (truthy (ent_type e1)) eqn:Hty; simpl; [|by unfold throw].
  unfold _indexEntity, _cacheEntity. unfold_monad. simpl.
  intros [= <- <-]. simpl. split_and!; try done.
  by destruct (ent_type e1).
Qed.

(** C1. Round trip: after [storeEntity] has succeeded and returned the
    stored entity, [getEntity] with the stored id and the same context
    returns that very entity (all attributes, the [updated] stamp included),
    whatever the context. *)
Theorem store_get_roundtrip env e ctx s stored s' :
  cache_bounded s →
  storeEntity env e ctx s = (Ret stored, s') →
  getEntity (ent_id stored) ctx s' = (Ret stored, s').
Proof.
  intros [Hmax Hlen] Hstore.
  apply storeEntity_Ret in Hstore as (_ & _ & Hcache & _).
  unfold getEntity. unfold_monad. rewrite Hcache.
  by rewrite omap_get_trim_set.
Qed.

Lemma store_get_roundtrip_witness :
  let s' := (storeEntity sample_env sample_note (Some "agent")
               (new_StorageManager 1)).2 in
  getEntity (ent_id sample_stored) (Some "agent") s' = (Ret sample_stored, s').
Proof.
  apply (store_get_roundtrip sample_env sample_note (Some "agent")
           (new_StorageManager 1));
    [apply new_StorageManager_bounded | vm_compute; reflexivity].
Defined.

(** C5 (as amended). For an entity whose id, [agentId], [projectId] and
    [templateId] are plain names, [storeEntity] writes the entity file into
    the agent, project or template partition when the context names it and
    the entity carries the matching attribute, into the shared partition
    when the context is ['shared'] (or omitted), and into the temp directory
    in every other case. *)
Theorem storeEntity_partition env e ctx s stored s' :
  storeEntity env e ctx s = (Ret stored, s') →
  plain_entity stored = true →
  let context := default "shared" ctx in
  let written d := fs_readFile (files s') d (ent_id stored) = Some stored in
  (context = "agent" → agentId stored ≠ "" → written (DAgents (agentId stored)))
  ∧ (context = "project" → projectId stored ≠ "" →
     written (DProjects (projectId stored)))
  ∧ (context = "template" → templateId stored ≠ "" →
     written (DTemplates (templateId stored)))
  ∧ (context = "shared" → written DShared)
  ∧ (context ≠ "shared" →
     ¬ (context = "agent" ∧ agentId stored ≠ "") →
     ¬ (context = "project" ∧ projectId stored ≠ "") →
     ¬ (context = "template" ∧ templateId stored ≠ "") →
     written DTemp).
Proof.
  intros Hstore _. apply storeEntity_Ret in Hstore as (_ & Hfiles & _ & _).
  simpl. rewrite Hfiles. clear Hfiles. unfold _getEntityPath. simpl.
  assert (Htr : ∀ x, x ≠ "" → truthy x = true) by (by intros []).
  assert (Hfa : ∀ x, ¬ x ≠ "" → truthy x = false)
    by (intros [|??] H; [done | exfalso; by apply H]).
  split_and!.
  - intros -> Ha. simpl. rewrite (Htr _ Ha). simpl.
    rewrite lookup_insert_eq. simpl. by rewrite lookup_insert_eq.
  - intros -> Hp. simpl. rewrite (Htr _ Hp). simpl.
    rewrite lookup_insert_eq. simpl. by rewrite lookup_insert_eq.
  - intros -> Ht. simpl. rewrite (Htr _ Ht). simpl.
    rewrite lookup_insert_eq. simpl. by rewrite lookup_insert_eq.
  - intros ->. simpl. by rewrite lookup_insert_eq.
  - intros Hs Ha Hp Ht.
    assert (bool_decide (default "shared" ctx = "agent")
            && truthy (agentId stored) = false) as ->.
    { case_bool_decide; [|done]. simpl. apply Hfa. tauto. }
    assert (bool_decide (default "shared" ctx = "project")
            && truthy (projectId stored) = false) as ->.
    { case_bool_decide; [|done]. simpl. apply Hfa. tauto. }
    assert (bool_decide (default "shared" ctx = "template")
            && truthy (templateId stored) = false) as ->.
    { case_bool_decide; [|done]. simpl. apply Hfa. tauto. }
    rewrite decide_False by done. simpl. by rewrite lookup_insert_eq.
Qed.

Lemma storeEntity_partition_witness :
  let s' := (storeEntity sample_env sample_note (Some "agent")
               (new_StorageManager 0)).2 in
  fs_readFile (files s') DTemp (ent_id sample_stored) = Some sample_stored.
Proof.
  refine (proj2 (proj2 (proj2 (proj2
    (storeEntity_partition sample_env sample_note (Some "agent")
       (new_StorageManager 0) sample_stored _ _ _)))) _ _ _ _);
    [vm_compute; reflexivity | reflexivity | simpl; intros H ..];
    try discriminate H; destruct H as [_ H]; by apply H.
Defined.

(** C5 (as stated) fails: an entity without [agentId] stored under the
    ['agent'] context is written to the temp directory, not to the shared
    partition. *)
Lemma storeEntity_partition_counterexample :
  let r := storeEntity sample_env sample_note (Some "agent")
             (new_StorageManager 0) in
  ∃ stored, r.1 = Ret stored
    ∧ fs_readFile (files r.2) DShared (ent_id stored) = None
    ∧ fs_readFile (files r.2) DTemp (ent_id stored) = Some stored.
Proof. eexists. vm_compute. done. Qed.

(** [deleteEntity] has no handler of its own: when the entity cannot be
    read, the error of [getEntity] reaches the caller. *)
Lemma deleteEntity_unreadable id ctx s e s' :
  getEntity id ctx s = (Throw e, s') → deleteEntity id ctx s = (Throw e, s').
Proof. intros H. unfold deleteEntity. unfold_monad. by rewrite H. Qed.

(** [deleteRelationship] on an id that is neither cached nor on disk: the
    error raised by [getRelationship] carries no [code], so the [ENOENT]
    branch of the handler is not taken. *)
Lemma deleteRelationship_absent id g :
  omap_get id (relationshipCache g) = None →
  relFiles g !! id = None →
  deleteRelationship id g
  = (Throw (mkError ("Relationship not found: " ++ id) None), g).
Proof.
  intros Hc Hf. unfold deleteRelationship, getRelationship. unfold_monad.
  by rewrite Hc, Hf.
Qed.

(** C4, evaluated: deleting twice returns [true] and then throws, for an
    entity and for a relationship alike. *)
Theorem delete_twice_throws :
  (let s := (storeEntity sample_env (node "e") None (new_StorageManager 0)).2 in
   let first := deleteEntity "e" None s in
   let second := deleteEntity "e" None first.2 in
   first.1 = Ret true
   ∧ second.1 = Throw (mkError "Entity not found: e" None))
  ∧
  (let g := (createRelationship sample_env (edge "r" "a" "b" "next")
               (new_KnowledgeGraph 0)).2 in
   let first := deleteRelationship "r" g in
   let second := deleteRelationship "r" first.2 in
   first.1 = Ret true
   ∧ second.1 = Throw (mkError "Relationship not found: r" None)).
Proof. vm_compute. done. Qed.

(** ** What [getEntity] computes *)

Lemma _readEntityFile_eq d file s :
  _readEntityFile d file s =
  match fs_readFile (files s) d file with
  | Some e => (Ret (Some e), cache_put e s)
  | None => (Ret None, s)
  end.
Proof.
  unfold _readEntityFile, _cacheEntity. unfold_monad.
  by destruct (fs_readFile (files s) d file).
Qed.

Lemma read_first_eq paths s :
  read_first paths s =
  match find_first (files s) paths with
  | Some e => (Ret (Some e), cache_put e s)
  | None => (Ret None, s)
  end.
Proof.
  induction paths as [|[d file] paths IH]; simpl; [done|].
  unfold mbind, M_bind, try_catch. rewrite _readEntityFile_eq.
  destruct (fs_readFile (files s) d file); [done|]. apply IH.
Qed.

Lemma _findEntityInContext_eq id context s :
  _findEntityInContext id context s =
  match find_first (files s) (context_paths (files s) id context) with
  | Some e => (Ret e, cache_put e s)
  | None => (Throw (mkError ("Entity not found: " ++ id) None), s)
  end.
Proof.
  unfold _findEntityInContext, context_paths, entity_not_found.
  unfold mbind, M_bind, get_state.
  repeat case_decide; rewrite ?read_first_eq;
    try (by destruct (find_first _ _)); done.
Qed.

Lemma find_first_app fs l1 l2 :
  find_first fs (l1 ++ l2) =
  match find_first fs l1 with Some e => Some e | None => find_first fs l2 end.
Proof.
  induction l1 as [|[d f] l1 IH]; simpl; [done|].
  by destruct (fs_readFile fs d f).
Qed.

Lemma search_contexts_eq id contexts s :
  search_contexts id contexts s =
  match find_first (files s)
          (concat ((λ ctx, context_paths (files s) id ctx) <$> contexts)) with
  | Some e => (Ret e, cache_put e s)
  | None => (Throw (mkError ("Entity not found: " ++ id) None), s)
  end.
Proof.
  induction contexts as [|ctx contexts IH]; simpl; [done|].
  unfold try_catch. rewrite _findEntityInContext_eq, find_first_app.
  destruct (find_first (files s) (context_paths (files s) id ctx)); [done|].
  apply IH.
Qed.

(** [getEntity] as an equation: a cache hit leaves the state alone, a hit
    in the files caches what was read, a miss throws. *)
Lemma getEntity_eq id context s :
  getEntity id context s =
  match omap_get id (entityCache s) with
  | Some e => (Ret e, s)
  | None =>
      match find_entity (files s) id context with
      | Some e => (Ret e, cache_put e s)
      | None => (Throw (mkError ("Entity not found: " ++ id) None), s)
      end
  end.
Proof.
  unfold getEntity, find_entity, probe_paths.
  unfold mbind, M_bind, get_state, mret, M_ret.
  destruct (omap_get id (entityCache s)); [done|].
  assert (Hall : search_contexts id ["agent"; "project"; "template"; "shared"] s
    = match find_first (files s)
              (context_paths (files s) id "agent"
               ++ context_paths (files s) id "project"
               ++ context_paths (files s) id "template"
               ++ context_paths (files s) id "shared") with
      | Some e => (Ret e, cache_put e s)
      | None => (Throw (mkError ("Entity not found: " ++ id) None), s)
      end).
  { rewrite search_contexts_eq. reflexivity. }
  destruct context as [ctx|]; [|done].
  destruct (truthy ctx); [|done]. apply _findEntityInContext_eq.
Qed.

Lemma getEntity_miss_eq id context s :
  getEntity_miss id context s =
  match find_entity (files s) id context with
  | Some e => (Ret e, cache_put e s)
  | None => (Throw (mkError ("Entity not found: " ++ id) None), s)
  end.
Proof.
  unfold getEntity_miss, find_entity, probe_paths.
  assert (Hall : search_contexts id ["agent"; "project"; "template"; "shared"] s
    = match find_first (files s)
              (context_paths (files s) id "agent"
               ++ context_paths (files s) id "project"
               ++ context_paths (files s) id "template"
               ++ context_paths (files s) id "shared") with
      | Some e => (Ret e, cache_put e s)
      | None => (Throw (mkError ("Entity not found: " ++ id) None), s)
      end).
  { rewrite search_contexts_eq. reflexivity. }
  destruct context as [ctx|]; [|done].
  destruct (truthy ctx); [|done]. apply _findEntityInContext_eq.
Qed.

(** [getEntity] is the test of the cache followed, on a miss, by
    [getEntity_miss]. *)
Lemma getEntity_miss_getEntity id context s :
  getEntity id context s =
  match omap_get id (entityCache s) with
  | Some e => (Ret e, s)
  | None => getEntity_miss id context s
  end.
Proof.
  unfold getEntity, getEntity_miss, mbind, M_bind, get_state, mret, M_ret.
  by destruct (omap_get id (entityCache s)).
Qed.

Lemma find_first_Some fs paths e :
  find_first fs paths = Some e →
  ∃ d file, (d, file) ∈ paths ∧ fs_readFile fs d file = Some e.
Proof.
  induction paths as [|[d f] paths IH]; simpl; [done|].
  destruct (fs_readFile fs d f) eqn:Hr.
  - intros [= ->]. exists d, f. split; [left | done].
  - intros H. destruct (IH H) as (d' & f' & ? & ?).
    exists d', f'. split; [by right | done].
Qed.

Lemma context_paths_file fs id context d file :
  (d, file) ∈ context_paths fs id context → file = id.
Proof.
  unfold context_paths. repeat case_decide;
    rewrite ?list_elem_of_fmap, ?list_elem_of_singleton;
    try (intros (? & [= -> ->] & _); done).
  - by intros [= -> ->].
  - by intros ?%elem_of_nil.
Qed.

Lemma probe_paths_file fs id context d file :
  (d, file) ∈ probe_paths fs id context → file = id.
Proof.
  unfold probe_paths.
  assert (Hall : (d, file) ∈ context_paths fs id "agent"
                   ++ context_paths fs id "project"
                   ++ context_paths fs id "template"
                   ++ context_paths fs id "shared" → file = id).
  { rewrite !elem_of_app. intros [H|[H|[H|H]]];
      by apply context_paths_file in H. }
  destruct context as [ctx|]; [|done].
  destruct (truthy ctx); [|done]. apply context_paths_file.
Qed.

Lemma files_named_read fs d file e :
  files_named fs → fs_readFile fs d file = Some e → ent_id e = file.
Proof.
  intros (Ha & Hp & Ht & Hs & Htmp). destruct d as [a|p|t| |]; simpl.
  - destruct (agents fs !! a) as [dir|] eqn:Hd; simpl; [|done].
    intros H. exact (Ha _ _ Hd _ _ H).
  - destruct (projects fs !! p) as [dir|] eqn:Hd; simpl; [|done].
    intros H. exact (Hp _ _ Hd _ _ H).
  - destruct (templates fs !! t) as [dir|] eqn:Hd; simpl; [|done].
    intros H. exact (Ht _ _ Hd _ _ H).
  - apply Hs.
  - apply Htmp.
Qed.

Lemma find_entity_id fs id context e :
  files_named fs → find_entity fs id context = Some e → ent_id e = id.
Proof.
  intros Hn H. apply find_first_Some in H as (d & file & Hin & Hr).
  apply probe_paths_file in Hin as ->. by eapply files_named_read.
Qed.

Lemma cache_put_entries e s p :
  p ∈ entityCache (cache_put e s) → p = (ent_id e, e) ∨ p ∈ entityCache s.
Proof.
  unfold cache_put. simpl. intros H%omap_trim_subseteq.
  by apply omap_set_subseteq.
Qed.

Lemma entity_ids_ok_put e s : entity_ids_ok s → entity_ids_ok (cache_put e s).
Proof.
  intros [Hn Hc]. split; [done|]. apply Forall_forall. intros p Hp.
  apply cache_put_entries in Hp as [->|Hp]; [done|].
  by eapply Forall_forall in Hc.
Qed.

Lemma entity_store_ok_put context id e s :
  entity_store_ok context s →
  find_entity (files s) id context = Some e →
  entity_store_ok context (cache_put e s).
Proof.
  intros [Hn Hc] Hfind. split; [done|]. apply Forall_forall. intros p Hp.
  apply cache_put_entries in Hp as [->|Hp]; simpl.
  - by rewrite (find_entity_id _ _ _ _ Hn Hfind).
  - by eapply Forall_forall in Hc.
Qed.

Lemma entity_store_ok_ids context s :
  entity_store_ok context s → entity_ids_ok s.
Proof.
  intros [Hn Hc]. split; [done|]. eapply Forall_impl; [exact Hc|].
  intros [k e] H. simpl in *. by eapply find_entity_id.
Qed.

(** In a coherent store the cache is invisible. *)
Lemma lookup_entity_ok context s id :
  entity_store_ok context s →
  lookup_entity s id context = find_entity (files s) id context.
Proof.
  intros [_ Hc]. unfold lookup_entity.
  destruct (omap_get id (entityCache s)) as [e|] eqn:Hget; [|done].
  apply omap_get_elem_of in Hget.
  eapply Forall_forall in Hc; [|done]. simpl in Hc. by rewrite Hc.
Qed.

(** [getEntity] returns an entity with the id it was asked for. *)
Lemma getEntity_id id context s e s' :
  entity_ids_ok s → getEntity id context s = (Ret e, s') →
  ent_id e = id ∧ entity_ids_ok s'.
Proof.
  intros Hok. rewrite getEntity_eq.
  destruct (omap_get id (entityCache s)) as [e0|] eqn:Hget.
  - intros [= <- <-]. split; [|done]. destruct Hok as [_ Hc].
    apply omap_get_elem_of in Hget.
    eapply Forall_forall in Hc; [|done]. done.
  - destruct (find_entity (files s) id context) as [e0|] eqn:Hf; [|done].
    intros [= <- <-]. split; [|by apply entity_ids_ok_put].
    eapply find_entity_id; [apply Hok | done].
Qed.

Lemma getEntity_Throw_state id context s e s' :
  getEntity id context s = (Throw e, s') → s' = s.
Proof.
  rewrite getEntity_eq. repeat case_match; congruence.
Qed.

Lemma getEntity_no_Timeout id context s : (getEntity id context s).1 ≠ Timeout.
Proof. rewrite getEntity_eq. by repeat case_match. Qed.

Lemma try_getEntity_eq id context s :
  try_catch (Some <$> getEntity id context) (λ _, mret None) s
  = (Ret (lookup_entity s id context), after_lookup s id context).
Proof.
  unfold try_catch, fmap, M_fmap, lookup_entity, after_lookup.
  rewrite getEntity_eq.
  destruct (omap_get id (entityCache s)); [done|].
  by destruct (find_entity (files s) id context).
Qed.

Lemma after_lookup_ids_ok s id context :
  entity_ids_ok s → entity_ids_ok (after_lookup s id context).
Proof.
  intros H. unfold after_lookup. repeat case_match; try done.
  by apply entity_ids_ok_put.
Qed.

Lemma after_lookup_store_ok s id context :
  entity_store_ok context s → entity_store_ok context (after_lookup s id context).
Proof.
  intros H. unfold after_lookup. repeat case_match; try done.
  by eapply entity_store_ok_put.
Qed.

Lemma after_lookup_files s id context :
  files (after_lookup s id context) = files s.
Proof. unfold after_lookup. by repeat case_match. Qed.

Lemma lookup_entity_id s id context e :
  entity_ids_ok s → lookup_entity s id context = Some e → ent_id e = id.
Proof.
  intros [Hn Hc]. unfold lookup_entity.
  destruct (omap_get id (entityCache s)) as [e0|] eqn:Hget.
  - intros [= <-]. apply omap_get_elem_of in Hget.
    eapply Forall_forall in Hc; [|done]. done.
  - by apply find_entity_id.
Qed.

(** ** Sorting *)

Lemma insert_by_Permutation {A} (le : A → A → bool) x l :
  insert_by le x l ≡ₚ x :: l.
Proof.
  induction l as [|y l IH]; simpl; [done|].
  destruct (le x y); [done|]. rewrite IH. apply Permutation_swap.
Qed.

Lemma sort_by_Permutation {A} (le : A → A → bool) l : sort_by le l ≡ₚ l.
Proof.
  unfold sort_by. induction l as [|x l IH]; simpl; [done|].
  by rewrite insert_by_Permutation, IH.
Qed.

Lemma elem_of_sort_by {A} (le : A → A → bool) l x :
  x ∈ sort_by le l ↔ x ∈ l.
Proof. by rewrite sort_by_Permutation. Qed.

Lemma elem_of_slice {A} (offset limit : nat) (l : list A) x :
  x ∈ slice offset limit l → x ∈ l.
Proof.
  unfold slice. intros H. apply subseteq_take in H. by apply subseteq_drop in H.
Qed.

(** ** Text search *)

Lemma omap_set_keys {V} k (v : V) m :
  (omap_set k v m).*1 = if decide (k ∈ m.*1) then m.*1 else m.*1 ++ [k].
Proof.
  induction m as [|[k0 v0] m IH].
  - simpl. destruct (decide (k ∈ [])) as [H|H]; [|done].
    by apply elem_of_nil in H.
  - cbn [omap_set]. destruct (decide (k = k0)) as [->|Hne].
    + cbn [fmap list_fmap fst]. destruct (decide (k0 ∈ k0 :: m.*1)) as [H|H];
        [done | exfalso; apply H; left].
    + cbn [fmap list_fmap fst] in *. rewrite IH.
      destruct (decide (k ∈ m.*1)) as [H|H],
               (decide (k ∈ k0 :: m.*1)) as [H'|H']; try done.
      * exfalso. apply H'. by right.
      * apply elem_of_cons in H' as [?|?]; done.
Qed.

Lemma omap_set_NoDup {V} k (v : V) m : NoDup m.*1 → NoDup (omap_set k v m).*1.
Proof.
  intros H. rewrite omap_set_keys. case_decide; [done|].
  apply NoDup_app. split_and!; [done| |apply NoDup_singleton].
  intros x Hx. rewrite list_elem_of_singleton. by intros ->.
Qed.

Lemma omap_get_of_elem_of {V} k (v : V) m :
  NoDup m.*1 → (k, v) ∈ m → omap_get k m = Some v.
Proof.
  induction m as [|[k0 v0] m IH]; simpl.
  - by intros _ ?%elem_of_nil.
  - rewrite NoDup_cons. intros [Hk0 Hnd]. rewrite elem_of_cons.
    intros [[= -> ->]|Hin].
    + by rewrite decide_True.
    + rewrite decide_False; [by apply IH|]. intros ->. apply Hk0.
      apply list_elem_of_fmap. by exists (k0, v).
Qed.

Section count_matches.
Implicit Types (m : list (string * nat)).

(** The increment of one entry. *)
Let bump m (entityId : string) :=
  omap_set entityId (default 0 (omap_get entityId m) + 1) m.

Lemma bump_val m id id' :
  default 0 (omap_get id' (bump m id))
  = default 0 (omap_get id' m) + (if decide (id = id') then 1 else 0).
Proof.
  unfold bump. case_decide as H.
  - subst. by rewrite omap_get_set_eq.
  - rewrite omap_get_set_ne by done. lia.
Qed.

Lemma bumps_val entities m id' :
  default 0 (omap_get id' (foldl bump m entities))
  = default 0 (omap_get id' m) + length (filter (λ x, x = id') entities).
Proof.
  revert m. induction entities as [|x entities IH]; intros m; simpl; [lia|].
  rewrite IH, bump_val, filter_cons. case_decide; simpl; lia.
Qed.

Lemma bumps_NoDup entities m :
  NoDup m.*1 → NoDup (foldl bump m entities).*1.
Proof.
  revert m. induction entities as [|x entities IH]; intros m H; simpl; [done|].
  apply IH. by apply omap_set_NoDup.
Qed.

Lemma NoDup_occurrences (l : list string) x :
  NoDup l → length (filter (λ y, y = x) l) = if decide (x ∈ l) then 1 else 0.
Proof.
  induction 1 as [|y l Hy Hnd IH].
  - destruct (decide (x ∈ [])) as [H|H]; [by apply elem_of_nil in H | done].
  - rewrite filter_cons. destruct (decide (y = x)) as [->|Hne]; cbn [length].
    + rewrite IH. destruct (decide (x ∈ l)); [done|].
      destruct (decide (x ∈ x :: l)) as [|H]; [done | exfalso; apply H; left].
    + rewrite IH.
      destruct (decide (x ∈ l)) as [H|H], (decide (x ∈ y :: l)) as [H'|H'];
        try done.
      * exfalso. apply H'. by right.
      * apply elem_of_cons in H' as [?|?]; done.
Qed.

Let tally (index : gmap string (list string)) m (token : string) :=
  match index !! token with
  | Some entities => foldl bump m entities
  | None => m
  end.

Lemma tally_val index tokens m id' :
  index_sets_NoDup index →
  default 0 (omap_get id' (foldl (tally index) m tokens))
  = default 0 (omap_get id' m) + matched_tokens index tokens id'.
Proof.
  intros Hnd. unfold matched_tokens.
  revert m. induction tokens as [|token tokens IH]; intros m; simpl; [lia|].
  rewrite IH, filter_cons. unfold tally.
  destruct (index !! token) as [entities|] eqn:Hl; simpl.
  - rewrite bumps_val, NoDup_occurrences by exact (Hnd _ _ Hl).
    destruct (decide (id' ∈ entities)); simpl; lia.
  - destruct (decide (id' ∈ [])) as [H|H]; [by apply elem_of_nil in H | lia].
Qed.

Lemma tally_NoDup index tokens m :
  NoDup m.*1 → NoDup (foldl (tally index) m tokens).*1.
Proof.
  revert m. induction tokens as [|token tokens IH]; intros m H; simpl; [done|].
  apply IH. unfold tally. destruct (index !! token); [|done].
  by apply bumps_NoDup.
Qed.

(** The count kept for an entity id is the number of query tokens whose
    index set holds it. *)
Lemma count_matches_spec index tokens id c :
  index_sets_NoDup index →
  (id, c) ∈ count_matches index tokens → c = matched_tokens index tokens id.
Proof.
  intros Hnd Hin.
  pose proof (tally_val index tokens [] id Hnd) as Hval.
  assert (Hget : omap_get id (foldl (tally index) [] tokens) = Some c).
  { apply omap_get_of_elem_of; [|exact Hin].
    apply tally_NoDup. simpl. apply NoDup_nil_2. }
  rewrite Hget in Hval. simpl in Hval. lia.
Qed.
End count_matches.

Lemma scored_matches_spec index tokens threshold id score :
  index_sets_NoDup index →
  (id, score) ∈ scored_matches index tokens threshold →
  score = js_div (matched_tokens index tokens id) (length tokens).
Proof.
  intros Hnd. unfold scored_matches.
  rewrite elem_of_sort_by, list_elem_of_filter, list_elem_of_fmap.
  intros (_ & [id' c] & [= -> ->] & Hin). simpl.
  by rewrite (count_matches_spec _ _ _ _ Hnd Hin).
Qed.

Lemma elem_of_cache_filters {A} s options (key : A → string) results x :
  x ∈ cache_filters s options key results → x ∈ results.
Proof.
  unfold cache_filters.
  destruct (truthy (so_agentId options)), (truthy (so_type options));
    rewrite ?list_elem_of_filter; tauto.
Qed.

(** What the calls of a page return once each of them has tested the
    cache [c0]: a hit returns the cached entity, a miss what the files
    hold. *)
Lemma resolve_started_eq {A} (P : StorageManager → Prop) context
  (key : A → string) page c0 s :
  (∀ s e id, P s → find_entity (files s) id context = Some e →
             P (cache_put e s)) →
  P s →
  ∃ s',
    resolve_started context key
      ((λ item, (item, omap_get (key item) c0)) <$> page) s
    = (Ret (omap (λ item,
                    (λ e, (e, item))
                      <$> match omap_get (key item) c0 with
                          | Some e => Some e
                          | None => find_entity (files s) (key item) context
                          end) page), s')
    ∧ files s' = files s ∧ P s'.
Proof.
  intros Hput. revert s. induction page as [|item page IH]; intros s HP.
  - by exists s.
  - cbn [fmap list_fmap resolve_started omap list_omap].
    destruct (omap_get (key item) c0) as [e|] eqn:Hc.
    + destruct (IH s HP) as (s' & Heq & Hf & HP').
      exists s'. unfold mbind, M_bind, mret, M_ret.
      change (list_fmap A (A * option Entity)%type ?f page) with (f <$> page).
      rewrite Heq. done.
    + unfold mbind at 1. unfold M_bind at 1. unfold try_catch, fmap, M_fmap.
      rewrite getEntity_miss_eq.
      destruct (find_entity (files s) (key item) context) as [e|] eqn:Hf.
      * destruct (IH (cache_put e s) (Hput _ _ _ HP Hf))
          as (s' & Heq & Hf' & HP').
        exists s'. unfold mbind, M_bind, mret, M_ret.
        change (list_fmap A (A * option Entity)%type ?f page) with (f <$> page).
        rewrite Heq. done.
      * destruct (IH s HP) as (s' & Heq & Hf' & HP').
        exists s'. unfold mbind, M_bind, mret, M_ret.
        change (list_fmap A (A * option Entity)%type ?f page) with (f <$> page).
        rewrite Heq. done.
Qed.

(** [resolve_page] as an equation: every item resolves to what [getEntity]
    returns for it in the state that the search started from, the files
    are left alone, and what the caching of a read entity keeps is kept. *)
Lemma resolve_page_eq {A} (P : StorageManager → Prop) context
  (key : A → string) page s :
  (∀ s e id, P s → find_entity (files s) id context = Some e →
             P (cache_put e s)) →
  P s →
  ∃ s',
    resolve_page context key page s
    = (Ret (omap (λ item, (λ e, (e, item))
                            <$> lookup_entity s (key item) context) page), s')
    ∧ files s' = files s ∧ P s'.
Proof.
  intros Hput HP. unfold resolve_page, mbind, M_bind, get_state.
  apply (resolve_started_eq P context key page (entityCache s) s Hput HP).
Qed.

Lemma resolve_page_spec {A} context (key : A → string) page s :
  ∃ found s',
    resolve_page context key page s = (Ret found, s')
    ∧ (∀ e item, (e, item) ∈ found → item ∈ page)
    ∧ (entity_ids_ok s →
       entity_ids_ok s' ∧ ∀ e item, (e, item) ∈ found → ent_id e = key item).
Proof.
  destruct (resolve_page_eq (λ _, True) context key page s)
    as (s' & Heq & _); [done..|].
  eexists _, s'. split; [exact Heq|]. split.
  - intros e item (item' & Hin & Hm)%list_elem_of_omap.
    destruct (lookup_entity s (key item') context); [|done].
    by injection Hm as <- <-.
  - intros Hok.
    destruct (resolve_page_eq entity_ids_ok context key page s)
      as (s2 & Heq2 & _ & Hok2); [|done|].
    { intros s0 e id H0 _. by apply entity_ids_ok_put. }
    rewrite Heq in Heq2. injection Heq2 as <-. split; [done|].
    intros e item (item' & Hin & Hm)%list_elem_of_omap.
    destruct (lookup_entity s (key item') context) as [e'|] eqn:Hl; [|done].
    injection Hm as <- <-. exact (lookup_entity_id _ _ _ _ Hok Hl).
Qed.

(** ** Metadata search *)

Lemma elem_of_oset_add x y s : x ∈ oset_add y s ↔ x = y ∨ x ∈ s.
Proof.
  unfold oset_add, oset_has. case_bool_decide as H.
  - split; [by right | intros [->|?]; done].
  - rewrite elem_of_app, list_elem_of_singleton. tauto.
Qed.

Lemma oset_add_NoDup y s : NoDup s → NoDup (oset_add y s).
Proof.
  intros H. unfold oset_add, oset_has. case_bool_decide as Hy; [done|].
  apply NoDup_app. split_and!; [done| |apply NoDup_singleton].
  intros x Hx. rewrite list_elem_of_singleton. by intros ->.
Qed.

Lemma elem_of_oset_adds x l s :
  x ∈ foldl (λ ids id, oset_add id ids) s l ↔ x ∈ l ∨ x ∈ s.
Proof.
  revert s. induction l as [|y l IH]; intros s; simpl.
  - rewrite elem_of_nil. tauto.
  - rewrite IH, elem_of_oset_add, elem_of_cons. tauto.
Qed.

Lemma oset_adds_NoDup l s :
  NoDup s → NoDup (foldl (λ ids id, oset_add id ids) s l).
Proof.
  revert s. induction l as [|y l IH]; intros s H; simpl; [done|].
  by apply IH, oset_add_NoDup.
Qed.

Lemma elem_of_to_set x l : x ∈ to_set l ↔ x ∈ l.
Proof.
  unfold to_set.
  change (x ∈ foldl (λ ids id, oset_add id ids) [] l ↔ x ∈ l).
  rewrite elem_of_oset_adds, elem_of_nil. tauto.
Qed.

Lemma to_set_NoDup l : NoDup (to_set l).
Proof. apply (oset_adds_NoDup l []), NoDup_nil_2. Qed.

Lemma elem_of_intersections x (init : list string)
  (sets : list (list string)) :
  x ∈ foldl (λ ids set, to_set (filter (λ id, id ∈ set) ids)) init sets
  ↔ x ∈ init ∧ ∀ set, set ∈ sets → x ∈ set.
Proof.
  revert init. induction sets as [|set sets IH]; intros init; simpl.
  - split; [|tauto]. intros H. split; [done|]. by intros ? ?%elem_of_nil.
  - rewrite IH, elem_of_to_set, list_elem_of_filter. split.
    + intros [[Hs Hi] Hall]. split; [done|]. intros set'.
      rewrite elem_of_cons. intros [->|?]; auto.
    + intros [Hi Hall]. split_and!; [apply Hall; left | done |].
      intros set' ?. apply Hall. by right.
Qed.

Lemma intersections_NoDup (init : list string) (sets : list (list string)) :
  NoDup init →
  NoDup (foldl (λ ids set, to_set (filter (λ id, id ∈ set) ids)) init sets).
Proof.
  revert init. induction sets as [|set sets IH]; intros init H; simpl; [done|].
  apply IH, to_set_NoDup.
Qed.

Lemma elem_of_unions x (init : list string) (sets : list (list string)) :
  x ∈ foldl (λ ids set, foldl (λ ids id, oset_add id ids) ids set) init sets
  ↔ x ∈ init ∨ ∃ set, set ∈ sets ∧ x ∈ set.
Proof.
  revert init. induction sets as [|set sets IH]; intros init; simpl.
  - split; [tauto|]. intros [?|(? & ?%elem_of_nil & _)]; done.
  - rewrite IH, elem_of_oset_adds. split.
    + intros [[?|?]|(set' & ? & ?)]; [right|left|right]; try done.
      * exists set. split; [left | done].
      * exists set'. split; [by right | done].
    + intros [?|(set' & Hin & ?)]; [tauto|].
      apply elem_of_cons in Hin as [->|?]; [tauto|]. right. eauto.
Qed.

Lemma unions_NoDup (init : list string) (sets : list (list string)) :
  NoDup init →
  NoDup (foldl (λ ids set, foldl (λ ids id, oset_add id ids) ids set)
               init sets).
Proof.
  revert init. induction sets as [|set sets IH]; intros init H; simpl; [done|].
  by apply IH, oset_adds_NoDup.
Qed.

(** The combined ids are the intersection, or the union, of the sets. *)
Lemma combine_sets_spec matchAll sets id :
  id ∈ combine_sets matchAll sets ↔
  if matchAll then sets ≠ [] ∧ ∀ set, set ∈ sets → id ∈ set
  else ∃ set, set ∈ sets ∧ id ∈ set.
Proof.
  unfold combine_sets. destruct matchAll.
  - rewrite elem_of_intersections, elem_of_to_set.
    destruct sets as [|set sets]; simpl.
    + rewrite elem_of_nil. split; [tauto | intros [? _]; done].
    + split.
      * intros [H0 Hall]. split; [done|]. intros set'.
        rewrite elem_of_cons. intros [->|?]; auto.
      * intros [_ Hall]. split; [apply Hall; left|].
        intros set' ?. apply Hall. by right.
  - rewrite elem_of_unions, elem_of_nil. tauto.
Qed.

Lemma combine_sets_NoDup matchAll sets : NoDup (combine_sets matchAll sets).
Proof.
  unfold combine_sets. destruct matchAll.
  - apply intersections_NoDup, to_set_NoDup.
  - apply unions_NoDup, NoDup_nil_2.
Qed.

(** ** What [getRelationship] and [listRelationships] compute *)

Lemma getRelationship_eq id g :
  getRelationship id g =
  match lookup_relationship g id with
  | Some r => (Ret r, after_rel_lookup g id)
  | None => (Throw (mkError ("Relationship not found: " ++ id) None), g)
  end.
Proof.
  unfold getRelationship, lookup_relationship, after_rel_lookup,
    _cacheRelationship.
  unfold_monad. destruct (omap_get id (relationshipCache g)); [done|].
  by destruct (relFiles g !! id).
Qed.

Lemma try_getRelationship_eq id g :
  try_catch (Some <$> getRelationship id) (λ _, mret None) g
  = (Ret (lookup_relationship g id), after_rel_lookup g id).
Proof.
  unfold try_catch, fmap, M_fmap. rewrite getRelationship_eq.
  unfold lookup_relationship, after_rel_lookup.
  destruct (omap_get id (relationshipCache g)); [done|].
  by destruct (relFiles g !! id).
Qed.

Lemma after_rel_lookup_frame g id :
  relFiles (after_rel_lookup g id) = relFiles g
  ∧ source_index (after_rel_lookup g id) = source_index g
  ∧ target_index (after_rel_lookup g id) = target_index g
  ∧ type_index (after_rel_lookup g id) = type_index g
  ∧ kg_maxCacheSize (after_rel_lookup g id) = kg_maxCacheSize g.
Proof. unfold after_rel_lookup. by repeat case_match. Qed.

Lemma rel_cache_put_entries r g p :
  p ∈ relationshipCache (rel_cache_put r g) →
  p = (rel_id r, r) ∨ p ∈ relationshipCache g.
Proof.
  unfold rel_cache_put. simpl. intros H%omap_trim_subseteq.
  by apply omap_set_subseteq.
Qed.

Lemma after_rel_lookup_entries g id p :
  p ∈ relationshipCache (after_rel_lookup g id) →
  p ∈ relationshipCache g ∨ ∃ file, relFiles g !! file = Some p.2 ∧ p.1 = rel_id p.2.
Proof.
  unfold after_rel_lookup.
  destruct (omap_get id (relationshipCache g)); [by left|].
  destruct (relFiles g !! id) as [r|] eqn:Hf; [|by left].
  intros [->|?]%rel_cache_put_entries; [right | by left].
  by exists id.
Qed.

Lemma graph_ok_after_rel_lookup g id :
  graph_ok g → graph_ok (after_rel_lookup g id).
Proof.
  intros [Hn Hc]. split.
  - by rewrite (proj1 (after_rel_lookup_frame g id)).
  - rewrite (proj1 (after_rel_lookup_frame g id)).
    apply Forall_forall. intros p Hp.
    apply after_rel_lookup_entries in Hp as [Hp|(file & Hf & Hid)].
    + by eapply Forall_forall in Hc.
    + rewrite Hid. by rewrite <- (Hn _ _ Hf) in Hf.
Qed.

Lemma lookup_relationship_ok g id :
  graph_ok g → lookup_relationship g id = relFiles g !! id.
Proof.
  intros [_ Hc]. unfold lookup_relationship.
  destruct (omap_get id (relationshipCache g)) as [r|] eqn:Hget; [|done].
  apply omap_get_elem_of in Hget.
  eapply Forall_forall in Hc; [|done]. simpl in Hc. by rewrite Hc.
Qed.

(** In a coherent graph a loop of [listRelationships] collects what the
    files hold and only touches the cache. *)
Lemma collect_relationships_ok type ids g :
  graph_ok g →
  ∃ g', collect_relationships type ids g = (Ret (collected g type ids), g')
        ∧ graph_ok g'
        ∧ relFiles g' = relFiles g
        ∧ source_index g' = source_index g
        ∧ target_index g' = target_index g.
Proof.
  unfold collected. revert g. induction ids as [|id ids IH]; intros g Hok.
  - by exists g.
  - cbn [collect_relationships]. unfold mbind, M_bind.
    rewrite try_getRelationship_eq.
    destruct (after_rel_lookup_frame g id) as (Hf & Hs & Ht & _).
    destruct (IH _ (graph_ok_after_rel_lookup g id Hok))
      as (g' & Heq & Hok' & Hf' & Hs' & Ht').
    rewrite Heq. exists g'. rewrite Hf in *.
    split_and!; try congruence. unfold mret, M_ret. f_equal. f_equal.
    rewrite (lookup_relationship_ok _ _ Hok). cbn [omap list_omap].
    destruct (relFiles g !! id) as [r|]; [|done].
    rewrite filter_cons. unfold type_matches.
    by destruct (negb (truthy (default "" type))
                 || bool_decide (rel_type r = default "" type)).
Qed.

Lemma listRelationships_ok entityId type direction limit offset g :
  graph_ok g →
  ∃ g', listRelationships entityId type direction limit offset g
        = (Ret (mkRelationshipPage
                  (slice offset limit (listed g entityId type direction))
                  (length (listed g entityId type direction)) limit offset),
           g')
        ∧ graph_ok g'
        ∧ relFiles g' = relFiles g
        ∧ source_index g' = source_index g
        ∧ target_index g' = target_index g.
Proof.
  intros Hok. unfold listRelationships, listed.
  unfold mbind at 1. unfold M_bind at 1. unfold get_state at 1.
  assert (Hout : ∃ g1,
    (if bool_decide (direction = "outgoing") || bool_decide (direction = "both")
     then match source_index g !! entityId with
          | Some relationshipIds => collect_relationships type relationshipIds
          | None => mret []
          end
     else mret []) g
    = (Ret (if bool_decide (direction = "outgoing")
               || bool_decide (direction = "both")
            then collected g type (default [] (source_index g !! entityId))
            else []), g1)
    ∧ graph_ok g1 ∧ relFiles g1 = relFiles g
    ∧ source_index g1 = source_index g ∧ target_index g1 = target_index g).
  { destruct (bool_decide (direction = "outgoing")
              || bool_decide (direction = "both")); [|by exists g].
    destruct (source_index g !! entityId) as [ids|]; [|by exists g].
    by apply collect_relationships_ok. }
  destruct Hout as (g1 & Heq1 & Hok1 & Hf1 & Hs1 & Ht1).
  unfold mbind at 1. unfold M_bind at 1. rewrite Heq1.
  unfold mbind at 1. unfold M_bind at 1. unfold get_state at 1.
  assert (Hin : ∃ g2,
    (if bool_decide (direction = "incoming") || bool_decide (direction = "both")
     then match target_index g1 !! entityId with
          | Some relationshipIds => collect_relationships type relationshipIds
          | None => mret []
          end
     else mret []) g1
    = (Ret (if bool_decide (direction = "incoming")
               || bool_decide (direction = "both")
            then collected g type (default [] (target_index g !! entityId))
            else []), g2)
    ∧ graph_ok g2 ∧ relFiles g2 = relFiles g
    ∧ source_index g2 = source_index g ∧ target_index g2 = target_index g).
  { destruct (bool_decide (direction = "incoming")
              || bool_decide (direction = "both")); [|by exists g1].
    rewrite Ht1.
    destruct (target_index g !! entityId) as [ids|]; [|by exists g1].
    destruct (collect_relationships_ok type ids g1 Hok1)
      as (g2 & Heq & ? & ? & ? & ?).
    exists g2. unfold collected in *. rewrite Hf1 in Heq.
    split_and!; [exact Heq | done | congruence ..]. }
  destruct Hin as (g2 & Heq2 & Hok2 & Hf2 & Hs2 & Ht2).
  unfold mbind, M_bind. rewrite Heq2. by exists g2.
Qed.

(** ** Self-loops are listed twice *)

Lemma collected_occurrences g type ids r :
  graph_ok g → relFiles g !! rel_id r = Some r → type_matches type r = true →
  occurrences r (collected g type ids)
  = length (filter (λ id, id = rel_id r) ids).
Proof.
  intros [Hn _] Hr Hty. unfold occurrences, collected.
  induction ids as [|id ids IH]; [done|].
  cbn [omap list_omap]. rewrite (filter_cons (λ id, id = rel_id r)).
  destruct (decide (id = rel_id r)) as [->|Hne].
  - rewrite Hr, filter_cons, decide_True by done.
    rewrite filter_cons, decide_True by done. simpl. by rewrite IH.
  - destruct (relFiles g !! id) as [r'|] eqn:Hf; [|done].
    rewrite filter_cons. case_decide; [|done].
    rewrite filter_cons, decide_False; [done|].
    intros ->. by apply Hne, eq_sym, Hn.
Qed.

Lemma occurrences_app r l1 l2 :
  occurrences r (l1 ++ l2) = occurrences r l1 + occurrences r l2.
Proof. unfold occurrences. by rewrite filter_app, length_app. Qed.

Lemma index_occurrences (index : gmap string (list string)) key id :
  index_sets_NoDup index → id ∈ default [] (index !! key) →
  length (filter (λ x, x = id) (default [] (index !! key))) = 1.
Proof.
  intros Hnd Hin. destruct (index !! key) as [set|] eqn:Hl; simpl in *.
  - rewrite NoDup_occurrences by exact (Hnd _ _ Hl). by rewrite decide_True.
  - by apply elem_of_nil in Hin.
Qed.

Lemma occurrences_sublist r l1 l2 :
  l1 `sublist_of` l2 → occurrences r l1 ≤ occurrences r l2.
Proof.
  unfold occurrences. induction 1 as [|x l1 l2 Hsub IH|x l1 l2 Hsub IH];
    [done|..]; rewrite !filter_cons; repeat case_decide; simpl; lia.
Qed.

Lemma slice_sublist {A} offset limit (l : list A) :
  slice offset limit l `sublist_of` l.
Proof.
  unfold slice. etrans; [apply sublist_take | apply sublist_drop].
Qed.

(** C10 (as amended). A stored and indexed relationship whose source and
    target are the same entity occurs twice in what [listRelationships]
    gathers for that entity in direction ['both'] (once from the source
    index, once from the target index), so it is counted twice in [total].
    The returned array is the slice of that list from [offset] on, [limit]
    long: it holds the relationship at most twice, and twice whenever the
    page covers the whole list. *)
Theorem listRelationships_self_loop g r limit offset :
  graph_ok g →
  index_sets_NoDup (source_index g) → index_sets_NoDup (target_index g) →
  relFiles g !! rel_id r = Some r →
  sourceId r = targetId r →
  rel_id r ∈ default [] (source_index g !! sourceId r) →
  rel_id r ∈ default [] (target_index g !! targetId r) →
  ∃ page g',
    listRelationships (sourceId r) None "both" limit offset g = (Ret page, g')
    ∧ page_total page = length (listed g (sourceId r) None "both")
    ∧ occurrences r (listed g (sourceId r) None "both") = 2
    ∧ page_relationships page
      = slice offset limit (listed g (sourceId r) None "both")
    ∧ occurrences r (page_relationships page) ≤ 2
    ∧ (offset = 0 → page_total page ≤ limit →
       occurrences r (page_relationships page) = 2).
Proof.
  intros Hok Hns Hnt Hr Hloop Hs Ht.
  destruct (listRelationships_ok (sourceId r) None "both" limit offset g Hok)
    as (g' & Heq & _).
  assert (Hocc : occurrences r (listed g (sourceId r) None "both") = 2).
  { unfold listed. simpl. rewrite occurrences_app.
    rewrite !collected_occurrences by done.
    rewrite (index_occurrences _ _ _ Hns Hs).
    rewrite Hloop at 1. by rewrite (index_occurrences _ _ _ Hnt Ht). }
  eexists _, g'. split; [exact Heq|]. simpl. split_and!; try done.
  - rewrite <- Hocc. apply occurrences_sublist, slice_sublist.
  - intros -> Hle. unfold slice. by rewrite drop_0, take_ge.
Qed.

Lemma listRelationships_self_loop_witness :
  ∃ page g',
    listRelationships "e" None "both" 100 0 loop_graph = (Ret page, g')
    ∧ page_total page = length (listed loop_graph "e" None "both")
    ∧ occurrences stored_loop (listed loop_graph "e" None "both") = 2
    ∧ page_relationships page
      = slice 0 100 (listed loop_graph "e" None "both")
    ∧ occurrences stored_loop (page_relationships page) ≤ 2
    ∧ (0 = 0 → page_total page ≤ 100 →
       occurrences stored_loop (page_relationships page) = 2).
Proof.
  apply (listRelationships_self_loop loop_graph stored_loop 100 0);
    try by_decide; vm_compute; reflexivity.
Defined.

(** C10 (as stated) fails: when the entity has a hundred relationships
    that were created before the self-loop, the default page of
    [listRelationships] (the first 100) does not hold the self-loop at all,
    although [total] counts it twice. *)
Lemma listRelationships_self_loop_counterexample :
  kg_inv busy_graph
  ∧ relFiles busy_graph !! "r" = Some stored_loop
  ∧ sourceId stored_loop = targetId stored_loop
  ∧ ∃ page,
      (listRelationships "e" None "both" 100 0 busy_graph).1 = Ret page
      ∧ page_total page = 102
      ∧ occurrences stored_loop (listed busy_graph "e" None "both") = 2
      ∧ occurrences stored_loop (page_relationships page) = 0.
Proof.
  split; [by_decide|]. split; [vm_compute; reflexivity|].
  split; [reflexivity|]. eexists. split; [vm_compute; reflexivity|].
  split_and!; vm_compute; reflexivity.
Qed.

(** ** Traversal: totality and what it preserves *)

Lemma rels_within_endpoints g : rels_within (endpoints g) g.
Proof.
  intros r Hr. unfold endpoints.
  assert (Hin : r ∈ (relationshipCache g).*2 ++ (map_to_list (relFiles g)).*2)
    by (rewrite elem_of_app; exact Hr).
  split; apply elem_of_list_to_set, list_elem_of_bind; exists r;
    (split; [|done]).
  - left.
  - right. left.
Qed.

Lemma lookup_relationship_known g id r :
  lookup_relationship g id = Some r → known_relationship g r.
Proof.
  unfold lookup_relationship, known_relationship.
  destruct (omap_get id (relationshipCache g)) as [r'|] eqn:Hget.
  - intros [= ->]. left. apply omap_get_elem_of in Hget.
    apply list_elem_of_fmap. by exists (id, r).
  - intros Hf. right. apply list_elem_of_fmap. exists (id, r).
    split; [done|]. by apply elem_of_map_to_list.
Qed.

Lemma after_rel_lookup_known g id r :
  known_relationship (after_rel_lookup g id) r → known_relationship g r.
Proof.
  unfold known_relationship.
  rewrite (proj1 (after_rel_lookup_frame g id)). intros [H|H]; [|by right].
  apply list_elem_of_fmap in H as ([k r'] & -> & Hin). simpl.
  apply after_rel_lookup_entries in Hin as [Hin|(file & Hf & _)].
  - left. apply list_elem_of_fmap. by exists (k, r').
  - right. apply list_elem_of_fmap. exists (file, r').
    split; [done|]. by apply elem_of_map_to_list.
Qed.

Lemma rels_within_after_rel_lookup U g id :
  rels_within U g → rels_within U (after_rel_lookup g id).
Proof. intros H r Hr. by apply H, (after_rel_lookup_known g id). Qed.

Lemma collect_relationships_within U type ids g :
  rels_within U g →
  ∃ l g', collect_relationships type ids g = (Ret l, g')
          ∧ rels_within U g'
          ∧ Forall (λ r, sourceId r ∈ U ∧ targetId r ∈ U) l
          ∧ source_index g' = source_index g
          ∧ target_index g' = target_index g.
Proof.
  revert g. induction ids as [|id ids IH]; intros g Hw.
  - by exists [], g.
  - cbn [collect_relationships]. unfold mbind, M_bind.
    rewrite try_getRelationship_eq.
    destruct (IH _ (rels_within_after_rel_lookup U g id Hw))
      as (l & g' & Heq & Hw' & Hl & Hs & Ht).
    destruct (after_rel_lookup_frame g id) as (_ & Hs0 & Ht0 & _).
    rewrite Heq. unfold mret, M_ret.
    eexists _, g'. split; [reflexivity|].
    split_and!; [done | | congruence ..].
    destruct (lookup_relationship g id) as [r|] eqn:Hr; [|done].
    case_match; [|done]. constructor; [|done].
    by apply Hw, (lookup_relationship_known g id).
Qed.

Lemma listRelationships_within U entityId type direction limit offset g :
  rels_within U g →
  ∃ page g', listRelationships entityId type direction limit offset g
             = (Ret page, g')
             ∧ rels_within U g'
             ∧ Forall (λ r, sourceId r ∈ U ∧ targetId r ∈ U)
                      (page_relationships page).
Proof.
  intros Hw. unfold listRelationships.
  unfold mbind at 1. unfold M_bind at 1. unfold get_state at 1.
  assert (Hout : ∃ l1 g1,
    (if bool_decide (direction = "outgoing") || bool_decide (direction = "both")
     then match source_index g !! entityId with
          | Some relationshipIds => collect_relationships type relationshipIds
          | None => mret []
          end
     else mret []) g = (Ret l1, g1)
    ∧ rels_within U g1
    ∧ Forall (λ r, sourceId r ∈ U ∧ targetId r ∈ U) l1).
  { destruct (bool_decide (direction = "outgoing")
              || bool_decide (direction = "both")); [|by exists [], g].
    destruct (source_index g !! entityId) as [ids|]; [|by exists [], g].
    destruct (collect_relationships_within U type ids g Hw)
      as (l & g' & ? & ? & ? & _). by exists l, g'. }
  destruct Hout as (l1 & g1 & Heq1 & Hw1 & Hl1).
  unfold mbind at 1. unfold M_bind at 1. rewrite Heq1.
  unfold mbind at 1. unfold M_bind at 1. unfold get_state at 1.
  assert (Hin : ∃ l2 g2,
    (if bool_decide (direction = "incoming") || bool_decide (direction = "both")
     then match target_index g1 !! entityId with
          | Some relationshipIds => collect_relationships type relationshipIds
          | None => mret []
          end
     else mret []) g1 = (Ret l2, g2)
    ∧ rels_within U g2
    ∧ Forall (λ r, sourceId r ∈ U ∧ targetId r ∈ U) l2).
  { destruct (bool_decide (direction = "incoming")
              || bool_decide (direction = "both")); [|by exists [], g1].
    destruct (target_index g1 !! entityId) as [ids|]; [|by exists [], g1].
    destruct (collect_relationships_within U type ids g1 Hw1)
      as (l & g' & ? & ? & ? & _). by exists l, g'. }
  destruct Hin as (l2 & g2 & Heq2 & Hw2 & Hl2).
  unfold mbind, M_bind. rewrite Heq2. unfold mret, M_ret.
  eexists _, g2. split; [reflexivity|]. split; [done|]. simpl.
  unfold slice. eapply Forall_forall. intros r Hr.
  apply subseteq_take, subseteq_drop, elem_of_app in Hr as [Hr|Hr].
  - by eapply Forall_forall in Hl1.
  - by eapply Forall_forall in Hl2.
Qed.

Lemma try_getEntity_world id w :
  try_catch (Some <$> on_storage (getEntity id None)) (λ _, mret None) w
  = (Ret (lookup_entity (storageManager w) id None),
     mkWorld (after_lookup (storageManager w) id None) (knowledgeGraph w)).
Proof.
  pose proof (try_getEntity_eq id None (storageManager w)) as H.
  unfold try_catch, fmap, M_fmap, on_storage in *.
  destruct (getEntity id None (storageManager w)) as [[e|err|] s'];
    simpl in *; by inversion H.
Qed.

Lemma size_difference_add (U vis : gset string) c :
  c ∈ U → c ∉ vis → S (size (U ∖ (vis ∪ {[c]}))) ≤ size (U ∖ vis).
Proof.
  intros HU Hvis. apply subset_size. split; [set_solver|].
  intros Hsub. assert (c ∈ U ∖ (vis ∪ {[c]})) by (apply Hsub; set_solver).
  set_solver.
Qed.

(** [traverseGraph] in terms of what the start id resolves to. *)
Lemma traverseGraph_unfold fuel start types maxDepth direction w :
  traverseGraph fuel start types maxDepth direction w =
  match lookup_entity (storageManager w) start None with
  | Some e =>
      match _traverseBFS fuel types maxDepth direction [(start, 0)] {[start]}
              (mkTraversal [e] [] {[start := mkPathInfo 0 []]})
              (mkWorld (after_lookup (storageManager w) start None)
                       (knowledgeGraph w)) with
      | (Ret (_, result), w') => (Ret result, w')
      | (Throw err, w') => (Throw err, w')
      | (Timeout, w') => (Timeout, w')
      end
  | None => (Throw (mkError ("Entity not found: " ++ start) None), w)
  end.
Proof.
  unfold traverseGraph.
  unfold mbind at 1. unfold M_bind at 1. unfold on_storage at 1.
  rewrite getEntity_eq. unfold lookup_entity, after_lookup.
  destruct (omap_get start (entityCache (storageManager w))) as [e|].
  - destruct w as [sm g]. cbn [storageManager knowledgeGraph].
    unfold mbind, M_bind.
    by destruct (_traverseBFS _ _ _ _ _ _ _ _) as [[[? ?]| |] ?].
  - destruct (find_entity (files (storageManager w)) start None) as [e|].
    + unfold mbind, M_bind.
      by destruct (_traverseBFS _ _ _ _ _ _ _ _) as [[[? ?]| |] ?].
    + by destruct w.
Qed.

Section traversal_safe.
Context (P : StorageManager → Prop) (Q : Entity → Prop) (U : gset string).
Hypothesis P_after_lookup : ∀ sm id, P sm → P (after_lookup sm id None).
Hypothesis Q_lookup :
  ∀ sm id e, P sm → lookup_entity sm id None = Some e → Q e.

(** The body of the [for] loop never throws, keeps the invariants and does
    not raise the potential of the traversal. *)
Lemma visit_relationship_safe types u d q vis res r w :
  P (storageManager w) → Forall Q (entities res) →
  sourceId r ∈ U ∧ targetId r ∈ U →
  ∃ q' vis' res' w',
    visit_relationship types u d (q, vis, res) r w = (Ret (q', vis', res'), w')
    ∧ P (storageManager w')
    ∧ knowledgeGraph w' = knowledgeGraph w
    ∧ Forall Q (entities res')
    ∧ length q' + size (U ∖ vis') ≤ length q + size (U ∖ vis).
Proof.
  intros HP HQ [Hs Ht]. unfold visit_relationship.
  destruct (match types with
            | Some types => negb (bool_decide (rel_type r ∈ types))
            | None => false
            end).
  { by exists q, vis, res, w. }
  set (res1 := if existsb _ _ then res else _).
  assert (HQ1 : Forall Q (entities res1)).
  { unfold res1. by destruct (existsb _ _). }
  set (c := if decide (sourceId r = u) then targetId r else sourceId r).
  assert (Hc : c ∈ U) by (unfold c; by case_decide).
  destruct (decide (c ∈ vis)) as [Hvis|Hvis].
  { by exists q, vis, res1, w. }
  unfold mbind, M_bind. rewrite try_getEntity_world.
  pose proof (size_difference_add U vis c Hc Hvis) as Hsize.
  destruct (lookup_entity (storageManager w) c None) as [e|] eqn:Hl.
  - cbn [paths entities relationships].
    assert (HQe : Forall Q (entities res1 ++ [e])).
    { apply Forall_app. split; [done|]. constructor; [|done].
      by eapply Q_lookup. }
    destruct (paths res1 !! u) as [here|].
    + eexists _, _, _, _. split; [reflexivity|]. simpl.
      split_and!; auto. rewrite length_app. simpl. lia.
    + eexists _, _, _, _. split; [reflexivity|]. simpl.
      split_and!; auto. lia.
  - eexists _, _, _, _. split; [reflexivity|]. simpl.
    split_and!; auto. lia.
Qed.

Lemma for_each_visit_safe types u d rels q vis res w :
  P (storageManager w) → Forall Q (entities res) →
  Forall (λ r, sourceId r ∈ U ∧ targetId r ∈ U) rels →
  ∃ q' vis' res' w',
    for_each (visit_relationship types u d) rels (q, vis, res) w
    = (Ret (q', vis', res'), w')
    ∧ P (storageManager w')
    ∧ knowledgeGraph w' = knowledgeGraph w
    ∧ Forall Q (entities res')
    ∧ length q' + size (U ∖ vis') ≤ length q + size (U ∖ vis).
Proof.
  revert q vis res w. induction rels as [|r rels IH]; intros q vis res w HP HQ Hr.
  - exists q, vis, res, w. by split_and!.
  - apply Forall_cons in Hr as [Hr Hrels]. cbn [for_each].
    destruct (visit_relationship_safe types u d q vis res r w HP HQ Hr)
      as (q1 & vis1 & res1 & w1 & Heq & HP1 & Hg1 & HQ1 & Hpot1).
    unfold mbind, M_bind. rewrite Heq.
    destruct (IH q1 vis1 res1 w1 HP1 HQ1 Hrels)
      as (q2 & vis2 & res2 & w2 & Heq2 & HP2 & Hg2 & HQ2 & Hpot2).
    exists q2, vis2, res2, w2. split_and!; try done; [congruence | lia].
Qed.

(** [_traverseBFS] returns, and returns normally, as soon as the fuel
    exceeds the potential (queue length plus unvisited endpoints). *)
Lemma traverseBFS_safe fuel types maxDepth direction q vis res w :
  P (storageManager w) → rels_within U (knowledgeGraph w) →
  Forall Q (entities res) →
  length q + size (U ∖ vis) < fuel →
  ∃ vis' res' w',
    _traverseBFS fuel types maxDepth direction q vis res w
    = (Ret (vis', res'), w')
    ∧ P (storageManager w')
    ∧ rels_within U (knowledgeGraph w')
    ∧ Forall Q (entities res').
Proof.
  revert q vis res w.
  induction fuel as [|fuel IH]; intros q vis res w HP Hw HQ Hfuel; [lia|].
  destruct q as [|[u d] q].
  { exists vis, res, w. by split_and!. }
  cbn [_traverseBFS]. simpl in Hfuel. case_decide.
  { apply IH; try done. lia. }
  destruct (listRelationships_within U u None direction 1000 0
              (knowledgeGraph w) Hw) as (page & g' & Heq & Hw' & Hpage).
  unfold mbind at 1. unfold M_bind at 1. unfold on_graph at 1. rewrite Heq.
  destruct (for_each_visit_safe types u d (page_relationships page) q vis res
              (mkWorld (storageManager w) g') HP HQ Hpage)
    as (q1 & vis1 & res1 & w1 & Heq1 & HP1 & Hg1 & HQ1 & Hpot1).
  unfold mbind at 1. unfold M_bind at 1. rewrite Heq1.
  apply IH; try done; [|lia]. by rewrite Hg1.
Qed.

(** [traverseGraph] with enough fuel: it throws when the start entity does
    not resolve and returns a traversal otherwise. *)
Lemma traverseGraph_safe fuel start types maxDepth direction w :
  P (storageManager w) → rels_within U (knowledgeGraph w) →
  2 + size U ≤ fuel →
  match lookup_entity (storageManager w) start None with
  | Some _ =>
      ∃ res w',
        traverseGraph fuel start types maxDepth direction w = (Ret res, w')
        ∧ P (storageManager w')
        ∧ rels_within U (knowledgeGraph w')
        ∧ Forall Q (entities res)
  | None =>
      traverseGraph fuel start types maxDepth direction w
      = (Throw (mkError ("Entity not found: " ++ start) None), w)
  end.
Proof.
  intros HP Hw Hfuel. rewrite traverseGraph_unfold.
  destruct (lookup_entity (storageManager w) start None) as [e|] eqn:Hl;
    [|done].
  destruct (traverseBFS_safe fuel types maxDepth direction [(start, 0)]
              {[start]} (mkTraversal [e] [] {[start := mkPathInfo 0 []]})
              (mkWorld (after_lookup (storageManager w) start None)
                       (knowledgeGraph w)))
    as (vis' & res' & w' & Heq & ? & ? & ?); simpl.
  - by apply P_after_lookup.
  - done.
  - constructor; [by eapply Q_lookup | done].
  - assert (size (U ∖ {[start]}) ≤ size U) by (apply subseteq_size; set_solver).
    lia.
  - rewrite Heq. by exists res', w'.
Qed.
End traversal_safe.

(** C2. On the chain A - B - C - D of ["next"] relationships,
    [traverseGraph] from A in direction ['both'] returns exactly A and B
    with [maxDepth] 1, exactly A, B, C and D with [maxDepth] 3, and A alone
    for the relationship types [["other"]] whatever [maxDepth]; and on any
    world, from any start, the traversal comes to an end: with fuel for
    [enough_fuel w] iterations of the [while] loop it has returned or
    thrown. *)
Theorem traverseGraph_chain_and_termination :
  entity_ids (traverseGraph (enough_fuel chain_world) "A" None 1 "both"
                chain_world).1 = Some ["A"; "B"]
  ∧ entity_ids (traverseGraph (enough_fuel chain_world) "A" None 3 "both"
                  chain_world).1 = Some ["A"; "B"; "C"; "D"]
  ∧ (∀ maxDepth,
       entity_ids (traverseGraph (enough_fuel chain_world) "A"
                     (Some ["other"]) maxDepth "both" chain_world).1
       = Some ["A"])
  ∧ (∀ w start types maxDepth direction fuel,
       enough_fuel w ≤ fuel →
       (traverseGraph fuel start types maxDepth direction w).1 ≠ Timeout).
Proof.
  split_and!.
  - by vm_compute.
  - by vm_compute.
  - intros [|n]; by vm_compute.
  - intros w start types maxDepth direction fuel Hfuel.
    pose proof (traverseGraph_safe (λ _, True) (λ _, True)
                  (endpoints (knowledgeGraph w)) (λ _ _ _, I) (λ _ _ _ _ _, I)
                  fuel start types maxDepth direction w I
                  (rels_within_endpoints _) Hfuel) as H.
    destruct (lookup_entity (storageManager w) start None).
    + destruct H as (res & w' & -> & _). done.
    + by rewrite H.
Qed.

Lemma traverseGraph_chain_and_termination_witness :
  (traverseGraph 6 "A" None 3 "both" chain_world).1 ≠ Timeout.
Proof.
  apply (proj2 (proj2 (proj2 traverseGraph_chain_and_termination))).
  vm_compute. lia.
Defined.

(** ** Dangling relationships *)

Lemma lookup_entity_after_lookup_None sm id t :
  entity_ids_ok sm → lookup_entity sm t None = None →
  lookup_entity (after_lookup sm id None) t None = None.
Proof.
  intros Hok Ht. unfold after_lookup.
  destruct (omap_get id (entityCache sm)); [done|].
  destruct (find_entity (files sm) id None) as [e|] eqn:Hf; [|done].
  unfold lookup_entity in *.
  destruct (omap_get t (entityCache sm)) eqn:Hc; [done|].
  destruct (omap_get t (entityCache (cache_put e sm))) as [e'|] eqn:Hc';
    [|done].
  apply omap_get_elem_of, cache_put_entries in Hc' as [[= -> ->]|Hin].
  - rewrite (find_entity_id _ _ _ _ (proj1 Hok) Hf) in Ht. congruence.
  - apply omap_get_None in Hc. exfalso. apply Hc.
    apply list_elem_of_fmap. by exists (t, e').
Qed.

(** C8. When the start entity resolves and some id (the target of a
    dangling relationship) does not, [traverseGraph] returns a traversal
    (it neither throws nor runs on) and no entity of the result carries the
    unresolved id. *)
Theorem traverseGraph_dangling w r types maxDepth direction fuel :
  entity_ids_ok (storageManager w) →
  is_Some (lookup_entity (storageManager w) (sourceId r) None) →
  lookup_entity (storageManager w) (targetId r) None = None →
  enough_fuel w ≤ fuel →
  ∃ result w',
    traverseGraph fuel (sourceId r) types maxDepth direction w
    = (Ret result, w')
    ∧ ∀ e, e ∈ entities result → ent_id e ≠ targetId r.
Proof.
  intros Hok [e0 Hstart] Htarget Hfuel.
  pose proof (traverseGraph_safe
    (λ sm, entity_ids_ok sm ∧ lookup_entity sm (targetId r) None = None)
    (λ e, ent_id e ≠ targetId r)
    (endpoints (knowledgeGraph w))) as H.
  specialize (H ltac:(intros sm id [? ?]; split;
                        [by apply after_lookup_ids_ok
                        |by apply lookup_entity_after_lookup_None])).
  specialize (H ltac:(intros sm id e [Hi Hn] Hl;
                        rewrite (lookup_entity_id _ _ _ _ Hi Hl);
                        intros ->; congruence)).
  specialize (H fuel (sourceId r) types maxDepth direction w
                (conj Hok Htarget) (rels_within_endpoints _) Hfuel).
  rewrite Hstart in H. destruct H as (res & w' & Heq & _ & _ & HQ).
  exists res, w'. split; [done|]. intros e He.
  by eapply Forall_forall in HQ.
Qed.

Lemma traverseGraph_dangling_witness :
  ∃ result w',
    traverseGraph 10 "A" None 3 "both" dangling_world = (Ret result, w')
    ∧ ∀ e, e ∈ entities result → ent_id e ≠ "ghost".
Proof.
  apply (traverseGraph_dangling dangling_world (edge "ag" "A" "ghost" "next")
           None 3 "both" 10).
  - by_decide.
  - vm_compute. eexists. reflexivity.
  - vm_compute. reflexivity.
  - vm_compute. lia.
Defined.

(** ** Lists of calls and sorting by a comparator *)

Lemma mapM_length {S A B} (f : A → M S B) l s out s' :
  mapM f l s = (Ret out, s') → length out = length l.
Proof.
  revert s out s'. induction l as [|x l IH]; intros s out s'; simpl.
  - by intros [= <- <-].
  - unfold mbind, M_bind, mret, M_ret.
    destruct (f x s) as [[y| |] s1]; try done.
    destruct (mapM f l s1) as [[ys| |] s2] eqn:H; try done.
    intros [= <- <-]. simpl. f_equal. by eapply IH.
Qed.

Lemma insert_by_sorted {A} (le : A → A → bool) (R : relation A) x l :
  (∀ a b, le a b = true → R a b) → (∀ a b, le a b = false → R b a) →
  Transitive R →
  StronglySorted R l → StronglySorted R (insert_by le x l).
Proof.
  intros Hle Hgt Htrans. induction 1 as [|y l Hs IH Hall]; simpl.
  - repeat constructor.
  - destruct (le x y) eqn:Hxy.
    + constructor; [by constructor|]. constructor; [by apply Hle|].
      eapply Forall_impl; [exact Hall|]. intros z Hz. simpl in Hz.
      etrans; [by apply Hle | done].
    + constructor; [done|]. rewrite insert_by_Permutation.
      constructor; [by apply Hgt | done].
Qed.

Lemma sort_by_sorted {A} (le : A → A → bool) (R : relation A) l :
  (∀ a b, le a b = true → R a b) → (∀ a b, le a b = false → R b a) →
  Transitive R → StronglySorted R (sort_by le l).
Proof.
  intros ???. unfold sort_by. induction l as [|x l IH]; simpl.
  - constructor.
  - by apply insert_by_sorted.
Qed.

Lemma StronglySorted_take {A} (R : relation A) n l :
  StronglySorted R l → StronglySorted R (take n l).
Proof.
  intros H. revert n. induction H as [|x l Hs IH Hall]; intros [|n]; simpl;
    try constructor; [apply IH|].
  apply Forall_forall. intros y Hy. apply subseteq_take in Hy.
  by eapply Forall_forall in Hall.
Qed.

Lemma StronglySorted_fmap {A B} (R : relation B) (f : A → B) l :
  StronglySorted (λ a b, R (f a) (f b)) l → StronglySorted R (f <$> l).
Proof.
  induction 1 as [|x l Hs IH Hall]; simpl; constructor; [done|].
  by apply Forall_fmap.
Qed.

Lemma totalDistance_sum traversals entity :
  totalDistance traversals entity
  = sum_list ((λ t, default 0 (distance <$> paths t !! ent_id entity))
                <$> traversals).
Proof.
  unfold totalDistance.
  assert (Hgen : ∀ a,
    foldl (λ sum result,
             sum + match paths result !! ent_id entity with
                   | Some p => distance p
                   | None => 0
                   end) a traversals
    = a + sum_list ((λ t, default 0 (distance <$> paths t !! ent_id entity))
                      <$> traversals)).
  { induction traversals as [|t ts IH]; intros a; simpl; [lia|].
    rewrite IH. change (list_fmap Traversal nat ?f ts) with (f <$> ts).
    destruct (paths t !! ent_id entity); simpl; lia. }
  by rewrite Hgen.
Qed.

Lemma avgDistance_mean traversals entity :
  (avgDistance traversals entity == mean_distance traversals (ent_id entity))%Q.
Proof.
  unfold avgDistance, js_div, mean_distance.
  rewrite totalDistance_sum. apply Qred_correct.
Qed.

Lemma elem_of_filters x (init : list string) (sets : list (list string)) :
  x ∈ foldl (λ common set, filter (λ id, id ∈ set) common) init sets
  ↔ x ∈ init ∧ ∀ set, set ∈ sets → x ∈ set.
Proof.
  revert init. induction sets as [|set sets IH]; intros init; simpl.
  - split; [|tauto]. intros H. split; [done|]. by intros ? ?%elem_of_nil.
  - rewrite IH, list_elem_of_filter. split.
    + intros [[Hs Hi] Hall]. split; [done|]. intros set'.
      rewrite elem_of_cons. intros [->|?]; auto.
    + intros [Hi Hall]. split_and!; [apply Hall; left | done |].
      intros set' ?. apply Hall. by right.
Qed.

Lemma filters_NoDup (init : list string) (sets : list (list string)) :
  NoDup init →
  NoDup (foldl (λ common set, filter (λ id, id ∈ set) common) init sets).
Proof.
  revert init. induction sets as [|set sets IH]; intros init H; simpl; [done|].
  by apply IH, NoDup_filter.
Qed.

(** The common ids are those that every traversal reached, the original
    ids left out. *)
Lemma commonEntityIds_spec entityIds traversals id :
  traversals ≠ [] →
  id ∈ commonEntityIds entityIds traversals ↔
  (id ∉ entityIds) ∧ ∀ t, t ∈ traversals → id ∈ ent_id <$> entities t.
Proof.
  intros Hne. unfold commonEntityIds.
  destruct traversals as [|t0 ts]; [done|]. simpl.
  rewrite list_elem_of_filter, elem_of_filters, elem_of_to_set. split.
  - intros (Hni & H0 & Hall). split; [done|]. intros t.
    rewrite elem_of_cons. intros [->|Ht]; [done|].
    apply elem_of_to_set, Hall, list_elem_of_fmap. by exists t.
  - intros (Hni & Hall). split_and!; [done | apply Hall; left |].
    intros set (t & -> & Ht)%list_elem_of_fmap.
    apply elem_of_to_set, Hall. by right.
Qed.

Lemma commonEntityIds_NoDup entityIds traversals :
  NoDup (commonEntityIds entityIds traversals).
Proof.
  unfold commonEntityIds. apply NoDup_filter, filters_NoDup.
  destruct traversals; simpl; [apply NoDup_nil_2 | apply to_set_NoDup].
Qed.

Lemma StronglySorted_Forall_impl {A} (R R' : relation A) (P : A → Prop) l :
  (∀ a b, P a → P b → R a b → R' a b) →
  Forall P l → StronglySorted R l → StronglySorted R' l.
Proof.
  intros Himpl HP Hs. induction Hs as [|x l Hs IH Hall]; [constructor|].
  apply Forall_cons in HP as [Hx Hl]. constructor; [by apply IH|].
  apply Forall_forall. intros y Hy.
  apply Himpl; [done | by eapply Forall_forall in Hl | by eapply Forall_forall in Hall].
Qed.

(** ** Traversal of a coherent world: the stateful code computes the pure
    traversal *)

Lemma same_view_refl w : same_view w w.
Proof. by split_and!. Qed.

Lemma same_view_trans w1 w2 w3 :
  same_view w1 w2 → same_view w2 w3 → same_view w1 w3.
Proof. intros (?&?&?&?) (?&?&?&?). split_and!; congruence. Qed.

Lemma same_view_resolve w w' : same_view w w' → world_resolve w' = world_resolve w.
Proof. intros (Hf&_). unfold world_resolve. by rewrite Hf. Qed.

Lemma same_view_listing w w' direction :
  same_view w w' → world_listing w' direction = world_listing w direction.
Proof.
  intros (_&Hr&Hs&Ht). unfold world_listing, listed, collected.
  by rewrite Hr, Hs, Ht.
Qed.

Lemma visit_relationship_ok types u d acc r w :
  world_ok w →
  ∃ w', visit_relationship types u d acc r w
        = (Ret (visit_pure (world_resolve w) types u d acc r), w')
        ∧ world_ok w' ∧ same_view w w'.
Proof.
  intros [Hs Hg]. destruct acc as [[q vis] res].
  unfold visit_relationship, visit_pure.
  destruct (match types with
            | Some types => negb (bool_decide (rel_type r ∈ types))
            | None => false
            end).
  { exists w. split_and!; [done | by split | apply same_view_refl]. }
  set (res1 := if existsb _ _ then res else _).
  set (c := if decide (sourceId r = u) then targetId r else sourceId r).
  destruct (decide (c ∈ vis)).
  { exists w. split_and!; [done | by split | apply same_view_refl]. }
  unfold mbind, M_bind. rewrite try_getEntity_world.
  rewrite (lookup_entity_ok _ _ _ Hs). fold (world_resolve w c).
  exists (mkWorld (after_lookup (storageManager w) c None) (knowledgeGraph w)).
  split_and!.
  - destruct (world_resolve w c); [|done]. cbn [paths].
    by destruct (paths res1 !! u).
  - split; [by apply after_lookup_store_ok | done].
  - split_and!; try done. apply after_lookup_files.
Qed.

Lemma for_each_visit_ok types u d rels acc w :
  world_ok w →
  ∃ w', for_each (visit_relationship types u d) rels acc w
        = (Ret (foldl (visit_pure (world_resolve w) types u d) acc rels), w')
        ∧ world_ok w' ∧ same_view w w'.
Proof.
  revert acc w. induction rels as [|r rels IH]; intros acc w Hok.
  - exists w. split_and!; [done | done | apply same_view_refl].
  - cbn [for_each foldl].
    destruct (visit_relationship_ok types u d acc r w Hok)
      as (w1 & Heq1 & Hok1 & Hv1).
    unfold mbind, M_bind. rewrite Heq1.
    destruct (IH (visit_pure (world_resolve w) types u d acc r) w1 Hok1)
      as (w2 & Heq2 & Hok2 & Hv2).
    rewrite Heq2, (same_view_resolve _ _ Hv1).
    exists w2. split_and!; [done | done | by eapply same_view_trans].
Qed.

Lemma listRelationships_world u direction w :
  world_ok w →
  ∃ page w',
    on_graph (listRelationships u None direction 1000 0) w = (Ret page, w')
    ∧ page_relationships page = world_listing w direction u
    ∧ world_ok w' ∧ same_view w w'.
Proof.
  intros [Hs Hg].
  destruct (listRelationships_ok u None direction 1000 0 _ Hg)
    as (g' & Heq & Hg' & Hr & Hsi & Hti).
  unfold on_graph. rewrite Heq.
  eexists _, _. split; [reflexivity|]. split_and!; [done | by split |].
  by split_and!.
Qed.

(** In a coherent world [_traverseBFS] computes [bfs_pure]. *)
Lemma traverseBFS_ok fuel types maxDepth direction q vis res w :
  world_ok w →
  ∃ w', _traverseBFS fuel types maxDepth direction q vis res w
        = (match bfs_pure (world_resolve w) (world_listing w direction)
                   types maxDepth fuel q vis res with
           | Some r => Ret r
           | None => Timeout
           end, w')
        ∧ world_ok w' ∧ same_view w w'.
Proof.
  revert q vis res w. induction fuel as [|fuel IH]; intros q vis res w Hok.
  - exists w. destruct q as [|[u d] q];
      (split_and!; [done | done | apply same_view_refl]).
  - destruct q as [|[u d] q].
    { exists w. split_and!; [done | done | apply same_view_refl]. }
    cbn [_traverseBFS bfs_pure]. case_decide; [by apply IH|].
    destruct (listRelationships_world u direction w Hok)
      as (page & w1 & Heq1 & Hpage & Hok1 & Hv1).
    unfold mbind at 1. unfold M_bind at 1. rewrite Heq1, Hpage.
    destruct (for_each_visit_ok types u d (world_listing w direction u)
                (q, vis, res) w1 Hok1) as (w2 & Heq2 & Hok2 & Hv2).
    unfold mbind at 1. unfold M_bind at 1.
    rewrite Heq2, (same_view_resolve _ _ Hv1).
    destruct (foldl (visit_pure (world_resolve w) types u d) (q, vis, res)
                    (world_listing w direction u)) as [[q' vis'] res'].
    destruct (IH q' vis' res' w2 Hok2) as (w3 & Heq3 & Hok3 & Hv3).
    pose proof (same_view_trans _ _ _ Hv1 Hv2) as Hv12.
    rewrite Heq3, (same_view_resolve _ _ Hv12),
      (same_view_listing _ _ _ Hv12).
    exists w3. split_and!; [done | done | by eapply same_view_trans].
Qed.

(** In a coherent world [traverseGraph] computes the pure traversal from
    the entity that the start id resolves to. *)
Lemma traverseGraph_ok fuel start types maxDepth direction w :
  world_ok w →
  ∃ w', traverseGraph fuel start types maxDepth direction w
        = (match world_resolve w start with
           | Some e =>
               match bfs_pure (world_resolve w) (world_listing w direction)
                       types maxDepth fuel [(start, 0)] {[start]}
                       (mkTraversal [e] [] {[start := mkPathInfo 0 []]}) with
               | Some (_, result) => Ret result
               | None => Timeout
               end
           | None => Throw (mkError ("Entity not found: " ++ start) None)
           end, w')
        ∧ world_ok w' ∧ same_view w w'.
Proof.
  intros [Hs Hg]. rewrite traverseGraph_unfold.
  rewrite (lookup_entity_ok _ _ _ Hs). fold (world_resolve w start).
  destruct (world_resolve w start) as [e|].
  - set (w0 := mkWorld (after_lookup (storageManager w) start None)
                       (knowledgeGraph w)).
    assert (Hok0 : world_ok w0) by (split; [by apply after_lookup_store_ok | done]).
    assert (Hv0 : same_view w w0).
    { split_and!; try done. apply after_lookup_files. }
    destruct (traverseBFS_ok fuel types maxDepth direction [(start, 0)]
                {[start]} (mkTraversal [e] [] {[start := mkPathInfo 0 []]})
                w0 Hok0) as (w1 & Heq & Hok1 & Hv1).
    rewrite Heq, (same_view_resolve _ _ Hv0), (same_view_listing _ _ _ Hv0).
    exists w1. split_and!; [|done | by eapply same_view_trans].
    match goal with
    | |- context [bfs_pure ?a ?b ?c ?d ?e ?f ?g ?h] =>
        by destruct (bfs_pure a b c d e f g h) as [[? ?]|]
    end.
  - exists w. split_and!; [done | by split | apply same_view_refl].
Qed.

(** ** Breadth-first search records shortest paths *)

Section bfs_correct.
Context (resolve : string → option Entity).
Context (listing : string → list Relationship).
Context (types : option (list string)) (maxDepth : nat) (start : string).

Local Abbreviation Hops := (hops resolve listing types start).
Local Abbreviation Inv := (bfs_inv resolve listing types maxDepth start).
Local Abbreviation visit := (visit_pure resolve types).
Local Abbreviation allowed := (type_allowed types).

(** What one visit does to the queue, the visited set and the paths. *)
Lemma visit_pure_cases u d q vis res r q' vis' res' :
  visit u d (q, vis, res) r = (q', vis', res') →
  (allowed r = false ∧ q' = q ∧ vis' = vis ∧ paths res' = paths res)
  ∨ (allowed r = true ∧ connected u r ∈ vis
     ∧ q' = q ∧ vis' = vis ∧ paths res' = paths res)
  ∨ (allowed r = true ∧ connected u r ∉ vis
     ∧ vis' = vis ∪ {[connected u r]}
     ∧ ((resolve (connected u r) = None ∨ paths res !! u = None)
        ∧ q' = q ∧ paths res' = paths res
        ∨ ∃ here steps,
            is_Some (resolve (connected u r))
            ∧ paths res !! u = Some here
            ∧ q' = q ++ [(connected u r, d + 1)]
            ∧ paths res' = <[connected u r := mkPathInfo (d + 1) steps]>
                             (paths res))).
Proof.
  unfold visit_pure, type_allowed, connected.
  assert (Hfilter :
    match types with
    | Some tys => negb (bool_decide (rel_type r ∈ tys))
    | None => false
    end = negb match types with
               | Some tys => bool_decide (rel_type r ∈ tys)
               | None => true
               end) by (by destruct types).
  rewrite Hfilter. clear Hfilter.
  destruct (match types with
            | Some tys => bool_decide (rel_type r ∈ tys)
            | None => true
            end); simpl.
  2: { intros [= <- <- <-]. by left. }
  set (res1 := if existsb _ _ then res else _).
  assert (Hp : paths res1 = paths res)
    by (unfold res1; by destruct (existsb _ _)).
  set (c := if decide (sourceId r = u) then targetId r else sourceId r).
  destruct (decide (c ∈ vis)).
  { intros [= <- <- <-]. right. left. by split_and!. }
  cbn [paths entities relationships].
  destruct (resolve c) as [e|] eqn:He.
  - rewrite Hp. destruct (paths res !! u) as [here|] eqn:Hu;
      intros [= <- <- <-]; right; right; (split_and!; [done | done | done |]).
    + right. eexists here, _. split_and!; try done.
    + left. auto.
  - intros [= <- <- <-]. right. right. split_and!; [done | done | done |].
    left. auto.
Qed.

Lemma inv_depths k q vis D v d :
  Inv k q vis D → (v, d) ∈ q → d = k ∨ d = S k.
Proof.
  intros HI Hin.
  destruct (inv_levels _ _ _ _ _ _ _ _ _ HI) as (q1 & q2 & -> & H1 & H2).
  apply elem_of_app in Hin as [Hin|Hin].
  - left. eapply Forall_forall in H1; [|exact Hin]. done.
  - right. eapply Forall_forall in H2; [|exact Hin]. done.
Qed.

(** One visit keeps the invariant while the entry being expanded is still
    counted as queued, and leaves the other end of the relationship
    visited. *)
Lemma visit_pure_inv k u q vis res r q' vis' res' :
  k < maxDepth → r ∈ listing u →
  Inv k ((u, k) :: q) vis (paths res) →
  visit u k (q, vis, res) r = (q', vis', res') →
  Inv k ((u, k) :: q') vis' (paths res')
  ∧ vis ⊆ vis'
  ∧ (allowed r = true → connected u r ∈ vis').
Proof.
  intros Hk Hr HI Hvisit.
  apply visit_pure_cases in Hvisit
    as [(Hna & -> & -> & ->)|[(Ha & Hc & -> & -> & ->)|(Ha & Hc & -> & Hrest)]].
  { split_and!; [done | done | congruence]. }
  { by split_and!. }
  set (c := connected u r) in *.
  destruct (inv_queued _ _ _ _ _ _ _ _ _ HI u k) as (here & Hu & Hdist);
    [left|].
  destruct Hrest as [(Hnone & -> & ->)|(here' & steps & Hres & Hu' & -> & ->)].
  - (* the entity does not resolve: it is visited, nothing is recorded *)
    assert (Hres : resolve c = None) by (destruct Hnone; congruence).
    split_and!; [|set_solver..].
    destruct HI as [Hlev Hq Hsound Hmin Hdone Hvis Hfound Hfront].
    split; try done.
    + intros v p Hv. destruct (Hdone v p Hv) as [?|Hproc]; [by left|].
      right. intros Hlt r0 ??. apply elem_of_union_l. by apply Hproc.
    + intros v Hv. apply elem_of_union_l. by apply Hvis.
    + intros v [Hv|Hv%elem_of_singleton]%elem_of_union Hsome.
      * by apply Hfound.
      * subst v. rewrite Hres in Hsome. by destruct Hsome.
  - (* the entity resolves: it is recorded one hop further and queued *)
    rewrite Hu in Hu'. injection Hu' as <-.
    assert (HcD : paths res !! c = None).
    { destruct (paths res !! c) eqn:HcD; [|done]. exfalso. apply Hc.
      by apply (inv_visited _ _ _ _ _ _ _ _ _ HI). }
    assert (Hhop : hop resolve listing types u c).
    { split; [|done]. by exists r. }
    assert (Hhops : Hops (S k) c).
    { econstructor; [|exact Hhop]. rewrite <- Hdist.
      by apply (inv_sound _ _ _ _ _ _ _ _ _ HI). }
    assert (Hshort : ∀ n, Hops n c → S k ≤ n).
    { intros n Hn. destruct (decide (S k ≤ n)) as [|Hlt]; [done|]. exfalso.
      inversion Hn as [|m x y Hm Hxc]; subst.
      - apply Hc. apply (inv_visited _ _ _ _ _ _ _ _ _ HI).
        apply (inv_frontier _ _ _ _ _ _ _ _ _ HI 0); [done | lia | lia].
      - destruct (inv_frontier _ _ _ _ _ _ _ _ _ HI m x Hm) as [px Hx];
          [lia | lia |].
        pose proof (inv_minimal _ _ _ _ _ _ _ _ _ HI x px m Hx Hm) as Hpx.
        destruct (inv_done _ _ _ _ _ _ _ _ _ HI x px Hx) as [Hin|Hproc].
        + apply (inv_depths _ _ _ _ _ _ HI) in Hin. lia.
        + destruct Hxc as [(r0 & Hr0 & Ha0 & Hc0) _].
          apply Hc. rewrite <- Hc0. apply Hproc; [lia | done | done]. }
    split_and!; [|set_solver..].
    destruct HI as [Hlev Hq Hsound Hmin Hdone Hvis Hfound Hfront].
    split.
    + destruct Hlev as (q1 & q2 & Heq & H1 & H2).
      exists q1, (q2 ++ [(c, k + 1)]). split_and!; [|done|].
      * rewrite app_assoc, <- Heq. done.
      * apply Forall_app. split; [done|]. constructor; [simpl; lia | done].
    + intros v d. rewrite app_comm_cons, elem_of_app, list_elem_of_singleton.
      intros [Hin|[= -> ->]].
      * destruct (Hq v d Hin) as (p & Hp & ?). exists p. split; [|done].
        rewrite lookup_insert_ne; [done|]. intros <-. congruence.
      * eexists. rewrite lookup_insert_eq. done.
    + intros v p. destruct (decide (v = c)) as [->|Hne].
      * rewrite lookup_insert_eq. intros [= <-]. simpl.
        by replace (k + 1) with (S k) by lia.
      * rewrite lookup_insert_ne by done. apply Hsound.
    + intros v p n. destruct (decide (v = c)) as [->|Hne].
      * rewrite lookup_insert_eq. intros [= <-] Hn. simpl.
        apply Hshort in Hn. lia.
      * rewrite lookup_insert_ne by done. apply Hmin.
    + intros v p. destruct (decide (v = c)) as [->|Hne].
      * rewrite lookup_insert_eq. intros [= <-]. left. simpl.
        rewrite app_comm_cons, elem_of_app, list_elem_of_singleton. by right.
      * rewrite lookup_insert_ne by done. intros Hv.
        destruct (Hdone v p Hv) as [Hin|Hproc].
        -- left. rewrite app_comm_cons, elem_of_app. by left.
        -- right. intros Hlt r0 ??. apply elem_of_union_l. by apply Hproc.
    + intros v. destruct (decide (v = c)) as [->|Hne]; [set_solver|].
      rewrite lookup_insert_ne by done. intros Hv.
      apply elem_of_union_l. by apply Hvis.
    + intros v Hv Hsome. destruct (decide (v = c)) as [->|Hne].
      * rewrite lookup_insert_eq. by eexists.
      * rewrite lookup_insert_ne by done. apply Hfound; [set_solver | done].
    + intros n v Hn ??. destruct (decide (v = c)) as [->|Hne].
      * rewrite lookup_insert_eq. by eexists.
      * rewrite lookup_insert_ne by done. by eapply Hfront.
Qed.

Lemma visits_inv k u rels q vis res q' vis' res' :
  k < maxDepth → (∀ r, r ∈ rels → r ∈ listing u) →
  Inv k ((u, k) :: q) vis (paths res) →
  foldl (visit u k) (q, vis, res) rels = (q', vis', res') →
  Inv k ((u, k) :: q') vis' (paths res')
  ∧ vis ⊆ vis'
  ∧ (∀ r, r ∈ rels → allowed r = true → connected u r ∈ vis').
Proof.
  intros Hk. revert q vis res.
  induction rels as [|r rels IH]; intros q vis res Hsub HI; cbn [foldl].
  - intros [= <- <- <-]. split_and!; [done | done |].
    by intros ? ?%elem_of_nil.
  - destruct (visit u k (q, vis, res) r) as [[q1 vis1] res1] eqn:Hv.
    destruct (visit_pure_inv k u q vis res r q1 vis1 res1 Hk) as (HI1 & Hs1 & Hc1);
      [apply Hsub; left | done | done |].
    intros Hfold.
    destruct (IH q1 vis1 res1) as (HI2 & Hs2 & Hc2);
      [intros ??; apply Hsub; by right | done | done |].
    split_and!; [done | set_solver |].
    intros r0 [->|Hin]%elem_of_cons Ha; [|by apply Hc2].
    apply Hs2. by apply Hc1.
Qed.

(** Once all the relationships of the expanded entry have been visited
    (or the entry is at the depth limit), it can leave the queue. *)
Lemma dequeue_inv k u q vis D :
  Inv k ((u, k) :: q) vis D →
  (k < maxDepth →
   ∀ r, r ∈ listing u → allowed r = true → connected u r ∈ vis) →
  Inv k q vis D.
Proof.
  intros HI Hproc.
  destruct HI as [Hlev Hq Hsound Hmin Hdone Hvis Hfound Hfront].
  split; try done.
  - destruct Hlev as (q1 & q2 & Heq & H1 & H2).
    destruct q1 as [|x q1]; simpl in Heq.
    + subst q2. apply Forall_cons in H2 as [Hk _]. simpl in Hk. lia.
    + injection Heq as <- ->. apply Forall_cons in H1 as [_ H1].
      by exists q1, q2.
  - intros v d Hin. apply Hq. by right.
  - intros v p Hv. destruct (Hdone v p Hv) as [Hin|?]; [|by right].
    apply elem_of_cons in Hin as [[= -> Hd]|Hin]; [|by left].
    right. rewrite Hd. exact Hproc.
Qed.

(** When only entries of the next depth are queued, the next level
    begins. *)
Lemma advance_inv k q vis D :
  Inv k q vis D → Forall (λ p, p.2 = S k) q → Inv (S k) q vis D.
Proof.
  intros HI Hall.
  destruct HI as [Hlev Hq Hsound Hmin Hdone Hvis Hfound Hfront].
  split; try done.
  - exists q, []. rewrite app_nil_r. by split_and!.
  - intros n v Hn Hle Hmax.
    destruct (decide (n ≤ k)) as [|Hgt]; [by eapply Hfront|].
    assert (n = S k) as -> by lia.
    inversion Hn as [|m x y Hm Hxv]; subst.
    destruct (Hfront k x Hm) as [px Hx]; [lia | lia |].
    pose proof (Hmin x px k Hx Hm) as Hpx.
    destruct Hxv as [(r0 & Hr0 & Ha0 & Hc0) Hsome].
    apply Hfound; [|done]. rewrite <- Hc0.
    destruct (Hdone x px Hx) as [Hin|Hproc].
    + eapply Forall_forall in Hall; [|exact Hin]. simpl in Hall. lia.
    + apply Hproc; [lia | done | done].
Qed.

Lemma normalize_inv k u d q vis D :
  Inv k ((u, d) :: q) vis D → Inv d ((u, d) :: q) vis D.
Proof.
  intros HI. destruct (decide (d = k)) as [->|Hne]; [done|].
  pose proof (inv_levels _ _ _ _ _ _ _ _ _ HI) as (q1 & q2 & Heq & H1 & H2).
  destruct q1 as [|x q1]; simpl in Heq.
  - subst q2. pose proof H2 as H2'. apply Forall_cons in H2' as [Hd _].
    simpl in Hd. subst d. by apply advance_inv.
  - injection Heq as <- ->. apply Forall_cons in H1 as [Hd _]. done.
Qed.

(** The loop keeps the invariant until the queue is empty. *)
Lemma bfs_pure_inv fuel k q vis res vis' res' :
  Inv k q vis (paths res) →
  bfs_pure resolve listing types maxDepth fuel q vis res = Some (vis', res') →
  ∃ k', Inv k' [] vis' (paths res').
Proof.
  revert k q vis res. induction fuel as [|fuel IH]; intros k q vis res HI.
  - destruct q as [|[u d] q]; [|done]. intros [= <- <-]. by exists k.
  - destruct q as [|[u d] q]; [intros [= <- <-]; by exists k|].
    apply normalize_inv in HI. cbn [bfs_pure]. case_decide as Hd.
    + apply (IH d). apply (dequeue_inv _ _ _ _ _ HI). lia.
    + destruct (foldl (visit u d) (q, vis, res) (listing u))
        as [[q1 vis1] res1] eqn:Hfold.
      destruct (visits_inv d u (listing u) q vis res q1 vis1 res1)
        as (HI1 & _ & Hc1); [lia | done | done | done |].
      apply (IH d). apply (dequeue_inv _ _ _ _ _ HI1). intros _. exact Hc1.
Qed.

Lemma empty_queue_inv k K vis D : Inv k [] vis D → k ≤ K → Inv K [] vis D.
Proof.
  intros HI. induction 1 as [|K Hle IH]; [done|].
  apply advance_inv; [done | constructor].
Qed.

(** The pure traversal records, for every entity within [maxDepth] hops,
    a path whose distance is the minimum hop count, and records no other
    distance. *)
Lemma bfs_pure_shortest fuel e vis' res' :
  bfs_pure resolve listing types maxDepth fuel [(start, 0)] {[start]}
           (mkTraversal [e] [] {[start := mkPathInfo 0 []]})
  = Some (vis', res') →
  (∀ v p, paths res' !! v = Some p →
          shortest resolve listing types start (distance p) v)
  ∧ (∀ n v, shortest resolve listing types start n v → n ≤ maxDepth →
            ∃ p, paths res' !! v = Some p ∧ distance p = n).
Proof.
  intros Hbfs.
  assert (H0 : Inv 0 [(start, 0)] {[start]} {[start := mkPathInfo 0 []]}).
  { split.
    - exists [(start, 0)], []. split_and!; [done | by constructor | constructor].
    - intros v d [= -> ->]%list_elem_of_singleton. eexists.
      by rewrite lookup_singleton_eq.
    - intros v p [<- <-]%lookup_singleton_Some. constructor.
    - intros v p n [<- <-]%lookup_singleton_Some _. simpl. lia.
    - intros v p [<- <-]%lookup_singleton_Some. left. simpl.
      by apply list_elem_of_singleton.
    - intros v [p [<- _]%lookup_singleton_Some]. set_solver.
    - intros v ->%elem_of_singleton _. eexists. by rewrite lookup_singleton_eq.
    - intros n v Hn Hle _. assert (n = 0) as -> by lia.
      inversion Hn; subst. eexists. by rewrite lookup_singleton_eq. }
  destruct (bfs_pure_inv fuel 0 [(start, 0)] {[start]}
              (mkTraversal [e] [] {[start := mkPathInfo 0 []]})
              vis' res' H0 Hbfs) as [k HI].
  split.
  - intros v p Hv. split.
    + by apply (inv_sound _ _ _ _ _ _ _ _ _ HI).
    + intros m Hm. by apply (inv_minimal _ _ _ _ _ _ _ _ _ HI v p).
  - intros n v [Hn Hmin] Hmax.
    pose proof (empty_queue_inv k (k `max` n) _ _ HI ltac:(lia)) as HI'.
    destruct (inv_frontier _ _ _ _ _ _ _ _ _ HI' n v Hn) as [p Hp];
      [lia | done |].
    exists p. split; [done|].
    pose proof (inv_minimal _ _ _ _ _ _ _ _ _ HI v p n Hp Hn).
    pose proof (inv_sound _ _ _ _ _ _ _ _ _ HI v p Hp) as Hs.
    apply Hmin in Hs. lia.
Qed.
End bfs_correct.

(** C3 (as amended). In a coherent world, when [traverseGraph] returns,
    every distance it records is the minimum hop count from the start
    entity, and every entity whose minimum hop count is at most [maxDepth]
    has a recorded path with that distance; hops are counted along the
    relationships that [listRelationships] reports for an entity in the
    given direction (its first 1000) and that pass the type filter, through
    entities that resolve.  In the diamond A -> B, A -> C, C -> B the
    recorded distance of B is 1. *)
Theorem traverseGraph_shortest_path :
  (∀ w fuel start types maxDepth direction result w',
     world_ok w →
     traverseGraph fuel start types maxDepth direction w = (Ret result, w') →
     (∀ v p, paths result !! v = Some p →
             shortest (world_resolve w) (world_listing w direction) types
                      start (distance p) v)
     ∧ (∀ n v, shortest (world_resolve w) (world_listing w direction) types
                        start n v →
               n ≤ maxDepth →
               ∃ p, paths result !! v = Some p ∧ distance p = n))
  ∧ recorded_distance
      (traverseGraph (enough_fuel diamond_world) "A" None 3 "both"
                     diamond_world).1 "B" = Some 1.
Proof.
  split; [|by vm_compute].
  intros w fuel start types maxDepth direction result w' Hok.
  destruct (traverseGraph_ok fuel start types maxDepth direction w Hok)
    as (w1 & -> & _).
  destruct (world_resolve w start) as [e|]; [|done].
  destruct (bfs_pure _ _ _ _ _ _ _ _) as [[vis res]|] eqn:Hbfs; [|done].
  intros [= <- <-]. by eapply bfs_pure_shortest.
Qed.

Lemma traverseGraph_shortest_path_witness :
  let result := traversal_of (traverseGraph 5 "A" None 3 "both"
                                diamond_world).1 in
  (∀ v p, paths result !! v = Some p →
          shortest (world_resolve diamond_world)
                   (world_listing diamond_world "both") None "A"
                   (distance p) v)
  ∧ (∀ n v, shortest (world_resolve diamond_world)
                     (world_listing diamond_world "both") None "A" n v →
            n ≤ 3 →
            ∃ p, paths result !! v = Some p ∧ distance p = n).
Proof.
  apply (proj1 traverseGraph_shortest_path diamond_world 5 "A" None 3 "both"
           _ (traverseGraph 5 "A" None 3 "both" diamond_world).2).
  - by_decide.
  - vm_compute. reflexivity.
Defined.

(** C3 (as stated) fails: in [detour_world] the relationships A -> C and
    C -> B make B two hops away from A, and that is the minimum hop count
    in the relationship graph; A -> X, X -> Y, Y -> B make it three hops
    away too.  C was never stored, and the traversal from A (default depth
    3, both directions) records B at distance 3. *)
Lemma traverseGraph_shortest_path_counterexample :
  shortest (λ id, Some (node id)) (world_listing detour_world "both") None
           "A" 2 "B"
  ∧ recorded_distance
      (traverseGraph (enough_fuel detour_world) "A" None 3 "both"
                     detour_world).1 "B" = Some 3.
Proof.
  split; [|by vm_compute]. split.
  - apply (hops_S _ _ _ _ 1 "C" "B").
    + apply (hops_S _ _ _ _ 0 "A" "C"); [constructor|].
      split; [|by eexists].
      exists (mkRelationship "ac" "A" "C" "link" "T1" "T2").
      split_and!; [by_decide | done | done].
    + split; [|by eexists].
      exists (mkRelationship "cb" "C" "B" "link" "T1" "T2").
      split_and!; [by_decide | done | done].
  - intros [|[|m]] Hm; [| |lia].
    + inversion Hm.
    + inversion Hm as [|n u v Hu [(r & Hr & _ & Hc) _]]; subst.
      inversion Hu; subst.
      assert (Hl : world_listing detour_world "both" "A"
                   = [mkRelationship "ac" "A" "C" "link" "T1" "T2";
                      mkRelationship "ax" "A" "X" "link" "T1" "T2"])
        by (by vm_compute).
      rewrite Hl in Hr. clear Hl Hm Hu.
      apply elem_of_cons in Hr as [Hr|Hr].
      { rewrite Hr in Hc. vm_compute in Hc. discriminate Hc. }
      apply list_elem_of_singleton in Hr.
      rewrite Hr in Hc. vm_compute in Hc. discriminate Hc.
Qed.

(** ** What every computation keeps *)

Section preserves.
Context {S : Type} (P : S → Prop).

Lemma preserves_ret {A} (a : A) : preserves P (mret a).
Proof. by intros s. Qed.

Lemma preserves_throw {A} e : preserves P (throw e : M S A).
Proof. by intros s. Qed.

Lemma preserves_get_state : preserves P get_state.
Proof. by intros s. Qed.

Lemma preserves_modify f : (∀ s, P s → P (f s)) → preserves P (modify f).
Proof. intros H s. apply H. Qed.

Lemma preserves_bind {A B} (m : M S A) (f : A → M S B) :
  preserves P m → (∀ a, preserves P (f a)) → preserves P (m ≫= f).
Proof.
  intros Hm Hf s Hs. unfold mbind, M_bind. specialize (Hm s Hs).
  destruct (m s) as [[a|e|] s']; simpl in *; [|done..]. by apply Hf.
Qed.

(** A continuation that reads the state it inherits. *)
Lemma preserves_bind_state {B} (f : S → M S B) :
  (∀ s, P s → preserves P (f s)) → preserves P (get_state ≫= f).
Proof. intros Hf s Hs. unfold mbind, M_bind, get_state. by apply Hf. Qed.

Lemma preserves_fmap {A B} (g : A → B) (m : M S A) :
  preserves P m → preserves P (g <$> m).
Proof.
  intros Hm s Hs. unfold fmap, M_fmap. specialize (Hm s Hs).
  by destruct (m s) as [[a|e|] s'].
Qed.

Lemma preserves_try_catch {A} (m : M S A) h :
  preserves P m → (∀ e, preserves P (h e)) → preserves P (try_catch m h).
Proof.
  intros Hm Hh s Hs. unfold try_catch. specialize (Hm s Hs).
  destruct (m s) as [[a|e|] s']; simpl in *; [done| |done]. by apply Hh.
Qed.
End preserves.

(** ** The invariants of the storage manager *)

Lemma omap_trim_bound {V} n (m : list (string * V)) :
  length m ≤ S n → length (omap_trim n m) ≤ n.
Proof.
  intros Hlen. unfold omap_trim. case_decide as Hgt; [|lia].
  replace (length m - n) with 1 by lia.
  destruct m as [|[k0 v0] m]; simpl in *; [lia|].
  unfold omap_delete. rewrite filter_cons. simpl.
  rewrite decide_False by (intros H; by apply H).
  etrans; [apply length_filter|]. lia.
Qed.

Lemma omap_delete_NoDup {V} k (m : list (string * V)) :
  NoDup m.*1 → NoDup (omap_delete k m).*1.
Proof.
  unfold omap_delete. induction m as [|[k0 v0] m IH]; [done|].
  rewrite filter_cons. simpl. intros [Hk Hm]%NoDup_cons.
  destruct (decide (k0 ≠ k)); [|auto]. simpl. apply NoDup_cons. split; [|auto].
  intros (p & -> & Hp%list_elem_of_filter)%list_elem_of_fmap. apply Hk.
  apply list_elem_of_fmap. exists p. tauto.
Qed.

Lemma omap_deletes_NoDup {V} keys (m : list (string * V)) :
  NoDup m.*1 → NoDup (foldl (λ acc key, omap_delete key acc) m keys).*1.
Proof.
  revert m. induction keys as [|k keys IH]; simpl; [done|].
  intros m H. by apply IH, omap_delete_NoDup.
Qed.

Lemma omap_trim_NoDup {V} n (m : list (string * V)) :
  NoDup m.*1 → NoDup (omap_trim n m).*1.
Proof. unfold omap_trim. case_decide; [|done]. apply omap_deletes_NoDup. Qed.

Lemma cache_put_bounded e s : cache_bounded s → cache_bounded (cache_put e s).
Proof.
  unfold cache_bounded, cache_put. simpl. intros [Hn Hlen]. split; [done|].
  apply omap_trim_bound. rewrite omap_set_length.
  destruct (omap_get _ _); lia.
Qed.

Lemma cache_put_NoDup e s :
  NoDup (entityCache s).*1 → NoDup (entityCache (cache_put e s)).*1.
Proof. intros H. simpl. by apply omap_trim_NoDup, omap_set_NoDup. Qed.

Ltac preserves_bind :=
  lazymatch goal with
  | |- preserves _ (_ ≫= _) => apply preserves_bind; [|intros ?]
  end.

Lemma files_named_write fs d e :
  files_named fs → files_named (fs_writeFile fs d (ent_id e) e).
Proof.
  intros (Ha & Hp & Ht & Hs & Hm).
  assert (Hdir : ∀ (root : gmap string (gmap string Entity)) k,
    map_Forall (λ _ dir, map_Forall (λ file e, ent_id e = file) dir) root →
    map_Forall (λ _ dir, map_Forall (λ file e, ent_id e = file) dir)
      (<[k := <[ent_id e := e]> (default ∅ (root !! k))]> root)).
  { intros root k Hroot. apply map_Forall_insert_2; [|done].
    apply map_Forall_insert_2; [done|].
    destruct (root !! k) as [dir|] eqn:Hk; simpl.
    - exact (Hroot _ _ Hk).
    - apply map_Forall_empty. }
  destruct d; simpl; unfold files_named; simpl; split_and!; auto;
    by apply map_Forall_insert_2.
Qed.

Lemma files_named_remove fs d file :
  files_named fs → files_named (fs_remove fs d file).
Proof.
  intros (Ha & Hp & Ht & Hs & Hm).
  assert (Hdir : ∀ (root : gmap string (gmap string Entity)) k,
    map_Forall (λ _ dir, map_Forall (λ file e, ent_id e = file) dir) root →
    map_Forall (λ _ dir, map_Forall (λ file e, ent_id e = file) dir)
      (alter (delete file) k root)).
  { intros root k Hroot k' dir'. destruct (decide (k = k')) as [<-|Hne].
    - rewrite lookup_alter_eq. destruct (root !! k) as [dir|] eqn:Hk; [|done].
      intros [= <-]. apply map_Forall_delete. exact (Hroot _ _ Hk).
    - rewrite lookup_alter_ne by done. apply Hroot. }
  destruct d; simpl; unfold files_named; simpl; split_and!; auto;
    by apply map_Forall_delete.
Qed.





Lemma oset_delete_NoDup x s : NoDup s → NoDup (oset_delete x s).
Proof. apply NoDup_filter. Qed.

Lemma index_add_NoDup key id index :
  index_sets_NoDup index → index_sets_NoDup (index_add key id index).
Proof.
  intros H. unfold index_add. apply map_Forall_insert_2.
  - apply oset_add_NoDup. case_decide as Hk.
    + destruct Hk as [set Hk]. rewrite Hk. simpl. exact (H _ _ Hk).
    + rewrite lookup_insert_eq. simpl. apply NoDup_nil_2.
  - case_decide; [done|]. apply map_Forall_insert_2; [apply NoDup_nil_2|done].
Qed.

Lemma _indexText_eq entityId text index :
  _indexText entityId text index =
  if truthy text
  then foldl (λ idx token, index_add token entityId idx) index
             (_tokenizeText text)
  else index.
Proof. unfold _indexText. by destruct (truthy text). Qed.

Lemma index_adds_NoDup id tokens index :
  index_sets_NoDup index →
  index_sets_NoDup (foldl (λ idx token, index_add token id idx) index tokens).
Proof.
  revert index. induction tokens as [|t tokens IH]; simpl; [done|].
  intros index H. by apply IH, index_add_NoDup.
Qed.

Lemma _indexText_NoDup id text index :
  index_sets_NoDup index → index_sets_NoDup (_indexText id text index).
Proof.
  intros H. rewrite _indexText_eq. destruct (truthy text); [|done].
  by apply index_adds_NoDup.
Qed.

Lemma _indexAgentId_NoDup id a index :
  index_sets_NoDup index → index_sets_NoDup (_indexAgentId id a index).
Proof.
  intros H. unfold _indexAgentId. destruct (truthy a); simpl; [|done].
  by apply (index_add_NoDup a id).
Qed.

Lemma _indexMetadataValue_NoDup id key value index :
  metadata_sets_NoDup index →
  metadata_sets_NoDup (_indexMetadataValue id key value index).
Proof.
  intros H. unfold _indexMetadataValue.
  set (index1 := if decide (is_Some (index !! key)) then index
                 else <[key := ∅]> index).
  assert (H1 : metadata_sets_NoDup index1).
  { unfold index1. case_decide; [done|].
    apply map_Forall_insert_2; [apply map_Forall_empty|done]. }
  assert (Hv : index_sets_NoDup (default ∅ (index1 !! key))).
  { destruct (index1 !! key) as [valueMap|] eqn:Hk; simpl.
    - exact (H1 _ _ Hk).
    - apply map_Forall_empty. }
  apply map_Forall_insert_2; [|done].
  apply (index_add_NoDup value id _ Hv).
Qed.

Lemma _indexMetadata_NoDup id metadata index :
  metadata_sets_NoDup index →
  metadata_sets_NoDup (_indexMetadata id metadata index).
Proof.
  unfold _indexMetadata. revert index.
  induction metadata as [|[k v] metadata IH]; simpl; [done|].
  intros index H. apply IH. destruct v as [|value|items]; simpl; [done| |].
  - by apply _indexMetadataValue_NoDup.
  - clear IH. revert index H. induction items as [|item items IH]; simpl; [done|].
    intros index H. by apply IH, _indexMetadataValue_NoDup.
Qed.

Lemma oset_deletes_NoDup id (index : gmap string (list string)) :
  index_sets_NoDup index → index_sets_NoDup (oset_delete id <$> index).
Proof.
  intros H k set. rewrite lookup_fmap.
  destruct (index !! k) as [set0|] eqn:Hk; [|done].
  intros [= <-]. apply oset_delete_NoDup. exact (H _ _ Hk).
Qed.



(** *** Properties closed under the primitive state changes

    Every operation changes the state through six primitive steps only:
    caching an entity, dropping a cache entry, writing an entity to the
    file named after its id, unlinking a file, indexing an entity and
    removing an entity from the indices.  A property that each of them
    keeps is kept by every operation, whatever its outcome. *)

Section storage_closed.
Context (P : StorageManager → Prop).
Hypothesis P_cache_put : ∀ e s, P s → P (cache_put e s).
Hypothesis P_uncache : ∀ id s, P s → P (set_entityCache (omap_delete id) s).
Hypothesis P_write :
  ∀ d e s, P s → P (set_files (λ fs, fs_writeFile fs d (ent_id e) e) s).
Hypothesis P_remove :
  ∀ d file s, P s → P (set_files (λ fs, fs_remove fs d file) s).
Hypothesis P_index : ∀ e, preserves P (_indexEntity e).
Hypothesis P_unindex : ∀ e, preserves P (_removeEntityFromIndices e).

Lemma preserves__cacheEntity e : preserves P (_cacheEntity e).
Proof. intros s Hs. by apply P_cache_put. Qed.

Lemma preserves_getEntity id context : preserves P (getEntity id context).
Proof.
  intros s Hs. rewrite getEntity_eq. repeat case_match; simpl; auto.
Qed.

Lemma preserves__readEntityFile d file : preserves P (_readEntityFile d file).
Proof.
  intros s Hs. rewrite _readEntityFile_eq. case_match; simpl; auto.
Qed.

Lemma preserves_storeEntity env e context :
  preserves P (storeEntity env e context).
Proof.
  unfold storeEntity.
  set (e1 := if truthy (ent_id e) then e else set_ent_id _ e).
  destruct (truthy (ent_type e1)); cbn [negb]; [|apply preserves_throw].
  set (e2 := set_ent_updated _ _).
  unfold _getEntityPath. cbv beta iota zeta.
  repeat preserves_bind.
  - apply preserves_modify. intros s Hs. by apply (P_write _ e2).
  - apply P_index.
  - apply preserves__cacheEntity.
  - apply preserves_ret.
Qed.

Lemma preserves_unlink d file : preserves P (unlink d file).
Proof.
  unfold unlink. apply preserves_bind_state. intros s Hs.
  case_match; [|apply preserves_throw].
  apply preserves_modify. intros s'. apply P_remove.
Qed.

Lemma preserves_deleteEntity id context :
  preserves P (deleteEntity id context).
Proof.
  unfold deleteEntity. apply preserves_bind; [apply preserves_getEntity|].
  intros e. unfold _getEntityPath. cbv beta iota zeta.
  repeat preserves_bind.
  - apply P_unindex.
  - apply preserves_modify. intros s. apply P_uncache.
  - apply preserves_unlink.
  - apply preserves_ret.
Qed.

Lemma preserves_writeFile d e : preserves P (writeFile d (ent_id e) e).
Proof.
  unfold writeFile. apply preserves_bind_state. intros s Hs.
  case_match; [|apply preserves_throw].
  apply preserves_modify. intros s'. apply P_write.
Qed.

Lemma preserves_updateEntity env id updates context :
  preserves P (updateEntity env id updates context).
Proof.
  unfold updateEntity. apply preserves_bind; [apply preserves_getEntity|].
  intros e. unfold _getEntityPath, _updateEntityIndices.
  cbv beta iota zeta. repeat preserves_bind.
  - apply (preserves_writeFile _ (apply_updates e updates (stamp_updated env))).
  - apply P_unindex.
  - apply P_index.
  - apply preserves__cacheEntity.
  - apply preserves_ret.
Qed.

Lemma preserves_scan_files type d names :
  preserves P (scan_files type d names).
Proof.
  induction names as [|file names IH]; simpl; [apply preserves_ret|].
  apply preserves_bind.
  - apply preserves_try_catch; [apply preserves__readEntityFile|].
    intros _. apply preserves_ret.
  - intros r. apply preserves_bind; [done|]. intros found. apply preserves_ret.
Qed.

Lemma preserves_scan_directories type directories :
  preserves P (scan_directories type directories).
Proof.
  induction directories as [|d directories IH]; simpl; [apply preserves_ret|].
  apply preserves_bind_state. intros s Hs.
  apply preserves_bind; [apply preserves_scan_files|]. intros here.
  apply preserves_bind; [done|]. intros there. apply preserves_ret.
Qed.

Lemma preserves_listEntities type context limit offset :
  preserves P (listEntities type context limit offset).
Proof.
  unfold listEntities. apply preserves_bind_state. intros s Hs.
  apply preserves_bind; [apply preserves_scan_directories|].
  intros entities. apply preserves_ret.
Qed.

Lemma preserves_get_agent_entities type ids :
  preserves P (get_agent_entities type ids).
Proof.
  induction ids as [|id ids IH]; simpl; [apply preserves_ret|].
  apply preserves_bind.
  - apply preserves_try_catch.
    + apply preserves_fmap, preserves_getEntity.
    + intros _. apply preserves_ret.
  - intros r. apply preserves_bind; [done|]. intros found. apply preserves_ret.
Qed.

Lemma preserves_findEntitiesByAgentId a type limit offset :
  preserves P (findEntitiesByAgentId a type limit offset).
Proof.
  unfold findEntitiesByAgentId. apply preserves_bind_state. intros s Hs.
  destruct (agentId_index s !! a).
  - apply preserves_bind; [apply preserves_get_agent_entities|].
    intros ?. apply preserves_ret.
  - case_match; [|apply preserves_ret].
    apply preserves_bind; [apply preserves_scan_files|].
    intros ?. apply preserves_ret.
Qed.

Lemma preserves_getAgentMemory agent memoryId :
  preserves P (getAgentMemory agent memoryId).
Proof.
  unfold getAgentMemory. apply preserves_bind; [apply preserves_getEntity|].
  intros memory. case_decide; [apply preserves_throw | apply preserves_ret].
Qed.

Lemma preserves_resolve_page {A} context (key : A → string) page :
  preserves P (resolve_page context key page).
Proof.
  intros s Hs.
  destruct (resolve_page_eq P context key page s) as (s' & Heq & _ & Hs');
    [|done|].
  { intros s0 e id H0 _. by apply P_cache_put. }
  by rewrite Heq.
Qed.

Lemma preserves_searchByText query options :
  preserves P (searchByText query options).
Proof.
  unfold searchByText. apply preserves_bind_state. intros s Hs.
  apply preserves_bind; [apply preserves_resolve_page|].
  intros ?. apply preserves_ret.
Qed.

Lemma preserves_searchByMetadata metadata options :
  preserves P (searchByMetadata metadata options).
Proof.
  unfold searchByMetadata. apply preserves_bind_state. intros s Hs.
  case_decide; [apply preserves_ret|].
  apply preserves_bind; [apply preserves_resolve_page|].
  intros ?. apply preserves_ret.
Qed.

Lemma state_after_closed c s : P s → P (state_after c s).
Proof.
  destruct c; simpl.
  - apply preserves_storeEntity.
  - apply preserves_getEntity.
  - apply preserves_updateEntity.
  - apply preserves_deleteEntity.
  - apply preserves_listEntities.
  - apply preserves_findEntitiesByAgentId.
  - apply preserves_getAgentMemory.
  - apply preserves_searchByText.
  - apply preserves_searchByMetadata.
Qed.
End storage_closed.

(** A property that only reads the cache and its bound is indifferent to
    the files and the indices. *)
Lemma preserves__indexEntity_frame (P : StorageManager → Prop) e :
  (∀ s s', files s' = files s → entityCache s' = entityCache s →
           maxCacheSize s' = maxCacheSize s → P s → P s') →
  preserves P (_indexEntity e).
Proof.
  intros HP s. unfold _indexEntity. unfold_monad. simpl. by apply HP.
Qed.

Lemma preserves__removeEntityFromIndices_frame (P : StorageManager → Prop) e :
  (∀ s s', files s' = files s → entityCache s' = entityCache s →
           maxCacheSize s' = maxCacheSize s → P s → P s') →
  preserves P (_removeEntityFromIndices e).
Proof.
  intros HP s. unfold _removeEntityFromIndices. unfold_monad. simpl.
  by apply HP.
Qed.

Lemma uncache_bounded id s :
  cache_bounded s → cache_bounded (set_entityCache (omap_delete id) s).
Proof.
  intros [Hn Hb]. split; [done|]. simpl.
  etrans; [apply omap_delete_length|done].
Qed.

Lemma uncache_ids_ok id s :
  entity_ids_ok s → entity_ids_ok (set_entityCache (omap_delete id) s).
Proof.
  intros [Hf Hc]. split; [done|]. simpl. unfold omap_delete.
  apply Forall_forall. intros p [_ Hp]%list_elem_of_filter. revert p Hp.
  by apply Forall_forall.
Qed.

Lemma write_ids_ok d e s :
  entity_ids_ok s →
  entity_ids_ok (set_files (λ fs, fs_writeFile fs d (ent_id e) e) s).
Proof. intros [Hf Hc]. split; [|done]. by apply files_named_write. Qed.

Lemma remove_ids_ok d file s :
  entity_ids_ok s → entity_ids_ok (set_files (λ fs, fs_remove fs d file) s).
Proof. intros [Hf Hc]. split; [|done]. by apply files_named_remove. Qed.

(** The id sets of the three indices hold no id twice. *)
Lemma indices_NoDup_index e :
  preserves indices_NoDup (_indexEntity e).
Proof.
  intros s (Ht & Hm & Ha). unfold _indexEntity.
  unfold mbind, M_bind, modify.
  unfold indices_NoDup, set_text_index, set_metadata_index, set_agentId_index.
  cbn [text_index metadata_index agentId_index snd]. split_and!.
  - repeat case_match; repeat apply _indexText_NoDup; done.
  - by do 2 apply _indexMetadata_NoDup.
  - case_match; [|done]. by apply _indexAgentId_NoDup.
Qed.

Lemma indices_NoDup_unindex e :
  preserves indices_NoDup (_removeEntityFromIndices e).
Proof.
  intros s (Ht & Hm & Ha). unfold _removeEntityFromIndices.
  unfold mbind, M_bind, modify.
  unfold indices_NoDup, set_text_index, set_metadata_index, set_agentId_index.
  cbn [text_index metadata_index agentId_index snd]. split_and!.
  - by apply oset_deletes_NoDup.
  - intros k valueMap. rewrite lookup_fmap.
    destruct (metadata_index s !! k) as [v0|] eqn:Hk; [|done].
    intros [= <-]. apply oset_deletes_NoDup. exact (Hm _ _ Hk).
  - case_match; [|done]. intros k set.
    destruct (decide (agentId e = k)) as [<-|Hne].
    + rewrite lookup_alter_eq.
      destruct (agentId_index s !! agentId e) as [set0|] eqn:Hk; [|done].
      intros [= <-]. apply oset_delete_NoDup. exact (Ha _ _ Hk).
    + rewrite lookup_alter_ne by done. apply Ha.
Qed.

(** X1. Whatever operation of the storage manager (or search of the query
    engine) runs and however it ends, an entity cache that was within its
    bound stays within it, and the bound itself is never changed. *)
Theorem entity_cache_stays_bounded c s :
  cache_bounded s →
  cache_bounded (state_after c s)
  ∧ maxCacheSize (state_after c s) = maxCacheSize s.
Proof.
  intros Hs.
  apply (state_after_closed
           (λ s', cache_bounded s' ∧ maxCacheSize s' = maxCacheSize s));
    [..|done].
  - intros e s' [? ?]. split; [by apply cache_put_bounded|done].
  - intros id s' [? ?]. split; [by apply uncache_bounded|done].
  - by intros d e s' [? ?].
  - by intros d file s' [? ?].
  - intros e. apply preserves__indexEntity_frame.
    intros s1 s2 _ Hc Hm [[? ?] ?]. unfold cache_bounded.
    rewrite Hc, Hm. by split_and!.
  - intros e. apply preserves__removeEntityFromIndices_frame.
    intros s1 s2 _ Hc Hm [[? ?] ?]. unfold cache_bounded.
    rewrite Hc, Hm. by split_and!.
Qed.

Lemma entity_cache_stays_bounded_witness :
  cache_bounded
    (state_after (StoreEntity sample_env sample_note None) small_store)
  ∧ maxCacheSize
      (state_after (StoreEntity sample_env sample_note None) small_store)
    = maxCacheSize small_store.
Proof.
  apply (entity_cache_stays_bounded
           (StoreEntity sample_env sample_note None) small_store).
  by_decide.
Defined.

(** X2. Whatever operation runs on plain names and however it ends, every
    entity file stays named after the id of the entity it holds, and every
    cache entry stays keyed by it. *)
Theorem entity_ids_stay_ok c s :
  plain_storage_call c = true →
  entity_ids_ok s → entity_ids_ok (state_after c s).
Proof.
  intros _. apply state_after_closed.
  - intros e s'. apply entity_ids_ok_put.
  - apply uncache_ids_ok.
  - apply write_ids_ok.
  - apply remove_ids_ok.
  - intros e. apply preserves__indexEntity_frame.
    intros s1 s2 Hf Hc _ [? ?]. unfold entity_ids_ok. by rewrite Hf, Hc.
  - intros e. apply preserves__removeEntityFromIndices_frame.
    intros s1 s2 Hf Hc _ [? ?]. unfold entity_ids_ok. by rewrite Hf, Hc.
Qed.

Lemma entity_ids_stay_ok_witness :
  entity_ids_ok
    (state_after (UpdateEntity sample_env "x"
                    (mkEntityUpdates None None None (Some "delta") None None
                                     None None) None)
                 small_store).
Proof. apply entity_ids_stay_ok; [reflexivity | by_decide]. Defined.

(** X3. Whatever operation runs and however it ends, the id sets of the
    text, metadata and agent indices hold no id twice. *)
Theorem indices_stay_NoDup c s :
  indices_NoDup s → indices_NoDup (state_after c s).
Proof.
  apply state_after_closed; try done.
  - apply indices_NoDup_index.
  - apply indices_NoDup_unindex.
Qed.

Lemma indices_stay_NoDup_witness :
  indices_NoDup
    (state_after (StoreEntity sample_env red_large_entity None) small_store).
Proof. apply indices_stay_NoDup. by_decide. Defined.

(** ** The cache evicts in insertion order *)

Lemma omap_set_absent {V} k (v : V) m :
  k ∉ m.*1 → omap_set k v m = m ++ [(k, v)].
Proof.
  induction m as [|[k0 v0] m IH]; simpl; [done|].
  rewrite not_elem_of_cons. intros [Hne Hk].
  rewrite decide_False by done. by rewrite IH.
Qed.

Lemma omap_delete_absent {V} k (m : list (string * V)) :
  k ∉ m.*1 → omap_delete k m = m.
Proof.
  unfold omap_delete. induction m as [|[k0 v0] m IH]; [done|].
  simpl. rewrite not_elem_of_cons. intros [Hne Hk]. rewrite filter_cons. simpl.
  rewrite decide_True by done. by rewrite IH.
Qed.

(** X4. The entity cache is first-in-first-out.  When the cache is full,
    storing an entity under an id that is not cached evicts exactly the
    entry that was inserted first and appends the new one; storing under an
    id that is cached replaces the entry where it stands, without evicting
    or reordering; and a cache hit of [getEntity] leaves the cache as it
    is. *)
Theorem entity_cache_fifo env e ctx s stored s' oldest rest :
  storeEntity env e ctx s = (Ret stored, s') →
  entityCache s = oldest :: rest →
  NoDup (entityCache s).*1 →
  length (entityCache s) = maxCacheSize s →
  (ent_id stored ∉ (entityCache s).*1 →
   entityCache s' = rest ++ [(ent_id stored, stored)])
  ∧ (ent_id stored ∈ (entityCache s).*1 →
     (entityCache s').*1 = (entityCache s).*1
     ∧ omap_get (ent_id stored) (entityCache s') = Some stored)
  ∧ (∀ id context cached,
       omap_get id (entityCache s) = Some cached →
       getEntity id context s = (Ret cached, s)).
Proof.
  intros Hstore Hcache Hnd Hfull.
  apply storeEntity_Ret in Hstore as (_ & _ & -> & _).
  split_and!.
  - intros Hnew. rewrite omap_set_absent by done. unfold omap_trim.
    rewrite length_app. simpl. rewrite decide_True by lia.
    replace (length (entityCache s) + 1 - maxCacheSize s) with 1 by lia.
    rewrite Hcache in *. destruct oldest as [k0 v0]. simpl.
    simpl in Hnd. apply NoDup_cons in Hnd as [Hk0 _].
    simpl in Hnew. apply not_elem_of_cons in Hnew as [Hne _].
    unfold omap_delete. rewrite filter_cons. simpl.
    rewrite decide_False by (intros H; by apply H).
    fold (omap_delete k0 (rest ++ [(ent_id stored, stored)])).
    apply omap_delete_absent. rewrite fmap_app. simpl.
    rewrite elem_of_app, list_elem_of_singleton. intros [?|?]; [done|].
    by apply Hne.
  - intros Hold. unfold omap_trim.
    pose proof (omap_set_length (ent_id stored) stored (entityCache s)) as Hl.
    destruct (omap_get (ent_id stored) (entityCache s)) eqn:Hget.
    + rewrite decide_False by lia. split; [|apply omap_get_set_eq].
      rewrite omap_set_keys. by rewrite decide_True.
    + by apply omap_get_None in Hget.
  - intros id context cached Hget. rewrite getEntity_eq. by rewrite Hget.
Qed.

Lemma entity_cache_fifo_witness :
  ("entity_1700000000000_a1b2c3d4" ∉ (entityCache small_store).*1 →
   entityCache (storeEntity sample_env sample_note None small_store).2
   = [] ++ [("entity_1700000000000_a1b2c3d4", sample_stored)])
  ∧ ("entity_1700000000000_a1b2c3d4" ∈ (entityCache small_store).*1 →
     (entityCache (storeEntity sample_env sample_note None small_store).2).*1
     = (entityCache small_store).*1
     ∧ omap_get "entity_1700000000000_a1b2c3d4"
         (entityCache (storeEntity sample_env sample_note None small_store).2)
       = Some sample_stored)
  ∧ (∀ id context cached,
       omap_get id (entityCache small_store) = Some cached →
       getEntity id context small_store = (Ret cached, small_store)).
Proof.
  apply (entity_cache_fifo sample_env sample_note None small_store
           sample_stored _ ("x", stored_x) []).
  - vm_compute. reflexivity.
  - vm_compute. reflexivity.
  - apply (bool_decide_unpack _). vm_compute. exact I.
  - vm_compute. reflexivity.
Defined.

(** ** What the text index holds *)

Lemma ids_under_index_add index key id t x :
  x ∈ ids_under (index_add key id index) t
  ↔ x ∈ ids_under index t ∨ (x = id ∧ t = key).
Proof.
  unfold ids_under, index_add.
  destruct (decide (t = key)) as [->|Hne].
  - rewrite lookup_insert_eq. simpl. rewrite elem_of_oset_add.
    case_decide as Hk.
    + naive_solver.
    + rewrite lookup_insert_eq. simpl.
      assert (index !! key = None) as ->.
      { destruct (index !! key) eqn:?; [|done]. exfalso. by apply Hk. }
      simpl. naive_solver.
  - rewrite lookup_insert_ne by done. case_decide.
    + naive_solver.
    + rewrite lookup_insert_ne by done. naive_solver.
Qed.

Lemma ids_under_index_adds index id tokens t x :
  x ∈ ids_under (foldl (λ idx token, index_add token id idx) index tokens) t
  ↔ x ∈ ids_under index t ∨ (x = id ∧ t ∈ tokens).
Proof.
  revert index. induction tokens as [|token tokens IH]; intros index; simpl.
  - rewrite elem_of_nil. tauto.
  - rewrite IH, ids_under_index_add, elem_of_cons. naive_solver.
Qed.

Lemma ids_under__indexText index id text t x :
  x ∈ ids_under (_indexText id text index) t
  ↔ x ∈ ids_under index t ∨ (x = id ∧ t ∈ _tokenizeText text).
Proof.
  rewrite _indexText_eq. destruct text as [|c text].
  - simpl. assert (_tokenizeText "" = []) as -> by reflexivity.
    rewrite elem_of_nil. tauto.
  - cbn [truthy]. apply ids_under_index_adds.
Qed.

Lemma _tokenizeText_empty : _tokenizeText "" = [].
Proof. reflexivity. Qed.

Lemma text_index__indexEntity e s t x :
  x ∈ ids_under (text_index (_indexEntity e s).2) t
  ↔ x ∈ ids_under (text_index s) t ∨ (x = ent_id e ∧ t ∈ entity_tokens e).
Proof.
  unfold _indexEntity, mbind, M_bind, modify, set_text_index,
    set_metadata_index, set_agentId_index.
  cbn [snd text_index metadata_index agentId_index].
  set (i1 := if truthy (content e) then _ else text_index s).
  set (i2 := if truthy (name e) then _ else i1).
  assert (H1 : ∀ t x, x ∈ ids_under i1 t
                ↔ x ∈ ids_under (text_index s) t
                  ∨ (x = ent_id e ∧ t ∈ _tokenizeText (content e))).
  { intros t' x'. unfold i1. destruct (content e) as [|c text] eqn:Hc.
    - simpl. rewrite _tokenizeText_empty, elem_of_nil. tauto.
    - cbn [truthy]. apply ids_under__indexText. }
  assert (H2 : ∀ t x, x ∈ ids_under i2 t
                ↔ x ∈ ids_under i1 t
                  ∨ (x = ent_id e ∧ t ∈ _tokenizeText (name e))).
  { intros t' x'. unfold i2. destruct (name e) as [|c text] eqn:Hc.
    - simpl. rewrite _tokenizeText_empty, elem_of_nil. tauto.
    - cbn [truthy]. apply ids_under__indexText. }
  assert (H3 : x ∈ ids_under (if truthy (description e)
                              then _indexText (ent_id e) (description e) i2
                              else i2) t
               ↔ x ∈ ids_under i2 t
                 ∨ (x = ent_id e ∧ t ∈ _tokenizeText (description e))).
  { destruct (description e) as [|c text] eqn:Hc.
    - simpl. rewrite _tokenizeText_empty, elem_of_nil. tauto.
    - cbn [truthy]. apply ids_under__indexText. }
  rewrite H3, H2, H1. unfold entity_tokens. rewrite !elem_of_app. tauto.
Qed.

Lemma text_index__removeEntityFromIndices e s t x :
  x ∈ ids_under (text_index (_removeEntityFromIndices e s).2) t
  ↔ x ∈ ids_under (text_index s) t ∧ x ≠ ent_id e.
Proof.
  unfold _removeEntityFromIndices, mbind, M_bind, modify, set_text_index,
    set_metadata_index, set_agentId_index.
  cbn [snd text_index metadata_index agentId_index].
  unfold ids_under. rewrite lookup_fmap.
  destruct (text_index s !! t) as [set|]; simpl.
  - unfold oset_delete. rewrite list_elem_of_filter. tauto.
  - rewrite elem_of_nil. tauto.
Qed.

(** What [_indexEntity] and [_removeEntityFromIndices] leave alone. *)
Lemma _indexEntity_frame e s :
  (_indexEntity e s).1 = Ret tt
  ∧ files (_indexEntity e s).2 = files s
  ∧ entityCache (_indexEntity e s).2 = entityCache s
  ∧ maxCacheSize (_indexEntity e s).2 = maxCacheSize s.
Proof. done. Qed.

Lemma _removeEntityFromIndices_frame e s :
  (_removeEntityFromIndices e s).1 = Ret tt
  ∧ files (_removeEntityFromIndices e s).2 = files s
  ∧ entityCache (_removeEntityFromIndices e s).2 = entityCache s
  ∧ maxCacheSize (_removeEntityFromIndices e s).2 = maxCacheSize s.
Proof. done. Qed.

(** [storeEntity] as an equation. *)
Lemma storeEntity_eq env e ctx s stored s' :
  storeEntity env e ctx s = (Ret stored, s') →
  s' = cache_put stored
         (_indexEntity stored
            (set_files (λ fs, fs_writeFile fs
                                (_getEntityPath stored (default "shared" ctx)).1
                                (ent_id stored) stored) s)).2.
Proof.
  unfold storeEntity.
  set (e1 := if truthy (ent_id e) then e else set_ent_id _ e).
  destruct (truthy (ent_type e1)) eqn:Hty; simpl; [|by unfold throw].
  unfold _indexEntity, _cacheEntity, cache_put. unfold_monad. simpl.
  intros [= <- <-]. reflexivity.
Qed.

Lemma storeEntity_text_index_aux env e ctx s stored s' t x :
  storeEntity env e ctx s = (Ret stored, s') →
  x ∈ ids_under (text_index s') t
  ↔ x ∈ ids_under (text_index s) t
    ∨ (x = ent_id stored ∧ t ∈ entity_tokens stored).
Proof.
  intros ->%storeEntity_eq.
  change (text_index (cache_put stored ?s)) with (text_index s).
  by rewrite text_index__indexEntity.
Qed.

(** X5. A successful [storeEntity] adds the id of the stored entity to the
    text index under exactly the tokens of its content, name and
    description, and removes nothing from it (so the tokens of a text that
    the entity had before stay indexed). *)
Theorem storeEntity_text_index env e ctx s stored s' t x :
  storeEntity env e ctx s = (Ret stored, s') →
  x ∈ ids_under (text_index s') t
  ↔ x ∈ ids_under (text_index s) t
    ∨ (x = ent_id stored ∧ t ∈ entity_tokens stored).
Proof.
  intros Hstore. apply storeEntity_eq in Hstore. subst s'.
  change (text_index (cache_put stored ?s)) with (text_index s).
  by rewrite text_index__indexEntity.
Qed.

Lemma storeEntity_text_index_witness :
  "x" ∈ ids_under (text_index store_x) "beta"
  ↔ "x" ∈ ids_under (text_index (new_StorageManager 0)) "beta"
    ∨ ("x" = ent_id stored_x ∧ "beta" ∈ entity_tokens stored_x).
Proof.
  apply (storeEntity_text_index sample_env entity_x None
           (new_StorageManager 0) stored_x store_x "beta" "x").
  vm_compute. reflexivity.
Defined.

(** ** Deleting *)

Lemma getEntity_lookup id context s :
  getEntity id context s =
  match lookup_entity s id context with
  | Some e => (Ret e, after_lookup s id context)
  | None => (Throw (mkError ("Entity not found: " ++ id) None), s)
  end.
Proof.
  rewrite getEntity_eq. unfold lookup_entity, after_lookup.
  destruct (omap_get id (entityCache s)); [done|].
  by destruct (find_entity (files s) id context).
Qed.

(** [deleteEntity] as an equation: the file is unlinked last, after the
    indices and the cache have been purged. *)
Lemma deleteEntity_eq id context s :
  deleteEntity id context s =
  match lookup_entity s id context with
  | None => (Throw (mkError ("Entity not found: " ++ id) None), s)
  | Some e =>
      let d := (_getEntityPath e (effective_context context e)).1 in
      match fs_readFile (files s) d (ent_id e) with
      | Some _ =>
          (Ret true,
           set_files (λ fs, fs_remove fs d (ent_id e)) (purged s id context e))
      | None => (Throw enoent_unlink, purged s id context e)
      end
  end.
Proof.
  unfold deleteEntity. unfold mbind at 1. unfold M_bind at 1.
  rewrite getEntity_lookup.
  destruct (lookup_entity s id context) as [e|]; [|done].
  fold (effective_context context e). unfold _getEntityPath.
  cbv beta iota zeta. cbn [fst].
  set (d := if bool_decide (effective_context context e = "agent") && _
            then _ else _).
  unfold mbind, M_bind.
  destruct (_removeEntityFromIndices_frame e (after_lookup s id context))
    as (Hr & Hf & _).
  rewrite after_lookup_files in Hf.
  unfold purged.
  destruct (_removeEntityFromIndices e (after_lookup s id context))
    as [o s1]. simpl in Hr, Hf. subst o.
  unfold modify at 1. unfold unlink, mbind, M_bind, get_state.
  cbn [files set_entityCache snd]. rewrite Hf.
  by destruct (fs_readFile (files s) d (ent_id e)).
Qed.

Lemma text_index_purged s id context e t x :
  x ∈ ids_under (text_index (purged s id context e)) t
  ↔ x ∈ ids_under (text_index s) t ∧ x ≠ ent_id e.
Proof.
  unfold purged.
  change (text_index (set_entityCache ?f ?s)) with (text_index s).
  rewrite text_index__removeEntityFromIndices.
  assert (text_index (after_lookup s id context) = text_index s) as ->; [|done].
  unfold after_lookup. by repeat case_match.
Qed.

Lemma metadata_index_purged s id context e key value x :
  x ∈ metadata_ids_under (metadata_index (purged s id context e)) key value
  ↔ x ∈ metadata_ids_under (metadata_index s) key value ∧ x ≠ ent_id e.
Proof.
  unfold purged.
  change (metadata_index (set_entityCache ?f ?s)) with (metadata_index s).
  unfold _removeEntityFromIndices, mbind, M_bind, modify, set_text_index,
    set_metadata_index, set_agentId_index.
  cbn [snd text_index metadata_index agentId_index].
  assert (metadata_index (after_lookup s id context) = metadata_index s) as ->.
  { unfold after_lookup. by repeat case_match. }
  unfold metadata_ids_under. rewrite lookup_fmap.
  destruct (metadata_index s !! key) as [valueMap|]; simpl.
  - rewrite lookup_fmap. destruct (valueMap !! value) as [set|]; simpl.
    + unfold oset_delete. rewrite list_elem_of_filter. tauto.
    + rewrite elem_of_nil. tauto.
  - rewrite elem_of_nil. tauto.
Qed.

Lemma entityCache_purged s id context e :
  omap_get id (entityCache (purged s id context e)) = None.
Proof. unfold purged. simpl. apply omap_get_delete_eq. Qed.

(** The keys of the tally of [searchByText] are ids that the index holds
    under a query token. *)
Lemma count_matches_keys index tokens k c :
  (k, c) ∈ count_matches index tokens →
  ∃ t, t ∈ tokens ∧ k ∈ ids_under index t.
Proof.
  unfold count_matches.
  assert (Hgen : ∀ m,
    k ∈ (foldl (λ matchingEntityIds token,
                  match index !! token with
                  | Some entities =>
                      foldl (λ matching entityId,
                               omap_set entityId
                                 (default 0 (omap_get entityId matching) + 1)
                                 matching)
                            matchingEntityIds entities
                  | None => matchingEntityIds
                  end) m tokens).*1 →
    k ∈ m.*1 ∨ ∃ t, t ∈ tokens ∧ k ∈ ids_under index t).
  { induction tokens as [|token tokens IH]; intros m; simpl; [by left|].
    intros [Hk|(t & Ht & Hk)]%IH.
    - assert (Hin : ∀ (entities : list string) (m0 : list (string * nat)),
        k ∈ (foldl (λ matching entityId,
                      omap_set entityId
                        (default 0 (omap_get entityId matching) + 1) matching)
                   m0 entities).*1 → k ∈ m0.*1 ∨ k ∈ entities).
      { clear. intros entities.
        induction entities as [|x entities IH]; intros m0; simpl; [by left|].
        intros [Hk|Hk]%IH.
        - rewrite omap_set_keys in Hk. case_decide; [by left|].
          apply elem_of_app in Hk as [?|Hk]; [by left|].
          apply list_elem_of_singleton in Hk as ->. right. left.
        - right. by right. }
      destruct (index !! token) as [entities|] eqn:Hl; [|by left].
      apply Hin in Hk as [?|Hk]; [by left|]. right. exists token.
      split; [left|]. unfold ids_under. by rewrite Hl.
    - right. exists t. split; [by right | done]. }
  intros Hin. destruct (Hgen []) as [?%elem_of_nil|?]; [|done|done].
  apply list_elem_of_fmap. by exists (k, c).
Qed.

Lemma searchByText_results query options s r s' e key score :
  searchByText query options s = (Ret r, s') →
  (e, (key, score)) ∈ sr_results r →
  (∃ t, key ∈ ids_under (text_index s) t) ∧ (entity_ids_ok s → ent_id e = key).
Proof.
  unfold searchByText. unfold mbind, M_bind, get_state, mret, M_ret.
  match goal with
  | |- context [resolve_page ?c ?k ?p s] =>
      destruct (resolve_page_spec c k p s) as (found & s1 & -> & Hin & Hids)
  end.
  intros [= <- <-] Hres. simpl in Hres. split.
  - apply Hin, elem_of_slice, elem_of_cache_filters in Hres.
    unfold scored_matches in Hres.
    rewrite elem_of_sort_by, list_elem_of_filter, list_elem_of_fmap in Hres.
    destruct Hres as (_ & [k c] & [= -> ->] & Hc).
    apply count_matches_keys in Hc as (t & _ & Hk). by exists t.
  - intros Hok. destruct (Hids Hok) as [_ Hid]. exact (Hid _ _ Hres).
Qed.

Lemma elem_of_matchingSets index metadata set :
  set ∈ matchingSets index metadata →
  ∃ key value, set = metadata_ids_under index key value
               ∧ is_Some (index !! key ≫= λ valueMap, valueMap !! value).
Proof.
  unfold matchingSets. rewrite list_elem_of_omap.
  intros ([k v] & _ & Hset). simpl in Hset.
  exists k, (String_of v). unfold metadata_ids_under. rewrite Hset. eauto.
Qed.

Lemma searchByMetadata_results metadata options s r s' e key :
  searchByMetadata metadata options s = (Ret r, s') →
  (e, key) ∈ sr_results r →
  (∃ k v, key ∈ metadata_ids_under (metadata_index s) k v)
  ∧ (entity_ids_ok s → ent_id e = key).
Proof.
  unfold searchByMetadata. unfold mbind at 1. unfold M_bind, get_state.
  case_decide as Hlen.
  { intros [= <- <-]. by intros ?%elem_of_nil. }
  unfold mbind, M_bind, mret, M_ret.
  match goal with
  | |- context [resolve_page ?c ?k ?p s] =>
      destruct (resolve_page_spec c k p s) as (found & s1 & -> & Hin & Hids)
  end.
  intros [= <- <-] Hres. simpl in Hres. split.
  - apply Hin, elem_of_slice, elem_of_cache_filters in Hres.
    apply combine_sets_spec in Hres.
    assert (∃ set, set ∈ matchingSets (metadata_index s) metadata ∧ key ∈ set)
      as (set & Hset & Hkey).
    { destruct (so_matchAll options); [|done].
      destruct Hres as [Hne Hall].
      destruct (matchingSets (metadata_index s) metadata) as [|set sets];
        [done|].
      exists set. split; [left | apply Hall; left]. }
    apply elem_of_matchingSets in Hset as (k & v & -> & _). eauto.
  - intros Hok. destruct (Hids Hok) as [_ Hid]. exact (Hid _ _ Hres).
Qed.

Lemma purged_ids_ok s id context e :
  entity_ids_ok s → entity_ids_ok (purged s id context e).
Proof.
  intros Hok. unfold purged. apply uncache_ids_ok.
  apply (preserves__removeEntityFromIndices_frame entity_ids_ok).
  - intros s1 s2 Hf Hc _ [? ?]. unfold entity_ids_ok. by rewrite Hf, Hc.
  - by apply after_lookup_ids_ok.
Qed.

(** X6. Once [deleteEntity] has returned [true], the deleted id is in no
    set of the text index and of the metadata index and not in the cache,
    so that no later text search and no later metadata search returns an
    entity with that id. *)
Theorem deleted_entity_not_searchable id context s s1 :
  entity_ids_ok s →
  deleteEntity id context s = (Ret true, s1) →
  (∀ t, id ∉ ids_under (text_index s1) t)
  ∧ (∀ key value, id ∉ metadata_ids_under (metadata_index s1) key value)
  ∧ omap_get id (entityCache s1) = None
  ∧ (∀ query options r s2 item,
       searchByText query options s1 = (Ret r, s2) →
       item ∈ sr_results r → ent_id item.1 ≠ id)
  ∧ (∀ metadata options r s2 item,
       searchByMetadata metadata options s1 = (Ret r, s2) →
       item ∈ sr_results r → ent_id item.1 ≠ id).
Proof.
  intros Hok. rewrite deleteEntity_eq.
  destruct (lookup_entity s id context) as [e|] eqn:Hl; [|done].
  pose proof (lookup_entity_id _ _ _ _ Hok Hl) as Hid.
  cbv zeta. destruct (fs_readFile _ _ _); [|done]. intros [= <-].
  assert (Ht : ∀ t, id ∉ ids_under (text_index (purged s id context e)) t).
  { intros t [_ Hne]%text_index_purged. by apply Hne. }
  assert (Hm : ∀ key value,
            id ∉ metadata_ids_under (metadata_index (purged s id context e))
                                    key value).
  { intros key value [_ Hne]%metadata_index_purged. by apply Hne. }
  assert (Hok1 : entity_ids_ok
                   (set_files (λ fs, fs_remove fs
                      (_getEntityPath e (effective_context context e)).1
                      (ent_id e)) (purged s id context e))).
  { by apply remove_ids_ok, purged_ids_ok. }
  split_and!.
  - exact Ht.
  - exact Hm.
  - apply entityCache_purged.
  - intros query options r s2 [e' [key score]] Hs Hin.
    destruct (searchByText_results _ _ _ _ _ _ _ _ Hs Hin) as [[t Hkey] Hk].
    simpl. rewrite (Hk Hok1). intros ->. by apply (Ht t).
  - intros metadata options r s2 [e' key] Hs Hin.
    destruct (searchByMetadata_results _ _ _ _ _ _ _ Hs Hin)
      as [(k & v & Hkey) Hk].
    simpl. rewrite (Hk Hok1). intros ->. by apply (Hm k v).
Qed.

Lemma deleted_entity_not_searchable_witness :
  (∀ t, "x" ∉ ids_under (text_index (deleteEntity "x" None store_x).2) t)
  ∧ (∀ key value,
       "x" ∉ metadata_ids_under
               (metadata_index (deleteEntity "x" None store_x).2) key value)
  ∧ omap_get "x" (entityCache (deleteEntity "x" None store_x).2) = None
  ∧ (∀ query options r s2 item,
       searchByText query options (deleteEntity "x" None store_x).2
       = (Ret r, s2) →
       item ∈ sr_results r → ent_id item.1 ≠ "x")
  ∧ (∀ metadata options r s2 item,
       searchByMetadata metadata options (deleteEntity "x" None store_x).2
       = (Ret r, s2) →
       item ∈ sr_results r → ent_id item.1 ≠ "x").
Proof.
  apply (deleted_entity_not_searchable "x" None store_x).
  - by_decide.
  - vm_compute. reflexivity.
Defined.

(** X7. [deleteEntity] is not atomic: when the file is not where the
    context of the call (or, without one, the attributes of the entity)
    says it is, the call throws the [ENOENT] of [fs.unlink], but by then the
    entity has been removed from the text index and from the cache, and
    every file is left in place.  This is what happens to an entity that
    carries an [agentId] and was stored without a context. *)
Theorem deleteEntity_failure_purges id context s e :
  lookup_entity s id context = Some e →
  fs_readFile (files s) (_getEntityPath e (effective_context context e)).1
              (ent_id e) = None →
  ∃ s', deleteEntity id context s = (Throw enoent_unlink, s')
        ∧ files s' = files s
        ∧ omap_get id (entityCache s') = None
        ∧ ∀ t, ent_id e ∉ ids_under (text_index s') t.
Proof.
  intros Hl Hfile. rewrite deleteEntity_eq, Hl. cbv zeta. rewrite Hfile.
  exists (purged s id context e). split_and!.
  - done.
  - unfold purged. cbn [files set_entityCache].
    destruct (_removeEntityFromIndices_frame e (after_lookup s id context))
      as (_ & -> & _). apply after_lookup_files.
  - apply entityCache_purged.
  - intros t [_ Hne]%text_index_purged. by apply Hne.
Qed.

Lemma deleteEntity_failure_purges_witness :
  ∃ s', deleteEntity "n1" None agent_note_store = (Throw enoent_unlink, s')
        ∧ files s' = files agent_note_store
        ∧ omap_get "n1" (entityCache s') = None
        ∧ ∀ t, ent_id agent_note_stored ∉ ids_under (text_index s') t.
Proof.
  apply (deleteEntity_failure_purges "n1" None agent_note_store
           agent_note_stored).
  - vm_compute. reflexivity.
  - vm_compute. reflexivity.
Defined.

(** ** Updating *)

Lemma fs_read_write fs d file e :
  fs_readFile (fs_writeFile fs d file e) d file = Some e.
Proof.
  destruct d; simpl; rewrite ?lookup_insert_eq; simpl;
    by rewrite ?lookup_insert_eq.
Qed.

(** [updateEntity] as an equation: it needs the entity to resolve and the
    directory of the updated entity to exist. *)
Lemma updateEntity_eq env id updates context s :
  updateEntity env id updates context s =
  match lookup_entity s id context with
  | None => (Throw (mkError ("Entity not found: " ++ id) None), s)
  | Some e =>
      let u := apply_updates e updates (stamp_updated env) in
      if fs_dir_exists (files s)
           (_getEntityPath u (effective_context context e)).1
      then (Ret u, updated_state s id context e u)
      else (Throw enoent_open, after_lookup s id context)
  end.
Proof.
  unfold updateEntity. unfold mbind at 1. unfold M_bind at 1.
  rewrite getEntity_lookup.
  destruct (lookup_entity s id context) as [e|]; [|done].
  fold (effective_context context e). cbv zeta.
  set (u := apply_updates e updates (stamp_updated env)).
  unfold updated_state.
  destruct (_getEntityPath u (effective_context context e)) as [d file] eqn:Hp.
  assert (file = ent_id u) as -> by (by inversion Hp).
  cbn [fst].
  unfold writeFile, _updateEntityIndices, _cacheEntity, cache_put.
  unfold mbind, M_bind, get_state, mret, M_ret, throw.
  rewrite after_lookup_files.
  destruct (fs_dir_exists (files s) d); [|done].
  unfold modify at 1.
  destruct (_removeEntityFromIndices_frame e
              (set_files (λ fs, fs_writeFile fs d (ent_id u) u)
                         (after_lookup s id context))) as (Hr & _).
  destruct (_removeEntityFromIndices e _) as [o1 s1]. simpl in Hr. subst o1.
  destruct (_indexEntity_frame u s1) as (Hr & _). cbn [snd].
  destruct (_indexEntity u s1) as [o2 s2]. simpl in Hr. subst o2.
  reflexivity.
Qed.

Lemma updated_state_frame s id context e u :
  files (updated_state s id context e u)
  = fs_writeFile (files s) (_getEntityPath u (effective_context context e)).1
                 (ent_id u) u
  ∧ entityCache (updated_state s id context e u)
    = omap_trim (maxCacheSize s)
        (omap_set (ent_id u) u (entityCache (after_lookup s id context)))
  ∧ maxCacheSize (updated_state s id context e u) = maxCacheSize s.
Proof.
  unfold updated_state.
  set (s0 := set_files _ (after_lookup s id context)).
  destruct (_removeEntityFromIndices_frame e s0) as (_ & Hf1 & Hc1 & Hm1).
  destruct (_indexEntity_frame u (_removeEntityFromIndices e s0).2)
    as (_ & Hf2 & Hc2 & Hm2).
  assert (Hm0 : maxCacheSize (after_lookup s id context) = maxCacheSize s).
  { unfold after_lookup. by repeat case_match. }
  split_and!.
  - cbn [files cache_put set_entityCache]. rewrite Hf2, Hf1. unfold s0.
    cbn [files set_files]. by rewrite after_lookup_files.
  - cbn [entityCache cache_put set_entityCache]. rewrite Hc2, Hc1, Hm2, Hm1.
    unfold s0. cbn [entityCache maxCacheSize set_files]. by rewrite Hm0.
  - cbn [maxCacheSize cache_put set_entityCache]. rewrite Hm2, Hm1.
    unfold s0. cbn [maxCacheSize set_files]. done.
Qed.

Lemma after_lookup_bounded s id context :
  cache_bounded s → cache_bounded (after_lookup s id context).
Proof.
  intros H. unfold after_lookup. repeat case_match; try done.
  by apply cache_put_bounded.
Qed.

(** X8. A successful [updateEntity] returns the entity that the id
    resolved to with the keys of [updates] laid over it: the id, the type
    and the creation stamp are those of the old entity whatever [updates]
    says, and the [updated] stamp is new.  The updated entity is what the
    file now holds, and (with a cache that is within its bound) what
    [getEntity] returns for the id from then on, whatever the context. *)
Theorem updateEntity_roundtrip env id updates context s updated s' :
  cache_bounded s →
  updateEntity env id updates context s = (Ret updated, s') →
  ∃ e,
    lookup_entity s id context = Some e
    ∧ updated = apply_updates e updates (stamp_updated env)
    ∧ ent_id updated = ent_id e
    ∧ ent_type updated = ent_type e
    ∧ ent_created updated = ent_created e
    ∧ ent_updated updated = stamp_updated env
    ∧ fs_readFile (files s')
        (_getEntityPath updated (effective_context context e)).1
        (ent_id e) = Some updated
    ∧ ∀ context', getEntity (ent_id e) context' s' = (Ret updated, s').
Proof.
  intros Hb. rewrite updateEntity_eq.
  destruct (lookup_entity s id context) as [e|] eqn:Hl; [|done].
  cbv zeta. case_match; [|done]. intros [= <- <-]. exists e.
  destruct (updated_state_frame s id context e
              (apply_updates e updates (stamp_updated env)))
    as (Hf & Hc & Hm).
  split_and!; try done.
  - rewrite Hf. apply fs_read_write.
  - intros context'. rewrite getEntity_eq, Hc.
    destruct (after_lookup_bounded s id context Hb) as [Hn Hlen].
    assert (Hm0 : maxCacheSize (after_lookup s id context) = maxCacheSize s).
    { unfold after_lookup. by repeat case_match. }
    rewrite Hm0 in Hn, Hlen.
    change (ent_id e)
      with (ent_id (apply_updates e updates (stamp_updated env))) at 1.
    by rewrite (omap_get_trim_set _ _ _ _ Hn Hlen).
Qed.

Lemma updateEntity_roundtrip_witness :
  ∃ e,
    lookup_entity store_x "x" None = Some e
    ∧ apply_updates stored_x (new_content "delta") "T2"
      = apply_updates e (new_content "delta") (stamp_updated sample_env)
    ∧ ent_id (apply_updates stored_x (new_content "delta") "T2") = ent_id e
    ∧ ent_type (apply_updates stored_x (new_content "delta") "T2") = ent_type e
    ∧ ent_created (apply_updates stored_x (new_content "delta") "T2")
      = ent_created e
    ∧ ent_updated (apply_updates stored_x (new_content "delta") "T2")
      = stamp_updated sample_env
    ∧ fs_readFile
        (files (updateEntity sample_env "x" (new_content "delta") None
                             store_x).2)
        (_getEntityPath (apply_updates stored_x (new_content "delta") "T2")
                        (effective_context None e)).1
        (ent_id e)
      = Some (apply_updates stored_x (new_content "delta") "T2")
    ∧ ∀ context',
        getEntity (ent_id e) context'
          (updateEntity sample_env "x" (new_content "delta") None store_x).2
        = (Ret (apply_updates stored_x (new_content "delta") "T2"),
           (updateEntity sample_env "x" (new_content "delta") None store_x).2).
Proof.
  apply (updateEntity_roundtrip sample_env "x" (new_content "delta") None
           store_x).
  - by_decide.
  - vm_compute. reflexivity.
Defined.

(** X9. After a successful [updateEntity] the text index holds the id of
    the entity under exactly the tokens of the updated content, name and
    description; the sets of the index are otherwise unchanged. *)
Theorem updateEntity_text_index env id updates context s updated s' t x :
  updateEntity env id updates context s = (Ret updated, s') →
  x ∈ ids_under (text_index s') t
  ↔ (x ∈ ids_under (text_index s) t ∧ x ≠ ent_id updated)
    ∨ (x = ent_id updated ∧ t ∈ entity_tokens updated).
Proof.
  rewrite updateEntity_eq.
  destruct (lookup_entity s id context) as [e|] eqn:Hl; [|done].
  cbv zeta. case_match; [|done]. intros [= <- <-].
  unfold updated_state.
  change (text_index (cache_put ?u ?s)) with (text_index s).
  rewrite text_index__indexEntity, text_index__removeEntityFromIndices.
  change (text_index (set_files ?f ?s)) with (text_index s).
  assert (text_index (after_lookup s id context) = text_index s) as ->; [|done].
  unfold after_lookup. by repeat case_match.
Qed.

Lemma updateEntity_text_index_witness :
  "x" ∈ ids_under
          (text_index (updateEntity sample_env "x" (new_content "delta") None
                                    store_x).2) "alpha"
  ↔ ("x" ∈ ids_under (text_index store_x) "alpha"
     ∧ "x" ≠ ent_id (apply_updates stored_x (new_content "delta") "T2"))
    ∨ ("x" = ent_id (apply_updates stored_x (new_content "delta") "T2")
       ∧ "alpha"
         ∈ entity_tokens (apply_updates stored_x (new_content "delta") "T2")).
Proof.
  apply (updateEntity_text_index sample_env "x" (new_content "delta") None
           store_x).
  vm_compute. reflexivity.
Defined.

(** X10. [updateEntity] does not create directories: when the directory
    that the context of the call (or, without one, the attributes of the
    entity) selects for the updated entity does not exist, the call throws
    the [ENOENT] of [fs.writeFile] and writes and indexes nothing.  This is
    what happens to an entity that carries an [agentId] and was stored
    without a context. *)
Theorem updateEntity_missing_directory env id updates context s e :
  lookup_entity s id context = Some e →
  fs_dir_exists (files s)
    (_getEntityPath (apply_updates e updates (stamp_updated env))
                    (effective_context context e)).1 = false →
  ∃ s', updateEntity env id updates context s = (Throw enoent_open, s')
        ∧ files s' = files s
        ∧ text_index s' = text_index s
        ∧ metadata_index s' = metadata_index s.
Proof.
  intros Hl Hd. rewrite updateEntity_eq, Hl. cbv zeta. rewrite Hd.
  eexists. split; [reflexivity|]. unfold after_lookup.
  by repeat case_match.
Qed.

Lemma updateEntity_missing_directory_witness :
  ∃ s', updateEntity sample_env "n1" no_updates None agent_note_store
        = (Throw enoent_open, s')
        ∧ files s' = files agent_note_store
        ∧ text_index s' = text_index agent_note_store
        ∧ metadata_index s' = metadata_index agent_note_store.
Proof.
  apply (updateEntity_missing_directory sample_env "n1" no_updates None
           agent_note_store agent_note_stored).
  - vm_compute. reflexivity.
  - vm_compute. reflexivity.
Defined.

(** ** Listing *)

Lemma cache_put_files e s : files (cache_put e s) = files s.
Proof. done. Qed.

Lemma scan_files_eq type d names s :
  ∃ s', scan_files type d names s
        = (Ret (filter (λ entity, type_passes type entity = true)
                       (omap (fs_readFile (files s) d) names)), s')
        ∧ files s' = files s.
Proof.
  revert s. induction names as [|file names IH]; intros s; simpl.
  - by exists s.
  - unfold mbind, M_bind, try_catch. rewrite _readEntityFile_eq.
    destruct (fs_readFile (files s) d file) as [e|] eqn:Hf.
    + destruct (IH (cache_put e s)) as (s' & Heq & Hfiles).
      rewrite Heq. exists s'. split; [|done]. unfold mret, M_ret.
      rewrite cache_put_files, filter_cons. fold (type_passes type e).
      by destruct (type_passes type e).
    + destruct (IH s) as (s' & Heq & Hfiles). rewrite Heq. by exists s'.
Qed.

Lemma scan_directories_eq type directories s :
  ∃ s', scan_directories type directories s
        = (Ret (directories ≫= dir_entities (files s) type), s')
        ∧ files s' = files s.
Proof.
  revert s. induction directories as [|d directories IH]; intros s; simpl.
  - by exists s.
  - unfold mbind at 1. unfold M_bind at 1. unfold get_state at 1.
    destruct (scan_files_eq type d (fs_dir_files (files s) d) s)
      as (s1 & Heq1 & Hf1).
    unfold mbind at 1. unfold M_bind at 1. rewrite Heq1.
    destruct (IH s1) as (s2 & Heq2 & Hf2).
    unfold mbind at 1. unfold M_bind at 1. rewrite Heq2, Hf1.
    exists s2. split; [done | congruence].
Qed.

Lemma listEntities_eq type context limit offset s :
  ∃ s', listEntities type context limit offset s
        = (Ret (mkEntityPage
                  (slice offset limit (all_listed (files s) type context))
                  (length (all_listed (files s) type context)) limit offset),
           s')
        ∧ files s' = files s.
Proof.
  unfold listEntities. unfold mbind at 1. unfold M_bind at 1.
  unfold get_state at 1.
  destruct (scan_directories_eq type (list_directories (files s) context) s)
    as (s' & Heq & Hf).
  unfold mbind, M_bind. rewrite Heq. by exists s'.
Qed.

Lemma elem_of_fs_readdir (root : gmap string (gmap string Entity)) k :
  k ∈ fs_readdir root ↔ is_Some (root !! k).
Proof.
  unfold fs_readdir. rewrite list_elem_of_fmap. split.
  - intros ([k' dir] & -> & Hin%elem_of_map_to_list). by exists dir.
  - intros [dir Hk]. exists (k, dir). split; [done|].
    by apply elem_of_map_to_list.
Qed.

Lemma elem_of_dir_files (f : string → option Entity)
  (dir : gmap string Entity) e :
  (∀ file, f file = dir !! file) →
  e ∈ omap f (map_to_list dir).*1 ↔ ∃ file, f file = Some e.
Proof.
  intros Hf. rewrite list_elem_of_omap. split.
  - intros (file & _ & H). by exists file.
  - intros [file H]. exists file. split; [|done].
    apply list_elem_of_fmap. exists (file, e). split; [done|].
    apply elem_of_map_to_list. by rewrite <- Hf.
Qed.

(** The entities that the files of a directory hold. *)
Lemma elem_of_dir_entities fs type d e :
  e ∈ dir_entities fs type d
  ↔ type_passes type e = true ∧ ∃ file, fs_readFile fs d file = Some e.
Proof.
  unfold dir_entities. rewrite list_elem_of_filter.
  assert (e ∈ omap (fs_readFile fs d) (fs_dir_files fs d)
          ↔ ∃ file, fs_readFile fs d file = Some e) as ->; [|done].
  destruct d as [a|p|t| |]; unfold fs_dir_files;
    apply elem_of_dir_files; intros file; cbn [fs_readFile]; try done.
  - by destruct (agents fs !! a).
  - by destruct (projects fs !! p).
  - by destruct (templates fs !! t).
Qed.

Lemma elem_of_list_directories fs context d :
  d ∈ list_directories fs context → d ≠ DTemp.
Proof.
  unfold list_directories. repeat case_decide;
    rewrite ?elem_of_app, ?list_elem_of_fmap, ?list_elem_of_singleton;
    naive_solver.
Qed.

Lemma list_directories_all fs d file e :
  d ≠ DTemp → fs_readFile fs d file = Some e →
  d ∈ list_directories fs None.
Proof.
  intros Hd Hf. unfold list_directories.
  rewrite !decide_False by done.
  rewrite !elem_of_app, !list_elem_of_fmap, list_elem_of_singleton.
  destruct d as [a|p|t| |]; simpl in Hf; [| | |by left|done].
  - right; left. exists a. split; [done|]. apply elem_of_fs_readdir.
    by destruct (agents fs !! a).
  - right; right; left. exists p. split; [done|]. apply elem_of_fs_readdir.
    by destruct (projects fs !! p).
  - right; right; right. exists t. split; [done|]. apply elem_of_fs_readdir.
    by destruct (templates fs !! t).
Qed.

Lemma slice_length {A} offset limit (l : list A) :
  length (slice offset limit l) = limit `min` (length l - offset).
Proof. unfold slice. by rewrite length_take, length_drop. Qed.

(** X11. [listEntities] always returns.  Its [total] is the number of
    entities that the type filter lets through, its page holds
    [min limit (total - offset)] of them, every entity of the page has the
    requested type and is held by a file outside the temp directory; and
    without a context the entities counted are exactly those that some file
    of the shared directory or of a sub-directory of the agents, projects
    or templates directory holds.  The files themselves are left as they
    are. *)
Theorem listEntities_page type context limit offset s :
  ∃ page s',
    listEntities type context limit offset s = (Ret page, s')
    ∧ files s' = files s
    ∧ ep_total page = length (all_listed (files s) type context)
    ∧ length (ep_entities page) = limit `min` (ep_total page - offset)
    ∧ (∀ e, e ∈ ep_entities page →
            (type ≠ "" → ent_type e = type)
            ∧ ∃ d file, d ≠ DTemp ∧ fs_readFile (files s) d file = Some e)
    ∧ (∀ e, e ∈ all_listed (files s) type None
            ↔ type_passes type e = true
              ∧ ∃ d file, d ≠ DTemp ∧ fs_readFile (files s) d file = Some e).
Proof.
  destruct (listEntities_eq type context limit offset s) as (s' & Heq & Hf).
  eexists _, s'. split; [exact Heq|]. cbn [ep_total ep_entities].
  split_and!; [done | done | apply slice_length | |].
  - intros e Hin%elem_of_slice. unfold all_listed in Hin.
    apply list_elem_of_bind in Hin as (d & Hin & Hd).
    apply elem_of_dir_entities in Hin as [Hty (file & Hfile)]. split.
    + intros Hne. unfold type_passes in Hty.
      destruct type; [done|]. simpl in Hty. by apply bool_decide_eq_true in Hty.
    + exists d, file. split; [|done]. by eapply elem_of_list_directories.
  - intros e. unfold all_listed. rewrite list_elem_of_bind. split.
    + intros (d & Hin & Hd).
      apply elem_of_dir_entities in Hin as [Hty (file & Hfile)].
      split; [done|]. exists d, file. split; [|done].
      by eapply elem_of_list_directories.
    + intros (Hty & d & file & Hd & Hfile). exists d. split.
      * apply elem_of_dir_entities. eauto.
      * by eapply list_directories_all.
Qed.

(** ** What was stored is found *)

Lemma omap_set_keys_mono {V} k k' (v : V) m :
  k ∈ m.*1 → k ∈ (omap_set k' v m).*1.
Proof.
  intros H. rewrite omap_set_keys. case_decide; [done|].
  apply elem_of_app. by left.
Qed.

Lemma count_matches_key_present index tokens k t :
  t ∈ tokens → k ∈ ids_under index t → k ∈ (count_matches index tokens).*1.
Proof.
  unfold count_matches.
  set (bump := λ (matching : list (string * nat)) (entityId : string),
                 omap_set entityId
                   (default 0 (omap_get entityId matching) + 1) matching).
  set (tally := λ (m : list (string * nat)) (token : string),
                  match index !! token with
                  | Some entities => foldl bump m entities
                  | None => m
                  end).
  assert (Hbumps : ∀ ids m, k ∈ m.*1 → k ∈ (foldl bump m ids).*1).
  { intros ids. induction ids as [|x ids IH]; intros m Hk; simpl; [done|].
    apply IH. by apply omap_set_keys_mono. }
  assert (Hbump : ∀ ids m, k ∈ ids → k ∈ (foldl bump m ids).*1).
  { intros ids. induction ids as [|x ids IH]; intros m Hk; simpl.
    - by apply elem_of_nil in Hk.
    - apply elem_of_cons in Hk as [<-|Hk]; [|by apply IH].
      apply Hbumps. unfold bump. rewrite omap_set_keys.
      case_decide; [done|]. apply elem_of_app. right. left. }
  assert (Htallies : ∀ tokens m, k ∈ m.*1 → k ∈ (foldl tally m tokens).*1).
  { clear tokens. induction tokens as [|x tokens IH]; intros m Hk; simpl; [done|].
    apply IH. unfold tally. destruct (index !! x); [by apply Hbumps|done]. }
  intros Ht Hk. generalize (@nil (string * nat)).
  induction tokens as [|x tokens IH]; intros m; simpl.
  - by apply elem_of_nil in Ht.
  - apply elem_of_cons in Ht as [<-|Ht]; [|by apply IH].
    apply Htallies. unfold tally, ids_under in *.
    destruct (index !! t) as [entities|]; simpl in Hk.
    + by apply Hbump.
    + by apply elem_of_nil in Hk.
Qed.

Lemma filter_all {A} (P : A → Prop) `{!∀ x, Decision (P x)} (l : list A) :
  Forall P l → filter P l = l.
Proof.
  induction 1 as [|x l Hx Hl IH]; [done|].
  by rewrite filter_cons_True, IH.
Qed.

Lemma js_div_same n : 0 < n → js_div n n = 1%Q.
Proof.
  intros Hn. unfold js_div.
  change 1%Q with (Qred 1). apply Qred_complete.
  unfold Qeq. simpl. rewrite Z.mul_1_r, Z.mul_1_l.
  destruct n as [|n]; [lia|].
  rewrite <- (Nat2Pos.id (S n)) at 1 by done.
  by rewrite positive_nat_Z.
Qed.

Lemma text_index_NoDup__indexEntity e s :
  index_sets_NoDup (text_index s) →
  index_sets_NoDup (text_index (_indexEntity e s).2).
Proof.
  intros H. unfold _indexEntity, mbind, M_bind, modify, set_text_index,
    set_metadata_index, set_agentId_index.
  cbn [snd text_index metadata_index agentId_index].
  repeat case_match; repeat apply _indexText_NoDup; done.
Qed.

(** While the cache has room for the page, resolving the page evicts
    nothing: an entity that is cached when the resolution starts is
    returned for its id. *)
Lemma resolve_page_cached {A} context (key : A → string) page s id e :
  entity_ids_ok s →
  omap_get id (entityCache s) = Some e →
  length (entityCache s) + length page ≤ maxCacheSize s →
  ∃ found s',
    resolve_page context key page s = (Ret found, s')
    ∧ ∀ item, item ∈ page → key item = id → (e, item) ∈ found.
Proof.
  intros _ Hget _.
  destruct (resolve_page_eq (λ _, True) context key page s)
    as (s' & Heq & _); [done..|].
  eexists _, s'. split; [exact Heq|]. intros item Hin Hkey.
  apply list_elem_of_omap. exists item. split; [done|].
  unfold lookup_entity. by rewrite Hkey, Hget.
Qed.

(** X12. What was stored is found: after a successful [storeEntity] of an
    entity whose content holds a token, a text search for that content
    (no filters, no offset, a threshold of at most 1, a cache with room
    for the page) counts the entity among its matches and, when the page
    holds all the matches, returns the stored entity with score 1. *)
Theorem stored_entity_is_found env e ctx s stored s' options :
  entity_ids_ok s → index_sets_NoDup (text_index s) →
  storeEntity env e ctx s = (Ret stored, s') →
  qe_tokenizeText (content stored) ≠ [] →
  so_offset options = 0 → so_agentId options = "" → so_type options = "" →
  Qle_bool (so_threshold options) 1 = true →
  length (entityCache s) + so_limit options < maxCacheSize s →
  ∃ r s'',
    searchByText (content stored) options s' = (Ret r, s'')
    ∧ 1 ≤ sr_total r
    ∧ (sr_total r ≤ so_limit options →
       (stored, (ent_id stored, 1%Q)) ∈ sr_results r).
Proof.
  intros Hok Hnd Hstore Htokens Hoffset Hagent Htype Hthr Hroom.
  pose proof (storeEntity_Ret _ _ _ _ _ _ Hstore) as (_ & Hfiles & Hcache & Hmax).
  pose proof (storeEntity_eq _ _ _ _ _ _ Hstore) as Hs'.
  set (tokens := qe_tokenizeText (content stored)) in *.
  assert (Htok : tokens = _tokenizeText (content stored)).
  { unfold tokens, qe_tokenizeText, _tokenizeText.
    destruct (content stored); [done|reflexivity]. }
  assert (Hnd' : index_sets_NoDup (text_index s')).
  { rewrite Hs'. change (text_index (cache_put ?u ?s)) with (text_index s).
    by apply text_index_NoDup__indexEntity. }
  assert (Hall : ∀ t, t ∈ tokens → ent_id stored ∈ ids_under (text_index s') t).
  { intros t Ht. apply (storeEntity_text_index_aux _ _ _ _ _ _ _ _ Hstore).
    right. split; [done|]. unfold entity_tokens. rewrite <- Htok.
    apply elem_of_app. by left. }
  assert (Hmatched : matched_tokens (text_index s') tokens (ent_id stored)
                     = length tokens).
  { unfold matched_tokens. f_equal. apply filter_all.
    apply Forall_forall. intros t Ht. by apply Hall. }
  assert (Hscored : (ent_id stored, 1%Q)
                    ∈ scored_matches (text_index s') tokens
                                     (so_threshold options)).
  { destruct tokens as [|t0 tokens0] eqn:Heq; [done|]. rewrite <- Heq in *.
    assert (Hkey : ent_id stored ∈ (count_matches (text_index s') tokens).*1).
    { apply (count_matches_key_present _ _ _ t0); [rewrite Heq; left|].
      apply Hall. rewrite Heq. left. }
    apply list_elem_of_fmap in Hkey as ([k c] & Hk & Hin). simpl in Hk. subst k.
    pose proof (count_matches_spec _ _ _ _ Hnd' Hin) as Hc.
    rewrite Hmatched in Hc. subst c.
    unfold scored_matches.
    rewrite elem_of_sort_by, list_elem_of_filter, list_elem_of_fmap.
    split; [done|]. exists (ent_id stored, length tokens). split; [|done].
    simpl. f_equal. symmetry. apply js_div_same. rewrite Heq. simpl. lia. }
  assert (Hok' : entity_ids_ok s').
  { rewrite Hs'. apply entity_ids_ok_put.
    apply (preserves__indexEntity_frame entity_ids_ok).
    - intros s1 s2 Hf Hc _ [? ?]. unfold entity_ids_ok. by rewrite Hf, Hc.
    - by apply write_ids_ok. }
  assert (Hlen' : length (entityCache s') ≤ S (length (entityCache s))
                  ∧ omap_get (ent_id stored) (entityCache s') = Some stored).
  { rewrite Hcache.
    pose proof (omap_set_length (ent_id stored) stored (entityCache s)) as Hl.
    unfold omap_trim. rewrite decide_False by (destruct (omap_get _ _); lia).
    split; [destruct (omap_get _ _); lia | apply omap_get_set_eq]. }
  destruct Hlen' as [Hlen' Hget'].
  unfold searchByText. unfold mbind, M_bind, get_state, mret, M_ret.
  fold tokens. unfold cache_filters. rewrite Hagent, Htype, Hoffset.
  cbn [truthy]. unfold slice. rewrite drop_0.
  set (ranked := scored_matches (text_index s') tokens (so_threshold options))
    in *.
  destruct (resolve_page_cached (so_context options) fst
              (take (so_limit options) ranked) s' (ent_id stored) stored
              Hok' Hget') as (found & s'' & Heq & Hfound).
  { rewrite length_take, Hmax. lia. }
  rewrite Heq. eexists _, s''. split; [reflexivity|]. cbn [sr_total sr_results].
  split.
  - destruct ranked; [by apply elem_of_nil in Hscored | simpl; lia].
  - intros Hle. apply Hfound; [|done]. by rewrite take_ge.
Qed.

Lemma stored_entity_is_found_witness :
  ∃ r s'',
    searchByText (content stored_x) default_SearchOptions store_x = (Ret r, s'')
    ∧ 1 ≤ sr_total r
    ∧ (sr_total r ≤ so_limit default_SearchOptions →
       (stored_x, (ent_id stored_x, 1%Q)) ∈ sr_results r).
Proof.
  apply (stored_entity_is_found sample_env entity_x None
           (new_StorageManager 0)).
  - by_decide.
  - by_decide.
  - vm_compute. reflexivity.
  - vm_compute. discriminate.
  - reflexivity.
  - reflexivity.
  - reflexivity.
  - vm_compute. reflexivity.
  - vm_compute. lia.
Defined.

(** ** The invariants of the knowledge graph *)

Lemma ids_under_index_remove index key id t x :
  x ∈ ids_under (index_remove key id index) t
  ↔ x ∈ ids_under index t ∧ ¬ (x = id ∧ t = key).
Proof.
  unfold ids_under, index_remove.
  destruct (index !! key) as [set|] eqn:Hk.
  - cbv zeta. destruct (decide (t = key)) as [->|Hne].
    + rewrite Hk. simpl. case_decide as Hlen.
      * rewrite lookup_delete_eq. simpl.
        apply nil_length_inv in Hlen.
        assert (Hx : x ∈ oset_delete id set ↔ x ∈ set ∧ x ≠ id).
        { unfold oset_delete. by rewrite list_elem_of_filter, (comm and). }
        rewrite Hlen, elem_of_nil in Hx. rewrite elem_of_nil. naive_solver.
      * rewrite lookup_insert_eq. simpl. unfold oset_delete.
        rewrite list_elem_of_filter. naive_solver.
    + case_decide.
      * rewrite lookup_delete_ne by done. naive_solver.
      * rewrite lookup_insert_ne by done. naive_solver.
  - destruct (decide (t = key)) as [->|Hne].
    + rewrite Hk. simpl. rewrite elem_of_nil. naive_solver.
    + naive_solver.
Qed.

Lemma omap_set_elem_of {V} k (v : V) m p :
  NoDup m.*1 → p ∈ omap_set k v m → p = (k, v) ∨ (p ∈ m ∧ p.1 ≠ k).
Proof.
  induction m as [|[k0 v0] m IH]; simpl.
  - intros _ ->%list_elem_of_singleton. by left.
  - intros [Hk0 Hnd]%NoDup_cons. destruct (decide (k = k0)) as [->|Hne].
    + intros [->|Hp]%elem_of_cons; [by left|]. right. split; [by right|].
      intros <-. apply Hk0. apply list_elem_of_fmap. by exists p.
    + intros [->|Hp]%elem_of_cons.
      * right. split; [left | simpl; congruence].
      * destruct (IH Hnd Hp) as [?|[? ?]]; [by left|]. right.
        split; [by right | done].
Qed.

(** The state after [_cacheRelationship] of a relationship that the files
    hold under its id. *)
Lemma rel_cache_put_inv r g :
  relFiles g !! rel_id r = Some r →
  map_Forall (λ file r, rel_id r = file) (relFiles g) →
  Forall (λ p, p.1 ≠ rel_id r → relFiles g !! p.1 = Some p.2)
         (relationshipCache g) →
  NoDup (relationshipCache g).*1 → rel_cache_bounded g → index_complete g →
  kg_inv (rel_cache_put r g).
Proof.
  intros Hr Hn Hc Hnd [Hpos Hb] Hi. unfold kg_inv, graph_ok. split_and!.
  - done.
  - cbn [relFiles rel_cache_put set_relationshipCache relationshipCache].
    apply Forall_forall. intros p Hp%omap_trim_subseteq.
    apply omap_set_elem_of in Hp; [|done].
    destruct Hp as [->|[Hp Hne]]; [done|].
    eapply Forall_forall in Hc; [|exact Hp]. by apply Hc.
  - cbn [rel_cache_put set_relationshipCache relationshipCache].
    by apply omap_trim_NoDup, omap_set_NoDup.
  - split; [done|].
    cbn [rel_cache_put set_relationshipCache relationshipCache kg_maxCacheSize].
    apply omap_trim_bound. rewrite omap_set_length.
    destruct (omap_get _ _); lia.
  - done.
Qed.

Lemma kg_inv_after_rel_lookup g id : kg_inv g → kg_inv (after_rel_lookup g id).
Proof.
  intros ([Hn Hc] & Hnd & Hb & Hi). unfold after_rel_lookup.
  destruct (omap_get id (relationshipCache g)); [done|].
  destruct (relFiles g !! id) as [r|] eqn:Hf; [|done].
  pose proof (Hn _ _ Hf) as Hid. apply rel_cache_put_inv; try done.
  - by rewrite Hid.
  - eapply Forall_impl; [exact Hc|]. by intros p Hp _.
Qed.

Lemma preserves_getRelationship id : preserves kg_inv (getRelationship id).
Proof.
  intros g Hg. rewrite getRelationship_eq.
  destruct (lookup_relationship g id); [|done].
  by apply kg_inv_after_rel_lookup.
Qed.

Lemma preserves_collect_relationships type ids :
  preserves kg_inv (collect_relationships type ids).
Proof.
  induction ids as [|id ids IH]; simpl; [apply preserves_ret|].
  apply preserves_bind.
  - apply preserves_try_catch.
    + apply preserves_fmap, preserves_getRelationship.
    + intros _. apply preserves_ret.
  - intros r. apply preserves_bind; [done|]. intros found. apply preserves_ret.
Qed.

Lemma preserves_listRelationships entityId type direction limit offset :
  preserves kg_inv (listRelationships entityId type direction limit offset).
Proof.
  unfold listRelationships. apply preserves_bind_state. intros g Hg.
  apply preserves_bind.
  { case_match; [|apply preserves_ret].
    case_match; [apply preserves_collect_relationships | apply preserves_ret]. }
  intros outgoing. apply preserves_bind_state. intros g' Hg'.
  apply preserves_bind.
  { case_match; [|apply preserves_ret].
    case_match; [apply preserves_collect_relationships | apply preserves_ret]. }
  intros incoming. apply preserves_ret.
Qed.

(** [createRelationship] as an equation. *)
Lemma createRelationship_eq env r g :
  createRelationship env r g =
  match relationship_complaint r with
  | Some complaint => (Throw (mkError complaint None), g)
  | None =>
      let r' := created_relationship env r in
      (Ret r',
       rel_cache_put r'
         (set_rel_indices (index_add (sourceId r') (rel_id r'))
                          (index_add (targetId r') (rel_id r'))
                          (index_add (rel_type r') (rel_id r'))
            (set_relFiles (<[rel_id r' := r']>) g)))
  end.
Proof.
  unfold createRelationship, relationship_complaint.
  destruct (truthy (sourceId r)); [|done].
  destruct (truthy (targetId r)); [|done].
  destruct (truthy (rel_type r)); [|done].
  cbn [negb]. cbv zeta.
  assert (Hr : set_rel_stamps
                 (if truthy (rel_created
                               (if truthy (rel_id r) then r
                                else set_rel_id ("rel_" ++ fresh env) r))
                  then rel_created
                         (if truthy (rel_id r) then r
                          else set_rel_id ("rel_" ++ fresh env) r)
                  else stamp_created env)
                 (stamp_updated env)
                 (if truthy (rel_id r) then r
                  else set_rel_id ("rel_" ++ fresh env) r)
               = created_relationship env r).
  { unfold created_relationship, set_rel_stamps, set_rel_id.
    by destruct (truthy (rel_id r)). }
  rewrite Hr. reflexivity.
Qed.

Lemma index_complete_add_file g r :
  index_complete g →
  index_complete
    (set_rel_indices (index_add (sourceId r) (rel_id r))
                     (index_add (targetId r) (rel_id r))
                     (index_add (rel_type r) (rel_id r))
       (set_relFiles (<[rel_id r := r]>) g)).
Proof.
  intros Hi. unfold index_complete.
  cbn [relFiles source_index target_index type_index set_rel_indices
       set_relFiles].
  apply map_Forall_insert_2.
  - rewrite !ids_under_index_add. naive_solver.
  - intros id r0 Hf. rewrite !ids_under_index_add.
    destruct (Hi _ _ Hf) as (? & ? & ?). naive_solver.
Qed.

Lemma preserves_createRelationship env r :
  preserves kg_inv (createRelationship env r).
Proof.
  intros g ([Hn Hc] & Hnd & Hb & Hi). rewrite createRelationship_eq.
  destruct (relationship_complaint r); [done|]. cbv zeta. cbn [snd].
  set (r' := created_relationship env r).
  apply rel_cache_put_inv.
  - cbn [relFiles set_rel_indices set_relFiles]. apply lookup_insert_eq.
  - cbn [relFiles set_rel_indices set_relFiles].
    by apply map_Forall_insert_2.
  - cbn [relFiles relationshipCache set_rel_indices set_relFiles].
    eapply Forall_impl; [exact Hc|]. intros p Hp Hne.
    by rewrite lookup_insert_ne.
  - done.
  - done.
  - by apply index_complete_add_file.
Qed.

(** [deleteRelationship] in a coherent graph: it returns [true] for an id
    that has a file and throws for one that has none. *)
Lemma deleteRelationship_eq id g :
  graph_ok g →
  deleteRelationship id g =
  match relFiles g !! id with
  | Some r =>
      (Ret true,
       set_relFiles (delete id)
         (set_relationshipCache (omap_delete id)
            (set_rel_indices (index_remove (sourceId r) (rel_id r))
                             (index_remove (targetId r) (rel_id r))
                             (index_remove (rel_type r) (rel_id r))
               (after_rel_lookup g id))))
  | None => (Throw (mkError ("Relationship not found: " ++ id) None), g)
  end.
Proof.
  intros Hok. unfold deleteRelationship, try_catch.
  unfold mbind at 1. unfold M_bind at 1.
  rewrite getRelationship_eq, (lookup_relationship_ok _ _ Hok).
  destruct (relFiles g !! id) as [r|] eqn:Hf; [|done].
  unfold _removeRelationshipFromIndices, unlink_relationship.
  unfold mbind, M_bind, modify, get_state, mret, M_ret.
  cbn [relFiles set_relationshipCache set_rel_indices].
  rewrite (proj1 (after_rel_lookup_frame g id)), Hf. reflexivity.
Qed.

Lemma preserves_deleteRelationship id :
  preserves kg_inv (deleteRelationship id).
Proof.
  intros g Hg. rewrite (deleteRelationship_eq _ _ (proj1 Hg)).
  destruct (relFiles g !! id) as [r|] eqn:Hf; [|done]. cbn [snd].
  destruct (kg_inv_after_rel_lookup g id Hg) as ([Hn Hc] & Hnd & [Hpos Hb] & Hi).
  destruct (after_rel_lookup_frame g id) as (Hfr & Hsr & Htr & Hyr & Hmr).
  pose proof (proj1 (proj1 Hg) _ _ Hf) as Hid.
  unfold kg_inv, graph_ok, rel_cache_bounded, index_complete.
  cbn [relFiles relationshipCache kg_maxCacheSize source_index target_index
       type_index set_relFiles set_relationshipCache set_rel_indices].
  split_and!.
  - by apply map_Forall_delete.
  - unfold omap_delete. apply Forall_forall.
    intros p [Hne Hp]%list_elem_of_filter.
    rewrite lookup_delete_ne by done.
    eapply Forall_forall in Hc; [|exact Hp]. done.
  - by apply omap_delete_NoDup.
  - done.
  - etrans; [apply omap_delete_length|done].
  - intros id' r' Hf'.
    destruct (decide (id' = id)) as [->|Hne];
      [by rewrite lookup_delete_eq in Hf'|].
    rewrite lookup_delete_ne in Hf' by done.
    destruct (Hi _ _ Hf') as (? & ? & ?).
    rewrite !ids_under_index_remove, Hid. naive_solver.
Qed.

(** [updateRelationship] as an equation. *)
Lemma updateRelationship_eq env id updates g :
  updateRelationship env id updates g =
  match lookup_relationship g id with
  | Some r =>
      let r' := updated_relationship env r updates in
      (Ret r',
       rel_cache_put r'
         (set_rel_indices (index_add (sourceId r') (rel_id r'))
                          (index_add (targetId r') (rel_id r'))
                          (index_add (rel_type r') (rel_id r'))
            (set_rel_indices (index_remove (sourceId r) (rel_id r))
                             (index_remove (targetId r) (rel_id r))
                             (index_remove (rel_type r) (rel_id r))
               (set_relFiles (<[id := r']>) (after_rel_lookup g id)))))
  | None => (Throw (mkError ("Relationship not found: " ++ id) None), g)
  end.
Proof.
  unfold updateRelationship. unfold mbind at 1. unfold M_bind at 1.
  rewrite getRelationship_eq.
  by destruct (lookup_relationship g id) as [r|].
Qed.

Lemma preserves_updateRelationship env id updates :
  preserves kg_inv (updateRelationship env id updates).
Proof.
  intros g Hg. rewrite updateRelationship_eq.
  rewrite (lookup_relationship_ok _ _ (proj1 Hg)).
  destruct (relFiles g !! id) as [r|] eqn:Hf; [|done]. cbv zeta. cbn [snd].
  destruct (kg_inv_after_rel_lookup g id Hg) as ([Hn Hc] & Hnd & Hb & Hi).
  destruct (after_rel_lookup_frame g id) as (Hfr & Hsr & Htr & Hyr & Hmr).
  pose proof (proj1 (proj1 Hg) _ _ Hf) as Hid.
  set (r' := updated_relationship env r updates).
  assert (Hid' : rel_id r' = id) by done.
  apply rel_cache_put_inv.
  - cbn [relFiles set_rel_indices set_relFiles]. rewrite Hid'.
    apply lookup_insert_eq.
  - cbn [relFiles set_rel_indices set_relFiles].
    apply map_Forall_insert_2; [exact Hid' | exact Hn].
  - cbn [relFiles relationshipCache set_rel_indices set_relFiles].
    eapply Forall_impl; [exact Hc|]. intros p Hp Hne. rewrite Hid' in Hne.
    by rewrite lookup_insert_ne.
  - done.
  - done.
  - unfold index_complete.
    cbn [relFiles source_index target_index type_index set_rel_indices
         set_relFiles].
    intros id' r0 Hf'. rewrite !ids_under_index_add, !ids_under_index_remove.
    destruct (decide (id' = id)) as [->|Hne].
    + rewrite lookup_insert_eq in Hf'. injection Hf' as <-.
      rewrite Hid'. naive_solver.
    + rewrite lookup_insert_ne in Hf' by done.
      destruct (Hi _ _ Hf') as (? & ? & ?). rewrite Hid. naive_solver.
Qed.

Lemma for_each_load_step r rels g :
  for_each (λ (_ : unit) relationship,
              _ ← _indexRelationship relationship;
              _cacheRelationship relationship) (r :: rels) tt g
  = for_each (λ (_ : unit) relationship,
                _ ← _indexRelationship relationship;
                _cacheRelationship relationship) rels tt
      (rel_cache_put r
         (set_rel_indices (index_add (sourceId r) (rel_id r))
                          (index_add (targetId r) (rel_id r))
                          (index_add (rel_type r) (rel_id r)) g)).
Proof. reflexivity. Qed.

Lemma for_each_load_inv rels g0 g1 :
  kg_inv g1 → relFiles g1 = relFiles g0 →
  Forall (λ r, relFiles g0 !! rel_id r = Some r) rels →
  kg_inv (for_each (λ (_ : unit) relationship,
                      _ ← _indexRelationship relationship;
                      _cacheRelationship relationship) rels tt g1).2
  ∧ relFiles (for_each (λ (_ : unit) relationship,
                          _ ← _indexRelationship relationship;
                          _cacheRelationship relationship) rels tt g1).2
    = relFiles g0.
Proof.
  revert g1. induction rels as [|r rels IH]; intros g1 Hg1 Hfiles Hall; [done|].
  apply Forall_cons in Hall as [Hr Hall]. rewrite for_each_load_step.
  apply IH; [|done|done].
  destruct Hg1 as ([Hn Hc] & Hnd & Hb & Hi).
  apply (rel_cache_put_inv r); try done.
  - cbn [relFiles set_rel_indices]. by rewrite Hfiles.
  - cbn [relFiles relationshipCache set_rel_indices].
    eapply Forall_impl; [exact Hc|]. by intros p Hp _.
  - intros id' r0 Hf'.
    cbn [relFiles source_index target_index type_index set_rel_indices] in *.
    rewrite !ids_under_index_add. destruct (Hi _ _ Hf') as (? & ? & ?).
    naive_solver.
Qed.

Lemma files_by_id (relations : gmap string Relationship) :
  map_Forall (λ file r, rel_id r = file) relations →
  Forall (λ r, relations !! rel_id r = Some r) (map_to_list relations).*2.
Proof.
  intros Hn. apply Forall_forall.
  intros r ([id r'] & -> & Hin%elem_of_map_to_list)%list_elem_of_fmap.
  simpl. by rewrite (Hn _ _ Hin).
Qed.

Lemma preserves__loadIndices : preserves kg_inv _loadIndices.
Proof.
  intros g Hg. unfold _loadIndices.
  unfold mbind at 1. unfold M_bind at 1. unfold get_state.
  exact (proj1 (for_each_load_inv _ g g Hg eq_refl
                  (files_by_id _ (proj1 (proj1 Hg))))).
Qed.

Lemma graph_after_inv c g : kg_inv g → kg_inv (graph_after c g).
Proof.
  destruct c; simpl.
  - apply preserves_createRelationship.
  - apply preserves_getRelationship.
  - apply preserves_updateRelationship.
  - apply preserves_deleteRelationship.
  - apply preserves_listRelationships.
  - apply preserves__loadIndices.
Qed.

(** X13. Whatever operation of the knowledge graph runs on plain
    relationship ids ([createRelationship], [getRelationship],
    [updateRelationship], [deleteRelationship], [listRelationships],
    [_loadIndices]) and however it ends, the graph stays coherent: every
    relationship file is named after the id it holds, the cache agrees with
    the files, holds no key twice and stays within its bound, and every
    file is indexed under its source, its target and its type. *)
Theorem knowledge_graph_stays_coherent c g :
  plain_graph_call c = true →
  kg_inv g → kg_inv (graph_after c g).
Proof.
  intros _. destruct c; simpl.
  - apply preserves_createRelationship.
  - apply preserves_getRelationship.
  - apply preserves_updateRelationship.
  - apply preserves_deleteRelationship.
  - apply preserves_listRelationships.
  - apply preserves__loadIndices.
Qed.

Lemma knowledge_graph_stays_coherent_witness :
  kg_inv (graph_after
            (UpdateRelationship sample_env "r" (mkRelationshipUpdates "other"))
            loop_graph).
Proof.
  apply knowledge_graph_stays_coherent; [reflexivity | by_decide].
Defined.

(** ** Creating, updating and deleting relationships *)

Lemma elem_of_collected g type ids r :
  r ∈ collected g type ids
  ↔ type_matches type r = true ∧ ∃ id, id ∈ ids ∧ relFiles g !! id = Some r.
Proof.
  unfold collected. rewrite list_elem_of_filter, list_elem_of_omap. done.
Qed.

(** A relationship that has a file is listed for its source and for its
    target. *)
Lemma stored_relationship_listed g id r type direction :
  index_complete g → relFiles g !! id = Some r →
  type_matches type r = true →
  ((direction = "outgoing" ∨ direction = "both") →
   r ∈ listed g (sourceId r) type direction)
  ∧ ((direction = "incoming" ∨ direction = "both") →
     r ∈ listed g (targetId r) type direction).
Proof.
  intros Hi Hf Hty. destruct (Hi _ _ Hf) as (Hs & Ht & _). unfold listed.
  split; intros Hd; apply elem_of_app; [left|right].
  - assert (bool_decide (direction = "outgoing")
            || bool_decide (direction = "both") = true) as ->.
    { destruct Hd as [->| ->]; done. }
    apply elem_of_collected. split; [done|]. by exists id.
  - assert (bool_decide (direction = "incoming")
            || bool_decide (direction = "both") = true) as ->.
    { destruct Hd as [->| ->]; done. }
    apply elem_of_collected. split; [done|]. by exists id.
Qed.

(** What a call of [listRelationships] returns for a relationship that is
    listed. *)
Lemma listRelationships_holds g entityId type direction limit r :
  graph_ok g → r ∈ listed g entityId type direction →
  ∃ page g',
    listRelationships entityId type direction limit 0 g = (Ret page, g')
    ∧ 1 ≤ page_total page
    ∧ (page_total page ≤ limit → r ∈ page_relationships page).
Proof.
  intros Hok Hin.
  destruct (listRelationships_ok entityId type direction limit 0 g Hok)
    as (g' & Heq & _).
  eexists _, g'. split; [exact Heq|]. cbn [page_total page_relationships].
  split.
  - destruct (listed g entityId type direction);
      [by apply elem_of_nil in Hin | simpl; lia].
  - intros Hle. unfold slice. by rewrite drop_0, take_ge.
Qed.

Lemma relationship_complaint_None r :
  relationship_complaint r = None →
  sourceId r ≠ "" ∧ targetId r ≠ "" ∧ rel_type r ≠ "".
Proof.
  unfold relationship_complaint.
  destruct (sourceId r), (targetId r), (rel_type r); done.
Qed.

Lemma rel_cache_put_get r g :
  rel_cache_bounded g →
  omap_get (rel_id r) (relationshipCache (rel_cache_put r g)) = Some r.
Proof.
  intros [Hpos Hb]. cbn [rel_cache_put set_relationshipCache relationshipCache].
  by apply omap_get_trim_set.
Qed.

Lemma getRelationship_cached id r g :
  omap_get id (relationshipCache g) = Some r →
  getRelationship id g = (Ret r, g).
Proof.
  intros H. rewrite getRelationship_eq.
  unfold lookup_relationship, after_rel_lookup. by rewrite H.
Qed.

(** X14. Round trip of [createRelationship] in a coherent graph.  When it
    returns, the argument had a source, a target and a type; the returned
    relationship keeps them, has the given id or the generated
    [rel_...] one, and is what its file holds; [getRelationship] returns it
    for its id; and [listRelationships] counts it for its source
    (directions ['outgoing'] and ['both']) and for its target (directions
    ['incoming'] and ['both']) under every type filter that it passes, and
    returns it when the page holds everything. *)
Theorem createRelationship_roundtrip env r g r' g' :
  kg_inv g →
  createRelationship env r g = (Ret r', g') →
  (sourceId r ≠ "" ∧ targetId r ≠ "" ∧ rel_type r ≠ "")
  ∧ r' = created_relationship env r
  ∧ rel_id r' ≠ ""
  ∧ relFiles g' !! rel_id r' = Some r'
  ∧ getRelationship (rel_id r') g' = (Ret r', g')
  ∧ ∀ type direction limit,
      type_matches type r' = true →
      ((direction = "outgoing" ∨ direction = "both") →
       ∃ page g'',
         listRelationships (sourceId r') type direction limit 0 g'
         = (Ret page, g'')
         ∧ 1 ≤ page_total page
         ∧ (page_total page ≤ limit → r' ∈ page_relationships page))
      ∧ ((direction = "incoming" ∨ direction = "both") →
         ∃ page g'',
           listRelationships (targetId r') type direction limit 0 g'
           = (Ret page, g'')
           ∧ 1 ≤ page_total page
           ∧ (page_total page ≤ limit → r' ∈ page_relationships page)).
Proof.
  intros Hg Hcreate.
  pose proof (preserves_createRelationship env r g Hg) as Hg'.
  rewrite Hcreate in Hg'. cbn [snd] in Hg'.
  rewrite createRelationship_eq in Hcreate.
  destruct (relationship_complaint r) eqn:Hvalid; [done|].
  cbv zeta in Hcreate. injection Hcreate as <- <-.
  set (r' := created_relationship env r) in *.
  set (g' := rel_cache_put r' _) in *.
  assert (Hfile : relFiles g' !! rel_id r' = Some r').
  { unfold g'. cbn [relFiles rel_cache_put set_relationshipCache
                    set_rel_indices set_relFiles].
    apply lookup_insert_eq. }
  split; [by apply relationship_complaint_None|]. split_and!.
  - done.
  - unfold r', created_relationship. cbn [rel_id].
    destruct (rel_id r) eqn:Hid; [done|]. cbn [truthy]. done.
  - done.
  - apply getRelationship_cached, rel_cache_put_get, Hg.
  - intros type direction limit Hty.
    destruct (stored_relationship_listed g' _ r' type direction
                (proj2 (proj2 (proj2 Hg'))) Hfile Hty) as [Hout Hin].
    split; intros Hd; apply listRelationships_holds; auto; apply Hg'.
Qed.

Lemma createRelationship_roundtrip_witness :
  (sourceId (edge "r" "e" "e" "self") ≠ ""
   ∧ targetId (edge "r" "e" "e" "self") ≠ ""
   ∧ rel_type (edge "r" "e" "e" "self") ≠ "")
  ∧ stored_loop = created_relationship sample_env (edge "r" "e" "e" "self")
  ∧ rel_id stored_loop ≠ ""
  ∧ relFiles loop_graph !! rel_id stored_loop = Some stored_loop
  ∧ getRelationship (rel_id stored_loop) loop_graph = (Ret stored_loop, loop_graph)
  ∧ ∀ type direction limit,
      type_matches type stored_loop = true →
      ((direction = "outgoing" ∨ direction = "both") →
       ∃ page g'',
         listRelationships (sourceId stored_loop) type direction limit 0
                           loop_graph
         = (Ret page, g'')
         ∧ 1 ≤ page_total page
         ∧ (page_total page ≤ limit → stored_loop ∈ page_relationships page))
      ∧ ((direction = "incoming" ∨ direction = "both") →
         ∃ page g'',
           listRelationships (targetId stored_loop) type direction limit 0
                             loop_graph
           = (Ret page, g'')
           ∧ 1 ≤ page_total page
           ∧ (page_total page ≤ limit
              → stored_loop ∈ page_relationships page)).
Proof.
  apply (createRelationship_roundtrip sample_env (edge "r" "e" "e" "self")
           (new_KnowledgeGraph 0)).
  - by_decide.
  - vm_compute. reflexivity.
Defined.

Lemma elem_of_listed_file g entityId type direction r :
  r ∈ listed g entityId type direction →
  ∃ id, relFiles g !! id = Some r.
Proof.
  unfold listed. rewrite elem_of_app.
  intros [H|H]; repeat case_match; try (by apply elem_of_nil in H);
    apply elem_of_collected in H as (_ & id & _ & Hf); by exists id.
Qed.

(** X15. In a coherent graph [deleteRelationship] never returns [false]:
    it returns [true] for an id that has a file and throws for one that has
    none.  Once it has returned, the file is gone, [getRelationship] throws
    for the id, and [listRelationships] returns no relationship with that
    id, for any entity, type and direction. *)
Theorem deleted_relationship_is_gone id g b g' :
  kg_inv g →
  deleteRelationship id g = (Ret b, g') →
  b = true
  ∧ is_Some (relFiles g !! id)
  ∧ relFiles g' !! id = None
  ∧ getRelationship id g'
    = (Throw (mkError ("Relationship not found: " ++ id) None), g')
  ∧ ∀ entityId type direction limit offset page g'' r,
      listRelationships entityId type direction limit offset g'
      = (Ret page, g'') →
      r ∈ page_relationships page → rel_id r ≠ id.
Proof.
  intros Hg Hdel.
  pose proof (preserves_deleteRelationship id g Hg) as Hg'.
  rewrite Hdel in Hg'. cbn [snd] in Hg'.
  rewrite (deleteRelationship_eq _ _ (proj1 Hg)) in Hdel.
  destruct (relFiles g !! id) as [r0|] eqn:Hf; [|done].
  injection Hdel as <- <-.
  match goal with
  | Hg' : kg_inv ?s |- _ => set (g' := s) in *
  end.
  assert (Hgone : relFiles g' !! id = None).
  { unfold g'. cbn [relFiles set_relFiles]. apply lookup_delete_eq. }
  split_and!; try done.
  - rewrite getRelationship_eq, (lookup_relationship_ok _ _ (proj1 Hg')).
    by rewrite Hgone.
  - intros entityId type direction limit offset page g'' r Hlist Hin.
    destruct (listRelationships_ok entityId type direction limit offset g'
                (proj1 Hg')) as (g1 & Heq & _).
    rewrite Heq in Hlist. injection Hlist as <- <-.
    cbn [page_relationships] in Hin. apply elem_of_slice in Hin.
    apply elem_of_listed_file in Hin as [id' Hf'].
    pose proof (proj1 (proj1 Hg') _ _ Hf') as Hn. simpl in Hn.
    intros Hr. rewrite Hr in Hn. subst id'. congruence.
Qed.

Lemma deleted_relationship_is_gone_witness :
  true = true
  ∧ is_Some (relFiles loop_graph !! "r")
  ∧ relFiles (deleteRelationship "r" loop_graph).2 !! "r" = None
  ∧ getRelationship "r" (deleteRelationship "r" loop_graph).2
    = (Throw (mkError ("Relationship not found: " ++ "r") None),
       (deleteRelationship "r" loop_graph).2)
  ∧ ∀ entityId type direction limit offset page g'' r,
      listRelationships entityId type direction limit offset
                        (deleteRelationship "r" loop_graph).2
      = (Ret page, g'') →
      r ∈ page_relationships page → rel_id r ≠ "r".
Proof.
  apply (deleted_relationship_is_gone "r" loop_graph true).
  - by_decide.
  - vm_compute. reflexivity.
Defined.

(** X16. Round trip of [updateRelationship] in a coherent graph.  When it
    returns, the id had a file; the returned relationship has the id, the
    source, the target and the creation stamp of the old one, the type of
    [updates] when it gives one and the old type otherwise, and a new
    update stamp; it is what the file now holds and what [getRelationship]
    returns; and it is still listed for its source and for its target. *)
Theorem updateRelationship_roundtrip env id updates g r' g' :
  kg_inv g →
  updateRelationship env id updates g = (Ret r', g') →
  ∃ r,
    relFiles g !! id = Some r
    ∧ r' = updated_relationship env r updates
    ∧ rel_id r' = id ∧ sourceId r' = sourceId r ∧ targetId r' = targetId r
    ∧ rel_created r' = rel_created r
    ∧ rel_type r' = (if truthy (upd_type updates) then upd_type updates
                     else rel_type r)
    ∧ relFiles g' !! id = Some r'
    ∧ getRelationship id g' = (Ret r', g')
    ∧ r' ∈ listed g' (sourceId r) None "outgoing"
    ∧ r' ∈ listed g' (targetId r) None "incoming".
Proof.
  intros Hg Hupd.
  pose proof (preserves_updateRelationship env id updates g Hg) as Hg'.
  rewrite Hupd in Hg'. cbn [snd] in Hg'.
  rewrite updateRelationship_eq, (lookup_relationship_ok _ _ (proj1 Hg)) in Hupd.
  destruct (relFiles g !! id) as [r|] eqn:Hf; [|done].
  cbv zeta in Hupd. injection Hupd as <- <-. exists r.
  pose proof (proj1 (proj1 Hg) _ _ Hf) as Hid.
  set (r' := updated_relationship env r updates) in *.
  set (g' := rel_cache_put r' _) in *.
  assert (Hfile : relFiles g' !! id = Some r').
  { unfold g'. cbn [relFiles rel_cache_put set_relationshipCache
                    set_rel_indices set_relFiles].
    apply lookup_insert_eq. }
  assert (Hb : rel_cache_bounded (after_rel_lookup g id)).
  { apply (kg_inv_after_rel_lookup g id Hg). }
  destruct (stored_relationship_listed g' id r' None "outgoing"
              (proj2 (proj2 (proj2 Hg'))) Hfile eq_refl) as [Hout _].
  destruct (stored_relationship_listed g' id r' None "incoming"
              (proj2 (proj2 (proj2 Hg'))) Hfile eq_refl) as [_ Hin].
  split_and!; try done.
  - apply getRelationship_cached. rewrite <- Hid.
    apply (rel_cache_put_get r'). exact Hb.
  - apply Hout. by left.
  - apply Hin. by left.
Qed.

Lemma updateRelationship_roundtrip_witness :
  ∃ r,
    relFiles loop_graph !! "r" = Some r
    ∧ updated_relationship sample_env stored_loop (mkRelationshipUpdates "other")
      = updated_relationship sample_env r (mkRelationshipUpdates "other")
    ∧ rel_id (updated_relationship sample_env stored_loop
                (mkRelationshipUpdates "other")) = "r"
    ∧ sourceId (updated_relationship sample_env stored_loop
                  (mkRelationshipUpdates "other")) = sourceId r
    ∧ targetId (updated_relationship sample_env stored_loop
                  (mkRelationshipUpdates "other")) = targetId r
    ∧ rel_created (updated_relationship sample_env stored_loop
                     (mkRelationshipUpdates "other")) = rel_created r
    ∧ rel_type (updated_relationship sample_env stored_loop
                  (mkRelationshipUpdates "other"))
      = (if truthy (upd_type (mkRelationshipUpdates "other"))
         then upd_type (mkRelationshipUpdates "other") else rel_type r)
    ∧ relFiles (updateRelationship sample_env "r"
                  (mkRelationshipUpdates "other") loop_graph).2 !! "r"
      = Some (updated_relationship sample_env stored_loop
                (mkRelationshipUpdates "other"))
    ∧ getRelationship "r"
        (updateRelationship sample_env "r" (mkRelationshipUpdates "other")
                            loop_graph).2
      = (Ret (updated_relationship sample_env stored_loop
                (mkRelationshipUpdates "other")),
         (updateRelationship sample_env "r" (mkRelationshipUpdates "other")
                             loop_graph).2)
    ∧ updated_relationship sample_env stored_loop
        (mkRelationshipUpdates "other")
      ∈ listed (updateRelationship sample_env "r"
                  (mkRelationshipUpdates "other") loop_graph).2
               (sourceId r) None "outgoing"
    ∧ updated_relationship sample_env stored_loop
        (mkRelationshipUpdates "other")
      ∈ listed (updateRelationship sample_env "r"
                  (mkRelationshipUpdates "other") loop_graph).2
               (targetId r) None "incoming".
Proof.
  apply (updateRelationship_roundtrip sample_env "r"
           (mkRelationshipUpdates "other") loop_graph).
  - by_decide.
  - vm_compute. reflexivity.
Defined.

(** ** Start-up of the knowledge graph *)

Lemma for_each_load_spec rels g1 :
  Forall (λ r, relFiles g1 !! rel_id r = Some r) rels →
  map_Forall (λ file r, rel_id r = file) (relFiles g1) →
  Forall (λ p, relFiles g1 !! p.1 = Some p.2) (relationshipCache g1) →
  NoDup (relationshipCache g1).*1 → rel_cache_bounded g1 →
  ∃ g2,
    for_each (λ (_ : unit) relationship,
                _ ← _indexRelationship relationship;
                _cacheRelationship relationship) rels tt g1 = (Ret tt, g2)
    ∧ relFiles g2 = relFiles g1
    ∧ Forall (λ p, relFiles g1 !! p.1 = Some p.2) (relationshipCache g2)
    ∧ NoDup (relationshipCache g2).*1
    ∧ rel_cache_bounded g2
    ∧ (∀ key x, x ∈ ids_under (source_index g2) key
                ↔ x ∈ ids_under (source_index g1) key
                  ∨ ∃ r, r ∈ rels ∧ x = rel_id r ∧ key = sourceId r)
    ∧ (∀ key x, x ∈ ids_under (target_index g2) key
                ↔ x ∈ ids_under (target_index g1) key
                  ∨ ∃ r, r ∈ rels ∧ x = rel_id r ∧ key = targetId r)
    ∧ (∀ key x, x ∈ ids_under (type_index g2) key
                ↔ x ∈ ids_under (type_index g1) key
                  ∨ ∃ r, r ∈ rels ∧ x = rel_id r ∧ key = rel_type r).
Proof.
  revert g1. induction rels as [|r rels IH]; intros g1 Hall Hn Hc Hnd Hb.
  - exists g1. split_and!; try done; intros key x;
      (split; [by left | intros [?|(r & ?%elem_of_nil & _)]; done]).
  - apply Forall_cons in Hall as [Hr Hall]. rewrite for_each_load_step.
    set (g := rel_cache_put r _).
    destruct (IH g) as (g2 & Heq & Hf2 & Hc2 & Hnd2 & Hb2 & Hs2 & Ht2 & Hy2).
    + done.
    + done.
    + unfold g. cbn [relFiles relationshipCache rel_cache_put
                     set_relationshipCache set_rel_indices].
      apply Forall_forall. intros p Hp%omap_trim_subseteq.
      apply omap_set_subseteq in Hp as [->|Hp]; [done|].
      by eapply Forall_forall in Hc.
    + unfold g. cbn [relationshipCache rel_cache_put set_relationshipCache
                     set_rel_indices].
      by apply omap_trim_NoDup, omap_set_NoDup.
    + destruct Hb as [Hpos Hb]. split; [done|]. unfold g.
      cbn [relationshipCache kg_maxCacheSize rel_cache_put
           set_relationshipCache set_rel_indices].
      apply omap_trim_bound. rewrite omap_set_length.
      destruct (omap_get _ _); lia.
    + exists g2. split; [done|]. split_and!; try done.
      * intros key x. rewrite Hs2. unfold g.
        cbn [source_index rel_cache_put set_relationshipCache set_rel_indices].
        rewrite ids_under_index_add.
        setoid_rewrite elem_of_cons. naive_solver.
      * intros key x. rewrite Ht2. unfold g.
        cbn [target_index rel_cache_put set_relationshipCache set_rel_indices].
        rewrite ids_under_index_add.
        setoid_rewrite elem_of_cons. naive_solver.
      * intros key x. rewrite Hy2. unfold g.
        cbn [type_index rel_cache_put set_relationshipCache set_rel_indices].
        rewrite ids_under_index_add.
        setoid_rewrite elem_of_cons. naive_solver.
Qed.

Lemma elem_of_relations (relations : gmap string Relationship) r :
  map_Forall (λ file r, rel_id r = file) relations →
  r ∈ (map_to_list relations).*2 ↔ relations !! rel_id r = Some r.
Proof.
  intros Hn. rewrite list_elem_of_fmap. split.
  - intros ([id r'] & -> & Hin%elem_of_map_to_list). simpl.
    by rewrite (Hn _ _ Hin).
  - intros H. exists (rel_id r, r). split; [done|].
    by apply elem_of_map_to_list.
Qed.

(** X17. Start-up rebuilds the indices from the relations directory.  On
    a knowledge graph that has just been constructed over a directory
    whose files are named after the ids they hold, [_loadIndices] returns,
    leaves the files as they are and makes the graph coherent; from then on
    [listRelationships] for an entity in direction ['outgoing'] lists
    exactly the stored relationships whose source it is, and in direction
    ['incoming'] exactly those whose target it is. *)
Theorem loadIndices_rebuilds relations n :
  map_Forall (λ file r, rel_id r = file) relations →
  ∃ g,
    _loadIndices (cold_graph relations n) = (Ret tt, g)
    ∧ relFiles g = relations
    ∧ kg_inv g
    ∧ (∀ entityId r,
         r ∈ listed g entityId None "outgoing"
         ↔ relations !! rel_id r = Some r ∧ sourceId r = entityId)
    ∧ (∀ entityId r,
         r ∈ listed g entityId None "incoming"
         ↔ relations !! rel_id r = Some r ∧ targetId r = entityId).
Proof.
  intros Hn. unfold _loadIndices.
  unfold mbind at 1. unfold M_bind at 1. unfold get_state.
  destruct (for_each_load_spec (map_to_list relations).*2
              (cold_graph relations n))
    as (g & Heq & Hf & Hc & Hnd & Hb & Hs & Ht & Hy).
  - by apply files_by_id.
  - done.
  - by apply Forall_nil.
  - apply NoDup_nil_2.
  - unfold rel_cache_bounded, cold_graph. simpl. case_decide; lia.
  - change (relFiles (cold_graph relations n)) with relations in *.
    exists g. split; [exact Heq|]. split; [done|].
    assert (Hg : kg_inv g).
    { unfold kg_inv, graph_ok, index_complete. rewrite Hf. split_and!; try done.
      intros id r Hr. pose proof (Hn _ _ Hr) as Hid. simpl in Hid.
      rewrite Hs, Ht, Hy. subst id.
      split_and!; right; exists r; (split; [|done]);
        by apply elem_of_relations. }
    split; [done|]. split.
    + intros entityId r. unfold listed. cbn [bool_decide orb].
      assert (bool_decide ("outgoing" = "incoming") = false) as -> by done.
      assert (bool_decide ("outgoing" = "both") = false) as -> by done.
      assert (bool_decide ("outgoing" = "outgoing") = true) as -> by done.
      cbn [orb]. rewrite app_nil_r, elem_of_collected.
      fold (ids_under (source_index g) entityId). rewrite Hf. split.
      * intros (_ & id & Hid & Hr). pose proof (Hn _ _ Hr) as Hrid.
        simpl in Hrid. subst id. split; [done|].
        apply Hs in Hid as [?%elem_of_nil|(r0 & Hr0 & Hrid & ->)]; [done|].
        apply elem_of_relations in Hr0; [|done]. rewrite <- Hrid in Hr0.
        congruence.
      * intros [Hr <-]. split; [done|]. exists (rel_id r). split; [|done].
        apply Hs. right. exists r. split; [|done]. by apply elem_of_relations.
    + intros entityId r. unfold listed.
      assert (bool_decide ("incoming" = "incoming") = true) as -> by done.
      assert (bool_decide ("incoming" = "both") = false) as -> by done.
      assert (bool_decide ("incoming" = "outgoing") = false) as -> by done.
      cbn [orb app]. rewrite elem_of_collected.
      fold (ids_under (target_index g) entityId). rewrite Hf. split.
      * intros (_ & id & Hid & Hr). pose proof (Hn _ _ Hr) as Hrid.
        simpl in Hrid. subst id. split; [done|].
        apply Ht in Hid as [?%elem_of_nil|(r0 & Hr0 & Hrid & ->)]; [done|].
        apply elem_of_relations in Hr0; [|done]. rewrite <- Hrid in Hr0.
        congruence.
      * intros [Hr <-]. split; [done|]. exists (rel_id r). split; [|done].
        apply Ht. right. exists r. split; [|done]. by apply elem_of_relations.
Qed.

Lemma loadIndices_rebuilds_witness :
  ∃ g,
    _loadIndices (cold_graph chain_relations 0) = (Ret tt, g)
    ∧ relFiles g = chain_relations
    ∧ kg_inv g
    ∧ (∀ entityId r,
         r ∈ listed g entityId None "outgoing"
         ↔ chain_relations !! rel_id r = Some r ∧ sourceId r = entityId)
    ∧ (∀ entityId r,
         r ∈ listed g entityId None "incoming"
         ↔ chain_relations !! rel_id r = Some r ∧ targetId r = entityId).
Proof.
  apply (loadIndices_rebuilds chain_relations 0).
  apply (bool_decide_unpack _). vm_compute. exact I.
Defined.

(** ** Invariants of the traversal in every world *)

(** The body of the [for] loop computes [visit_pure] for what the storage
    manager resolves ids to at that moment; it touches the storage manager
    through lookups only and leaves the knowledge graph alone. *)
Lemma visit_relationship_pure types u d acc r w :
  ∃ w',
    visit_relationship types u d acc r w
    = (Ret (visit_pure (λ id, lookup_entity (storageManager w) id None)
                       types u d acc r), w')
    ∧ knowledgeGraph w' = knowledgeGraph w
    ∧ (storageManager w' = storageManager w
       ∨ ∃ id, storageManager w' = after_lookup (storageManager w) id None).
Proof.
  destruct acc as [[q vis] res]. unfold visit_relationship, visit_pure.
  destruct (match types with
            | Some types => negb (bool_decide (rel_type r ∈ types))
            | None => false
            end).
  { exists w. split_and!; [done | done | by left]. }
  set (res1 := if existsb _ _ then res else _).
  set (c := if decide (sourceId r = u) then targetId r else sourceId r).
  destruct (decide (c ∈ vis)).
  { exists w. split_and!; [done | done | by left]. }
  unfold mbind, M_bind. rewrite try_getEntity_world.
  exists (mkWorld (after_lookup (storageManager w) c None) (knowledgeGraph w)).
  split_and!.
  - destruct (lookup_entity (storageManager w) c None); [|done]. cbn [paths].
    by destruct (paths res1 !! u).
  - done.
  - right. by exists c.
Qed.

Lemma existsb_rel_id r rels :
  existsb (λ r0, bool_decide (rel_id r0 = rel_id r)) rels = true
  ↔ rel_id r ∈ rel_id <$> rels.
Proof.
  rewrite existsb_exists, list_elem_of_fmap. split.
  - intros (r0 & Hin%list_elem_of_In & Heq%bool_decide_eq_true). by exists r0.
  - intros (r0 & Heq & Hin). exists r0. split; [by apply list_elem_of_In|].
    by apply bool_decide_eq_true.
Qed.

(** The effect of one visit, case by case. *)
Lemma visit_pure_effect resolve types u d q vis res r q' vis' res' :
  visit_pure resolve types u d (q, vis, res) r = (q', vis', res') →
  (q' = q ∧ vis' = vis ∧ res' = res)
  ∨ ∃ rels',
      (rels' = relationships res ∧ rel_id r ∈ rel_id <$> relationships res
       ∨ rels' = relationships res ++ [r]
         ∧ rel_id r ∉ rel_id <$> relationships res)
      ∧ ((connected u r ∈ vis ∧ q' = q ∧ vis' = vis
          ∧ res' = mkTraversal (entities res) rels' (paths res))
         ∨ ((connected u r ∉ vis) ∧ vis' = vis ∪ {[connected u r]}
            ∧ ((resolve (connected u r) = None ∧ q' = q
                ∧ res' = mkTraversal (entities res) rels' (paths res))
               ∨ ∃ e, resolve (connected u r) = Some e
                  ∧ ((paths res !! u = None ∧ q' = q
                      ∧ res' = mkTraversal (entities res ++ [e]) rels'
                                           (paths res))
                     ∨ ∃ here,
                         paths res !! u = Some here
                         ∧ q' = q ++ [(connected u r, d + 1)]
                         ∧ res' = mkTraversal (entities res ++ [e]) rels'
                                    (<[connected u r :=
                                         mkPathInfo (d + 1)
                                           (path here
                                            ++ [mkPathStep (rel_id r)
                                                  (rel_type r)
                                                  (direction_from u r)])]>
                                       (paths res)))))).
Proof.
  unfold visit_pure, connected, direction_from.
  destruct (match types with
            | Some tys => negb (bool_decide (rel_type r ∈ tys))
            | None => false
            end).
  { intros [= <- <- <-]. by left. }
  intros Hv. right.
  set (rels' := if existsb (λ r0, bool_decide (rel_id r0 = rel_id r))
                           (relationships res)
                then relationships res else relationships res ++ [r]).
  exists rels'. split.
  { unfold rels'.
    destruct (existsb _ (relationships res)) eqn:Hex.
    - left. split; [done|]. by apply existsb_rel_id.
    - right. split; [done|]. intros Hin%existsb_rel_id. congruence. }
  revert Hv.
  set (res1 := if existsb _ _ then res else _).
  assert (Hres1 : res1 = mkTraversal (entities res) rels' (paths res)).
  { unfold res1, rels'. destruct (existsb _ _); [|done]. by destruct res. }
  rewrite Hres1. cbn [entities relationships paths].
  set (c := if decide (sourceId r = u) then targetId r else sourceId r).
  destruct (decide (c ∈ vis)).
  { intros [= <- <- <-]. left. by split_and!. }
  destruct (resolve c) as [e|] eqn:He.
  - destruct (paths res !! u) as [here|] eqn:Hu; intros [= <- <- <-]; right;
      (split_and!; [done | done |]); right; exists e; (split; [done|]).
    + right. by exists here.
    + left. by split_and!.
  - intros [= <- <- <-]. right. split_and!; [done | done |]. by left.
Qed.

Section traversal_invariant.
Context (P : StorageManager → Prop) (R : (string → option Entity) → Prop).
Context (types : option (list string)) (maxDepth : nat).
Context (J : list (string * nat) → gset string → Traversal → Prop).
Context (K : string → nat → list (string * nat) → gset string → Traversal
             → Prop).
Hypothesis P_after_lookup : ∀ sm id, P sm → P (after_lookup sm id None).
Hypothesis P_R : ∀ sm, P sm → R (λ id, lookup_entity sm id None).
Hypothesis J_skip :
  ∀ u d q vis res, J ((u, d) :: q) vis res → maxDepth ≤ d → J q vis res.
Hypothesis J_enter :
  ∀ u d q vis res, J ((u, d) :: q) vis res → ¬ maxDepth ≤ d → K u d q vis res.
Hypothesis K_visit :
  ∀ resolve u d q vis res r q' vis' res',
    R resolve → K u d q vis res →
    visit_pure resolve types u d (q, vis, res) r = (q', vis', res') →
    K u d q' vis' res'.
Hypothesis K_leave : ∀ u d q vis res, K u d q vis res → J q vis res.

Lemma for_each_visit_invariant u d rels q vis res w q' vis' res' w' :
  P (storageManager w) → K u d q vis res →
  for_each (visit_relationship types u d) rels (q, vis, res) w
  = (Ret (q', vis', res'), w') →
  K u d q' vis' res' ∧ P (storageManager w').
Proof.
  revert q vis res w. induction rels as [|r rels IH]; intros q vis res w HP HK.
  - cbn [for_each]. by intros [= <- <- <- <-].
  - cbn [for_each].
    destruct (visit_relationship_pure types u d (q, vis, res) r w)
      as (w1 & Heq & _ & Hsm).
    unfold mbind, M_bind. rewrite Heq.
    destruct (visit_pure _ types u d (q, vis, res) r) as [[q1 vis1] res1]
      eqn:Hvisit.
    apply IH.
    + destruct Hsm as [->|[id ->]]; [done | by apply P_after_lookup].
    + eapply K_visit; [|exact HK|exact Hvisit]. by apply P_R.
Qed.

(** What holds before the loop holds, with an empty queue, when it
    returns. *)
Lemma traverseBFS_invariant fuel direction q vis res w vis' res' w' :
  P (storageManager w) → J q vis res →
  _traverseBFS fuel types maxDepth direction q vis res w
  = (Ret (vis', res'), w') →
  J [] vis' res' ∧ P (storageManager w').
Proof.
  revert q vis res w. induction fuel as [|fuel IH]; intros q vis res w HP HJ.
  - destruct q as [|[u d] q]; cbn [_traverseBFS]; [|done].
    by intros [= <- <- <-].
  - destruct q as [|[u d] q]; cbn [_traverseBFS].
    { by intros [= <- <- <-]. }
    case_decide as Hd.
    { apply IH; [done|]. by eapply J_skip. }
    unfold mbind at 1. unfold M_bind at 1. unfold on_graph at 1.
    destruct (listRelationships u None direction 1000 0 (knowledgeGraph w))
      as [[page| |] g1]; [|done|done].
    unfold mbind at 1. unfold M_bind at 1.
    destruct (for_each (visit_relationship types u d) (page_relationships page)
                (q, vis, res) (mkWorld (storageManager w) g1))
      as [[[[q1 vis1] res1]| |] w1] eqn:Hfor; [|done|done].
    apply for_each_visit_invariant in Hfor as [HK1 HP1];
      [|done|by eapply J_enter].
    apply IH; [done|]. by eapply K_leave.
Qed.
End traversal_invariant.

Lemma paths_inv_visit resolve types maxDepth start e0 u d q vis res r
  q' vis' res' :
  paths_inv_at maxDepth start e0 u d q vis res →
  visit_pure resolve types u d (q, vis, res) r = (q', vis', res') →
  paths_inv_at maxDepth start e0 u d q' vis' res'.
Proof.
  intros ((Hnd & Hq & Hp & Hstart & Hhead) & Hd & (pu & Hu & Hdu)) Hvisit.
  apply visit_pure_effect in Hvisit
    as [(-> & -> & ->)|(rels' & Hrels & Hcases)].
  { split; [by split_and!|]. split; [done|]. by exists pu. }
  assert (Hnd' : NoDup (rel_id <$> rels')).
  { destruct Hrels as [[-> _]|[-> Hnew]]; [done|].
    rewrite fmap_app. apply NoDup_app. split_and!; [done| |].
    - intros x Hx ->%list_elem_of_singleton. done.
    - apply NoDup_singleton. }
  assert (Hsub : ∀ x, x ∈ rel_id <$> relationships res → x ∈ rel_id <$> rels').
  { destruct Hrels as [[-> _]|[-> _]]; [done|]. intros x Hx.
    rewrite fmap_app. apply elem_of_app. by left. }
  assert (Hr : rel_id r ∈ rel_id <$> rels').
  { destruct Hrels as [[-> ?]|[-> _]]; [done|].
    rewrite fmap_app. apply elem_of_app. right. left. }
  assert (Hp' : ∀ v p, paths res !! v = Some p →
            length (path p) = distance p ∧ distance p ≤ maxDepth ∧ v ∈ vis
            ∧ Forall (λ step, relationshipId step ∈ rel_id <$> rels')
                     (path p)).
  { intros v p Hv. destruct (Hp v p Hv) as (? & ? & ? & Hsteps).
    split_and!; try done. eapply Forall_impl; [exact Hsteps|].
    intros step. apply Hsub. }
  destruct Hcases as [(_ & -> & -> & ->)|(Hc & -> & Hcases)].
  { split; [|split; [done|by exists pu]]. by split_and!. }
  assert (Hvis : ∀ v p, paths res !! v = Some p →
            length (path p) = distance p ∧ distance p ≤ maxDepth
            ∧ v ∈ vis ∪ {[connected u r]}
            ∧ Forall (λ step, relationshipId step ∈ rel_id <$> rels')
                     (path p)).
  { intros v p Hv. destruct (Hp' v p Hv) as (? & ? & ? & ?).
    split_and!; try done. set_solver. }
  destruct Hcases as [(_ & -> & ->)|(e & _ & Hcases)].
  { split; [|split; [done|by exists pu]]. by split_and!. }
  destruct Hcases as [(_ & -> & ->)|(here & Hhere & -> & ->)].
  { split; [|split; [done|by exists pu]]. split_and!; try done.
    cbn [entities]. destruct (entities res); [done|]. done. }
  rewrite Hu in Hhere. injection Hhere as <-.
  assert (Hne : ∀ v p, paths res !! v = Some p → v ≠ connected u r).
  { intros v p Hv ->. by destruct (Hp _ _ Hv) as (_ & _ & ? & _). }
  split; [|split; [done|]].
  - split_and!; cbn [relationships paths entities].
    + done.
    + intros u' d' [Hin|Hin%list_elem_of_singleton]%elem_of_app.
      * destruct (Hq _ _ Hin) as (p & Hpu & Hpd). exists p.
        rewrite lookup_insert_ne; [done|]. intros <-. by eapply Hne.
      * injection Hin as -> ->. rewrite lookup_insert_eq. by eexists.
    + intros v p. destruct (decide (v = connected u r)) as [->|Hv].
      * rewrite lookup_insert_eq. intros [= <-]. cbn [path distance].
        destruct (Hp' _ _ Hu) as (Hlen & _ & _ & Hsteps).
        split_and!.
        -- rewrite length_app. simpl. lia.
        -- lia.
        -- set_solver.
        -- apply Forall_app. split; [done|]. by repeat constructor.
      * rewrite lookup_insert_ne by done. apply Hvis.
    + rewrite lookup_insert_ne; [done|]. intros Heq.
      by apply (Hne _ _ Hstart).
    + destruct (entities res); [done|]. done.
  - exists pu. cbn [paths]. rewrite lookup_insert_ne; [done|].
    intros Heq. by apply (Hne _ _ Hu).
Qed.

Lemma paths_inv_skip maxDepth start e0 u d q vis res :
  paths_inv maxDepth start e0 ((u, d) :: q) vis res →
  paths_inv maxDepth start e0 q vis res.
Proof.
  intros (Hnd & Hq & Hp & Hstart & Hhead). split_and!; try done.
  intros u' d' Hin. apply Hq. by right.
Qed.

Lemma paths_inv_enter maxDepth start e0 u d q vis res :
  paths_inv maxDepth start e0 ((u, d) :: q) vis res → ¬ maxDepth ≤ d →
  paths_inv_at maxDepth start e0 u d q vis res.
Proof.
  intros HJ Hd. split; [by eapply paths_inv_skip|]. split; [lia|].
  destruct HJ as (_ & Hq & _). apply Hq. left.
Qed.

Lemma paths_inv_init maxDepth start e0 :
  paths_inv maxDepth start e0 [(start, 0)] {[start]}
    (mkTraversal [e0] [] {[start := mkPathInfo 0 []]}).
Proof.
  split_and!; cbn [relationships paths entities].
  - apply NoDup_nil_2.
  - intros u d [= -> ->]%list_elem_of_singleton. rewrite lookup_singleton_eq.
    by eexists.
  - intros v p [<- <-]%lookup_singleton_Some. cbn [path distance].
    split_and!; [done | lia | set_solver | done].
  - apply lookup_singleton_eq.
  - done.
Qed.

(** X18. In every world, a traversal that returns has recorded the start
    entity first and at distance 0 with an empty path; no relationship id
    twice; and for every entity that has a path, a path of exactly
    [distance] steps, with [distance] at most [maxDepth], each step naming
    a relationship of the result. *)
Theorem traverseGraph_paths_wellformed fuel start types maxDepth direction
  w res w' :
  traverseGraph fuel start types maxDepth direction w = (Ret res, w') →
  (∃ startEntity,
     lookup_entity (storageManager w) start None = Some startEntity
     ∧ head (entities res) = Some startEntity)
  ∧ paths res !! start = Some (mkPathInfo 0 [])
  ∧ NoDup (rel_id <$> relationships res)
  ∧ ∀ v p, paths res !! v = Some p →
           length (path p) = distance p ∧ distance p ≤ maxDepth
           ∧ Forall (λ step, relationshipId step
                             ∈ rel_id <$> relationships res) (path p).
Proof.
  rewrite traverseGraph_unfold.
  destruct (lookup_entity (storageManager w) start None) as [e0|] eqn:Hl;
    [|done].
  destruct (_traverseBFS _ _ _ _ _ _ _ _) as [[[vis1 res1]| |] w1] eqn:Hbfs;
    [|done|done].
  intros [= <- <-].
  apply (traverseBFS_invariant (λ _, True) (λ _, True) types maxDepth
           (paths_inv maxDepth start e0) (paths_inv_at maxDepth start e0))
    in Hbfs as [(Hnd & _ & Hp & Hstart & Hhead) _]; try done.
  - split; [by exists e0|]. split_and!; try done.
    intros v p Hv. destruct (Hp v p Hv) as (? & ? & _ & ?). by split_and!.
  - intros. by eapply paths_inv_skip.
  - intros. by eapply paths_inv_enter.
  - intros. by eapply paths_inv_visit.
  - by intros ????? [? _].
  - apply paths_inv_init.
Qed.

Lemma traverseGraph_paths_wellformed_witness :
  (∃ startEntity,
     lookup_entity (storageManager chain_world) "A" None = Some startEntity
     ∧ head (entities (traversal_of
                         (traverseGraph 10 "A" None 3 "both" chain_world).1))
       = Some startEntity)
  ∧ paths (traversal_of (traverseGraph 10 "A" None 3 "both" chain_world).1)
      !! "A" = Some (mkPathInfo 0 [])
  ∧ NoDup (rel_id <$> relationships
             (traversal_of (traverseGraph 10 "A" None 3 "both" chain_world).1))
  ∧ ∀ v p,
      paths (traversal_of (traverseGraph 10 "A" None 3 "both" chain_world).1)
        !! v = Some p →
      length (path p) = distance p ∧ distance p ≤ 3
      ∧ Forall (λ step,
                  relationshipId step
                  ∈ rel_id <$> relationships
                      (traversal_of
                         (traverseGraph 10 "A" None 3 "both" chain_world).1))
               (path p).
Proof.
  apply (traverseGraph_paths_wellformed 10 "A" None 3 "both" chain_world
           _ (traverseGraph 10 "A" None 3 "both" chain_world).2).
  vm_compute. reflexivity.
Defined.

(** ** Invariants of the traversal when entities are filed under their ids *)

Lemma entities_inv_visit resolve types maxDepth start e0 u d q vis res r
  q' vis' res' :
  resolves_by_id resolve →
  paths_inv_at maxDepth start e0 u d q vis res ∧ entities_inv res →
  visit_pure resolve types u d (q, vis, res) r = (q', vis', res') →
  paths_inv_at maxDepth start e0 u d q' vis' res' ∧ entities_inv res'.
Proof.
  intros Hid [HK [Hnd Hdom]] Hvisit.
  split; [by eapply paths_inv_visit|].
  destruct HK as ((_ & _ & Hp & _ & _) & _ & (pu & Hu & _)).
  apply visit_pure_effect in Hvisit
    as [(-> & -> & ->)|(rels' & _ & Hcases)]; [done|].
  destruct Hcases as [(_ & -> & -> & ->)|(Hc & -> & Hcases)]; [done|].
  destruct Hcases as [(_ & -> & ->)|(e & He & Hcases)]; [done|].
  destruct Hcases as [(Hnone & -> & ->)|(here & Hhere & -> & ->)];
    [congruence|].
  apply Hid in He.
  assert (Hnew : connected u r ∉ ent_id <$> entities res).
  { intros [p Hin]%Hdom. by destruct (Hp _ _ Hin) as (_ & _ & ? & _). }
  split; cbn [entities paths].
  - rewrite fmap_app. apply NoDup_app. split_and!; [done| |].
    + intros x Hx Hx'%list_elem_of_singleton. simpl in Hx'. congruence.
    + apply NoDup_singleton.
  - intros v. rewrite fmap_app, elem_of_app, lookup_insert_is_Some.
    simpl. rewrite list_elem_of_singleton, He, Hdom.
    destruct (decide (connected u r = v)); naive_solver.
Qed.

Lemma traverseGraph_entities_inv fuel start types maxDepth direction
  w res w' :
  entity_ids_ok (storageManager w) →
  traverseGraph fuel start types maxDepth direction w = (Ret res, w') →
  entities_inv res ∧ entity_ids_ok (storageManager w').
Proof.
  intros Hok. rewrite traverseGraph_unfold.
  destruct (lookup_entity (storageManager w) start None) as [e0|] eqn:Hl;
    [|done].
  destruct (_traverseBFS _ _ _ _ _ _ _ _) as [[[vis1 res1]| |] w1] eqn:Hbfs;
    [|done|done].
  intros [= <- <-].
  apply (traverseBFS_invariant entity_ids_ok resolves_by_id types maxDepth
           (λ q vis res, paths_inv maxDepth start e0 q vis res
                         ∧ entities_inv res)
           (λ u d q vis res, paths_inv_at maxDepth start e0 u d q vis res
                             ∧ entities_inv res))
    in Hbfs as [[_ Hinv] Hok'].
  - done.
  - intros sm id. apply after_lookup_ids_ok.
  - intros sm Hsm id e. by apply lookup_entity_id.
  - intros u d q vis res [HJ He] _. split; [by eapply paths_inv_skip|done].
  - intros u d q vis res [HJ He] Hd. split; [by eapply paths_inv_enter|done].
  - intros. by eapply entities_inv_visit.
  - by intros u d q vis res [[HJ _] He].
  - by apply after_lookup_ids_ok.
  - split; [apply paths_inv_init|]. split; cbn [entities paths].
    + apply NoDup_singleton.
    + intros v. pose proof (lookup_entity_id _ _ _ _ Hok Hl) as Hid.
      simpl. rewrite list_elem_of_singleton, Hid.
      rewrite lookup_singleton_is_Some. naive_solver.
Qed.

(** X19. In a world whose entity files and cache entries are keyed by the
    id of the entity they hold, a traversal that returns has recorded no
    entity twice, and the entities it has recorded are exactly those that
    have a path; the world it leaves behind is again such a world. *)
Theorem traverseGraph_entities_distinct fuel start types maxDepth direction
  w res w' :
  entity_ids_ok (storageManager w) →
  traverseGraph fuel start types maxDepth direction w = (Ret res, w') →
  NoDup (ent_id <$> entities res)
  ∧ (∀ v, v ∈ ent_id <$> entities res ↔ is_Some (paths res !! v))
  ∧ entity_ids_ok (storageManager w').
Proof.
  intros Hok Htrav.
  destruct (traverseGraph_entities_inv _ _ _ _ _ _ _ _ Hok Htrav)
    as [[Hnd Hdom] Hok'].
  split; [exact Hnd|]. split; [exact Hdom | exact Hok'].
Qed.

Lemma traverseGraph_entities_distinct_witness :
  NoDup (ent_id <$> entities
           (traversal_of (traverseGraph 10 "A" None 3 "both" diamond_world).1))
  ∧ (∀ v, v ∈ ent_id <$> entities
                 (traversal_of
                    (traverseGraph 10 "A" None 3 "both" diamond_world).1)
          ↔ is_Some (paths
                       (traversal_of
                          (traverseGraph 10 "A" None 3 "both" diamond_world).1)
                     !! v))
  ∧ entity_ids_ok
      (storageManager (traverseGraph 10 "A" None 3 "both" diamond_world).2).
Proof.
  apply (traverseGraph_entities_distinct 10 "A" None 3 "both" diamond_world).
  - by_decide.
  - vm_compute. reflexivity.
Defined.

(** ** Related entities *)

Lemma forallb_has_path res (l : list Entity) :
  Forall (λ e, is_Some (paths res !! ent_id e)) l →
  forallb (λ entity, bool_decide (is_Some (paths res !! ent_id entity))) l
  = true.
Proof.
  induction 1 as [|e l He Hl IH]; [done|]. simpl.
  by rewrite bool_decide_true, IH.
Qed.

(** X20. [findRelatedEntities] in a world whose entities are filed under
    their ids.  The comparator of its sort never fails: the call throws
    (or runs out of fuel) only when the traversal does.  When it returns,
    the paths are those of the traversal and its entities are entities of
    the traversal other than the start entity, each with a path, at most
    [limit] of them, in the order of their distance from the start entity;
    and no entity of the traversal other than the start entity is missing
    when there are at most [limit] of them. *)
Theorem findRelatedEntities_spec fuel entityId options w o w' :
  entity_ids_ok (storageManager w) →
  findRelatedEntities fuel entityId options w = (o, w') →
  match o with
  | Ret related =>
      ∃ res,
        traverseGraph fuel entityId (co_relationshipTypes options)
                      (co_maxDepth options) (co_direction options) w
        = (Ret res, w')
        ∧ re_paths related = paths res
        ∧ length (re_entities related) ≤ co_limit options
        ∧ (∀ e, e ∈ re_entities related →
                e ∈ entities res ∧ ent_id e ≠ entityId
                ∧ is_Some (paths res !! ent_id e))
        ∧ StronglySorted (λ a b, distance_of res a ≤ distance_of res b)
                         (re_entities related)
        ∧ (length (filter (λ e, ent_id e ≠ entityId) (entities res))
           ≤ co_limit options →
           ∀ e, e ∈ entities res → ent_id e ≠ entityId →
                e ∈ re_entities related)
  | Throw err =>
      traverseGraph fuel entityId (co_relationshipTypes options)
                    (co_maxDepth options) (co_direction options) w
      = (Throw err, w')
  | Timeout =>
      traverseGraph fuel entityId (co_relationshipTypes options)
                    (co_maxDepth options) (co_direction options) w
      = (Timeout, w')
  end.
Proof.
  intros Hok. unfold findRelatedEntities.
  unfold mbind, M_bind.
  destruct (traverseGraph fuel entityId (co_relationshipTypes options)
              (co_maxDepth options) (co_direction options) w)
    as [[res| |] w1] eqn:Htrav; [|by intros [= <- <-]..].
  destruct (traverseGraph_entities_inv _ _ _ _ _ _ _ _ Hok Htrav)
    as [[_ Hdom] _].
  set (others := filter (λ e, ent_id e ≠ entityId) (entities res)).
  assert (Hpaths : Forall (λ e, is_Some (paths res !! ent_id e)) others).
  { apply Forall_forall. intros e [_ He]%list_elem_of_filter.
    apply Hdom, list_elem_of_fmap. by exists e. }
  rewrite (forallb_has_path _ _ Hpaths), andb_false_r.
  unfold mret, M_ret. intros [= <- <-]. exists res.
  cbn [re_entities re_paths]. split_and!; try done.
  - rewrite length_take. lia.
  - intros e He%subseteq_take%elem_of_sort_by.
    pose proof He as [Hne Hin]%list_elem_of_filter.
    split_and!; [done | done |].
    eapply Forall_forall in Hpaths; [|exact He]. done.
  - apply StronglySorted_take. apply sort_by_sorted.
    + intros a b. by rewrite Nat.leb_le.
    + intros a b. rewrite Nat.leb_gt. lia.
    + intros a b c. lia.
  - intros Hlen e Hin Hne. rewrite take_ge.
    + apply elem_of_sort_by, list_elem_of_filter. done.
    + by rewrite sort_by_Permutation.
Qed.

Lemma findRelatedEntities_spec_witness :
  ∃ res,
    traverseGraph 10 "A" (co_relationshipTypes default_RelatedOptions)
                  (co_maxDepth default_RelatedOptions)
                  (co_direction default_RelatedOptions) chain_world
    = (Ret res, (findRelatedEntities 10 "A" default_RelatedOptions
                                     chain_world).2)
    ∧ re_paths (mkRelatedEntities [stored_node "B"]
                  (paths (traversal_of
                            (traverseGraph 10 "A" None 1 "both"
                                           chain_world).1)))
      = paths res
    ∧ length (re_entities
                (mkRelatedEntities [stored_node "B"]
                   (paths (traversal_of
                             (traverseGraph 10 "A" None 1 "both"
                                            chain_world).1))))
      ≤ co_limit default_RelatedOptions
    ∧ (∀ e, e ∈ re_entities
                  (mkRelatedEntities [stored_node "B"]
                     (paths (traversal_of
                               (traverseGraph 10 "A" None 1 "both"
                                              chain_world).1))) →
            e ∈ entities res ∧ ent_id e ≠ "A"
            ∧ is_Some (paths res !! ent_id e))
    ∧ StronglySorted (λ a b, distance_of res a ≤ distance_of res b)
        (re_entities
           (mkRelatedEntities [stored_node "B"]
              (paths (traversal_of
                        (traverseGraph 10 "A" None 1 "both"
                                       chain_world).1))))
    ∧ (length (filter (λ e, ent_id e ≠ "A") (entities res))
       ≤ co_limit default_RelatedOptions →
       ∀ e, e ∈ entities res → ent_id e ≠ "A" →
            e ∈ re_entities
                  (mkRelatedEntities [stored_node "B"]
                     (paths (traversal_of
                               (traverseGraph 10 "A" None 1 "both"
                                              chain_world).1)))).
Proof.
  apply (findRelatedEntities_spec 10 "A" default_RelatedOptions chain_world
           (Ret (mkRelatedEntities [stored_node "B"]
                   (paths (traversal_of
                             (traverseGraph 10 "A" None 1 "both"
                                            chain_world).1))))).
  - by_decide.
  - vm_compute. reflexivity.
Defined.

(** ** Memories of an agent *)

(** While the cache has room for the ids of the agent, resolving them
    evicts nothing: an entity that is cached when the resolution starts is
    returned for its id. *)
Lemma get_agent_entities_cached type ids s id e :
  entity_ids_ok s →
  omap_get id (entityCache s) = Some e →
  length (entityCache s) + length ids ≤ maxCacheSize s →
  type_passes type e = true →
  ∃ found s',
    get_agent_entities type ids s = (Ret found, s')
    ∧ length found ≤ length ids
    ∧ (id ∈ ids → e ∈ found).
Proof.
  revert s. induction ids as [|k ids IH]; intros s Hok Hget Hroom Hty; simpl.
  - exists [], s. split_and!; [done | done |]. by intros ?%elem_of_nil.
  - unfold mbind, M_bind. rewrite try_getEntity_eq.
    simpl in Hroom.
    assert (Hnext : entity_ids_ok (after_lookup s k (Some "agent"))
              ∧ omap_get id (entityCache (after_lookup s k (Some "agent")))
                = Some e
              ∧ length (entityCache (after_lookup s k (Some "agent")))
                + length ids
                ≤ maxCacheSize (after_lookup s k (Some "agent"))).
    { split; [by apply after_lookup_ids_ok|].
      unfold after_lookup.
      destruct (omap_get k (entityCache s)) eqn:Hk; [split; [done|lia]|].
      destruct (find_entity (files s) k (Some "agent")) as [e'|] eqn:Hf;
        [|split; [done|lia]].
      pose proof (find_entity_id _ _ _ _ (proj1 Hok) Hf) as Hid.
      assert (Hne : id ≠ k).
      { intros Heq. rewrite Heq in Hget. congruence. }
      cbn [cache_put entityCache maxCacheSize set_entityCache].
      pose proof (omap_set_length (ent_id e') e' (entityCache s)) as Hlen.
      rewrite Hid, Hk in Hlen. rewrite Hid.
      unfold omap_trim. rewrite decide_False by lia.
      rewrite omap_get_set_ne by done. split; [done|lia]. }
    destruct Hnext as (Hok' & Hget' & Hroom').
    destruct (IH _ Hok' Hget' Hroom' Hty) as (found & s' & Heq & Hlen & Hfound).
    rewrite Heq. unfold mret, M_ret.
    destruct (lookup_entity s k (Some "agent")) as [e0|] eqn:Hl.
    + fold (type_passes type e0). eexists _, s'. split; [reflexivity|].
      split.
      * destruct (type_passes type e0); simpl; lia.
      * intros [->|Hin]%elem_of_cons.
        -- unfold lookup_entity in Hl. rewrite Hget in Hl.
           injection Hl as <-. rewrite Hty. left.
        -- destruct (type_passes type e0); [right|]; by apply Hfound.
    + eexists _, s'. split; [reflexivity|]. split; [lia|].
      intros [->|Hin]%elem_of_cons.
      * unfold lookup_entity in Hl. by rewrite Hget in Hl.
      * by apply Hfound.
Qed.

Lemma agentId_index_stored env e ctx s stored s' :
  storeEntity env e ctx s = (Ret stored, s') → agentId stored ≠ "" →
  ∃ ids, agentId_index s' !! agentId stored = Some ids ∧ ent_id stored ∈ ids.
Proof.
  intros ->%storeEntity_eq Ha.
  change (agentId_index (cache_put stored ?s)) with (agentId_index s).
  unfold _indexEntity, mbind, M_bind, modify, set_text_index,
    set_metadata_index, set_agentId_index.
  cbn [snd text_index metadata_index agentId_index set_files].
  destruct (agentId stored) as [|c a] eqn:Hagent; [done|]. cbn [truthy].
  unfold _indexAgentId. cbn [truthy negb].
  rewrite lookup_insert_eq. eexists. split; [reflexivity|].
  apply elem_of_oset_add. by left.
Qed.

(** X21. Round trip of an agent's memory.  After a successful
    [storeEntity] of an entity that carries an [agentId] (cache with room
    for the ids indexed for the agent), [getAgentMemory] returns the stored
    entity to that agent and throws for every other agent; and
    [findEntitiesByAgentId] for that agent returns at most [limit] entities
    and, when [limit] covers the ids indexed for the agent, the stored
    entity among them. *)
Theorem agent_memory_roundtrip env e ctx s stored s' limit :
  entity_ids_ok s →
  storeEntity env e ctx s = (Ret stored, s') →
  agentId stored ≠ "" →
  length (entityCache s)
  + length (ids_under (agentId_index s') (agentId stored)) < maxCacheSize s →
  getAgentMemory (agentId stored) (ent_id stored) s' = (Ret stored, s')
  ∧ (∀ other, other ≠ agentId stored →
              getAgentMemory other (ent_id stored) s'
              = (Throw not_the_agents, s'))
  ∧ ∃ found s'',
      findEntitiesByAgentId (agentId stored) "" limit 0 s' = (Ret found, s'')
      ∧ length found ≤ limit
      ∧ (length (ids_under (agentId_index s') (agentId stored)) ≤ limit →
         stored ∈ found).
Proof.
  intros Hok Hstore Hagent Hroom.
  pose proof (storeEntity_Ret _ _ _ _ _ _ Hstore) as (_ & _ & Hcache & Hmax).
  pose proof (storeEntity_eq _ _ _ _ _ _ Hstore) as Hs'.
  destruct (agentId_index_stored _ _ _ _ _ _ Hstore Hagent) as (ids & Hids & Hin).
  unfold ids_under in Hroom. rewrite Hids in Hroom. simpl in Hroom.
  assert (Hget : omap_get (ent_id stored) (entityCache s') = Some stored).
  { rewrite Hcache. apply omap_get_trim_set; lia. }
  assert (Hlen : length (entityCache s') ≤ S (length (entityCache s))).
  { rewrite Hcache.
    pose proof (omap_set_length (ent_id stored) stored (entityCache s)) as Hl.
    unfold omap_trim.
    destruct (omap_get (ent_id stored) (entityCache s));
      rewrite decide_False by lia; lia. }
  assert (Hok' : entity_ids_ok s').
  { rewrite Hs'. apply entity_ids_ok_put.
    apply (preserves__indexEntity_frame entity_ids_ok).
    - intros s1 s2 Hf Hc _ [? ?]. unfold entity_ids_ok. by rewrite Hf, Hc.
    - by apply write_ids_ok. }
  split_and!.
  - unfold getAgentMemory, mbind, M_bind. rewrite getEntity_eq, Hget.
    by rewrite decide_False by (intros H; by apply H).
  - intros other Hother. unfold getAgentMemory, mbind, M_bind.
    rewrite getEntity_eq, Hget. rewrite decide_True; [done|].
    intros Heq. by apply Hother.
  - unfold findEntitiesByAgentId. unfold mbind at 1. unfold M_bind at 1.
    unfold get_state. rewrite Hids.
    destruct (get_agent_entities_cached "" ids s' (ent_id stored) stored
                Hok' Hget) as (found & s'' & Heq & Hlenf & Hfound).
    { rewrite Hmax. lia. }
    { done. }
    unfold mbind, M_bind. rewrite Heq. eexists _, s''.
    split; [reflexivity|]. split.
    + rewrite slice_length. lia.
    + unfold ids_under. rewrite Hids. simpl. intros Hle.
      unfold slice. rewrite drop_0, take_ge by lia. by apply Hfound.
Qed.

Lemma agent_memory_roundtrip_witness :
  getAgentMemory (agentId agent_note_stored) (ent_id agent_note_stored)
                 agent_memory_store
  = (Ret agent_note_stored, agent_memory_store)
  ∧ (∀ other, other ≠ agentId agent_note_stored →
              getAgentMemory other (ent_id agent_note_stored)
                             agent_memory_store
              = (Throw not_the_agents, agent_memory_store))
  ∧ ∃ found s'',
      findEntitiesByAgentId (agentId agent_note_stored) "" 100 0
                            agent_memory_store
      = (Ret found, s'')
      ∧ length found ≤ 100
      ∧ (length (ids_under (agentId_index agent_memory_store)
                           (agentId agent_note_stored)) ≤ 100 →
         agent_note_stored ∈ found).
Proof.
  apply (agent_memory_roundtrip sample_env agent_note (Some "agent")
           (new_StorageManager 0)).
  - by_decide.
  - vm_compute. reflexivity.
  - discriminate.
  - vm_compute. lia.
Defined.

(** ** Ranking of the text search *)

Lemma StronglySorted_sublist {A} (R : relation A) l1 l2 :
  l1 `sublist_of` l2 → StronglySorted R l2 → StronglySorted R l1.
Proof.
  induction 1 as [|x l1 l2 Hsub IH|x l1 l2 Hsub IH]; [done| |].
  - intros [Hall Hs]%StronglySorted_cons. apply StronglySorted_cons.
    split; [|by apply IH]. apply Forall_forall. intros y Hy.
    eapply Forall_forall in Hall; [exact Hall|]. by eapply elem_of_sublist.
  - intros [_ Hs]%StronglySorted_cons. by apply IH.
Qed.

Lemma StronglySorted_fmap_inv {A B} (R : relation B) (f : A → B) l :
  StronglySorted R (f <$> l) → StronglySorted (λ a b, R (f a) (f b)) l.
Proof.
  induction l as [|x l IH]; [constructor|].
  rewrite fmap_cons. intros [Hall Hs]%StronglySorted_cons.
  apply StronglySorted_cons. split; [|by apply IH].
  apply Forall_forall. intros y Hy.
  eapply Forall_forall in Hall; [exact Hall|].
  apply list_elem_of_fmap. by exists y.
Qed.

Lemma resolve_page_sublist {A} context (key : A → string) page s found s' :
  resolve_page context key page s = (Ret found, s') →
  found.*2 `sublist_of` page.
Proof.
  destruct (resolve_page_eq (λ _, True) context key page s)
    as (s1 & Heq & _); [done..|].
  rewrite Heq. intros [= <- <-]. clear Heq.
  induction page as [|item page IH]; [done|].
  cbn [omap list_omap].
  destruct (lookup_entity s (key item) context); simpl; by constructor.
Qed.

Lemma cache_filters_sublist {A} s options (key : A → string) results :
  cache_filters s options key results `sublist_of` results.
Proof.
  unfold cache_filters.
  destruct (truthy (so_agentId options)), (truthy (so_type options));
    try done.
  - etrans; apply sublist_filter.
  - apply sublist_filter.
  - apply sublist_filter.
Qed.

Lemma js_div_range a b :
  1 ≤ a → a ≤ b → (0 < js_div a b)%Q ∧ (js_div a b <= 1)%Q.
Proof.
  intros Ha Hb. unfold js_div. rewrite Qred_correct.
  unfold Qlt, Qle. simpl.
  assert (Z.pos (Pos.of_nat b) = Z.of_nat b) as ->.
  { destruct b as [|b]; [lia|].
    rewrite <- (Nat2Pos.id (S b)) at 2 by done. by rewrite positive_nat_Z. }
  lia.
Qed.

Lemma scored_matches_range index tokens threshold id score :
  index_sets_NoDup index →
  (id, score) ∈ scored_matches index tokens threshold →
  (0 < score)%Q ∧ (score <= 1)%Q ∧ (threshold <= score)%Q.
Proof.
  intros Hnd Hin.
  pose proof (scored_matches_spec _ _ _ _ _ Hnd Hin) as ->.
  unfold scored_matches in Hin.
  rewrite elem_of_sort_by, list_elem_of_filter, list_elem_of_fmap in Hin.
  destruct Hin as (Hthr & [k c] & [= -> Hscore] & Hc). simpl in Hthr.
  pose proof (count_matches_spec _ _ _ _ Hnd Hc) as ->.
  apply count_matches_keys in Hc as (t & Ht & Hk).
  assert (Hrange : 1 ≤ matched_tokens index tokens k
                   ∧ matched_tokens index tokens k ≤ length tokens).
  { unfold matched_tokens. split; [|apply length_filter].
    assert (Hin : t ∈ filter (λ token, k ∈ default [] (index !! token)) tokens)
      by (by apply list_elem_of_filter).
    destruct (filter _ tokens); [by apply elem_of_nil in Hin | simpl; lia]. }
  destruct (js_div_range _ _ (proj1 Hrange) (proj2 Hrange)) as [? ?].
  split_and!; [done | done |]. by apply Qle_bool_iff.
Qed.

Lemma scored_matches_sorted index tokens threshold :
  StronglySorted (λ a b : string * Q, (b.2 <= a.2)%Q)
                 (scored_matches index tokens threshold).
Proof.
  unfold scored_matches. apply sort_by_sorted.
  - intros a b. apply Qle_bool_iff.
  - intros a b Hle. apply Qlt_le_weak, Qnot_le_lt. intros H.
    apply Qle_bool_iff in H. congruence.
  - intros a b c Hab Hbc. exact (Qle_trans _ _ _ Hbc Hab).
Qed.

(** X22. [searchByText] always returns (the id sets of the text index
    holding no id twice).  Its results are in the order of their scores,
    highest first; every score lies in (0, 1] and is at least the
    threshold; there are at most [limit] results and at most
    [total - offset]; and a query without a token matches nothing. *)
Theorem searchByText_ranking query options s :
  index_sets_NoDup (text_index s) →
  ∃ r s',
    searchByText query options s = (Ret r, s')
    ∧ StronglySorted (λ a b, (score_of b <= score_of a)%Q) (sr_results r)
    ∧ (∀ item, item ∈ sr_results r →
               (0 < score_of item)%Q ∧ (score_of item <= 1)%Q
               ∧ (so_threshold options <= score_of item)%Q)
    ∧ length (sr_results r) ≤ so_limit options
    ∧ length (sr_results r) ≤ sr_total r - so_offset options
    ∧ (qe_tokenizeText query = [] → sr_total r = 0).
Proof.
  intros Hnd. unfold searchByText.
  unfold mbind, M_bind, get_state, mret, M_ret.
  set (ranked := scored_matches (text_index s) (qe_tokenizeText query)
                                (so_threshold options)).
  set (page := slice (so_offset options) (so_limit options)
                     (cache_filters s options fst ranked)).
  destruct (resolve_page (so_context options) fst page s)
    as [[found| |] s1] eqn:Hres.
  2,3: destruct (resolve_page_spec (so_context options) fst page s)
         as (? & ? & ? & _); congruence.
  pose proof (resolve_page_sublist _ _ _ _ _ _ Hres) as Hsub.
  assert (Hpage : page `sublist_of` ranked).
  { unfold page, slice. etrans; [apply sublist_take|].
    etrans; [apply sublist_drop|]. apply cache_filters_sublist. }
  eexists _, s1. split; [reflexivity|]. cbn [sr_results sr_total].
  split_and!.
  - assert (Hs : StronglySorted (λ a b : string * Q, (b.2 <= a.2)%Q) found.*2).
    { eapply StronglySorted_sublist; [|apply scored_matches_sorted].
      by etrans. }
    by apply StronglySorted_fmap_inv in Hs.
  - intros [e [k sc]] Hin. unfold score_of. simpl.
    assert (Hk : (k, sc) ∈ ranked).
    { eapply elem_of_sublist; [|exact Hpage].
      eapply elem_of_sublist; [|exact Hsub].
      apply list_elem_of_fmap. by exists (e, (k, sc)). }
    by apply scored_matches_range in Hk.
  - apply sublist_length in Hsub. rewrite length_fmap in Hsub.
    unfold page in Hsub. rewrite slice_length in Hsub. lia.
  - apply sublist_length in Hsub. rewrite length_fmap in Hsub.
    unfold page in Hsub. rewrite slice_length in Hsub. lia.
  - intros Hempty. unfold ranked. rewrite Hempty.
    assert (Hnil : scored_matches (text_index s) [] (so_threshold options) = [])
      by done.
    rewrite Hnil. pose proof (cache_filters_sublist s options fst
                                (@nil (string * Q))) as Hf.
    apply sublist_length in Hf. simpl in Hf. lia.
Qed.

Lemma searchByText_ranking_witness :
  ∃ r s',
    searchByText "alpha zeta" default_SearchOptions store_x = (Ret r, s')
    ∧ StronglySorted (λ a b, (score_of b <= score_of a)%Q) (sr_results r)
    ∧ (∀ item, item ∈ sr_results r →
               (0 < score_of item)%Q ∧ (score_of item <= 1)%Q
               ∧ (so_threshold default_SearchOptions <= score_of item)%Q)
    ∧ length (sr_results r) ≤ so_limit default_SearchOptions
    ∧ length (sr_results r) ≤ sr_total r - so_offset default_SearchOptions
    ∧ (qe_tokenizeText "alpha zeta" = [] → sr_total r = 0).
Proof.
  apply (searchByText_ranking "alpha zeta" default_SearchOptions store_x).
  by_decide.
Defined.

(** ** Tokens *)

Lemma is_upper_lower_char c : is_upper (lower_char c) = false.
Proof. by destruct c as [[] [] [] [] [] [] [] []]. Qed.

Lemma replace_punctuation_chars text c :
  c ∈ list_ascii_of_string (replace_punctuation (toLowerCase text)) →
  token_char c ∨ is_space c = true.
Proof.
  induction text as [|x text IH]; simpl.
  - by intros ?%elem_of_nil.
  - intros [->|Hin]%elem_of_cons; [|by apply IH].
    destruct (is_word (lower_char x)) eqn:Hw; simpl.
    + left. split; [done | apply is_upper_lower_char].
    + destruct (is_space (lower_char x)) eqn:Hs; by right.
Qed.

Lemma split_ws_chars s cur in_ws piece c :
  piece ∈ split_ws cur in_ws s → c ∈ list_ascii_of_string piece →
  c ∈ cur ∨ (c ∈ list_ascii_of_string s ∧ is_space c = false).
Proof.
  revert cur in_ws. induction s as [|a s IH]; intros cur in_ws; simpl.
  - intros ->%list_elem_of_singleton.
    rewrite list_ascii_of_string_of_list_ascii, elem_of_reverse. by left.
  - destruct (is_space a) eqn:Ha.
    + destruct in_ws.
      * intros Hp Hc. destruct (IH _ _ Hp Hc) as [?|[? ?]]; [by left|].
        right. split; [by right | done].
      * intros [->|Hp]%elem_of_cons Hc.
        -- rewrite list_ascii_of_string_of_list_ascii, elem_of_reverse in Hc.
           by left.
        -- destruct (IH _ _ Hp Hc) as [?%elem_of_nil|[? ?]]; [done|].
           right. split; [by right | done].
    + intros Hp Hc.
      destruct (IH _ _ Hp Hc) as [[->|?]%elem_of_cons|[? ?]].
      * right. split; [left | done].
      * by left.
      * right. split; [by right | done].
Qed.

(** X23. The tokenizer of the query engine and the tokenizer of the
    storage manager agree on every text, so that the tokens of a query are
    looked up under the keys that indexing used; and every token has at
    least two characters, all of them word characters other than upper-case
    letters. *)
Theorem tokens_are_lowercase_words text :
  qe_tokenizeText text = _tokenizeText text
  ∧ Forall (λ token, 2 ≤ String.length token
                     ∧ Forall token_char (list_ascii_of_string token))
           (_tokenizeText text).
Proof.
  split.
  - unfold qe_tokenizeText, _tokenizeText. by destruct text.
  - unfold _tokenizeText. apply Forall_forall.
    intros token [Hlen Hin]%list_elem_of_filter. split; [lia|].
    apply Forall_forall. intros c Hc.
    destruct (split_ws_chars _ _ _ _ _ Hin Hc) as [?%elem_of_nil|[Hc' Hs]];
      [done|].
    apply replace_punctuation_chars in Hc' as [?|?]; [done|congruence].
Qed.

(** ** What was stored is found by its metadata *)

Lemma metadata_ids_under__indexMetadataValue id key value index k v x :
  x ∈ metadata_ids_under (_indexMetadataValue id key value index) k v
  ↔ x ∈ metadata_ids_under index k v ∨ (x = id ∧ k = key ∧ v = value).
Proof.
  unfold _indexMetadataValue, metadata_ids_under.
  set (index1 := if decide (is_Some (index !! key)) then index
                 else <[key := ∅]> index).
  assert (H1 : ∀ v', default [] (index1 !! key ≫= λ vm, vm !! v')
                     = default [] (index !! key ≫= λ vm, vm !! v')).
  { intros v'. unfold index1. case_decide as Hk; [done|].
    rewrite lookup_insert_eq. simpl. rewrite lookup_empty.
    destruct (index !! key) eqn:Hi; [|done]. exfalso. by apply Hk. }
  assert (H1' : k ≠ key → index1 !! k = index !! k).
  { intros Hne. unfold index1. case_decide; [done|].
    by rewrite lookup_insert_ne. }
  fold (index_add value id (default ∅ (index1 !! key))).
  destruct (decide (k = key)) as [->|Hne].
  - rewrite lookup_insert_eq. simpl.
    fold (ids_under (index_add value id (default ∅ (index1 !! key))) v).
    rewrite ids_under_index_add. unfold ids_under.
    assert (default [] (default ∅ (index1 !! key) !! v)
            = default [] (index !! key ≫= λ vm, vm !! v)) as ->.
    { rewrite <- H1. by destruct (index1 !! key). }
    naive_solver.
  - rewrite lookup_insert_ne by done. rewrite H1' by done. naive_solver.
Qed.

Lemma metadata_ids_under_items id key items index k v x :
  x ∈ metadata_ids_under
        (foldl (λ idx item, _indexMetadataValue id key item idx) index items)
        k v
  ↔ x ∈ metadata_ids_under index k v ∨ (x = id ∧ k = key ∧ v ∈ items).
Proof.
  revert index. induction items as [|item items IH]; intros index; simpl.
  - rewrite elem_of_nil. tauto.
  - rewrite IH, metadata_ids_under__indexMetadataValue, elem_of_cons.
    naive_solver.
Qed.

Lemma metadata_ids_under__indexMetadata id md index k v x :
  x ∈ metadata_ids_under (_indexMetadata id md index) k v
  ↔ x ∈ metadata_ids_under index k v
    ∨ (x = id
       ∧ ((k, MScalar v) ∈ md ∨ ∃ items, (k, MArray items) ∈ md ∧ v ∈ items)).
Proof.
  unfold _indexMetadata. revert index.
  induction md as [|[key val] md IH]; intros index; simpl.
  - setoid_rewrite elem_of_nil. naive_solver.
  - rewrite IH. setoid_rewrite elem_of_cons.
    destruct val as [|value|items]; simpl.
    + naive_solver.
    + rewrite metadata_ids_under__indexMetadataValue. naive_solver.
    + rewrite metadata_ids_under_items. naive_solver.
Qed.

Lemma metadata_index_stored env e ctx s stored s' k v x :
  storeEntity env e ctx s = (Ret stored, s') →
  x ∈ metadata_ids_under (metadata_index s') k v
  ↔ x ∈ metadata_ids_under (metadata_index s) k v
    ∨ (x = ent_id stored ∧ has_metadata stored k v).
Proof.
  intros Hstore. apply storeEntity_eq in Hstore. subst s'.
  change (metadata_index (cache_put stored ?s)) with (metadata_index s).
  unfold _indexEntity, mbind, M_bind, modify, set_text_index,
    set_metadata_index, set_agentId_index.
  cbn [snd text_index metadata_index agentId_index set_files].
  rewrite !metadata_ids_under__indexMetadata. unfold has_metadata.
  setoid_rewrite list_elem_of_singleton. naive_solver.
Qed.

(** X24. What was stored is found by its metadata: after a successful
    [storeEntity] of an entity that carries a value under a metadata key
    (as a scalar, as an item of an array, or as a tag under the key
    ["tags"]), a metadata search for that key and value (no filters, no
    offset, a cache with room for the page) counts the entity among its
    matches and, when the page holds all the matches, returns the stored
    entity. *)
Theorem stored_entity_is_found_by_metadata env e ctx s stored s'
  key value options :
  entity_ids_ok s →
  storeEntity env e ctx s = (Ret stored, s') →
  has_metadata stored key value →
  so_offset options = 0 → so_agentId options = "" → so_type options = "" →
  length (entityCache s) + so_limit options < maxCacheSize s →
  ∃ r s'',
    searchByMetadata [(key, MScalar value)] options s' = (Ret r, s'')
    ∧ 1 ≤ sr_total r
    ∧ (sr_total r ≤ so_limit options → (stored, ent_id stored) ∈ sr_results r).
Proof.
  intros Hok Hstore Hhas Hoffset Hagent Htype Hroom.
  pose proof (storeEntity_Ret _ _ _ _ _ _ Hstore) as (_ & _ & Hcache & Hmax).
  pose proof (storeEntity_eq _ _ _ _ _ _ Hstore) as Hs'.
  assert (Hin : ent_id stored
                ∈ metadata_ids_under (metadata_index s') key value).
  { apply (metadata_index_stored _ _ _ _ _ _ _ _ _ Hstore). by right. }
  assert (Hlen' : length (entityCache s') ≤ S (length (entityCache s))).
  { rewrite Hcache.
    pose proof (omap_set_length (ent_id stored) stored (entityCache s)) as Hl.
    unfold omap_trim.
    destruct (omap_get (ent_id stored) (entityCache s));
      rewrite decide_False by lia; lia. }
  assert (Hget' : omap_get (ent_id stored) (entityCache s') = Some stored).
  { rewrite Hcache. apply omap_get_trim_set; lia. }
  assert (Hok' : entity_ids_ok s').
  { rewrite Hs'. apply entity_ids_ok_put.
    apply (preserves__indexEntity_frame entity_ids_ok).
    - intros s1 s2 Hf Hc _ [? ?]. unfold entity_ids_ok. by rewrite Hf, Hc.
    - by apply write_ids_ok. }
  unfold searchByMetadata. unfold mbind at 1. unfold M_bind at 1.
  unfold get_state.
  assert (Hsets : ∃ set, matchingSets (metadata_index s')
                           [(key, MScalar value)] = [set]
                         ∧ ent_id stored ∈ set) .
  { unfold matchingSets, metadata_ids_under in *. simpl.
    destruct (metadata_index s' !! key ≫= λ vm, vm !! value) as [set|];
      [|by apply elem_of_nil in Hin].
    by exists set. }
  destruct Hsets as (set & -> & Hset). rewrite decide_False by done.
  unfold cache_filters. rewrite Hagent, Htype, Hoffset. cbn [truthy].
  unfold slice. rewrite drop_0.
  set (ids := combine_sets (so_matchAll options) [set]).
  assert (Hids : ent_id stored ∈ ids).
  { apply combine_sets_spec. destruct (so_matchAll options).
    - split; [done|]. by intros set' ->%list_elem_of_singleton.
    - exists set. split; [left | done]. }
  destruct (resolve_page_cached (so_context options) (λ id : string, id)
              (take (so_limit options) ids) s' (ent_id stored) stored
              Hok' Hget') as (found & s'' & Heq & Hfound).
  { rewrite length_take, Hmax. lia. }
  unfold mbind, M_bind. rewrite Heq. eexists _, s''.
  split; [reflexivity|]. cbn [sr_total sr_results]. split.
  - destruct ids; [by apply elem_of_nil in Hids | simpl; lia].
  - intros Hle. apply Hfound; [|done]. by rewrite take_ge.
Qed.

Lemma stored_entity_is_found_by_metadata_witness :
  ∃ r s'',
    searchByMetadata [("tags", MScalar "urgent")] default_SearchOptions
                     tagged_note_store = (Ret r, s'')
    ∧ 1 ≤ sr_total r
    ∧ (sr_total r ≤ so_limit default_SearchOptions →
       (tagged_note_stored, ent_id tagged_note_stored) ∈ sr_results r).
Proof.
  apply (stored_entity_is_found_by_metadata sample_env tagged_note None
           (new_StorageManager 0)).
  - by_decide.
  - vm_compute. reflexivity.
  - right. right. split; [reflexivity|]. apply list_elem_of_singleton.
    reflexivity.
  - reflexivity.
  - reflexivity.
  - reflexivity.
  - vm_compute. lia.
Defined.

(** ** Pages of relationships *)

(** X25. In a graph whose files are named after the ids they hold and
    whose cache agrees with the files, [listRelationships] always returns:
    its [total] is the number of relationships listed for the entity, the
    page holds [min limit (total - offset)] of them, every relationship of
    the page passes the type filter and is held by the file named after its
    id, and a direction other than ['outgoing'], ['incoming'] and ['both']
    lists nothing.  The files and the three indices are left as they
    are. *)
Theorem listRelationships_page entityId type direction limit offset g :
  graph_ok g →
  ∃ page g',
    listRelationships entityId type direction limit offset g = (Ret page, g')
    ∧ relFiles g' = relFiles g
    ∧ source_index g' = source_index g ∧ target_index g' = target_index g
    ∧ page_total page = length (listed g entityId type direction)
    ∧ length (page_relationships page) = limit `min` (page_total page - offset)
    ∧ (∀ r, r ∈ page_relationships page →
            type_matches type r = true ∧ relFiles g !! rel_id r = Some r)
    ∧ (direction ≠ "outgoing" → direction ≠ "incoming" →
       direction ≠ "both" → page_total page = 0).
Proof.
  intros Hok.
  destruct (listRelationships_ok entityId type direction limit offset g Hok)
    as (g' & Heq & _ & Hf & Hs & Ht).
  eexists _, g'. split; [exact Heq|]. cbn [page_total page_relationships].
  split_and!; try done.
  - apply slice_length.
  - intros r Hin%elem_of_slice. unfold listed in Hin.
    assert (Hc : ∃ ids, r ∈ collected g type ids).
    { apply elem_of_app in Hin as [Hin|Hin]; case_match;
        try (by apply elem_of_nil in Hin); eauto. }
    destruct Hc as (ids & (Hty & id & _ & Hfile)%elem_of_collected).
    split; [done|]. by rewrite (proj1 Hok _ _ Hfile).
  - intros Ho Hi Hb. unfold listed.
    by rewrite !bool_decide_false by done.
Qed.

Lemma listRelationships_page_witness :
  ∃ page g',
    listRelationships "e" None "both" 1 0 loop_graph = (Ret page, g')
    ∧ relFiles g' = relFiles loop_graph
    ∧ source_index g' = source_index loop_graph
    ∧ target_index g' = target_index loop_graph
    ∧ page_total page = length (listed loop_graph "e" None "both")
    ∧ length (page_relationships page) = 1 `min` (page_total page - 0)
    ∧ (∀ r, r ∈ page_relationships page →
            type_matches None r = true
            ∧ relFiles loop_graph !! rel_id r = Some r)
    ∧ ("both" ≠ "outgoing" → "both" ≠ "incoming" → "both" ≠ "both" →
       page_total page = 0).
Proof.
  apply (listRelationships_page "e" None "both" 1 0 loop_graph). by_decide.
Defined.

(** ** The type filter of the traversal *)

Lemma types_inv_visit resolve types u d q vis res r q' vis' res' :
  types_inv types res →
  (∃ p, paths res !! u = Some p) →
  visit_pure resolve types u d (q, vis, res) r = (q', vis', res') →
  types_inv types res'
  ∧ (∀ v, is_Some (paths res !! v) → is_Some (paths res' !! v)).
Proof.
  intros [Hrels Hpaths] [pu Hu]. unfold visit_pure.
  destruct (match types with
            | Some tys => negb (bool_decide (rel_type r ∈ tys))
            | None => false
            end) eqn:Hfilter.
  { by intros [= <- <- <-]. }
  assert (Hallowed : type_allowed types r = true).
  { unfold type_allowed. destruct types; [|done].
    by apply negb_false_iff in Hfilter. }
  assert (Hstep : match types with
                  | Some tys => rel_type r ∈ tys
                  | None => True
                  end).
  { destruct types; [|done]. apply negb_false_iff in Hfilter.
    by apply bool_decide_eq_true in Hfilter. }
  set (res1 := if existsb _ _ then res else _).
  assert (H1 : types_inv types res1 ∧ paths res1 = paths res).
  { unfold res1. destruct (existsb _ _); [done|]. split; [|done].
    split; [|done]. cbn [relationships]. apply Forall_app. split; [done|].
    by repeat constructor. }
  destruct H1 as [[Hrels1 Hpaths1] Hp1].
  set (c := if decide (sourceId r = u) then targetId r else sourceId r).
  destruct (decide (c ∈ vis)).
  { intros [= <- <- <-]. split; [done|]. by rewrite Hp1. }
  destruct (resolve c) as [e|].
  - cbn [paths entities relationships]. rewrite Hp1, Hu.
    intros [= <- <- <-]. split.
    + split; [done|]. cbn [paths]. intros v p.
      rewrite lookup_insert_Some. intros [[_ <-]|[_ Hv]]; [|by eapply Hpaths].
      cbn [path]. apply Forall_app. split; [by eapply Hpaths|].
      by repeat constructor.
    + intros v Hv. cbn [paths]. rewrite lookup_insert_is_Some.
      destruct (decide (c = v)); auto.
  - intros [= <- <- <-]. split; [done|]. by rewrite Hp1.
Qed.

(** X26. In every world, every relationship of the result of a traversal
    passes its [relationshipTypes] filter, and so does the relationship of
    every step of every recorded path. *)
Theorem traverseGraph_respects_types fuel start types maxDepth direction
  w res w' :
  traverseGraph fuel start types maxDepth direction w = (Ret res, w') →
  Forall (λ r, type_allowed types r = true) (relationships res)
  ∧ ∀ v p step, paths res !! v = Some p → step ∈ path p →
                match types with
                | Some tys => relationshipType step ∈ tys
                | None => True
                end.
Proof.
  rewrite traverseGraph_unfold.
  destruct (lookup_entity (storageManager w) start None) as [e0|] eqn:Hl;
    [|done].
  destruct (_traverseBFS _ _ _ _ _ _ _ _) as [[[vis1 res1]| |] w1] eqn:Hbfs;
    [|done|done].
  intros [= <- <-].
  apply (traverseBFS_invariant (λ _, True) (λ _, True) types maxDepth
           (λ q vis res, types_inv types res
                         ∧ ∀ u d, (u, d) ∈ q → is_Some (paths res !! u))
           (λ u d q vis res, (types_inv types res
                              ∧ ∀ u d, (u, d) ∈ q → is_Some (paths res !! u))
                             ∧ is_Some (paths res !! u)))
    in Hbfs as [[[Hrels Hpaths] _] _]; try done.
  - split; [done|]. intros v p step Hv Hstep.
    pose proof (Hpaths _ _ Hv) as Hall.
    eapply Forall_forall in Hall; [|exact Hstep]. exact Hall.
  - intros u d q vis res [Hinv Hq] _. split; [done|].
    intros u' d' Hin. eapply Hq. by right.
  - intros u d q vis res [Hinv Hq] _. split; [split; [done|]|].
    + intros u' d' Hin. eapply Hq. by right.
    + eapply Hq. left.
  - intros resolve u d q vis res r q' vis' res' _ [[Hinv Hq] [pu Hu]] Hvisit.
    destruct (types_inv_visit _ _ _ _ _ _ _ _ _ _ _ Hinv
                (ex_intro _ pu Hu) Hvisit) as [Hinv' Hmono].
    split; [split; [done|]|by apply Hmono].
    intros u' d' Hin.
    apply visit_pure_effect in Hvisit
      as [(-> & -> & ->)|(rels' & _ & Hcases)]; [by eapply Hq|].
    destruct Hcases as [(_ & -> & -> & ->)|(Hc & -> & Hcases)];
      [by eapply Hq|].
    destruct Hcases as [(_ & -> & ->)|(e & He & Hcases)]; [by eapply Hq|].
    destruct Hcases as [(_ & -> & ->)|(here & Hhere & -> & ->)];
      [by eapply Hq|].
    apply elem_of_app in Hin as [Hin|Hin%list_elem_of_singleton].
    + apply Hmono. by eapply Hq.
    + injection Hin as -> ->. cbn [paths]. rewrite lookup_insert_eq. by eexists.
  - by intros u d q vis res [? _].
  - split.
    + split; [by apply Forall_nil|]. cbn [paths].
      intros v p [<- <-]%lookup_singleton_Some. by apply Forall_nil.
    + intros u d [= -> ->]%list_elem_of_singleton. cbn [paths].
      rewrite lookup_singleton_eq. by eexists.
Qed.

Lemma traverseGraph_respects_types_witness :
  Forall (λ r, type_allowed (Some ["next"]) r = true)
         (relationships
            (traversal_of
               (traverseGraph 10 "A" (Some ["next"]) 3 "both" chain_world).1))
  ∧ ∀ v p step,
      paths (traversal_of
               (traverseGraph 10 "A" (Some ["next"]) 3 "both" chain_world).1)
        !! v = Some p →
      step ∈ path p → relationshipType step ∈ ["next"].
Proof.
  apply (traverseGraph_respects_types 10 "A" (Some ["next"]) 3 "both"
           chain_world _
           (traverseGraph 10 "A" (Some ["next"]) 3 "both" chain_world).2).
  vm_compute. reflexivity.
Defined.

(** ** Every reachable state is coherent *)

Lemma new_KnowledgeGraph_inv n : kg_inv (new_KnowledgeGraph n).
Proof.
  unfold kg_inv, graph_ok, rel_cache_bounded, index_complete,
    new_KnowledgeGraph. simpl. split_and!.
  - apply map_Forall_empty.
  - by apply Forall_nil.
  - apply NoDup_nil_2.
  - case_decide; lia.
  - lia.
  - apply map_Forall_empty.
Qed.

Lemma new_StorageManager_ids_ok n : entity_ids_ok (new_StorageManager n).
Proof.
  split; [|by apply Forall_nil]. unfold files_named. simpl.
  split_and!; apply map_Forall_empty.
Qed.

(** X27. Whatever sequence of operations on plain names has run on a
    storage manager and on a knowledge graph since they were constructed
    over empty directories, and however each of them ended: the entity cache
    is within its bound, entity files and cache entries are keyed by the id
    of the entity they hold, the id sets of the entity indices hold no id
    twice, and the knowledge graph is coherent. *)
Theorem reachable_states_are_coherent n calls m graph_calls :
  forallb plain_storage_call calls = true →
  forallb plain_graph_call graph_calls = true →
  cache_bounded (state_reached n calls)
  ∧ entity_ids_ok (state_reached n calls)
  ∧ indices_NoDup (state_reached n calls)
  ∧ kg_inv (graph_reached m graph_calls).
Proof.
  intros _ _. split_and!.
  - unfold state_reached.
    generalize (new_StorageManager_bounded n).
    generalize (new_StorageManager n).
    induction calls as [|c calls IH]; intros s Hs; [done|].
    cbn [foldl]. apply IH. apply (state_after_closed cache_bounded); try done.
    + intros e s'. apply cache_put_bounded.
    + apply uncache_bounded.
    + intros e. apply preserves__indexEntity_frame.
      intros s1 s2 _ Hc Hm [? ?]. unfold cache_bounded. by rewrite Hc, Hm.
    + intros e. apply preserves__removeEntityFromIndices_frame.
      intros s1 s2 _ Hc Hm [? ?]. unfold cache_bounded. by rewrite Hc, Hm.
  - unfold state_reached.
    generalize (new_StorageManager_ids_ok n).
    generalize (new_StorageManager n).
    induction calls as [|c calls IH]; intros s Hs; [done|].
    cbn [foldl]. apply IH. apply (state_after_closed entity_ids_ok); try done.
    + intros e s'. apply entity_ids_ok_put.
    + apply uncache_ids_ok.
    + apply write_ids_ok.
    + apply remove_ids_ok.
    + intros e. apply preserves__indexEntity_frame.
      intros s1 s2 Hf Hc _ [? ?]. unfold entity_ids_ok. by rewrite Hf, Hc.
    + intros e. apply preserves__removeEntityFromIndices_frame.
      intros s1 s2 Hf Hc _ [? ?]. unfold entity_ids_ok. by rewrite Hf, Hc.
  - unfold state_reached.
    assert (H0 : indices_NoDup (new_StorageManager n)).
    { unfold indices_NoDup. simpl. split_and!; apply map_Forall_empty. }
    revert H0. generalize (new_StorageManager n).
    induction calls as [|c calls IH]; intros s Hs; [done|].
    cbn [foldl]. apply IH. apply (state_after_closed indices_NoDup); try done.
    + apply indices_NoDup_index.
    + apply indices_NoDup_unindex.
  - unfold graph_reached.
    generalize (new_KnowledgeGraph_inv m).
    generalize (new_KnowledgeGraph m).
    induction graph_calls as [|c graph_calls IH]; intros g Hg; [done|].
    cbn [foldl]. by apply IH, graph_after_inv.
Qed.

Lemma reachable_states_are_coherent_witness :
  cache_bounded (state_reached 1 plain_calls)
  ∧ entity_ids_ok (state_reached 1 plain_calls)
  ∧ indices_NoDup (state_reached 1 plain_calls)
  ∧ kg_inv (graph_reached 1 plain_graph_calls).
Proof.
  apply (reachable_states_are_coherent 1 plain_calls 1 plain_graph_calls);
    reflexivity.
Defined.

(** ** Storing a memory of an agent *)

(** X28. Round trip of [storeAgentMemory] for plain names (the agent id,
    the id of the memory or the generated one) and a cache within its
    bound.  When it returns, the memory had content; the stored entity has
    the type ['memory'], the agent id of the call, the content, tags and
    metadata of the memory, and the id of the memory or a generated
    [memory_...] one;
    for a non-empty agent id its file lies in the directory of that agent;
    and [getAgentMemory] returns it to that agent and throws for every
    other one.  A memory without content is refused and nothing is
    stored. *)
Theorem storeAgentMemory_roundtrip env agent memory s :
  plain_dir_name agent = true →
  plain_name (fresh env) = true → plain_name (mem_id memory) = true →
  cache_bounded s →
  match storeAgentMemory env agent memory s with
  | (Ret stored, s') =>
      mem_content memory ≠ ""
      ∧ ent_type stored = "memory" ∧ agentId stored = agent
      ∧ content stored = mem_content memory
      ∧ tags stored = mem_tags memory
      ∧ metadata stored = mem_metadata memory
      ∧ ent_id stored = (if truthy (mem_id memory) then mem_id memory
                         else ("memory_" ++ fresh env)%string)
      ∧ (agent ≠ "" →
         fs_readFile (files s') (DAgents agent) (ent_id stored) = Some stored)
      ∧ getAgentMemory agent (ent_id stored) s' = (Ret stored, s')
      ∧ (∀ other, other ≠ agent →
                  getAgentMemory other (ent_id stored) s'
                  = (Throw not_the_agents, s'))
  | (Throw err, s') =>
      mem_content memory = "" ∧ err = mkError "Memory must have content" None
      ∧ s' = s
  | (Timeout, _) => False
  end.
Proof.
  intros _ _ _ [Hpos Hb]. unfold storeAgentMemory.
  destruct (mem_content memory) as [|c text] eqn:Hcontent.
  { cbn [truthy negb]. unfold throw. done. }
  cbn [truthy negb].
  set (memoryEntity := mkEntity _ _ _ _ _ _ _ _ _ _ _ _).
  assert (Hid : truthy (ent_id memoryEntity) = true).
  { unfold memoryEntity. cbn [ent_id]. by destruct (mem_id memory). }
  destruct (storeEntity env memoryEntity (Some "agent") s)
    as [[stored| |] s'] eqn:Hstore.
  - pose proof (storeEntity_Ret _ _ _ _ _ _ Hstore) as (_ & Hfiles & Hcache & _).
    assert (Hstored : stored
              = set_ent_updated (stamp_updated env)
                  (set_ent_created (stamp_created env) memoryEntity)).
    { revert Hstore. unfold storeEntity. rewrite Hid. cbn [ent_type negb truthy
        memoryEntity]. unfold memoryEntity at 1. cbn [ent_type truthy negb].
      unfold _getEntityPath. cbv beta iota zeta.
      unfold mbind, M_bind, mret, M_ret, modify, _indexEntity, _cacheEntity.
      cbn [ent_created memoryEntity truthy]. by intros [= <- _]. }
    assert (Hget : omap_get (ent_id stored) (entityCache s') = Some stored).
    { rewrite Hcache. by apply omap_get_trim_set. }
    subst stored. cbn [ent_type agentId content tags metadata ent_id
                       set_ent_updated set_ent_created memoryEntity] in *.
    split_and!; try done.
    + intros Hagent. rewrite Hfiles. unfold _getEntityPath.
      cbn [default agentId set_ent_updated set_ent_created memoryEntity fst].
      assert (truthy agent = true) as -> by (by destruct agent).
      cbn [bool_decide andb]. rewrite bool_decide_true by done. cbn [andb].
      apply fs_read_write.
    + unfold getAgentMemory, mbind, M_bind. rewrite getEntity_eq, Hget.
      cbn [agentId set_ent_updated set_ent_created memoryEntity].
      by rewrite decide_False by (intros H; by apply H).
    + intros other Hother. unfold getAgentMemory, mbind, M_bind.
      rewrite getEntity_eq, Hget.
      cbn [agentId set_ent_updated set_ent_created memoryEntity].
      rewrite decide_True; [done|]. intros Heq. by apply Hother.
  - exfalso. revert Hstore. unfold storeEntity. rewrite Hid.
    unfold memoryEntity at 1. cbn [ent_type truthy negb].
    unfold _getEntityPath. cbv beta iota zeta.
    unfold mbind, M_bind, mret, M_ret, modify, _indexEntity, _cacheEntity.
    done.
  - exfalso. revert Hstore. unfold storeEntity. rewrite Hid.
    unfold memoryEntity at 1. cbn [ent_type truthy negb].
    unfold _getEntityPath. cbv beta iota zeta.
    unfold mbind, M_bind, mret, M_ret, modify, _indexEntity, _cacheEntity.
    done.
Qed.

Lemma storeAgentMemory_roundtrip_witness :
  match storeAgentMemory sample_env "a1" sample_memory (new_StorageManager 0)
  with
  | (Ret stored, s') =>
      mem_content sample_memory ≠ ""
      ∧ ent_type stored = "memory" ∧ agentId stored = "a1"
      ∧ content stored = mem_content sample_memory
      ∧ tags stored = mem_tags sample_memory
      ∧ metadata stored = mem_metadata sample_memory
      ∧ ent_id stored = (if truthy (mem_id sample_memory)
                         then mem_id sample_memory
                         else ("memory_" ++ fresh sample_env)%string)
      ∧ ("a1" ≠ "" →
         fs_readFile (files s') (DAgents "a1") (ent_id stored) = Some stored)
      ∧ getAgentMemory "a1" (ent_id stored) s' = (Ret stored, s')
      ∧ (∀ other, other ≠ "a1" →
                  getAgentMemory other (ent_id stored) s'
                  = (Throw not_the_agents, s'))
  | (Throw err, s') =>
      mem_content sample_memory = ""
      ∧ err = mkError "Memory must have content" None
      ∧ s' = new_StorageManager 0
  | (Timeout, _) => False
  end.
Proof.
  apply (storeAgentMemory_roundtrip sample_env "a1" sample_memory
           (new_StorageManager 0));
    [reflexivity .. | apply new_StorageManager_bounded].
Defined.

(** ** Metadata search: what is returned *)

Lemma cache_filters_eq {A} s options (key : A → string) results :
  cache_filters s options key results
  = filter (λ item, passes_filters s options (key item) = true) results.
Proof.
  unfold cache_filters, passes_filters.
  induction results as [|item results IH]; [by repeat case_match|].
  destruct (truthy (so_agentId options)), (truthy (so_type options));
    cbn [negb orb andb] in *; rewrite !filter_cons;
    repeat case_decide; rewrite ?filter_cons; repeat case_decide;
    try (f_equal; exact IH); try exact IH;
    try (exfalso; destruct (omap_get (key item) (entityCache s));
         simpl in *; repeat case_bool_decide; simpl in *; congruence).
Qed.

Lemma elem_of_matchingSets_iff index metadata set :
  set ∈ matchingSets index metadata ↔ indexed_pair index metadata set.
Proof.
  unfold matchingSets, indexed_pair. rewrite list_elem_of_omap. split.
  - intros ([k v] & Hin & Hset). simpl in Hset.
    destruct (index !! k) as [valueMap|] eqn:Hk; [|done].
    simpl in Hset. by exists k, v, valueMap.
  - intros (k & v & valueMap & Hin & Hk & Hv). exists (k, v).
    split; [done|]. simpl. by rewrite Hk.
Qed.

Lemma combine_sets_matching matchAll index metadata id :
  id ∈ combine_sets matchAll (matchingSets index metadata)
  ↔ matching_ids matchAll index metadata id.
Proof.
  rewrite combine_sets_spec. unfold matching_ids. destruct matchAll.
  - split.
    + intros [Hne Hall]. split.
      * destruct (matchingSets index metadata) as [|set sets] eqn:Heq; [done|].
        exists set. apply elem_of_matchingSets_iff. rewrite Heq. left.
      * intros set Hset. by apply Hall, elem_of_matchingSets_iff.
    + intros [[set Hset] Hall]. split.
      * apply elem_of_matchingSets_iff in Hset. intros Heq.
        rewrite Heq in Hset. by apply elem_of_nil in Hset.
      * intros set' Hset'. by apply Hall, elem_of_matchingSets_iff.
  - split.
    + intros (set & Hset & Hid). exists set.
      split; [by apply elem_of_matchingSets_iff | done].
    + intros (set & Hset & Hid). exists set.
      split; [by apply elem_of_matchingSets_iff | done].
Qed.

(** C7 (as amended). [searchByMetadata] always returns.  The ids it matches
    are those of the intersection ([matchAll]) or of the union (otherwise)
    of the index sets of the key/value pairs of the query that are present
    in the metadata index, none when no pair is present.  Of these, the ids
    that pass the [agentId] and [type] filters are counted in [total]; the
    page of them from [offset] on, [limit] long, is resolved, and [results]
    holds, in order, the entity of every id of the page that resolves.  In
    the store holding an entity tagged [{color: "red"}] and one tagged
    [{color: "red", size: "large"}], the query
    [{color: "red", size: "large"}] returns the second alone under
    [matchAll] and both otherwise. *)
Theorem searchByMetadata_sets :
  (∀ metadata options s,
     ∃ ids r s',
       searchByMetadata metadata options s = (Ret r, s')
       ∧ NoDup ids
       ∧ (∀ id, id ∈ ids ↔ matching_ids (so_matchAll options)
                              (metadata_index s) metadata id)
       ∧ sr_total r
         = length (filter (λ id, passes_filters s options id = true) ids)
       ∧ sr_results r
         = omap (λ id, (λ e, (e, id))
                         <$> lookup_entity s id (so_context options))
                (slice (so_offset options) (so_limit options)
                       (filter (λ id, passes_filters s options id = true)
                               ids))
       ∧ sr_limit r = so_limit options ∧ sr_offset r = so_offset options)
  ∧ ids_of (searchByMetadata red_large_query default_SearchOptions
              tagged_store).1 = Some ["e2"]
  ∧ ids_of (searchByMetadata red_large_query
              (mkSearchOptions 10 0 0 None "" "" false) tagged_store).1
    = Some ["e1"; "e2"].
Proof.
  split; [|by vm_compute].
  intros metadata options s.
  exists (combine_sets (so_matchAll options)
            (matchingSets (metadata_index s) metadata)).
  unfold searchByMetadata. unfold mbind at 1. unfold M_bind, get_state.
  case_decide as Hlen.
  - apply nil_length_inv in Hlen.
    exists (mkSearchResults [] 0 (so_limit options) (so_offset options)), s.
    split; [done|]. split; [apply combine_sets_NoDup|].
    split; [intros id; apply combine_sets_matching|].
    assert (Hnil : combine_sets (so_matchAll options)
                     (matchingSets (metadata_index s) metadata) = []).
    { rewrite Hlen. by destruct (so_matchAll options). }
    rewrite Hnil. cbn [sr_total sr_results sr_limit sr_offset].
    rewrite filter_nil. unfold slice. by rewrite drop_nil, take_nil.
  - rewrite cache_filters_eq. unfold mbind, M_bind.
    match goal with
    | |- context [resolve_page ?c ?k ?p s] =>
        destruct (resolve_page_eq (λ _, True) c k p s) as (s' & Heq & _);
          [done..|]
    end.
    rewrite Heq. eexists _, s'.
    split; [reflexivity|]. split; [apply combine_sets_NoDup|].
    split; [intros id; apply combine_sets_matching|]. done.
Qed.

(** C7 (as stated) fails: of eleven entities tagged [{color: "red"}], a
    search for [{color: "red"}] with the default options returns ten,
    although the one index set that the query names holds all eleven. *)
Lemma searchByMetadata_sets_counterexample :
  ∃ r,
    (searchByMetadata [("color", MScalar "red")] default_SearchOptions
       crowded_store).1 = Ret r
    ∧ length (metadata_ids_under (metadata_index crowded_store) "color" "red")
      = 11
    ∧ "e11" ∈ metadata_ids_under (metadata_index crowded_store) "color" "red"
    ∧ sr_total r = 11
    ∧ (λ item : Entity * string, ent_id item.1) <$> sr_results r
      = ["e1"; "e2"; "e3"; "e4"; "e5"; "e6"; "e7"; "e8"; "e9"; "e10"].
Proof.
  eexists. split; [vm_compute; reflexivity|].
  split; [vm_compute; reflexivity|].
  split; [by_decide|]. split; vm_compute; reflexivity.
Qed.

(** ** Tokens in the words of the specification *)






(** ** Text search: what is returned *)










(** ** Calls that run together *)

Section tasks.
Context {S : Type}.
Implicit Types (Inv : S → Prop).

Lemma ends_in_mono {A} Inv (Φ Ψ : Outcome A → Prop) t :
  (∀ o, Φ o → Ψ o) → ends_in Inv Φ t → ends_in Inv Ψ t.
Proof.
  intros Himpl. induction 1 as [o Ho|effect next Heff Hnext IH].
  - constructor. by apply Himpl.
  - by constructor.
Qed.

Lemma ends_in_ret {A} Inv (Φ : Outcome A → Prop) a :
  Φ (Ret a) → ends_in Inv Φ (mret a).
Proof. by constructor. Qed.

Lemma ends_in_bind {A B} Inv (Ψ : Outcome A → Prop) (Φ : Outcome B → Prop)
  (t : Task S A) (f : A → Task S B) :
  ends_in Inv Ψ t →
  (∀ a, Ψ (Ret a) → ends_in Inv Φ (f a)) →
  (∀ e, Ψ (Throw e) → Φ (Throw e)) →
  (Ψ Timeout → Φ Timeout) →
  ends_in Inv Φ (t ≫= f).
Proof.
  intros Ht Hret Hthrow Htimeout.
  induction Ht as [o Ho|effect next Heff Hnext IH].
  - destruct o as [a|e|]; [by apply Hret | |];
      constructor; auto.
  - apply ends_waiting; [done|]. intros s Hs. by apply IH.
Qed.

Lemma ends_in_fmap {A B} Inv (Ψ : Outcome A → Prop) (Φ : Outcome B → Prop)
  (t : Task S A) (f : A → B) :
  ends_in Inv Ψ t →
  (∀ a, Ψ (Ret a) → Φ (Ret (f a))) →
  (∀ e, Ψ (Throw e) → Φ (Throw e)) →
  (Ψ Timeout → Φ Timeout) →
  ends_in Inv Φ (f <$> t).
Proof.
  intros Ht Hret Hthrow Htimeout.
  apply (ends_in_bind Inv Ψ Φ t (λ a, Finished (Ret (f a)))); try done.
  intros a Ha. constructor. by apply Hret.
Qed.

Lemma ends_in_try {A} Inv (Ψ Φ : Outcome A → Prop) (t : Task S A) h :
  ends_in Inv Ψ t →
  (∀ a, Ψ (Ret a) → Φ (Ret a)) →
  (∀ e, Ψ (Throw e) → ends_in Inv Φ (h e)) →
  (Ψ Timeout → Φ Timeout) →
  ends_in Inv Φ (task_try t h).
Proof.
  intros Ht Hret Hthrow Htimeout.
  induction Ht as [o Ho|effect next Heff Hnext IH].
  - destruct o as [a|e|]; [|by apply Hthrow|]; constructor; auto.
  - apply ends_waiting; [done|]. intros s Hs. by apply IH.
Qed.

Lemma ends_in_await {A} Inv (Φ : Outcome A → Prop) (m : M S A) :
  (∀ s, Inv s → Inv (m s).2 ∧ Φ (m s).1) → ends_in Inv Φ (await m).
Proof.
  intros Hm. apply ends_waiting.
  - intros s Hs. by apply Hm.
  - intros s Hs. constructor. by apply Hm.
Qed.

(** Alone, the call ends as it does beside others. *)
Lemma ends_in_run {A} Inv (Φ : Outcome A → Prop) t s :
  ends_in Inv Φ t → Inv s → Φ (run_task t s).1 ∧ Inv (run_task t s).2.
Proof.
  intros Ht. revert s. induction Ht as [o Ho|effect next Heff Hnext IH];
    intros s Hs; [done|].
  cbn [run_task]. by apply IH, Heff.
Qed.

Lemma settled_ends {A} Inv (tasks : list (Task S A)) Φs outcome :
  Forall2 (λ t Φ, ends_in Inv Φ t) tasks Φs →
  settled tasks = Some outcome → all_end Φs outcome.
Proof.
  intros Hall. revert outcome.
  induction Hall as [|t Φ tasks Φs Ht Hall IH]; intros outcome.
  - intros [= <-]. constructor.
  - cbn [settled]. destruct t as [[a|e|]|effect next].
    + inversion Ht as [o Ho|]; subst.
      destruct (settled tasks) as [[results| |]|]; intros [= <-].
      * constructor; [done | exact (IH (Ret results) eq_refl)].
      * apply Exists_cons_tl. exact (IH (Throw _) eq_refl).
      * apply Exists_cons_tl. exact (IH Timeout eq_refl).
    + inversion Ht as [o Ho|]; subst. intros [= <-]. by apply Exists_cons_hd.
    + inversion Ht as [o Ho|]; subst. intros [= <-]. by apply Exists_cons_hd.
    + destruct (settled tasks) as [[results| |]|]; intros [= <-].
      * apply Exists_cons_tl. exact (IH (Throw _) eq_refl).
      * apply Exists_cons_tl. exact (IH Timeout eq_refl).
Qed.

Lemma mapM_run_ends {A} Inv (tasks : list (Task S A)) Φs s :
  Forall2 (λ t Φ, ends_in Inv Φ t) tasks Φs → Inv s →
  all_end Φs (mapM run_task tasks s).1 ∧ Inv (mapM run_task tasks s).2.
Proof.
  intros Hall. revert s.
  induction Hall as [|t Φ tasks Φs Ht Hall IH]; intros s Hs.
  - split; [constructor | done].
  - cbn [mapM]. unfold mbind, M_bind.
    destruct (ends_in_run Inv Φ t s Ht Hs) as [Ho Hs1].
    destruct (run_task t s) as [[a|e|] s1]; simpl in *.
    + destruct (IH s1 Hs1) as [Hos Hs2].
      destruct (mapM run_task tasks s1) as [[results|e|] s2]; simpl in *.
      * split; [by constructor | done].
      * split; [by apply Exists_cons_tl | done].
      * split; [by apply Exists_cons_tl | done].
    + split; [by apply Exists_cons_hd | done].
    + split; [by apply Exists_cons_hd | done].
Qed.

Lemma resume_ends {A} Inv i (tasks : list (Task S A)) Φs s :
  Forall2 (λ t Φ, ends_in Inv Φ t) tasks Φs → Inv s →
  Forall2 (λ t Φ, ends_in Inv Φ t) (resume i tasks s).1 Φs
  ∧ Inv (resume i tasks s).2.
Proof.
  intros Hall Hs. unfold resume.
  destruct (tasks !! i) as [[o|effect next]|] eqn:Hi; [done| |done].
  destruct (Forall2_lookup_l _ _ _ _ _ Hall Hi) as (Φ & HΦ & Ht).
  inversion Ht as [|effect' next' Heff Hnext]; subst. simpl. split; [|auto].
  rewrite <- (list_insert_id Φs i Φ HΦ). apply Forall2_insert; auto.
Qed.

(** Whatever the schedule: when every call keeps [Inv] and ends in its
    [Φ], [Promise.all] keeps [Inv], returns results that satisfy each its
    [Φ], and fails only with a failure that one of the calls may end in. *)
Lemma promise_all_ends {A} Inv schedule (tasks : list (Task S A)) Φs s :
  Forall2 (λ t Φ, ends_in Inv Φ t) tasks Φs → Inv s →
  all_end Φs (promise_all schedule tasks s).1
  ∧ Inv (promise_all schedule tasks s).2.
Proof.
  revert tasks s. induction schedule as [|i schedule IH]; intros tasks s Hall Hs.
  - cbn [promise_all]. destruct (settled tasks) as [outcome|] eqn:Hset.
    + split; [by eapply settled_ends | done].
    + by apply (mapM_run_ends Inv).
  - cbn [promise_all]. destruct (settled tasks) as [outcome|] eqn:Hset.
    + split; [by eapply settled_ends | done].
    + destruct (resume_ends Inv i tasks Φs s Hall Hs) as [Hall' Hs'].
      destruct (resume i tasks s) as [tasks' s']. by apply IH.
Qed.

Lemma settled_length {A} (tasks : list (Task S A)) results :
  settled tasks = Some (Ret results) → length results = length tasks.
Proof.
  revert results. induction tasks as [|t tasks IH]; intros results.
  - by intros [= <-].
  - cbn [settled]. destruct t as [[a|e|]|effect next]; try done.
    + destruct (settled tasks) as [[rest| |]|]; intros [= <-].
      simpl. f_equal. by apply IH.
    + by destruct (settled tasks) as [[rest| |]|].
Qed.

Lemma resume_length {A} i (tasks : list (Task S A)) s :
  length (resume i tasks s).1 = length tasks.
Proof.
  unfold resume. destruct (tasks !! i) as [[o|effect next]|]; [done| |done].
  simpl. apply length_insert.
Qed.

Lemma promise_all_length {A} schedule (tasks : list (Task S A)) s results s' :
  promise_all schedule tasks s = (Ret results, s') →
  length results = length tasks.
Proof.
  revert tasks s. induction schedule as [|i schedule IH]; intros tasks s.
  - cbn [promise_all]. destruct (settled tasks) as [outcome|] eqn:Hset.
    + intros [= -> _]. by apply settled_length.
    + apply mapM_length.
  - cbn [promise_all]. destruct (settled tasks) as [outcome|] eqn:Hset.
    + intros [= -> _]. by apply settled_length.
    + pose proof (resume_length i tasks s) as Hlen.
      destruct (resume i tasks s) as [tasks' s1]. intros H.
      apply IH in H. simpl in Hlen. congruence.
Qed.

(** Running alone. *)
Lemma runs_as_ret {A} (a : A) : runs_as (S := S) (mret a) (mret a).
Proof. done. Qed.

Lemma runs_as_await {A} (m : M S A) : runs_as (await m) m.
Proof. intros s. cbn [await run_task]. by destruct (m s). Qed.

Lemma runs_as_bind {A B} (t : Task S A) (f : A → Task S B) m g :
  runs_as t m → (∀ a, runs_as (f a) (g a)) → runs_as (t ≫= f) (m ≫= g).
Proof.
  intros Ht Hf s. unfold runs_as in Ht. unfold mbind at 2. unfold M_bind.
  rewrite <- Ht. clear Ht. revert s.
  induction t as [o|effect next IH]; intros s.
  - destruct o as [a|e|]; [apply Hf | done | done].
  - cbn [run_task]. apply IH.
Qed.

Lemma runs_as_fmap {A B} (t : Task S A) (f : A → B) m :
  runs_as t m → runs_as (f <$> t) (f <$> m).
Proof.
  intros Ht s. unfold runs_as in Ht. unfold fmap at 2. unfold M_fmap.
  rewrite <- Ht. clear Ht. revert s.
  induction t as [o|effect next IH]; intros s.
  - by destruct o as [a|e|].
  - cbn [run_task]. apply IH.
Qed.

Lemma runs_as_try {A} (t : Task S A) h m k :
  runs_as t m → (∀ e, runs_as (h e) (k e)) →
  runs_as (task_try t h) (try_catch m k).
Proof.
  intros Ht Hh s. unfold runs_as in Ht. unfold try_catch.
  rewrite <- Ht. clear Ht. revert s.
  induction t as [o|effect next IH]; intros s.
  - destruct o as [a|e|]; [done | apply Hh | done].
  - cbn [run_task]. apply IH.
Qed.

Lemma runs_as_ext {A} (t : Task S A) m m' :
  runs_as t m → (∀ s, m s = m' s) → runs_as t m'.
Proof. intros Ht Hm s. by rewrite Ht. Qed.

Lemma runs_as_for_each {A B} (body_t : B → A → Task S B) body l acc :
  (∀ acc x, runs_as (body_t acc x) (body acc x)) →
  runs_as (for_each_task body_t l acc) (for_each body l acc).
Proof.
  intros Hbody. revert acc. induction l as [|x l IH]; intros acc; [done|].
  cbn [for_each_task for_each]. by apply runs_as_bind.
Qed.
End tasks.

(** ** A traversal that runs alone is the sequential traversal *)

Lemma on_graph_bind {A B} (m : M KnowledgeGraph A) (f : A → M KnowledgeGraph B) w :
  on_graph (m ≫= f) w = (on_graph m ≫= λ a, on_graph (f a)) w.
Proof.
  unfold on_graph, mbind, M_bind.
  by destruct (m (knowledgeGraph w)) as [[a|e|] g].
Qed.

Lemma on_graph_try {A} (m : M KnowledgeGraph A) h w :
  on_graph (try_catch m h) w
  = try_catch (on_graph m) (λ e, on_graph (h e)) w.
Proof.
  unfold on_graph, try_catch.
  by destruct (m (knowledgeGraph w)) as [[a|e|] g].
Qed.

Lemma on_graph_fmap {A B} (f : A → B) (m : M KnowledgeGraph A) w :
  on_graph (f <$> m) w = (f <$> on_graph m) w.
Proof.
  unfold on_graph, fmap, M_fmap.
  by destruct (m (knowledgeGraph w)) as [[a|e|] g].
Qed.

Lemma on_graph_ret {A} (a : A) w : on_graph (mret a) w = (Ret a, w).
Proof. by destruct w. Qed.

Lemma runs_as_getEntity id context :
  runs_as (getEntity_task id context) (on_storage (getEntity id context)).
Proof.
  intros [sm g]. unfold getEntity_task, on_storage.
  cbn [mbind Task_bind task_bind await run_task storageManager knowledgeGraph
       fst snd].
  rewrite getEntity_miss_getEntity. unfold mbind, M_bind, get_state, mret, M_ret.
  cbn [fst snd storageManager knowledgeGraph task_bind].
  destruct (omap_get id (entityCache sm)) as [e|]; [done|].
  cbn [Task_ret mret await run_task storageManager knowledgeGraph].
  by destruct (getEntity_miss id context sm).
Qed.

Lemma getRelationship_miss_getRelationship id g :
  getRelationship id g =
  match omap_get id (relationshipCache g) with
  | Some r => (Ret r, g)
  | None => getRelationship_miss id g
  end.
Proof.
  unfold getRelationship, getRelationship_miss, mbind, M_bind, get_state,
    mret, M_ret.
  by destruct (omap_get id (relationshipCache g)).
Qed.

Lemma runs_as_getRelationship id :
  runs_as (getRelationship_task id) (on_graph (getRelationship id)).
Proof.
  intros [sm g]. unfold getRelationship_task, on_graph.
  cbn [mbind Task_bind task_bind await run_task storageManager knowledgeGraph
       fst snd].
  rewrite getRelationship_miss_getRelationship.
  unfold mbind, M_bind, get_state, mret, M_ret.
  cbn [fst snd storageManager knowledgeGraph task_bind].
  destruct (omap_get id (relationshipCache g)) as [r|]; [done|].
  cbn [Task_ret mret await run_task storageManager knowledgeGraph].
  by destruct (getRelationship_miss id g).
Qed.

Lemma runs_as_collect_relationships type ids :
  runs_as (collect_relationships_task type ids)
          (on_graph (collect_relationships type ids)).
Proof.
  induction ids as [|id ids IH].
  - intros w. symmetry. apply on_graph_ret.
  - cbn [collect_relationships_task collect_relationships].
    eapply runs_as_ext; [|intros w; symmetry; apply on_graph_bind].
    apply runs_as_bind.
    + eapply runs_as_ext; [|intros w; symmetry; apply on_graph_try].
      apply runs_as_try.
      * eapply runs_as_ext; [|intros w; symmetry; apply on_graph_fmap].
        apply runs_as_fmap, runs_as_getRelationship.
      * intros e w. symmetry. apply on_graph_ret.
    + intros r.
      eapply runs_as_ext; [|intros w; symmetry; apply on_graph_bind].
      apply runs_as_bind; [done|].
      intros found w. symmetry. apply on_graph_ret.
Qed.

Lemma runs_as_listRelationships entityId type direction limit offset :
  runs_as (listRelationships_task entityId type direction limit offset)
          (on_graph (listRelationships entityId type direction limit offset)).
Proof.
  unfold listRelationships_task, listRelationships.
  eapply runs_as_ext; [|intros w; symmetry; apply on_graph_bind].
  apply runs_as_bind; [apply runs_as_await|]. intros g.
  eapply runs_as_ext; [|intros w; symmetry; apply on_graph_bind].
  apply runs_as_bind.
  { destruct (bool_decide (direction = "outgoing")
              || bool_decide (direction = "both"));
      [|intros w; symmetry; apply on_graph_ret].
    destruct (source_index g !! entityId);
      [apply runs_as_collect_relationships
      |intros w; symmetry; apply on_graph_ret]. }
  intros outgoing.
  eapply runs_as_ext; [|intros w; symmetry; apply on_graph_bind].
  apply runs_as_bind; [apply runs_as_await|]. intros g'.
  eapply runs_as_ext; [|intros w; symmetry; apply on_graph_bind].
  apply runs_as_bind.
  { destruct (bool_decide (direction = "incoming")
              || bool_decide (direction = "both"));
      [|intros w; symmetry; apply on_graph_ret].
    destruct (target_index g' !! entityId);
      [apply runs_as_collect_relationships
      |intros w; symmetry; apply on_graph_ret]. }
  intros incoming w. symmetry. apply on_graph_ret.
Qed.

Lemma runs_as_visit_relationship types entityId depth acc relationship :
  runs_as (visit_relationship_task types entityId depth acc relationship)
          (visit_relationship types entityId depth acc relationship).
Proof.
  destruct acc as [[queue visited] result].
  unfold visit_relationship_task, visit_relationship.
  destruct (match types with
            | Some types => negb (bool_decide (rel_type relationship ∈ types))
            | None => false
            end); [apply runs_as_ret|].
  set (res1 := if existsb _ _ then result else _).
  set (c := if decide (sourceId relationship = entityId)
            then targetId relationship else sourceId relationship).
  destruct (decide (c ∈ visited)); [apply runs_as_ret|].
  apply runs_as_bind.
  - apply runs_as_try; [|intros _; apply runs_as_ret].
    apply runs_as_fmap, runs_as_getEntity.
  - intros [e|]; [|apply runs_as_ret]. cbn [paths].
    destruct (paths res1 !! entityId); apply runs_as_ret.
Qed.

Lemma runs_as__traverseBFS fuel types maxDepth direction queue visited result :
  runs_as (_traverseBFS_task fuel types maxDepth direction queue visited result)
          (_traverseBFS fuel types maxDepth direction queue visited result).
Proof.
  revert queue visited result.
  induction fuel as [|fuel IH]; intros queue visited result.
  - by destruct queue as [|[u d] queue].
  - destruct queue as [|[u d] queue]; [done|].
    cbn [_traverseBFS_task _traverseBFS]. case_decide; [apply IH|].
    apply runs_as_bind; [apply runs_as_listRelationships|]. intros page.
    apply runs_as_bind.
    + apply runs_as_for_each. intros acc r. apply runs_as_visit_relationship.
    + intros [[q v] r]. apply IH.
Qed.

(** Run alone, the traversal that [findCommonConnections] starts is
    [traverseGraph]. *)
Lemma runs_as_traverseGraph fuel start types maxDepth direction :
  runs_as (traverseGraph_task fuel start types maxDepth direction)
          (traverseGraph fuel start types maxDepth direction).
Proof.
  unfold traverseGraph_task, traverseGraph.
  apply runs_as_bind; [apply runs_as_getEntity|]. intros e.
  apply runs_as_bind; [apply runs_as__traverseBFS|]. by intros [v r].
Qed.

(** ** Traversals that run together in a coherent world *)

Lemma beside_refl w : world_ok w → beside w w.
Proof. intros H. split; [done | apply same_view_refl]. Qed.

Lemma beside_eta w w' :
  beside w w' → beside w (mkWorld (storageManager w') (knowledgeGraph w')).
Proof. by destruct w'. Qed.

Lemma graph_ok_put g id r :
  graph_ok g → relFiles g !! id = Some r → graph_ok (rel_cache_put r g).
Proof.
  intros [Hn Hc] Hf. split; [done|]. apply Forall_forall. intros p Hp.
  apply rel_cache_put_entries in Hp as [->|Hp].
  - simpl. by rewrite (Hn _ _ Hf).
  - by eapply Forall_forall in Hc.
Qed.

Lemma beside_cache_put w w' id e :
  beside w w' →
  find_entity (files (storageManager w')) id None = Some e →
  beside w (mkWorld (cache_put e (storageManager w')) (knowledgeGraph w')).
Proof.
  intros [[Hs Hg] (Hf & Hr & Hsi & Hti)] Hfind. split.
  - split; [by eapply entity_store_ok_put | done].
  - by split_and!.
Qed.

Lemma beside_rel_cache_put w w' id r :
  beside w w' →
  relFiles (knowledgeGraph w') !! id = Some r →
  beside w (mkWorld (storageManager w') (rel_cache_put r (knowledgeGraph w'))).
Proof.
  intros [[Hs Hg] (Hf & Hr & Hsi & Hti)] Hfind. split.
  - split; [done | by eapply graph_ok_put].
  - by split_and!.
Qed.

Lemma getRelationship_miss_eq id g :
  getRelationship_miss id g =
  match relFiles g !! id with
  | Some r => (Ret r, rel_cache_put r g)
  | None => (Throw (mkError ("Relationship not found: " ++ id) None), g)
  end.
Proof.
  unfold getRelationship_miss, _cacheRelationship. unfold_monad.
  by destruct (relFiles g !! id).
Qed.

Section beside.
Context (w : World).

(** Beside the traversals of a coherent world a lookup returns what the
    files of the world hold. *)
Lemma ends_getEntity id :
  ends_in (beside w)
    (eq (match world_resolve w id with
         | Some e => Ret e
         | None => Throw (mkError ("Entity not found: " ++ id) None)
         end))
    (getEntity_task id None).
Proof.
  unfold getEntity_task. apply ends_waiting.
  { intros w' Hw'. by apply beside_eta. }
  intros w' Hw'. destruct Hw' as [[Hs Hg] Hv].
  pose proof (same_view_resolve _ _ Hv) as Hres.
  unfold on_storage, mbind, M_bind, get_state, mret, M_ret.
  cbn [fst snd task_bind].
  destruct (omap_get id (entityCache (storageManager w'))) as [e|] eqn:Hget.
  - constructor.
    pose proof (lookup_entity_ok None _ id Hs) as Hl.
    unfold lookup_entity in Hl. rewrite Hget in Hl.
    rewrite <- Hres. unfold world_resolve. by rewrite <- Hl.
  - apply ends_in_await. intros w2 Hw2.
    pose proof (same_view_resolve _ _ (proj2 Hw2)) as Hres2.
    unfold on_storage. rewrite getEntity_miss_eq.
    rewrite <- Hres2. unfold world_resolve.
    destruct (find_entity (files (storageManager w2)) id None) as [e|] eqn:Hf.
    + split; [|done]. by eapply beside_cache_put.
    + split; [|done]. by apply beside_eta.
Qed.

Lemma ends_try_getEntity id :
  ends_in (beside w) (eq (Ret (world_resolve w id)))
    (task_try (Some <$> getEntity_task id None) (λ _, mret None)).
Proof.
  eapply ends_in_try.
  - eapply ends_in_fmap with
      (Φ := eq (match world_resolve w id with
                | Some e => Ret (Some e)
                | None => Throw (mkError ("Entity not found: " ++ id) None)
                end)); [apply ends_getEntity|..].
    + intros e He. by destruct (world_resolve w id); simplify_eq.
    + intros e He. by destruct (world_resolve w id); simplify_eq.
    + intros He. by destruct (world_resolve w id).
  - intros a Ha. by destruct (world_resolve w id); simplify_eq.
  - intros e He. constructor. by destruct (world_resolve w id); simplify_eq.
  - intros He. by destruct (world_resolve w id).
Qed.

Lemma ends_getRelationship id :
  ends_in (beside w)
    (eq (match relFiles (knowledgeGraph w) !! id with
         | Some r => Ret r
         | None => Throw (mkError ("Relationship not found: " ++ id) None)
         end))
    (getRelationship_task id).
Proof.
  unfold getRelationship_task. apply ends_waiting.
  { intros w' Hw'. by apply beside_eta. }
  intros w' Hw'. destruct Hw' as [[Hs Hg] Hv].
  destruct Hv as (Hf & Hr & Hsi & Hti).
  unfold on_graph, mbind, M_bind, get_state, mret, M_ret.
  cbn [fst snd task_bind].
  destruct (omap_get id (relationshipCache (knowledgeGraph w'))) as [r|]
    eqn:Hget.
  - constructor.
    pose proof (lookup_relationship_ok _ id Hg) as Hl.
    unfold lookup_relationship in Hl. rewrite Hget in Hl.
    by rewrite <- Hr, <- Hl.
  - apply ends_in_await. intros w2 Hw2.
    destruct (proj2 Hw2) as (_ & Hr2 & _).
    unfold on_graph. rewrite getRelationship_miss_eq. rewrite <- Hr2.
    destruct (relFiles (knowledgeGraph w2) !! id) as [r|] eqn:Hfile.
    + split; [|done]. by eapply beside_rel_cache_put.
    + split; [|done]. by apply beside_eta.
Qed.

Lemma ends_try_getRelationship id :
  ends_in (beside w) (eq (Ret (relFiles (knowledgeGraph w) !! id)))
    (task_try (Some <$> getRelationship_task id) (λ _, mret None)).
Proof.
  eapply ends_in_try.
  - eapply ends_in_fmap with
      (Φ := eq (match relFiles (knowledgeGraph w) !! id with
                | Some r => Ret (Some r)
                | None =>
                    Throw (mkError ("Relationship not found: " ++ id) None)
                end)); [apply ends_getRelationship|..].
    + intros e He. by destruct (relFiles _ !! id); simplify_eq.
    + intros e He. by destruct (relFiles _ !! id); simplify_eq.
    + intros He. by destruct (relFiles _ !! id).
  - intros a Ha. by destruct (relFiles _ !! id); simplify_eq.
  - intros e He. constructor. by destruct (relFiles _ !! id); simplify_eq.
  - intros He. by destruct (relFiles _ !! id).
Qed.

Lemma ends_collect_relationships type ids :
  ends_in (beside w) (eq (Ret (collected (knowledgeGraph w) type ids)))
    (collect_relationships_task type ids).
Proof.
  unfold collected. induction ids as [|id ids IH].
  - by constructor.
  - cbn [collect_relationships_task].
    eapply ends_in_bind; [apply ends_try_getRelationship|..]; try done.
    intros r [= <-].
    eapply ends_in_bind; [apply IH|..]; try done.
    intros found [= <-]. constructor. f_equal.
    cbn [omap list_omap].
    destruct (relFiles (knowledgeGraph w) !! id) as [r|]; [|done].
    rewrite filter_cons. unfold type_matches.
    by destruct (negb (truthy (default "" type))
                 || bool_decide (rel_type r = default "" type)).
Qed.

Lemma ends_listRelationships entityId type direction limit offset :
  ends_in (beside w)
    (eq (Ret (mkRelationshipPage
                (slice offset limit
                       (listed (knowledgeGraph w) entityId type direction))
                (length (listed (knowledgeGraph w) entityId type direction))
                limit offset)))
    (listRelationships_task entityId type direction limit offset).
Proof.
  unfold listRelationships_task, listed.
  eapply ends_in_bind with
    (Ψ := λ o, ∃ g, o = Ret g
                    ∧ source_index g = source_index (knowledgeGraph w)
                    ∧ target_index g = target_index (knowledgeGraph w)).
  { apply ends_in_await. intros w' Hw'. split; [by apply beside_eta|].
    destruct Hw' as [_ (_ & _ & Hsi & Hti)]. simpl. eauto. }
  2: { by intros e (g & ? & _). }
  2: { by intros (g & ? & _). }
  intros g (g0 & [= <-] & Hsi & _). rewrite Hsi.
  eapply ends_in_bind with
    (Ψ := eq (Ret (if bool_decide (direction = "outgoing")
                      || bool_decide (direction = "both")
                   then collected (knowledgeGraph w) type
                          (default [] (source_index (knowledgeGraph w)
                                       !! entityId))
                   else []))); try done.
  { destruct (bool_decide (direction = "outgoing")
              || bool_decide (direction = "both")); [|by constructor].
    destruct (source_index (knowledgeGraph w) !! entityId);
      [apply ends_collect_relationships | by constructor]. }
  intros outgoing [= <-].
  eapply ends_in_bind with
    (Ψ := λ o, ∃ g, o = Ret g
                    ∧ source_index g = source_index (knowledgeGraph w)
                    ∧ target_index g = target_index (knowledgeGraph w)).
  { apply ends_in_await. intros w' Hw'. split; [by apply beside_eta|].
    destruct Hw' as [_ (_ & _ & Hsi' & Hti)]. simpl. eauto. }
  2: { by intros e (g' & ? & _). }
  2: { by intros (g' & ? & _). }
  intros g' (g1 & [= <-] & _ & Hti). rewrite Hti.
  eapply ends_in_bind with
    (Ψ := eq (Ret (if bool_decide (direction = "incoming")
                      || bool_decide (direction = "both")
                   then collected (knowledgeGraph w) type
                          (default [] (target_index (knowledgeGraph w)
                                       !! entityId))
                   else []))); try done.
  { destruct (bool_decide (direction = "incoming")
              || bool_decide (direction = "both")); [|by constructor].
    destruct (target_index (knowledgeGraph w) !! entityId);
      [apply ends_collect_relationships | by constructor]. }
  intros incoming [= <-]. by constructor.
Qed.

Lemma ends_visit_relationship types u d acc r :
  ends_in (beside w)
    (eq (Ret (visit_pure (world_resolve w) types u d acc r)))
    (visit_relationship_task types u d acc r).
Proof.
  destruct acc as [[q vis] res].
  unfold visit_relationship_task, visit_pure.
  destruct (match types with
            | Some types => negb (bool_decide (rel_type r ∈ types))
            | None => false
            end); [by constructor|].
  set (res1 := if existsb _ _ then res else _).
  set (c := if decide (sourceId r = u) then targetId r else sourceId r).
  destruct (decide (c ∈ vis)); [by constructor|].
  eapply ends_in_bind; [apply ends_try_getEntity|..]; try done.
  intros resolved [= <-].
  destruct (world_resolve w c); [|by constructor]. cbn [paths].
  destruct (paths res1 !! u); by constructor.
Qed.

Lemma ends_for_each_visit types u d rels acc :
  ends_in (beside w)
    (eq (Ret (foldl (visit_pure (world_resolve w) types u d) acc rels)))
    (for_each_task (visit_relationship_task types u d) rels acc).
Proof.
  revert acc. induction rels as [|r rels IH]; intros acc; [by constructor|].
  cbn [for_each_task foldl].
  eapply ends_in_bind; [apply ends_visit_relationship|..]; try done.
  intros acc' [= <-]. apply IH.
Qed.

Lemma ends__traverseBFS fuel types maxDepth direction q vis res :
  ends_in (beside w)
    (eq (match bfs_pure (world_resolve w) (world_listing w direction)
                 types maxDepth fuel q vis res with
         | Some r => Ret r
         | None => Timeout
         end))
    (_traverseBFS_task fuel types maxDepth direction q vis res).
Proof.
  revert q vis res. induction fuel as [|fuel IH]; intros q vis res.
  - destruct q as [|[u d] q]; by constructor.
  - destruct q as [|[u d] q]; [by constructor|].
    cbn [_traverseBFS_task bfs_pure]. case_decide; [apply IH|].
    eapply ends_in_bind; [apply ends_listRelationships|..]; try done.
    intros page [= <-]. cbn [page_relationships].
    change (slice 0 1000 (listed (knowledgeGraph w) u None direction))
      with (world_listing w direction u).
    eapply ends_in_bind; [apply ends_for_each_visit|..]; try done.
    intros [[q' vis'] res'] [= Heq]. rewrite Heq. apply IH.
Qed.

(** Beside the other traversals of a coherent world, a traversal ends as
    it does alone. *)
Lemma ends_traverseGraph fuel start types maxDepth direction :
  world_ok w →
  ends_in (beside w)
    (eq (traverseGraph fuel start types maxDepth direction w).1)
    (traverseGraph_task fuel start types maxDepth direction).
Proof.
  intros Hok.
  destruct (traverseGraph_ok fuel start types maxDepth direction w Hok)
    as (w' & -> & _). cbn [fst].
  unfold traverseGraph_task.
  eapply ends_in_bind; [apply ends_getEntity|..].
  - intros e He. destruct (world_resolve w start) as [e'|]; [|done].
    injection He as <-.
    eapply ends_in_bind; [apply ends__traverseBFS|..].
    + intros [v r] Hbfs.
      destruct (bfs_pure _ _ _ _ _ _ _ _) as [[v' r']|]; [|done].
      injection Hbfs as <- <-. by constructor.
    + intros e Hbfs. by destruct (bfs_pure _ _ _ _ _ _ _ _) as [[v' r']|].
    + intros Hbfs. by destruct (bfs_pure _ _ _ _ _ _ _ _) as [[v' r']|].
  - intros e He. destruct (world_resolve w start); by simplify_eq.
  - intros He. destruct (world_resolve w start); by simplify_eq.
Qed.
End beside.

(** ** Common connections *)

Lemma all_end_returns {A} (results : list A) outcome :
  all_end (eq <$> (Ret <$> results)) outcome → outcome = Ret results.
Proof.
  destruct outcome as [found|e|]; simpl.
  - intros H. f_equal. revert found H.
    induction results as [|a results IH]; intros found H.
    + by apply Forall2_nil_inv_l in H.
    + rewrite !fmap_cons in H.
      apply Forall2_cons_inv_l in H as (b & found' & [= ->] & H & ->).
      f_equal. by apply IH.
  - rewrite Exists_exists. intros (Φ & HΦ & He).
    apply list_elem_of_fmap in HΦ as (o & -> & Ho).
    apply list_elem_of_fmap in Ho as (a & -> & _). done.
  - rewrite Exists_exists. intros (Φ & HΦ & He).
    apply list_elem_of_fmap in HΦ as (o & -> & Ho).
    apply list_elem_of_fmap in Ho as (a & -> & _). done.
Qed.

(** In a coherent world a traversal with enough fuel returns whenever its
    start entity resolves, and every entity it returns is the one that the
    files hold under its id. *)
Lemma traverse_from_total fuel options id w :
  world_ok w → is_Some (world_resolve w id) → enough_fuel w ≤ fuel →
  ∃ t, (traverse_from fuel options id w).1 = Ret t
       ∧ Forall (λ e, world_resolve w (ent_id e) = Some e) (entities t).
Proof.
  intros [Hs Hg] [e0 Hres] Hfuel. unfold traverse_from.
  pose proof (traverseGraph_safe
                (λ sm, entity_store_ok None sm
                       ∧ files sm = files (storageManager w))
                (λ e, world_resolve w (ent_id e) = Some e)
                (endpoints (knowledgeGraph w))) as Hsafe.
  specialize (Hsafe
    (λ sm id' '(conj H1 H2),
       conj (after_lookup_store_ok sm id' None H1)
            (eq_trans (after_lookup_files sm id' None) H2))).
  assert (HQ : ∀ sm id' e,
            entity_store_ok None sm ∧ files sm = files (storageManager w) →
            lookup_entity sm id' None = Some e →
            world_resolve w (ent_id e) = Some e).
  { intros sm id' e [Hok Hf] Hl.
    rewrite (lookup_entity_ok _ _ _ Hok) in Hl.
    pose proof (find_entity_id _ _ _ _ (proj1 Hok) Hl) as Hid.
    unfold world_resolve. by rewrite Hid, <- Hf. }
  specialize (Hsafe HQ fuel id (co_relationshipTypes options)
                (co_maxDepth options) (co_direction options) w
                (conj Hs eq_refl) (rels_within_endpoints _) Hfuel).
  rewrite (lookup_entity_ok _ _ _ Hs) in Hsafe.
  fold (world_resolve w id) in Hsafe. rewrite Hres in Hsafe.
  destruct Hsafe as (res & w' & -> & _ & _ & HQres). by exists res.
Qed.

Lemma sorted_by_mean traversals (es : list Entity) :
  StronglySorted
    (λ a b, (mean_distance traversals (ent_id a)
             <= mean_distance traversals (ent_id b))%Q)
    (sort_by (λ a b : Entity * Q, Qle_bool a.2 b.2)
       ((λ entity, (entity, avgDistance traversals entity)) <$> es)).*1.
Proof.
  apply StronglySorted_fmap.
  apply (StronglySorted_Forall_impl (λ a b, (a.2 <= b.2)%Q) _
           (λ p, (p.2 == mean_distance traversals (ent_id p.1))%Q)).
  - intros a b Ha Hb Hab. simpl. by rewrite <- Ha, <- Hb.
  - apply Forall_forall. intros p. rewrite elem_of_sort_by.
    intros (e & -> & _)%list_elem_of_fmap. apply avgDistance_mean.
  - apply sort_by_sorted.
    + intros a b. apply Qle_bool_imp_le.
    + intros a b Hf. destruct (Qlt_le_dec b.2 a.2) as [Hlt|Hle].
      * by apply Qlt_le_weak.
      * apply Qle_bool_iff in Hle. congruence.
    + intros a b c. apply Qle_trans.
Qed.

Lemma sorted_by_mean_Permutation traversals (es : list Entity) :
  (sort_by (λ a b : Entity * Q, Qle_bool a.2 b.2)
     ((λ entity, (entity, avgDistance traversals entity)) <$> es)).*1 ≡ₚ es.
Proof.
  rewrite sort_by_Permutation, <- list_fmap_compose.
  by rewrite list_fmap_id.
Qed.

(** In a coherent world in which the given ids resolve, the call returns,
    whatever the order in which the steps interleave, and what it returns
    is made of the traversals that run from each id on their own. *)
Lemma findCommonConnections_coherent s1 s2 fuel ids options w :
  2 ≤ length ids → world_ok w →
  Forall (λ id, is_Some (world_resolve w id)) ids →
  enough_fuel w ≤ fuel →
  let ts := (λ id, traversal_of (traverse_from fuel options id w).1) <$> ids in
  let es := omap (world_resolve w) (commonEntityIds ids ts) in
  ∃ w',
    findCommonConnections s1 s2 fuel ids options w
    = (Ret (take (co_limit options)
              (sort_by (λ a b : Entity * Q, Qle_bool a.2 b.2)
                 ((λ entity, (entity, avgDistance ts entity)) <$> es))).*1, w')
    ∧ world_ok w'
    ∧ ent_id <$> es = commonEntityIds ids ts
    ∧ Forall (λ e, world_resolve w (ent_id e) = Some e) es.
Proof.
  intros Hlen Hok Hres Hfuel ts es.
  unfold findCommonConnections. rewrite decide_False by lia.
  change (λ entityId, traverseGraph_task fuel entityId
                        (co_relationshipTypes options)
                        (co_maxDepth options) (co_direction options))
    with (traverse_task_from fuel options).
  assert (Hends : Forall2 (λ t Φ, ends_in (beside w) Φ t)
                    (traverse_task_from fuel options <$> ids)
                    (eq <$> (Ret <$> ts))).
  { unfold ts. rewrite <- !list_fmap_compose.
    apply Forall2_fmap, Forall_Forall2_diag, Forall_forall. intros id Hid.
    simpl. eapply Forall_forall in Hres; [|exact Hid].
    destruct (traverse_from_total fuel options id w Hok Hres Hfuel)
      as (t & Ht & _).
    rewrite Ht. simpl. rewrite <- Ht. by apply ends_traverseGraph. }
  assert (Hentities : ∀ t, t ∈ ts →
            Forall (λ e, world_resolve w (ent_id e) = Some e) (entities t)).
  { intros t (id & -> & Hid)%list_elem_of_fmap.
    eapply Forall_forall in Hres; [|exact Hid].
    destruct (traverse_from_total fuel options id w Hok Hres Hfuel)
      as (t & Ht & Hall). by rewrite Ht. }
  destruct (promise_all_ends (beside w) s1 _ _ w Hends (beside_refl w Hok))
    as [Hout1 Hw1].
  unfold mbind at 1. unfold M_bind at 1.
  destruct (promise_all s1 _ w) as [o1 w1]. simpl in Hout1, Hw1.
  apply all_end_returns in Hout1 as ->.
  assert (Hne : ts ≠ []).
  { unfold ts. destruct ids as [|? [|? ?]]; simpl in *; [lia | lia | done]. }
  set (common := commonEntityIds ids ts).
  assert (Hcommon : ∀ id, id ∈ common →
            ∃ e, world_resolve w id = Some e ∧ ent_id e = id).
  { intros id Hid. apply (commonEntityIds_spec _ _ _ Hne) in Hid as [_ Hall].
    destruct ts as [|t ts']; [done|].
    pose proof (Hall t ltac:(left)) as Hin.
    apply list_elem_of_fmap in Hin as (e & -> & He).
    pose proof (Hentities t ltac:(left)) as HQ.
    eapply Forall_forall in HQ; [|exact He]. by exists e. }
  assert (Hes : Ret <$> es
                = (λ id, match world_resolve w id with
                         | Some e => Ret e
                         | None => Throw (mkError ("Entity not found: "
                                                   ++ id) None)
                         end) <$> common).
  { unfold es. fold common. clear -Hcommon.
    induction common as [|id common IH]; [done|].
    cbn [omap list_omap]. rewrite fmap_cons.
    destruct (Hcommon id ltac:(left)) as (e & -> & _).
    rewrite fmap_cons. f_equal. apply IH. intros id' Hid'.
    apply Hcommon. by right. }
  assert (Hends2 : Forall2 (λ t Φ, ends_in (beside w) Φ t)
                     ((λ id, getEntity_task id None) <$> common)
                     (eq <$> (Ret <$> es))).
  { rewrite Hes, <- list_fmap_compose.
    apply Forall2_fmap, Forall_Forall2_diag, Forall_forall. intros id _.
    apply ends_getEntity. }
  destruct (promise_all_ends (beside w) s2 _ _ w1 Hends2 Hw1)
    as [Hout2 Hw2].
  unfold mbind at 1. unfold M_bind at 1.
  destruct (promise_all s2 _ w1) as [o2 w2]. simpl in Hout2, Hw2.
  apply all_end_returns in Hout2 as ->.
  unfold mret, M_ret. exists w2. split; [reflexivity|].
  split; [apply Hw2|]. split.
  - unfold es. fold common. clear -Hcommon.
    induction common as [|id common IH]; [done|].
    cbn [omap list_omap].
    destruct (Hcommon id ltac:(left)) as (e & -> & Hid).
    rewrite fmap_cons, Hid. f_equal. apply IH. intros id' Hid'.
    apply Hcommon. by right.
  - apply Forall_forall. intros e He. unfold es in He.
    apply list_elem_of_omap in He as (id & Hid & He).
    destruct (Hcommon id Hid) as (e' & He' & Hid').
    rewrite He' in He. injection He as <-. by rewrite Hid'.
Qed.

(** C9. [findCommonConnections] throws when fewer than two ids are given.
    Otherwise it starts one traversal from each id and lets them run
    together.  Whatever the order in which their steps interleave: when the
    call returns, every traversal has returned, the ids it looks up are,
    once each, those that every traversal lists and that are not among the
    given ids, and it returns the first [limit] of the entities found for
    them, in ascending order of the average over the traversals of the
    recorded distance, a missing distance counting for 0.  In a coherent
    world in which every given id resolves, the call returns in every
    order of the steps, and returns the same in each; the traversals are
    those that [traverseGraph] makes from each id on its own, and the
    entities returned are the entities that every one of them reached.  On
    the chain A - B - C - D the common connections of A and D are B and C;
    where a file is not named after the id of its entity, that entity has no
    recorded distance and is ranked first. *)
Theorem findCommonConnections_spec :
  (∀ s1 s2 fuel entityIds options w,
     length entityIds < 2 →
     findCommonConnections s1 s2 fuel entityIds options w
     = (Throw (mkError "At least two entity IDs are required" None), w))
  ∧ (∀ s1 s2 fuel entityIds options w out w',
       2 ≤ length entityIds →
       findCommonConnections s1 s2 fuel entityIds options w = (Ret out, w') →
       ∃ traversals w1 common found ranked,
         promise_all s1 (traverse_task_from fuel options <$> entityIds) w
         = (Ret traversals, w1)
         ∧ length traversals = length entityIds
         ∧ NoDup common
         ∧ (∀ id, id ∈ common ↔
              (id ∉ entityIds)
              ∧ ∀ t, t ∈ traversals → id ∈ ent_id <$> entities t)
         ∧ promise_all s2 ((λ id, getEntity_task id None) <$> common) w1
           = (Ret found, w')
         ∧ ranked ≡ₚ found
         ∧ StronglySorted
             (λ a b, (mean_distance traversals (ent_id a)
                      <= mean_distance traversals (ent_id b))%Q) ranked
         ∧ out = take (co_limit options) ranked)
  ∧ (∀ s1 s2 fuel entityIds options w,
       2 ≤ length entityIds → world_ok w →
       Forall (λ id, is_Some (world_resolve w id)) entityIds →
       enough_fuel w ≤ fuel →
       ∃ out w',
         findCommonConnections s1 s2 fuel entityIds options w = (Ret out, w')
         ∧ world_ok w'
         ∧ common_ranking entityIds (co_limit options)
             ((λ id, traversal_of (traverse_from fuel options id w).1)
                <$> entityIds) out
         ∧ Forall (λ e, world_resolve w (ent_id e) = Some e) out
         ∧ ∀ s1' s2',
             (findCommonConnections s1' s2' fuel entityIds options w).1
             = Ret out)
  ∧ (findCommonConnections [] [] 6 ["A"; "D"] default_ConnectionOptions
       chain_world).1 = Ret [stored_node "B"; stored_node "C"]
  ∧ (let traversal :=
       traversal_of (traverseGraph 6 "A" None 2 "both" misfiled_world).1 in
     ent_id <$> entities traversal = ["A"; "C"; "Z"; "D"]
     ∧ distance <$> paths traversal !! "B" = Some 1
     ∧ distance <$> paths traversal !! "C" = Some 1
     ∧ paths traversal !! "Z" = None)
  ∧ (findCommonConnections [] [] 6 ["A"; "D"] default_ConnectionOptions
       misfiled_world).1 = Ret [stored_node "Z"; stored_node "C"]
  ∧ (findCommonConnections [1; 0; 0; 1; 1; 1; 0; 1; 0; 0; 1] [1; 0] 6
       ["A"; "D"] default_ConnectionOptions misfiled_world).1
    = Ret [stored_node "Z"; stored_node "C"].
Proof.
  split_and!.
  - intros s1 s2 fuel ids options w Hlen. unfold findCommonConnections.
    by rewrite decide_True.
  - intros s1 s2 fuel ids options w out w' Hlen.
    unfold findCommonConnections. rewrite decide_False by lia.
    change (λ entityId, traverseGraph_task fuel entityId
                          (co_relationshipTypes options)
                          (co_maxDepth options) (co_direction options))
      with (traverse_task_from fuel options).
    unfold mbind at 1. unfold M_bind at 1.
    destruct (promise_all s1 _ w) as [[ts| |] w1] eqn:Hts; try done.
    pose proof (promise_all_length _ _ _ _ _ Hts) as Hlts.
    rewrite length_fmap in Hlts.
    unfold mbind at 1. unfold M_bind at 1.
    destruct (promise_all s2 _ w1) as [[es| |] w2] eqn:Hes; try done.
    unfold mret, M_ret. intros [= <- <-].
    exists ts, w1, (commonEntityIds ids ts), es,
      (sort_by (λ a b : Entity * Q, Qle_bool a.2 b.2)
         ((λ entity, (entity, avgDistance ts entity)) <$> es)).*1.
    split_and!; try done.
    + apply commonEntityIds_NoDup.
    + intros id. apply commonEntityIds_spec. intros ->. simpl in Hlts. lia.
    + apply sorted_by_mean_Permutation.
    + apply sorted_by_mean.
    + by rewrite fmap_take.
  - intros s1 s2 fuel ids options w Hlen Hok Hres Hfuel.
    destruct (findCommonConnections_coherent s1 s2 fuel ids options w
                Hlen Hok Hres Hfuel) as (w' & Heq & Hok' & Hids & Hfiled).
    eexists _, w'. split; [exact Heq|]. split; [exact Hok'|].
    assert (Hne : (λ id, traversal_of (traverse_from fuel options id w).1)
                    <$> ids ≠ []).
    { destruct ids as [|? [|? ?]]; simpl in *; [lia | lia | done]. }
    split_and!.
    + eexists. split_and!; [| |apply sorted_by_mean|by rewrite fmap_take].
      * rewrite sorted_by_mean_Permutation, Hids.
        apply commonEntityIds_NoDup.
      * intros id. rewrite sorted_by_mean_Permutation, Hids.
        by apply commonEntityIds_spec.
    + rewrite fmap_take. apply Forall_take.
      by rewrite sorted_by_mean_Permutation.
    + intros s1' s2'.
      destruct (findCommonConnections_coherent s1' s2' fuel ids options w
                  Hlen Hok Hres Hfuel) as (w'' & -> & _). done.
  - by vm_compute.
  - by vm_compute.
  - by vm_compute.
  - by vm_compute.
Qed.

Lemma findCommonConnections_spec_witness :
  ∃ out w',
    findCommonConnections [1; 0; 1] [0] 6 ["A"; "D"]
      default_ConnectionOptions chain_world = (Ret out, w')
    ∧ world_ok w'
    ∧ common_ranking ["A"; "D"] (co_limit default_ConnectionOptions)
        ((λ id, traversal_of
                  (traverse_from 6 default_ConnectionOptions id chain_world).1)
           <$> ["A"; "D"]) out
    ∧ Forall (λ e, world_resolve chain_world (ent_id e) = Some e) out
    ∧ ∀ s1' s2',
        (findCommonConnections s1' s2' 6 ["A"; "D"]
           default_ConnectionOptions chain_world).1 = Ret out.
Proof.
  apply (proj1 (proj2 (proj2 findCommonConnections_spec)) [1; 0; 1] [0] 6
           ["A"; "D"] default_ConnectionOptions chain_world).
  - simpl. lia.
  - by_decide.
  - by_decide.
  - vm_compute. lia.
Defined.
